(** * hex_py: the Hex game model (game.py) and the MCTS engine (bot.py)

    A shallow embedding of the two core modules and the proofs of the
    properties their specification states.

    Conventions of the embedding:
    - Python [int] is [Z]; Python [float] is the IEEE binary64 type
      [PrimFloat.float]; a list of lists is [list (list _)].
    - Mutating methods return the new object next to their result.
    - [Node] objects live in a store (a list indexed by reference); the
      [parent] links and the [children] dictionaries hold references.
    - What the interpreter and the platform decide (iteration order of a
      [set], [math.exp], [math.log]) is a parameter, class [PyRuntime].
    - The module-level generator behind [random.random()] is threaded as an
      explicit value of type [Random]. *)

From Stdlib Require Import ZArith Lia List Bool PrimFloat Uint63 Permutation.
From stdpp Require Import base option list gmap.

Set Warnings "-inexact-float".
#[local] Open Scope Z_scope.

(** ** Python values shared by both modules *)

(** [range(n)] *)
Definition range (n : Z) : list Z := seqZ 0 n.

(** [m[r][c]] on a list of lists.  Every subscript in the source is
    dominated by a [range] loop or a bounds test, so on a board of the
    declared shape it is within range; outside that range the embedding
    reads the default [d]. *)
Definition get2 {A} (d : A) (m : list (list A)) (r c : Z) : A :=
  nth (Z.to_nat c) (nth (Z.to_nat r) m []) d.

(** [m[r][c] = v] *)
Definition set2 {A} (m : list (list A)) (r c : Z) (v : A) : list (list A) :=
  alter (fun row => <[Z.to_nat c := v]> row) (Z.to_nat r) m.

(** Conversion of an [int] operand in mixed arithmetic. *)
Definition float_of_int (z : Z) : float :=
  if z <? 0 then (- PrimFloat.of_uint63 (Uint63.of_Z (- z)))%float
  else PrimFloat.of_uint63 (Uint63.of_Z z).

(** Exceptions the modelled code can raise, and the outcome of a call.
    [Diverge] is the outcome of a loop of the model that ran out of fuel;
    [Dangling] is a reference that is not in the store, which no Python
    execution produces. *)
Inductive exn := ValueError | IndexError | AttributeError.

Inductive result (A : Type) : Type :=
| Ok (a : A)
| Raise (e : exn)
| Diverge
| Dangling.
Arguments Ok {A} a.
Arguments Raise {A} e.
Arguments Diverge {A}.
Arguments Dangling {A}.

Definition rbind {A B} (x : result A) (k : A -> result B) : result B :=
  match x with
  | Ok a => k a
  | Raise e => Raise e
  | Diverge => Diverge
  | Dangling => Dangling
  end.

Notation "x <- e1 ;; e2" := (rbind e1 (fun x => e2))
  (at level 100, e1 at next level, right associativity).

Definition is_ok {A} (x : result A) : bool :=
  match x with Ok _ => true | _ => false end.

(** What the Python runtime fixes and the source does not: the order in
    which a [set] of coordinate pairs is iterated, given the sequence of
    [add] calls that built it, the two libm functions, and the stream of
    values a generator [random.Random(seed)] produces. *)
Class PyRuntime := {
  set_iter : list (Z * Z) -> list (Z * Z);
  set_iter_NoDup : forall l, NoDup (set_iter l);
  set_iter_elem : forall l x, x ∈ set_iter l <-> x ∈ l;
  math_exp : float -> float;
  math_log : float -> float;
  seed_stream : option Z -> nat -> float
}.

(** The state of the module-level generator of [random]: the stream of
    values [random.random()] is going to return, and how many were taken. *)
Record Random := { draws : nat -> float; taken : nat }.

Definition random (g : Random) : float * Random :=
  (draws g (taken g), {| draws := draws g; taken := S (taken g) |}).

(** ** game.py *)

Definition EMPTY : Z := 0.
Definition RED : Z := 1.
Definition BLUE : Z := 2.

Definition NEI : list (Z * Z) :=
  [(-1, 0); (-1, 1); (0, -1); (0, 1); (1, -1); (1, 0)].

Module Move.
Record t := mk { r : Z; c : Z }.

Definition key (m : t) : Z * Z := (r m, c m).

Definition eqb (a b : t) : bool := (r a =? r b) && (c a =? c b).
End Move.

Module HexGame.

Record t := mk {
  size : Z;
  board : list (list Z);
  current : Z;
  winner : Z;
  last_move : option Move.t;
  moves_played : Z
}.

Definition reset (self : t) : t :=
  {| size := size self;
     board := replicate (Z.to_nat (size self))
                        (replicate (Z.to_nat (size self)) EMPTY);
     current := RED;
     winner := EMPTY;
     last_move := None;
     moves_played := 0 |}.

(** [HexGame(size)] *)
Definition init (sz : Z) : t :=
  reset {| size := sz; board := []; current := RED; winner := EMPTY;
           last_move := None; moves_played := 0 |}.

Definition in_bounds (self : t) (r c : Z) : bool :=
  (0 <=? r) && (r <? size self) && (0 <=? c) && (c <? size self).

Definition legal_moves (self : t) : list Move.t :=
  if negb (winner self =? EMPTY) then []
  else
    flat_map (fun r =>
      let row := nth (Z.to_nat r) (board self) [] in
      flat_map (fun c =>
        if nth (Z.to_nat c) row EMPTY =? EMPTY then [Move.mk r c] else [])
        (range (size self)))
      (range (size self)).

(** [vis[r][c] = True; q.append((r, c))] *)
Definition mark (st : list (list bool) * list (Z * Z)) (x : Z * Z)
  : list (list bool) * list (Z * Z) :=
  (set2 st.1 x.1 x.2 true, st.2 ++ [x]).

(** One round of the seeding loops of [has_won]. *)
Definition seed_blue (self : t) (st : list (list bool) * list (Z * Z)) (r : Z) :=
  if get2 EMPTY (board self) r 0 =? BLUE then mark st (r, 0) else st.

Definition seed_red (self : t) (st : list (list bool) * list (Z * Z)) (c : Z) :=
  if get2 EMPTY (board self) 0 c =? RED then mark st (0, c) else st.

(** One round of [for dr, dc in NEI] for the cell [(r, c)] just popped. *)
Definition visit (self : t) (player r c : Z)
    (st : list (list bool) * list (Z * Z)) (d : Z * Z) :=
  let n := size self in
  let nr := r + d.1 in
  let nc := c + d.2 in
  if (0 <=? nr) && (nr <? n) && (0 <=? nc) && (nc <? n)
     && negb (get2 false st.1 nr nc)
     && (get2 EMPTY (board self) nr nc =? player)
  then mark st (nr, nc) else st.

(** [while q: ...]; [None] when the fuel is spent. *)
Fixpoint bfs (fuel : nat) (self : t) (player : Z) (is_end : Z -> Z -> bool)
    (vis : list (list bool)) (q : list (Z * Z)) : option bool :=
  match fuel with
  | O => None
  | S fuel' =>
      match q with
      | [] => Some false
      | (r, c) :: q' =>
          if is_end r c then Some true
          else
            let st := fold_left (visit self player r c) NEI (vis, q') in
            bfs fuel' self player is_end st.1 st.2
      end
  end.

Definition has_won_fuel (self : t) : nat :=
  S (Z.to_nat (size self * size self + size self)).

Definition has_won_run (self : t) (player : Z) : option bool :=
  let n := size self in
  let vis := replicate (Z.to_nat n) (replicate (Z.to_nat n) false) in
  if player =? BLUE then
    let st := fold_left (seed_blue self) (range n) (vis, []) in
    bfs (has_won_fuel self) self player (fun r c => c =? n - 1) st.1 st.2
  else
    let st := fold_left (seed_red self) (range n) (vis, []) in
    bfs (has_won_fuel self) self player (fun r c => r =? n - 1) st.1 st.2.

(** The search always ends within [has_won_fuel] rounds (lemma
    [has_won_run_total] below), so the default is never taken. *)
Definition has_won (self : t) (player : Z) : bool :=
  match has_won_run self player with
  | Some b => b
  | None => false
  end.

Definition play (self : t) (mv : Move.t) : bool * t :=
  if negb (winner self =? EMPTY) then (false, self)
  else if negb (in_bounds self (Move.r mv) (Move.c mv)) then (false, self)
  else if negb (get2 EMPTY (board self) (Move.r mv) (Move.c mv) =? EMPTY)
  then (false, self)
  else
    let p := current self in
    let placed :=
      {| size := size self;
         board := set2 (board self) (Move.r mv) (Move.c mv) p;
         current := current self;
         winner := winner self;
         last_move := Some mv;
         moves_played := moves_played self + 1 |} in
    if has_won placed p then
      (true, {| size := size placed; board := board placed;
                current := current placed; winner := p;
                last_move := last_move placed;
                moves_played := moves_played placed |})
    else
      (true, {| size := size placed; board := board placed;
                current := (if current placed =? RED then BLUE else RED);
                winner := winner placed;
                last_move := last_move placed;
                moves_played := moves_played placed |}).

Definition clone (self : t) : t :=
  let g := init (size self) in
  {| size := size g;
     board := map (fun row => row) (board self);
     current := current self;
     winner := winner self;
     last_move := last_move self;
     moves_played := moves_played self |}.

End HexGame.

(** ** bot.py: helpers, candidate generator and rollout policy *)

Definition NEIGHBORS : list (Z * Z) :=
  [(-1, 0); (-1, 1); (0, -1); (0, 1); (1, -1); (1, 0)].

Definition in_bounds (n r c : Z) : bool :=
  (0 <=? r) && (r <? n) && (0 <=? c) && (c <? n).

Definition other (player : Z) : Z := if player =? BLUE then RED else BLUE.

Definition empty_cells (game : HexGame.t) : list Move.t :=
  let n := HexGame.size game in
  let b := HexGame.board game in
  flat_map (fun r =>
    flat_map (fun c =>
      if get2 EMPTY b r c =? EMPTY then [Move.mk r c] else [])
      (range n))
    (range n).

(** The generator [neighbors(n, r, c)], as the list of what it yields. *)
Definition neighbors (n r c : Z) : list (Z * Z) :=
  List.filter (fun x => in_bounds n x.1 x.2)
         (map (fun d => (r + d.1, c + d.2)) NEIGHBORS).

Definition manhattan_like_to_goal (player n r c : Z) : Z :=
  if player =? RED then Z.min r (n - 1 - r) else Z.min c (n - 1 - c).

Definition count_adjacent_stones (game : HexGame.t) (r c player : Z) : Z :=
  fold_left (fun cnt x =>
      if get2 EMPTY (HexGame.board game) x.1 x.2 =? player then cnt + 1 else cnt)
    (neighbors (HexGame.size game) r c) 0.

Definition count_adjacent_any (game : HexGame.t) (r c : Z) : Z :=
  fold_left (fun cnt x =>
      if negb (get2 EMPTY (HexGame.board game) x.1 x.2 =? EMPTY) then cnt + 1 else cnt)
    (neighbors (HexGame.size game) r c) 0.

(** [l.sort(key=key, reverse=True)]: stable, descending. *)
Fixpoint insert_desc {A} (key : A -> float) (x : A) (l : list A) : list A :=
  match l with
  | [] => [x]
  | y :: l' => if (key x <? key y)%float then y :: insert_desc key x l' else x :: l
  end.

Definition sort_desc {A} (key : A -> float) (l : list A) : list A :=
  fold_right (insert_desc key) [] l.

(** [l[:k]], with Python's reading of a negative bound. *)
Definition slice_to {A} (l : list A) (k : Z) : list A :=
  if k <? 0 then firstn (Z.to_nat (Z.of_nat (length l) + k)) l
  else firstn (Z.to_nat k) l.

Section WithRuntime.
Context {RT : PyRuntime}.

(** The sequence of [cand_set.add] calls of the double loop. *)
Definition frontier_adds (game : HexGame.t) : list (Z * Z) :=
  let n := HexGame.size game in
  let b := HexGame.board game in
  flat_map (fun r =>
    flat_map (fun c =>
      if negb (get2 EMPTY b r c =? EMPTY) then
        List.filter (fun x => get2 EMPTY b x.1 x.2 =? EMPTY) (neighbors n r c)
      else [])
      (range n))
    (range n).

Definition any_stone (game : HexGame.t) : bool :=
  let n := HexGame.size game in
  let b := HexGame.board game in
  existsb (fun r => existsb (fun c => negb (get2 EMPTY b r c =? EMPTY)) (range n))
          (range n).

(** [cands], the list built from [cand_set]. *)
Definition frontier_cands (game : HexGame.t) : list Move.t :=
  let n := HexGame.size game in
  let adds :=
    if negb (any_stone game) then
      let mid := n / 2 in
      frontier_adds game ++ (mid, mid) :: neighbors n mid mid
    else frontier_adds game in
  map (fun x => Move.mk x.1 x.2) (set_iter adds).

Definition frontier_score (game : HexGame.t) (m : Move.t) : float :=
  let n := HexGame.size game in
  let p := HexGame.current game in
  let r := Move.r m in
  let c := Move.c m in
  let adj_p := count_adjacent_stones game r c p in
  let adj_o := count_adjacent_stones game r c (other p) in
  let adj_any := count_adjacent_any game r c in
  let dist_goal := manhattan_like_to_goal p n r c in
  (3.2 * float_of_int adj_p + 1.2 * float_of_int adj_any
   + 0.6 * float_of_int adj_o - 0.35 * float_of_int dist_goal)%float.

Definition frontier_moves (game : HexGame.t) (max_candidates : Z) : list Move.t :=
  let cands := frontier_cands game in
  if Z.of_nat (length cands) <? 8 then empty_cells game
  else slice_to (sort_desc (frontier_score game) cands) max_candidates.

Definition rollout_score (game : HexGame.t) (m : Move.t) : float :=
  let n := HexGame.size game in
  let p := HexGame.current game in
  let r := Move.r m in
  let c := Move.c m in
  let adj_p := count_adjacent_stones game r c p in
  let adj_any := count_adjacent_any game r c in
  let dist_goal := manhattan_like_to_goal p n r c in
  (2.8 * float_of_int adj_p + 0.9 * float_of_int adj_any
   - 0.45 * float_of_int dist_goal)%float.

(** [max(scores)]: the first greatest element; [ValueError] on []. *)
Definition float_max (scores : list float) : result float :=
  match scores with
  | [] => Raise ValueError
  | s :: rest => Ok (fold_left (fun mx x => if (mx <? x)%float then x else mx) rest s)
  end.

(** [sum(exps)] *)
Definition float_sum (xs : list float) : float :=
  fold_left (fun a x => (a + x)%float) xs 0%float.

(** [for m, e in zip(moves, exps): acc += e; if acc >= r: return m] *)
Fixpoint sample (moves : list Move.t) (exps : list float) (r acc : float)
  : option Move.t :=
  match moves, exps with
  | m :: moves', e :: exps' =>
      let acc' := (acc + e)%float in
      if (r <=? acc')%float then Some m else sample moves' exps' r acc'
  | _, _ => None
  end.

(** [moves[-1]] *)
Definition last_move_of (moves : list Move.t) : result Move.t :=
  match last moves with
  | Some m => Ok m
  | None => Raise IndexError
  end.

(** [rollout_policy]; the generator of [random] goes in and comes out. *)
Definition rollout_policy (game : HexGame.t) (max_candidates : Z) (g : Random)
  : result (Move.t * Random) :=
  let moves := frontier_moves game max_candidates in
  let scores := map (rollout_score game) moves in
  mx <- float_max scores ;;
  let exps := map (fun s => math_exp ((s - mx) / 1.0)%float) scores in
  let tot := (float_sum exps + 1e-12)%float in
  let (u, g') := random g in
  let r := (u * tot)%float in
  match sample moves exps r 0%float with
  | Some m => Ok (m, g')
  | None => m <- last_move_of moves ;; Ok (m, g')
  end.

End WithRuntime.

(** ** bot.py: the search tree *)

Module Node.

Record t := mk {
  parent : option nat;
  move : option Move.t;
  player_to_move : Z;
  untried : list Move.t;
  children : list ((Z * Z) * nat);
  visits : Z;
  wins_for_root_player : float
}.

Definition set_parent (nd : t) (p : option nat) : t :=
  mk p (move nd) (player_to_move nd) (untried nd) (children nd) (visits nd)
     (wins_for_root_player nd).

Definition set_untried (nd : t) (u : list Move.t) : t :=
  mk (parent nd) (move nd) (player_to_move nd) u (children nd) (visits nd)
     (wins_for_root_player nd).

Definition set_children (nd : t) (ch : list ((Z * Z) * nat)) : t :=
  mk (parent nd) (move nd) (player_to_move nd) (untried nd) ch (visits nd)
     (wins_for_root_player nd).

Definition set_stats (nd : t) (v : Z) (w : float) : t :=
  mk (parent nd) (move nd) (player_to_move nd) (untried nd) (children nd) v w.

Definition key_eqb (a b : Z * Z) : bool := (a.1 =? b.1) && (a.2 =? b.2).

(** [d[k]] / [k in d] on a dictionary kept in insertion order. *)
Fixpoint dict_get {V} (d : list ((Z * Z) * V)) (k : Z * Z) : option V :=
  match d with
  | [] => None
  | (k', v) :: d' => if key_eqb k' k then Some v else dict_get d' k
  end.

(** [d[k] = v]: a present key keeps its place, a new key goes last. *)
Fixpoint dict_set {V} (d : list ((Z * Z) * V)) (k : Z * Z) (v : V)
  : list ((Z * Z) * V) :=
  match d with
  | [] => [(k, v)]
  | (k', v') :: d' =>
      if key_eqb k' k then (k', v) :: d' else (k', v') :: dict_set d' k v
  end.

(** Dereferencing a node reference in the store. *)
Definition get (heap : list t) (i : nat) : result t :=
  match heap !! i with
  | Some nd => Ok nd
  | None => Dangling
  end.

Section Methods.
Context {RT : PyRuntime}.

(** [math.log] and [math.sqrt] raise outside their domain. *)
Definition py_log (x : float) : result float :=
  if (x <=? 0)%float then Raise ValueError else Ok (math_log x).

Definition py_sqrt (x : float) : result float :=
  if (x <? 0)%float then Raise ValueError else Ok (PrimFloat.sqrt x).

Definition uct_value (self ch : t) (c : float) : result float :=
  if visits ch =? 0 then Ok 1e9%float
  else
    let exploit := (wins_for_root_player ch / float_of_int (visits ch))%float in
    lg <- py_log (float_of_int (visits self + 1)) ;;
    sq <- py_sqrt (lg / float_of_int (visits ch))%float ;;
    Ok (exploit + c * sq)%float.

Fixpoint uct_scan (heap : list t) (self : t) (c : float)
    (chs : list ((Z * Z) * nat)) (best : option nat) (best_val : float)
  : result (option nat) :=
  match chs with
  | [] => Ok best
  | (_, ch) :: chs' =>
      nd <- get heap ch ;;
      val <- uct_value self nd c ;;
      if (best_val <? val)%float then uct_scan heap self c chs' (Some ch) val
      else uct_scan heap self c chs' best best_val
  end.

Definition uct_select_child (heap : list t) (self : t) (c : float)
  : result (option nat) :=
  uct_scan heap self c (children self) None (-1e9)%float.

End Methods.

End Node.

(** ** bot.py: the engine *)

Module MCTSBot.

Record t := mk {
  time_limit_s : float;
  uct_c : float;
  playout_limit : Z;
  rollout_candidates : Z;
  expand_candidates : Z;
  rng : Random;
  root : option nat;
  root_player : option Z;
  (** the store of the [Node] objects this engine created *)
  heap : list Node.t
}.

Definition set_root (self : t) (rt : option nat) : t :=
  mk (time_limit_s self) (uct_c self) (playout_limit self)
     (rollout_candidates self) (expand_candidates self) (rng self)
     rt (root_player self) (heap self).

Definition set_root_player (self : t) (p : option Z) : t :=
  mk (time_limit_s self) (uct_c self) (playout_limit self)
     (rollout_candidates self) (expand_candidates self) (rng self)
     (root self) p (heap self).

Definition set_heap (self : t) (h : list Node.t) : t :=
  mk (time_limit_s self) (uct_c self) (playout_limit self)
     (rollout_candidates self) (expand_candidates self) (rng self)
     (root self) (root_player self) h.

(** Creating an object: it gets the next free reference. *)
Definition alloc (h : list Node.t) (nd : Node.t) : list Node.t * nat :=
  (h ++ [nd], length h).

Section Methods.
Context {RT : PyRuntime}.

Definition init (time_limit_s uct_c : float)
    (playout_limit rollout_candidates expand_candidates : Z)
    (seed : option Z) : t :=
  {| time_limit_s := time_limit_s;
     uct_c := uct_c;
     playout_limit := playout_limit;
     rollout_candidates := rollout_candidates;
     expand_candidates := expand_candidates;
     rng := {| draws := seed_stream seed; taken := 0 |};
     root := None;
     root_player := None;
     heap := [] |}.

Definition _new_root (self : t) (game : HexGame.t) : t * nat :=
  let self1 := set_root_player self (Some (HexGame.current game)) in
  let untried := frontier_moves game (expand_candidates self1) in
  let (h, rt) :=
    alloc (heap self1)
          (Node.mk None None (HexGame.current game) untried [] 0 0%float) in
  (set_heap self1 h, rt).

Definition _apply_move_to_tree (self : t) (move : Move.t) : result t :=
  match root self with
  | None => Ok self
  | Some rt =>
      nd <- Node.get (heap self) rt ;;
      match Node.dict_get (Node.children nd) (Move.r move, Move.c move) with
      | Some nxt =>
          nn <- Node.get (heap self) nxt ;;
          Ok (set_root (set_heap self (<[nxt := Node.set_parent nn None]> (heap self)))
                       (Some nxt))
      | None => Ok (set_root_player (set_root self None) None)
      end
  end.

Definition notify_opponent_moved (self : t) (move : Move.t) : result t :=
  _apply_move_to_tree self move.

(** Lines 217-224 of [choose]: which root the search starts from. *)
Definition acquire (self : t) (game : HexGame.t) : result t :=
  self1 <-
    match root self with
    | None => let (s, rt) := _new_root self game in Ok (set_root s (Some rt))
    | Some rt =>
        nd <- Node.get (heap self) rt ;;
        if negb (Node.player_to_move nd =? HexGame.current game)
        then let (s, rt') := _new_root self game in Ok (set_root s (Some rt'))
        else Ok self
    end ;;
  let self2 :=
    match root_player self1 with
    | None => set_root_player self1 (Some (HexGame.current game))
    | Some _ => self1
    end in
  match root self2 with
  | None => Raise AttributeError
  | Some rt =>
      nd <- Node.get (heap self2) rt ;;
      if (length (Node.untried nd) =? 0)%nat && (length (Node.children nd) =? 0)%nat
      then Ok (set_heap self2
                 (<[rt := Node.set_untried nd
                            (frontier_moves game (expand_candidates self2))]>
                    (heap self2)))
      else Ok self2
  end.

(** 1) SELECTION: the descent loop. *)
Fixpoint select (fuel : nat) (self : t) (node : nat) (state : HexGame.t)
  : result (nat * HexGame.t) :=
  nd <- Node.get (heap self) node ;;
  if (HexGame.winner state =? EMPTY)
     && (length (Node.untried nd) =? 0)%nat
     && (0 <? length (Node.children nd))%nat
  then
    match fuel with
    | O => Diverge
    | S fuel' =>
        best <- Node.uct_select_child (heap self) nd (uct_c self) ;;
        match best with
        | None => Raise AttributeError
        | Some ch =>
            chn <- Node.get (heap self) ch ;;
            match Node.move chn with
            | None => Raise AttributeError
            | Some mv => select fuel' self ch (HexGame.play state mv).2
            end
        end
    end
  else Ok (node, state).

(** 2) EXPANSION.  The outcome [None] is the [continue]. *)
Definition expand (self : t) (node : nat) (state : HexGame.t)
  : result (t * option (nat * HexGame.t)) :=
  nd <- Node.get (heap self) node ;;
  if (HexGame.winner state =? EMPTY) && (0 <? length (Node.untried nd))%nat then
    match Node.untried nd with
    | [] => Raise IndexError
    | mv :: rest =>
        let h1 := <[node := Node.set_untried nd rest]> (heap self) in
        let (ok, state1) := HexGame.play state mv in
        if negb ok then Ok (set_heap self h1, None)
        else
          let child_untried := frontier_moves state1 (expand_candidates self) in
          let (h2, child) :=
            alloc h1 (Node.mk (Some node) (Some mv) (HexGame.current state1)
                              child_untried [] 0 0%float) in
          nd1 <- Node.get h2 node ;;
          let h3 :=
            <[node := Node.set_children nd1
                        (Node.dict_set (Node.children nd1)
                                       (Move.r mv, Move.c mv) child)]> h2 in
          Ok (set_heap self h3, Some (child, state1))
    end
  else Ok (self, Some (node, state)).

(** 3) SIMULATION: the playout loop. *)
Fixpoint rollout (fuel : nat) (max_candidates : Z) (state : HexGame.t)
    (g : Random) : result (HexGame.t * Random) :=
  if HexGame.winner state =? EMPTY then
    match fuel with
    | O => Diverge
    | S fuel' =>
        mg <- rollout_policy state max_candidates g ;;
        rollout fuel' max_candidates (HexGame.play state mg.1).2 mg.2
    end
  else Ok (state, g).

Definition rollout_fuel (state : HexGame.t) : nat :=
  S (Z.to_nat (HexGame.size state * HexGame.size state)).

(** 4) BACKPROP: the walk up the [parent] links. *)
Fixpoint backprop (fuel : nat) (h : list Node.t) (node : option nat)
    (res : float) : result (list Node.t) :=
  match node with
  | None => Ok h
  | Some i =>
      match fuel with
      | O => Diverge
      | S fuel' =>
          nd <- Node.get h i ;;
          backprop fuel'
            (<[i := Node.set_stats nd (Node.visits nd + 1)
                      (Node.wins_for_root_player nd + res)%float]> h)
            (Node.parent nd) res
      end
  end.

(** One round of the search loop. *)
Definition iteration (self : t) (game : HexGame.t) (g : Random)
  : result (t * Random) :=
  match root self with
  | None => Raise AttributeError
  | Some rt =>
      sel <- select (S (length (heap self))) self rt (HexGame.clone game) ;;
      ex <- expand self sel.1 sel.2 ;;
      match ex.2 with
      | None => Ok (ex.1, g)
      | Some (node, state) =>
          ro <- rollout (rollout_fuel state) (rollout_candidates self) state g ;;
          let winner := HexGame.winner ro.1 in
          let res :=
            match root_player ex.1 with
            | Some p => if winner =? p then 1.0%float else 0.0%float
            | None => 0.0%float
            end in
          h <- backprop (S (length (heap ex.1))) (heap ex.1) (Some node) res ;;
          Ok (set_heap ex.1 h, ro.2)
      end
  end.

(** The search loop.  [ticks] is the number of times the test
    [time.perf_counter() < t_end] succeeds before the deadline has
    passed: the wall clock is the one input of [choose] that the
    embedding takes as given. *)
Fixpoint search (ticks : nat) (playouts : Z) (self : t) (game : HexGame.t)
    (g : Random) : result (t * Random) :=
  match ticks with
  | O => Ok (self, g)
  | S ticks' =>
      if playouts <? playout_limit self then
        it <- iteration self game g ;;
        search ticks' (playouts + 1) it.1 game it.2
      else Ok (self, g)
  end.

(** [max(children.values(), key=lambda ch: ch.visits)]: the first child
    with the greatest count. *)
Fixpoint max_visits (h : list Node.t) (chs : list ((Z * Z) * nat))
    (best : nat) (best_visits : Z) : result nat :=
  match chs with
  | [] => Ok best
  | (_, ch) :: chs' =>
      nd <- Node.get h ch ;;
      if best_visits <? Node.visits nd then max_visits h chs' ch (Node.visits nd)
      else max_visits h chs' best best_visits
  end.

Definition best_child (h : list Node.t) (chs : list ((Z * Z) * nat))
  : result nat :=
  match chs with
  | [] => Raise ValueError
  | (_, ch) :: chs' =>
      nd <- Node.get h ch ;;
      max_visits h chs' ch (Node.visits nd)
  end.

(** Lines 270-281 of [choose]: the decision and the re-rooting. *)
Definition decide (self : t) (game : HexGame.t) : result (Move.t * t) :=
  match root self with
  | None => Raise AttributeError
  | Some rt =>
      nd <- Node.get (heap self) rt ;;
      if (length (Node.children nd) =? 0)%nat then
        match frontier_moves game (expand_candidates self) with
        | m :: _ => Ok (m, self)
        | [] =>
            match empty_cells game with
            | m :: _ => Ok (m, self)
            | [] => Raise IndexError
            end
        end
      else
        best <- best_child (heap self) (Node.children nd) ;;
        bn <- Node.get (heap self) best ;;
        match Node.move bn with
        | None => Raise AttributeError
        | Some best_move =>
            self' <- _apply_move_to_tree self best_move ;;
            Ok (best_move, self')
        end
  end.

Definition choose (self : t) (game : HexGame.t) (ticks : nat) (g : Random)
  : result (Move.t * t * Random) :=
  self1 <- acquire self game ;;
  sg <- search ticks 0 self1 game g ;;
  d <- decide sg.1 game ;;
  Ok (d.1, d.2, sg.2).

End Methods.

End MCTSBot.

(** ** Specification vocabulary *)

Definition adj (a b : Z * Z) : Prop := In (b.1 - a.1, b.2 - a.2) NEI.

Inductive conn (P : Z * Z -> Prop) : Z * Z -> Z * Z -> Prop :=
| conn_refl a : P a -> conn P a a
| conn_step a b c : P a -> adj a b -> conn P b c -> conn P a c.

Definition owns (g : HexGame.t) (p : Z) (x : Z * Z) : Prop :=
  in_bounds (HexGame.size g) x.1 x.2 = true /\
  get2 EMPTY (HexGame.board g) x.1 x.2 = p.

Definition start_edge (p : Z) (x : Z * Z) : Prop :=
  if p =? BLUE then x.2 = 0 else x.1 = 0.

Definition goal_edge (n p : Z) (x : Z * Z) : Prop :=
  if p =? BLUE then x.2 = n - 1 else x.1 = n - 1.

Definition chain (g : HexGame.t) (p : Z) : Prop :=
  exists a b, start_edge p a /\ goal_edge (HexGame.size g) p b /\ conn (owns g p) a b.

Definition shape {A} (n : nat) (m : list (list A)) : Prop :=
  length m = n /\ Forall (fun row => length row = n) m.

(** ** Lists of lists *)

Lemma get2_lookup {A} (d : A) m r c row x :
  m !! Z.to_nat r = Some row -> row !! Z.to_nat c = Some x -> get2 d m r c = x.
Proof.
  intros Hr Hc. unfold get2.
  rewrite (nth_lookup_Some _ _ _ _ Hr). apply (nth_lookup_Some _ _ _ _ Hc).
Qed.

Lemma shape_lookup {A} n (m : list (list A)) i :
  shape n m -> (i < n)%nat -> exists row, m !! i = Some row /\ length row = n.
Proof.
  intros [Hl Hf] Hi.
  destruct (lookup_lt_is_Some_2 m i) as [row Hrow]; [lia|].
  exists row. split; [done|].
  rewrite Forall_forall in Hf. apply Hf.
  eapply list_elem_of_lookup_2; eauto.
Qed.

Lemma shape_set2 {A} n (m : list (list A)) r c v :
  shape n m -> shape n (set2 m r c v).
Proof.
  intros [Hl Hf]. split.
  - unfold set2. by rewrite length_alter.
  - unfold set2. rewrite Forall_forall in Hf. apply Forall_forall.
    intros row Hin.
    apply list_elem_of_lookup_1 in Hin as [i Hi].
    destruct (decide (Z.to_nat r = i)) as [<-|Hne].
    + rewrite list_lookup_alter_eq in Hi.
      destruct (m !! Z.to_nat r) as [row0|] eqn:E; simpl in Hi; [|done].
      injection Hi as <-. rewrite length_insert. apply Hf.
      eapply list_elem_of_lookup_2; eauto.
    + rewrite list_lookup_alter_ne in Hi by done.
      apply Hf. eapply list_elem_of_lookup_2; eauto.
Qed.

Lemma get2_set2_eq {A} (d : A) n m r c v :
  shape n m -> (Z.to_nat r < n)%nat -> (Z.to_nat c < n)%nat ->
  get2 d (set2 m r c v) r c = v.
Proof.
  intros Hs Hr Hc.
  destruct (shape_lookup n m _ Hs Hr) as (row & Hrow & Hlen).
  eapply get2_lookup.
  - unfold set2. rewrite list_lookup_alter_eq, Hrow. reflexivity.
  - apply list_lookup_insert_eq. lia.
Qed.

Lemma get2_set2_ne {A} (d : A) m r c v r' c' :
  Z.to_nat r <> Z.to_nat r' \/ Z.to_nat c <> Z.to_nat c' ->
  get2 d (set2 m r c v) r' c' = get2 d m r' c'.
Proof.
  intros Hne. unfold get2, set2.
  rewrite (nth_lookup (alter _ _ _) _ []), (nth_lookup m _ []).
  destruct (decide (Z.to_nat r = Z.to_nat r')) as [Er|Er].
  - destruct Hne as [?|Hc]; [done|].
    rewrite <- Er, list_lookup_alter_eq.
    destruct (m !! Z.to_nat r) as [row|]; simpl; [|done].
    rewrite !nth_lookup. by rewrite list_lookup_insert_ne.
  - by rewrite list_lookup_alter_ne.
Qed.

Lemma shape_replicate {A} n (x : A) : shape n (replicate n (replicate n x)).
Proof.
  split; [apply length_replicate|].
  apply Forall_forall. intros row Hin.
  apply elem_of_replicate in Hin as [-> _]. apply length_replicate.
Qed.

Lemma get2_replicate {A} (d x : A) n r c :
  (Z.to_nat r < n)%nat -> (Z.to_nat c < n)%nat ->
  get2 d (replicate n (replicate n x)) r c = x.
Proof.
  intros Hr Hc. eapply get2_lookup; by apply lookup_replicate_2.
Qed.

Lemma get2_true_range n (m : list (list bool)) r c :
  shape n m -> get2 false m r c = true -> (Z.to_nat r < n)%nat /\ (Z.to_nat c < n)%nat.
Proof.
  intros [Hl Hf] Hg. unfold get2 in Hg.
  destruct (decide (Z.to_nat r < n)%nat) as [Hr|Hr].
  - split; [done|].
    destruct (lookup_lt_is_Some_2 m (Z.to_nat r)) as [row Hrow]; [lia|].
    rewrite (nth_lookup_Some _ _ _ _ Hrow) in Hg.
    assert (length row = n) as Hlen.
    { rewrite Forall_forall in Hf. apply Hf.
      eapply list_elem_of_lookup_2; eauto. }
    destruct (decide (Z.to_nat c < n)%nat); [done|].
    rewrite nth_overflow in Hg by lia. done.
  - rewrite (nth_overflow m) in Hg by lia. by destruct (Z.to_nat c).
Qed.

(** ** Termination of the breadth-first search *)

Definition count2 {A} (P : A -> bool) (m : list (list A)) : nat :=
  length (List.filter P (concat m)).

Definition unvis (vis : list (list bool)) : nat := count2 negb vis.

Lemma length_concat_shape {A} n (m : list (list A)) :
  Forall (fun row => length row = n) m -> length (concat m) = (length m * n)%nat.
Proof.
  induction 1 as [|row m Hrow _ IH]; simpl; [done|].
  rewrite length_app, IH, Hrow. lia.
Qed.

Lemma count2_le {A} (P : A -> bool) n m : shape n m -> (count2 P m <= n * n)%nat.
Proof.
  intros [Hl Hf]. unfold count2.
  etransitivity; [apply List.filter_length_le|].
  rewrite (length_concat_shape n) by done. by rewrite Hl.
Qed.

Lemma count_row {A} (P : A -> bool) (row : list A) i x v :
  row !! i = Some x -> P x = true -> P v = false ->
  S (length (List.filter P (<[i:=v]> row))) = length (List.filter P row).
Proof.
  intros Hi Hx Hv. revert i Hi.
  induction row as [|b row IH]; intros [|i] H; simpl in *; try done.
  - injection H as ->. by rewrite Hx, Hv.
  - destruct (P b); simpl; rewrite <- (IH i H); reflexivity.
Qed.

Lemma count2_alter {A} (P : A -> bool) (m : list (list A)) i j row x v :
  m !! i = Some row -> row !! j = Some x -> P x = true -> P v = false ->
  S (count2 P (alter (fun row => <[j:=v]> row) i m)) = count2 P m.
Proof.
  unfold count2. intros Hi Hj Hx Hv. revert i Hi.
  induction m as [|r0 m IH]; intros [|i] Hi; simpl in *; try done.
  - injection Hi as ->. rewrite !List.filter_app, !length_app.
    rewrite <- (count_row P row j x v Hj Hx Hv). reflexivity.
  - rewrite !List.filter_app, !length_app. rewrite <- (IH i Hi).
    symmetry. apply Nat.add_succ_r.
Qed.

Lemma count2_set2 {A} (P : A -> bool) (d : A) n m r c v :
  shape n m -> (Z.to_nat r < n)%nat -> (Z.to_nat c < n)%nat ->
  P (get2 d m r c) = true -> P v = false ->
  S (count2 P (set2 m r c v)) = count2 P m.
Proof.
  intros Hs Hr Hc Hg Hv.
  destruct (shape_lookup n m _ Hs Hr) as (row & Hrow & Hlen).
  destruct (lookup_lt_is_Some_2 row (Z.to_nat c)) as [b Hb]; [lia|].
  rewrite (get2_lookup d m r c row b Hrow Hb) in Hg.
  unfold set2. by apply (count2_alter P m _ _ row b).
Qed.

Lemma unvis_le n vis : shape n vis -> (unvis vis <= n * n)%nat.
Proof. apply count2_le. Qed.

Lemma unvis_set2 n vis r c :
  shape n vis -> (Z.to_nat r < n)%nat -> (Z.to_nat c < n)%nat ->
  get2 false vis r c = false ->
  S (unvis (set2 vis r c true)) = unvis vis.
Proof.
  intros Hs Hr Hc Hg. apply (count2_set2 negb false n); try done. by rewrite Hg.
Qed.

Section Search.
Variable g : HexGame.t.
Variable p : Z.
Variable is_end : Z -> Z -> bool.

Let n := HexGame.size g.

Definition visited (vis : list (list bool)) (x : Z * Z) : Prop :=
  in_bounds n x.1 x.2 = true /\ get2 false vis x.1 x.2 = true.

Lemma in_bounds_range x y : in_bounds n x y = true <-> 0 <= x < n /\ 0 <= y < n.
Proof. unfold in_bounds. rewrite !andb_true_iff. lia. Qed.

Lemma visit_cases r c vis q d :
  let x := (r + d.1, c + d.2) in
  (in_bounds n x.1 x.2 = true /\ get2 false vis x.1 x.2 = false /\
   get2 EMPTY (HexGame.board g) x.1 x.2 = p /\
   HexGame.visit g p r c (vis, q) d = (set2 vis x.1 x.2 true, q ++ [x]))
  \/ (~ (in_bounds n x.1 x.2 = true /\ get2 false vis x.1 x.2 = false /\
         get2 EMPTY (HexGame.board g) x.1 x.2 = p) /\
      HexGame.visit g p r c (vis, q) d = (vis, q)).
Proof.
  intros x. unfold HexGame.visit. simpl. fold n.
  destruct ((0 <=? r + d.1) && (r + d.1 <? n) && (0 <=? c + d.2) && (c + d.2 <? n)
            && negb (get2 false vis (r + d.1) (c + d.2))
            && (get2 EMPTY (HexGame.board g) (r + d.1) (c + d.2) =? p)) eqn:E.
  - left. rewrite !andb_true_iff in E. destruct E as [[Hb Hv] He].
    subst x; simpl. unfold in_bounds. rewrite !andb_true_iff.
    apply negb_true_iff in Hv. apply Z.eqb_eq in He. tauto.
  - right. split; [|done]. intros (Hb & Hv & He).
    subst x; simpl in *. unfold in_bounds in Hb. rewrite Hb, Hv in E.
    apply Z.eqb_eq in He. rewrite He in E. simpl in E. discriminate.
Qed.

Lemma visit_measure r c vis q d :
  shape (Z.to_nat n) vis ->
  let st := HexGame.visit g p r c (vis, q) d in
  shape (Z.to_nat n) st.1 /\
  (unvis st.1 + length st.2 = unvis vis + length q)%nat.
Proof.
  intros Hs. destruct (visit_cases r c vis q d) as [(Hb & Hv & _ & ->)|[_ ->]]; simpl.
  - split; [by apply shape_set2|]. apply in_bounds_range in Hb. simpl in Hb.
    rewrite length_app. simpl.
    rewrite <- (unvis_set2 (Z.to_nat n) vis (r + d.1) (c + d.2)); [lia|done|lia|lia|done].
  - done.
Qed.

Lemma visits_measure r c ds vis q :
  shape (Z.to_nat n) vis ->
  let st := fold_left (HexGame.visit g p r c) ds (vis, q) in
  shape (Z.to_nat n) st.1 /\
  (unvis st.1 + length st.2 = unvis vis + length q)%nat.
Proof.
  revert vis q. induction ds as [|d ds IH]; intros vis q Hs; simpl; [done|].
  destruct (visit_measure r c vis q d Hs) as [Hs' Hm].
  destruct (HexGame.visit g p r c (vis, q) d) as [vis' q'] eqn:E. simpl in *.
  destruct (IH vis' q' Hs') as [Hs'' Hm'']. split; [done|]. lia.
Qed.

Lemma bfs_cons fuel vis r c q :
  HexGame.bfs (S fuel) g p is_end vis ((r, c) :: q) =
  if is_end r c then Some true
  else HexGame.bfs fuel g p is_end
         (fold_left (HexGame.visit g p r c) NEI (vis, q)).1
         (fold_left (HexGame.visit g p r c) NEI (vis, q)).2.
Proof. reflexivity. Qed.

Lemma bfs_total fuel vis q :
  shape (Z.to_nat n) vis -> (unvis vis + length q < fuel)%nat ->
  is_Some (HexGame.bfs fuel g p is_end vis q).
Proof.
  revert vis q. induction fuel as [|fuel IH]; intros vis q Hs Hm; [lia|].
  destruct q as [|[r c] q]; [simpl; eauto|].
  rewrite bfs_cons. destruct (is_end r c); [eauto|].
  destruct (visits_measure r c NEI vis q Hs) as [Hs' Hm'].
  apply IH; [done|]. simpl in Hm. lia.
Qed.

(** ** Correctness of the breadth-first search *)

Variable Seed : Z * Z -> Prop.

Definition processed (vis : list (list bool)) (x : Z * Z) : Prop :=
  is_end x.1 x.2 = false /\ forall y, adj x y -> owns g p y -> visited vis y.

Record bfs_inv (vis : list (list bool)) (q : list (Z * Z)) : Prop := {
  inv_shape : shape (Z.to_nat n) vis;
  inv_queue : forall x, x ∈ q -> visited vis x;
  inv_sound : forall x, visited vis x -> exists s, Seed s /\ conn (owns g p) s x;
  inv_seeds : forall s, Seed s -> visited vis s;
  inv_closed : forall x, visited vis x -> x ∈ q \/ processed vis x
}.

Lemma visited_set2 vis x y :
  shape (Z.to_nat n) vis -> in_bounds n x.1 x.2 = true ->
  visited (set2 vis x.1 x.2 true) y <-> visited vis y \/ y = x.
Proof.
  intros Hs Hx. unfold visited. split.
  - intros [Hb Hv].
    destruct (decide (y = x)) as [->|Hne]; [by right|left].
    split; [done|]. rewrite get2_set2_ne in Hv; [done|].
    apply in_bounds_range in Hb, Hx. destruct x, y; simpl in *.
    destruct (decide (z = z1)); [right|left]; [|lia].
    intros ?. apply Hne. f_equal; lia.
  - intros [[Hb Hv]| ->].
    + split; [done|].
      destruct (decide (y = x)) as [->|Hne].
      * apply in_bounds_range in Hx.
        apply (get2_set2_eq false (Z.to_nat n)); [done|lia|lia].
      * rewrite get2_set2_ne; [done|].
        apply in_bounds_range in Hb, Hx. destruct x, y; simpl in *.
        destruct (decide (z = z1)); [right|left]; [|lia].
        intros ?. apply Hne. f_equal; lia.
    + split; [done|]. apply in_bounds_range in Hx.
      apply (get2_set2_eq false (Z.to_nat n)); [done|lia|lia].
Qed.

Lemma conn_head P a b : conn P a b -> P a.
Proof. by destruct 1. Qed.

Lemma conn_last P a b : conn P a b -> P b.
Proof. induction 1; auto. Qed.

Lemma conn_snoc P a b c : conn P a b -> adj b c -> P c -> conn P a c.
Proof.
  induction 1 as [a Ha|a b' c' Ha Hadj _ IH]; intros Hbc Hc.
  - eapply conn_step; eauto. by apply conn_refl.
  - eapply conn_step; eauto.
Qed.

Lemma conn_trans P a b c : conn P a b -> conn P b c -> conn P a c.
Proof.
  induction 1 as [a Ha|a b' c' Ha Hadj _ IH]; intros Hbc; [done|].
  eapply conn_step; eauto.
Qed.

(** The state while the neighbours of the popped cell [x] are scanned:
    [ds0] are the offsets already handled. *)
Record scan_inv (x : Z * Z) (ds0 : list (Z * Z))
    (vis : list (list bool)) (q : list (Z * Z)) : Prop := {
  scan_shape : shape (Z.to_nat n) vis;
  scan_queue : forall y, y ∈ q -> visited vis y;
  scan_sound : forall y, visited vis y -> exists s, Seed s /\ conn (owns g p) s y;
  scan_seeds : forall s, Seed s -> visited vis s;
  scan_closed : forall y, visited vis y -> y = x \/ y ∈ q \/ processed vis y;
  scan_x : visited vis x;
  scan_done : forall d, d ∈ ds0 -> owns g p (x.1 + d.1, x.2 + d.2) ->
              visited vis (x.1 + d.1, x.2 + d.2)
}.

Lemma processed_mono vis x y :
  shape (Z.to_nat n) vis -> in_bounds n x.1 x.2 = true ->
  processed vis y -> processed (set2 vis x.1 x.2 true) y.
Proof.
  intros Hs Hx [He Hc]. split; [done|].
  intros w Hadj Hw. apply visited_set2; [done|done|]. left. by apply Hc.
Qed.

Lemma scan_step x ds0 vis q d :
  In d NEI ->
  scan_inv x ds0 vis q ->
  let st := HexGame.visit g p x.1 x.2 (vis, q) d in
  scan_inv x (ds0 ++ [d]) st.1 st.2.
Proof.
  intros Hd [Hs Hq Hsnd Hseed Hcl Hx Hdone].
  destruct (visit_cases x.1 x.2 vis q d) as [(Hb & Hv & Hp & ->)|[Hno ->]]; simpl.
  - set (y := (x.1 + d.1, x.2 + d.2)) in *. simpl in Hb, Hv, Hp.
    assert (Hvs : forall w, visited (set2 vis y.1 y.2 true) w <-> visited vis w \/ w = y).
    { intros w. by apply visited_set2. }
    split.
    + by apply shape_set2.
    + intros w Hw. apply Hvs. apply elem_of_app in Hw as [Hw|Hw]; [left; auto|].
      right. by apply list_elem_of_singleton in Hw.
    + intros w Hw. apply Hvs in Hw as [Hw| ->]; [auto|].
      destruct (Hsnd x Hx) as (s & Hss & Hcs). exists s. split; [done|].
      eapply conn_snoc; [done| |by split].
      unfold adj, y. simpl.
      replace (x.1 + d.1 - x.1) with d.1 by lia.
      replace (x.2 + d.2 - x.2) with d.2 by lia.
      by destruct d.
    + intros s Hss. apply Hvs. left. auto.
    + intros w Hw. apply Hvs in Hw as [Hw| ->].
      * destruct (Hcl w Hw) as [?|[?|Hpr]]; [by left|right; left|right; right].
        -- apply elem_of_app. by left.
        -- by apply (processed_mono vis y w).
      * right. left. apply elem_of_app. right. by apply list_elem_of_singleton.
    + apply Hvs. by left.
    + intros d' Hd' Hown. apply Hvs. apply elem_of_app in Hd' as [Hd'|Hd'].
      * left. auto.
      * apply list_elem_of_singleton in Hd'. subst d'. by right.
  - split; try done.
    intros d' Hd' Hown. apply elem_of_app in Hd' as [Hd'|Hd']; [auto|].
    apply list_elem_of_singleton in Hd'. subst d'.
    destruct Hown as [Hb Hp]. simpl in Hb, Hp.
    destruct (get2 false vis (x.1 + d.1) (x.2 + d.2)) eqn:Hv.
    + by split.
    + exfalso. apply Hno. simpl. done.
Qed.

Lemma scan_all x ds ds0 vis q :
  (forall d, In d ds -> In d NEI) ->
  scan_inv x ds0 vis q ->
  scan_inv x (ds0 ++ ds)
    (fold_left (HexGame.visit g p x.1 x.2) ds (vis, q)).1
    (fold_left (HexGame.visit g p x.1 x.2) ds (vis, q)).2.
Proof.
  revert ds0 vis q. induction ds as [|d ds IH]; intros ds0 vis q Hds Hinv.
  - simpl. by rewrite app_nil_r.
  - simpl. pose proof (scan_step x ds0 vis q d (Hds d (or_introl eq_refl)) Hinv) as Hst.
    destruct (HexGame.visit g p x.1 x.2 (vis, q) d) as [vis' q'].
    replace (ds0 ++ d :: ds) with ((ds0 ++ [d]) ++ ds) by (by rewrite <- app_assoc).
    apply IH; [|done]. intros d' Hd'. apply Hds. by right.
Qed.

Lemma bfs_step_inv r c vis q :
  bfs_inv vis ((r, c) :: q) -> is_end r c = false ->
  bfs_inv (fold_left (HexGame.visit g p r c) NEI (vis, q)).1
          (fold_left (HexGame.visit g p r c) NEI (vis, q)).2.
Proof.
  intros [Hs Hq Hsnd Hseed Hcl] Hend.
  assert (scan_inv (r, c) [] vis q) as Hscan.
  { split; try done.
    - intros y Hy. apply Hq. by right.
    - intros y Hy. destruct (Hcl y Hy) as [Hin|?]; [|by right; right].
      apply elem_of_cons in Hin as [?|?]; [by left|by right; left].
    - apply Hq. by left.
    - intros d Hd. by apply elem_of_nil in Hd. }
  pose proof (scan_all (r, c) NEI [] vis q (fun d H => H) Hscan) as Hfin.
  cbn [app fst snd] in Hfin.
  destruct (fold_left (HexGame.visit g p r c) NEI (vis, q)) as [vis' q'].
  destruct Hfin as [Hs' Hq' Hsnd' Hseed' Hcl' Hx' Hdone']. cbn [fst snd] in *.
  split; try done.
  intros y Hy. destruct (Hcl' y Hy) as [->|[?|?]]; [right|by left|by right].
  split; [done|]. intros w Hadj Hw. unfold adj in Hadj. cbn [fst snd] in Hadj.
  specialize (Hdone' (w.1 - r, w.2 - c)). cbn [fst snd] in Hdone'.
  replace (r + (w.1 - r)) with w.1 in Hdone' by lia.
  replace (c + (w.2 - c)) with w.2 in Hdone' by lia.
  destruct w as [w1 w2]. cbn [fst snd] in *. apply Hdone'; [|done].
  by apply list_elem_of_In.
Qed.

Lemma closed_reach vis a t :
  bfs_inv vis [] -> visited vis a -> conn (owns g p) a t -> visited vis t.
Proof.
  intros Hinv Ha Hc. induction Hc as [a _|a b t _ Hadj Hbt IH]; [done|].
  apply IH. destruct (inv_closed _ _ Hinv a Ha) as [Hin|[_ Hcl]].
  - by apply elem_of_nil in Hin.
  - apply Hcl; [done|]. by apply conn_head in Hbt.
Qed.

Lemma bfs_correct fuel vis q b :
  bfs_inv vis q ->
  HexGame.bfs fuel g p is_end vis q = Some b ->
  (b = true <->
   exists s t, Seed s /\ is_end t.1 t.2 = true /\ conn (owns g p) s t).
Proof.
  revert vis q. induction fuel as [|fuel IH]; intros vis q Hinv Hrun; [done|].
  destruct q as [|[r c] q].
  - simpl in Hrun. injection Hrun as <-. split; [done|].
    intros (s & t & Hs & Hend & Hc). exfalso.
    assert (visited vis t) as Ht.
    { eapply closed_reach; eauto. by apply (inv_seeds _ _ Hinv). }
    destruct (inv_closed _ _ Hinv t Ht) as [Hin|[He _]].
    + by apply elem_of_nil in Hin.
    + congruence.
  - rewrite bfs_cons in Hrun. destruct (is_end r c) eqn:Hend.
    + injection Hrun as <-. split; [|done]. intros _.
      destruct (inv_sound _ _ Hinv (r, c)) as (s & Hs & Hc).
      { apply (inv_queue _ _ Hinv). by left. }
      exists s, (r, c). done.
    + eapply IH; [|exact Hrun]. by apply bfs_step_inv.
Qed.

End Search.

(** ** The seeding loops *)

Section Seeding.
Variable g : HexGame.t.
Variable mkc : Z -> Z * Z.
Variable col : Z.

Let n := HexGame.size g.

Hypothesis mkc_bounds :
  forall i, 0 <= i < n -> in_bounds n (mkc i).1 (mkc i).2 = true.

Definition seed_gen (st : list (list bool) * list (Z * Z)) (i : Z) :=
  if get2 EMPTY (HexGame.board g) (mkc i).1 (mkc i).2 =? col
  then HexGame.mark st (mkc i) else st.

Definition is_seed (done : list Z) (x : Z * Z) : Prop :=
  exists i, i ∈ done /\ x = mkc i /\ get2 EMPTY (HexGame.board g) x.1 x.2 = col.

Record seed_inv (done : list Z) (vis : list (list bool)) (q : list (Z * Z)) : Prop := {
  sd_shape : shape (Z.to_nat n) vis;
  sd_vis : forall x, visited g vis x <-> x ∈ q;
  sd_queue : forall x, x ∈ q <-> is_seed done x;
  sd_len : (length q <= length done)%nat
}.

Lemma seed_step done vis q i :
  0 <= i < n -> seed_inv done vis q ->
  seed_inv (done ++ [i]) (seed_gen (vis, q) i).1 (seed_gen (vis, q) i).2.
Proof.
  intros Hi [Hs Hv Hq Hl]. unfold seed_gen.
  destruct (get2 EMPTY (HexGame.board g) (mkc i).1 (mkc i).2 =? col) eqn:E.
  - apply Z.eqb_eq in E. unfold HexGame.mark. simpl. split.
    + by apply shape_set2.
    + intros x. rewrite visited_set2 by auto.
      rewrite elem_of_app, list_elem_of_singleton, Hv. done.
    + intros x. rewrite elem_of_app, list_elem_of_singleton, Hq. split.
      * intros [(j & Hj & -> & Hc)| ->].
        -- exists j. split; [|done]. apply elem_of_app. by left.
        -- exists i. split; [|done]. apply elem_of_app. right. by apply list_elem_of_singleton.
      * intros (j & Hj & -> & Hc). apply elem_of_app in Hj as [Hj|Hj].
        -- left. by exists j.
        -- apply list_elem_of_singleton in Hj. subst j. by right.
    + rewrite !length_app. simpl. lia.
  - apply Z.eqb_neq in E. simpl. split; try done.
    + intros x. rewrite Hq. split.
      * intros (j & Hj & -> & Hc). exists j. split; [|done]. apply elem_of_app. by left.
      * intros (j & Hj & -> & Hc). apply elem_of_app in Hj as [Hj|Hj].
        -- by exists j.
        -- apply list_elem_of_singleton in Hj. subst j. done.
    + rewrite length_app. simpl. lia.
Qed.

Lemma seed_all l done vis q :
  (forall i, i ∈ l -> 0 <= i < n) -> seed_inv done vis q ->
  seed_inv (done ++ l) (fold_left seed_gen l (vis, q)).1
           (fold_left seed_gen l (vis, q)).2.
Proof.
  revert done vis q. induction l as [|i l IH]; intros done vis q His Hinv.
  - simpl. by rewrite app_nil_r.
  - simpl. pose proof (seed_step done vis q i (His i (list_elem_of_here _ _)) Hinv) as Hst.
    destruct (seed_gen (vis, q) i) as [vis' q'].
    replace (done ++ i :: l) with ((done ++ [i]) ++ l) by (by rewrite <- app_assoc).
    apply IH; [|done]. intros j Hj. apply His. by right.
Qed.

Lemma seed_init :
  seed_inv [] (replicate (Z.to_nat n) (replicate (Z.to_nat n) false)) [].
Proof.
  split.
  - apply shape_replicate.
  - intros x. split.
    + intros [Hb Hv]. apply in_bounds_range in Hb.
      rewrite get2_replicate in Hv by (fold n; lia). done.
    + intros H. by apply elem_of_nil in H.
  - intros x. split.
    + intros H. by apply elem_of_nil in H.
    + intros (i & Hi & _). by apply elem_of_nil in Hi.
  - done.
Qed.

Lemma seed_range :
  seed_inv (range n)
    (fold_left seed_gen (range n)
       (replicate (Z.to_nat n) (replicate (Z.to_nat n) false), [])).1
    (fold_left seed_gen (range n)
       (replicate (Z.to_nat n) (replicate (Z.to_nat n) false), [])).2.
Proof.
  apply (seed_all (range n) []); [|apply seed_init].
  intros i Hi. unfold range in Hi. apply elem_of_seqZ in Hi. lia.
Qed.

End Seeding.

(** ** [has_won] decides the existence of a chain *)

Section HasWon.
Variable g : HexGame.t.
Variable p : Z.
Variable mkc : Z -> Z * Z.
Variable is_end : Z -> Z -> bool.

Let n := HexGame.size g.

Hypothesis mkc_bounds :
  forall i, 0 <= i < n -> in_bounds n (mkc i).1 (mkc i).2 = true.

Let st0 :=
  fold_left (seed_gen g mkc p) (range n)
    (replicate (Z.to_nat n) (replicate (Z.to_nat n) false), []).

Lemma seeded_inv : bfs_inv g p is_end (is_seed g mkc p (range n)) st0.1 st0.2.
Proof.
  destruct (seed_range g mkc p mkc_bounds) as [Hs Hv Hq Hl].
  fold n in Hs, Hv, Hq, Hl. fold st0 in Hs, Hv, Hq, Hl.
  split.
  - done.
  - intros x Hx. by apply Hv.
  - intros x Hx. exists x. apply Hv, Hq in Hx. split; [done|].
    apply conn_refl. destruct Hx as (i & Hi & -> & Hc). split; [|done].
    apply mkc_bounds. unfold range in Hi. apply elem_of_seqZ in Hi. lia.
  - intros s Hseed. by apply Hv, Hq.
  - intros x Hx. left. by apply Hv.
Qed.

Lemma seeded_fuel : (unvis st0.1 + length st0.2 < HexGame.has_won_fuel g)%nat.
Proof.
  destruct (seed_range g mkc p mkc_bounds) as [Hs Hv Hq Hl].
  fold n in Hs, Hv, Hq, Hl. fold st0 in Hs, Hv, Hq, Hl.
  pose proof (unvis_le _ _ Hs) as Hu.
  unfold range in Hl. rewrite length_seqZ in Hl.
  unfold HexGame.has_won_fuel. fold n. nia.
Qed.

Lemma seeded_bfs :
  exists b, HexGame.bfs (HexGame.has_won_fuel g) g p is_end st0.1 st0.2 = Some b /\
    (b = true <->
     exists s t, is_seed g mkc p (range n) s /\ is_end t.1 t.2 = true /\
                 conn (owns g p) s t).
Proof.
  destruct (bfs_total g p is_end (HexGame.has_won_fuel g) st0.1 st0.2) as [b Hb].
  - apply (seed_range g mkc p mkc_bounds).
  - apply seeded_fuel.
  - exists b. split; [done|].
    exact (bfs_correct g p is_end _ _ _ _ b seeded_inv Hb).
Qed.
End HasWon.

Lemma has_won_run_blue g :
  HexGame.has_won_run g BLUE =
  let n := HexGame.size g in
  let st := fold_left (seed_gen g (fun r => (r, 0)) BLUE) (range n)
              (replicate (Z.to_nat n) (replicate (Z.to_nat n) false), []) in
  HexGame.bfs (HexGame.has_won_fuel g) g BLUE (fun r c => c =? n - 1) st.1 st.2.
Proof. reflexivity. Qed.

Lemma has_won_run_red g :
  HexGame.has_won_run g RED =
  let n := HexGame.size g in
  let st := fold_left (seed_gen g (fun c => (0, c)) RED) (range n)
              (replicate (Z.to_nat n) (replicate (Z.to_nat n) false), []) in
  HexGame.bfs (HexGame.has_won_fuel g) g RED (fun r c => r =? n - 1) st.1 st.2.
Proof. reflexivity. Qed.

Lemma has_won_run_spec g p :
  p = RED \/ p = BLUE ->
  exists b, HexGame.has_won_run g p = Some b /\ (b = true <-> chain g p).
Proof.
  intros [-> | ->].
  - rewrite has_won_run_red. cbv zeta.
    destruct (seeded_bfs g RED (fun c => (0, c)) (fun r c => r =? HexGame.size g - 1))
      as (b & Hb & Hiff).
    { intros i Hi. simpl. unfold in_bounds. rewrite !andb_true_iff. lia. }
    exists b. split; [exact Hb|]. rewrite Hiff. unfold chain. split.
    + intros (s & t & (i & Hi & -> & Hc) & Hend & Hconn).
      exists (0, i), t. split; [done|]. split; [|done].
      unfold goal_edge. simpl. lia.
    + intros (a & b' & Ha & Hb' & Hconn). exists a, b'.
      unfold start_edge in Ha. unfold goal_edge in Hb'. simpl in Ha, Hb'.
      split; [|split; [lia|done]].
      pose proof (conn_head _ _ _ Hconn) as [Hin Hcol].
      apply in_bounds_range in Hin.
      exists a.2. split; [|split; [|done]].
      * unfold range. apply elem_of_seqZ. lia.
      * destruct a; simpl in *. by subst.
  - rewrite has_won_run_blue. cbv zeta.
    destruct (seeded_bfs g BLUE (fun r => (r, 0)) (fun r c => c =? HexGame.size g - 1))
      as (b & Hb & Hiff).
    { intros i Hi. simpl. unfold in_bounds. rewrite !andb_true_iff. lia. }
    exists b. split; [exact Hb|]. rewrite Hiff. unfold chain. split.
    + intros (s & t & (i & Hi & -> & Hc) & Hend & Hconn).
      exists (i, 0), t. split; [done|]. split; [|done].
      unfold goal_edge. simpl. lia.
    + intros (a & b' & Ha & Hb' & Hconn). exists a, b'.
      unfold start_edge in Ha. unfold goal_edge in Hb'. simpl in Ha, Hb'.
      split; [|split; [lia|done]].
      pose proof (conn_head _ _ _ Hconn) as [Hin Hcol].
      apply in_bounds_range in Hin.
      exists a.1. split; [|split; [|done]].
      * unfold range. apply elem_of_seqZ. lia.
      * destruct a; simpl in *. by subst.
Qed.

Lemma has_won_chain g p :
  p = RED \/ p = BLUE -> (HexGame.has_won g p = true <-> chain g p).
Proof.
  intros Hp. destruct (has_won_run_spec g p Hp) as (b & Hrun & Hiff).
  unfold HexGame.has_won. rewrite Hrun. done.
Qed.

(** ** The game of Y and its reduction

    A Y board of size [n] is the triangle of cells [(i, j)] with
    [0 <= i], [0 <= j], [i + j <= n - 1], under the same six-neighbour
    adjacency.  A colour wins when one connected group of its cells touches
    the three sides.  The reduction of Schensted and Titus maps a colouring
    of the board of size [n + 1] to one of the board of size [n], keeping
    the winner; it gives both halves of the Hex theorem. *)

Definition tri (n : Z) (x : Z * Z) : Prop :=
  0 <= x.1 /\ 0 <= x.2 /\ x.1 + x.2 <= n - 1.

Definition ycell (n : Z) (col : Z * Z -> bool) (x : Z * Z) : Prop :=
  tri n x /\ col x = true.

Definition winY (n : Z) (col : Z * Z -> bool) : Prop :=
  exists a b c, a.1 = 0 /\ b.2 = 0 /\ c.1 + c.2 = n - 1 /\
    conn (ycell n col) a b /\ conn (ycell n col) a c.

Definition maj (a b c : bool) : bool := (a && b) || (a && c) || (b && c).

Definition reduce (col : Z * Z -> bool) (x : Z * Z) : bool :=
  maj (col x) (col (x.1 + 1, x.2)) (col (x.1, x.2 + 1)).

(** The three cells of the upward triangle whose corner is [u]. *)
Definition inT (u x : Z * Z) : Prop :=
  x = u \/ x = (u.1 + 1, u.2) \/ x = (u.1, u.2 + 1).

Lemma adj_iff a b :
  adj a b <->
  (b.1 = a.1 - 1 /\ b.2 = a.2) \/ (b.1 = a.1 - 1 /\ b.2 = a.2 + 1) \/
  (b.1 = a.1 /\ b.2 = a.2 - 1) \/ (b.1 = a.1 /\ b.2 = a.2 + 1) \/
  (b.1 = a.1 + 1 /\ b.2 = a.2 - 1) \/ (b.1 = a.1 + 1 /\ b.2 = a.2).
Proof.
  unfold adj, NEI. simpl. split.
  - intros H. repeat destruct H as [H|H]; try (injection H as ? ?; lia). done.
  - intros H.
    repeat destruct H as [H|H]; destruct H as [H1 H2];
      [left|right;left|right;right;left|right;right;right;left
      |right;right;right;right;left|right;right;right;right;right;left];
      f_equal; lia.
Qed.

Lemma adj_sym a b : adj a b -> adj b a.
Proof. rewrite !adj_iff. lia. Qed.

Lemma conn_sym P a b : conn P a b -> conn P b a.
Proof.
  induction 1 as [a Ha|a b c Ha Hadj Hbc IH]; [by apply conn_refl|].
  eapply conn_snoc; [exact IH|by apply adj_sym|done].
Qed.

Lemma conn_mono (P Q : Z * Z -> Prop) a b :
  (forall x, P x -> Q x) -> conn P a b -> conn Q a b.
Proof.
  intros HPQ. induction 1 as [a Ha|a b c Ha Hadj _ IH].
  - apply conn_refl. auto.
  - eapply conn_step; eauto.
Qed.

Lemma conn_edge (P : Z * Z -> Prop) a b : P a -> P b -> adj a b -> conn P a b.
Proof. intros Ha Hb Hadj. eapply conn_step; eauto. by apply conn_refl. Qed.

Lemma conn_first P a b :
  conn P a b -> a = b \/ exists a1, adj a a1 /\ P a1.
Proof.
  destruct 1 as [a Ha|a a1 b Ha Hadj Hc]; [by left|right].
  exists a1. split; [done|]. by apply conn_head in Hc.
Qed.

Lemma winY_ext n col col' :
  (forall x, col x = col' x) -> winY n col -> winY n col'.
Proof.
  intros Hext (a & b & c & Ha & Hb & Hc & Hab & Hac).
  exists a, b, c. repeat split; try done.
  - eapply conn_mono; [|exact Hab]. intros x [Ht Hx]. split; [done|]. by rewrite <- Hext.
  - eapply conn_mono; [|exact Hac]. intros x [Ht Hx]. split; [done|]. by rewrite <- Hext.
Qed.

Section Reduction.
Variable n : Z.
Variable col : Z * Z -> bool.
Hypothesis n_pos : 1 <= n.

Lemma inT_tri u x : tri n u -> inT u x -> tri (n + 1) x.
Proof.
  unfold tri, inT. intros Hu [->|[->| ->]]; simpl; lia.
Qed.

Lemma inT_pick u :
  reduce col u = true -> exists x, inT u x /\ col x = true.
Proof.
  unfold reduce, maj, inT. intros H.
  destruct (col u) eqn:E1; [exists u; auto|].
  destruct (col (u.1 + 1, u.2)) eqn:E2; [eauto|]. simpl in H. discriminate.
Qed.

Lemma inT_conn u x y :
  tri n u -> inT u x -> inT u y -> col x = true -> col y = true ->
  conn (ycell (n + 1) col) x y.
Proof.
  intros Hu Hx Hy Hcx Hcy.
  assert (ycell (n + 1) col x) as Px by (split; [exact (inT_tri _ _ Hu Hx)|done]).
  assert (ycell (n + 1) col y) as Py by (split; [exact (inT_tri _ _ Hu Hy)|done]).
  destruct (decide (x = y)) as [->|Hne]; [by apply conn_refl|].
  apply conn_edge; [done|done|].
  apply adj_iff. destruct u as [i j]. unfold inT in Hx, Hy. simpl in *.
  destruct Hx as [->|[->| ->]], Hy as [->|[->| ->]]; simpl; try lia; done.
Qed.

(** Forward offsets: the triangles of [u] and of [u + d] meet. *)
Lemma inT_link_fwd u v :
  tri n u -> tri n v ->
  (v = (u.1 + 1, u.2) \/ v = (u.1, u.2 + 1) \/ v = (u.1 + 1, u.2 - 1)) ->
  reduce col u = true -> reduce col v = true ->
  exists x y, inT u x /\ inT v y /\ col x = true /\ col y = true /\
              conn (ycell (n + 1) col) x y.
Proof.
  intros Hu Hv Hd Ru Rv. destruct u as [i j]. simpl in Hd.
  assert (forall x y, inT (i, j) x -> inT v y -> col x = true -> col y = true ->
            (x = y \/ adj x y) ->
            exists x y, inT (i, j) x /\ inT v y /\ col x = true /\ col y = true /\
                        conn (ycell (n + 1) col) x y) as Hfin.
  { intros x y Hx Hy Hcx Hcy Hxy. exists x, y. repeat split; try done.
    assert (ycell (n + 1) col x) as Px by (split; [exact (inT_tri _ _ Hu Hx)|done]).
    assert (ycell (n + 1) col y) as Py by (split; [exact (inT_tri _ _ Hv Hy)|done]).
    destruct Hxy as [->|Hadj]; [by apply conn_refl|by apply conn_edge]. }
  unfold reduce, maj in Ru, Rv. unfold inT in Hfin. unfold inT.
  destruct Hd as [->|[->| ->]]; simpl in *.
  - (* v = (i+1, j): the shared cell is v *)
    destruct (col (i + 1, j)) eqn:S.
    + apply (Hfin (i + 1, j) (i + 1, j)); auto.
    + apply (Hfin (i, j + 1) (i + 1, j + 1)); simpl; auto.
      * destruct (col (i, j)), (col (i, j + 1)); simpl in Ru; done.
      * destruct (col (i + 1 + 1, j)), (col (i + 1, j + 1)); simpl in Rv; done.
      * right. apply adj_iff. simpl. lia.
  - (* v = (i, j+1) *)
    destruct (col (i, j + 1)) eqn:S.
    + apply (Hfin (i, j + 1) (i, j + 1)); auto.
    + apply (Hfin (i + 1, j) (i + 1, j + 1)); simpl; auto.
      * destruct (col (i, j)), (col (i + 1, j)); simpl in Ru; done.
      * destruct (col (i + 1, j + 1)), (col (i, j + 1 + 1)); simpl in Rv; done.
      * right. apply adj_iff. simpl. lia.
  - (* v = (i+1, j-1): the shared cell is (i+1, j) *)
    replace (j - 1 + 1) with j in * by lia.
    destruct (col (i + 1, j)) eqn:S.
    + apply (Hfin (i + 1, j) (i + 1, j)); auto.
    + apply (Hfin (i, j) (i + 1, j - 1)); simpl; auto.
      * destruct (col (i, j)), (col (i, j + 1)); simpl in Ru; done.
      * destruct (col (i + 1, j - 1)), (col (i + 1 + 1, j - 1)); simpl in Rv; done.
      * right. apply adj_iff. simpl. lia.
Qed.

Lemma inT_link u v :
  tri n u -> tri n v -> adj u v ->
  reduce col u = true -> reduce col v = true ->
  exists x y, inT u x /\ inT v y /\ col x = true /\ col y = true /\
              conn (ycell (n + 1) col) x y.
Proof.
  intros Hu Hv Hadj Ru Rv. apply adj_iff in Hadj.
  destruct u as [i j], v as [i' j']. simpl in Hadj.
  assert ((i', j') = (i + 1, j) \/ (i', j') = (i, j + 1) \/ (i', j') = (i + 1, j - 1)
          \/ (i, j) = (i' + 1, j') \/ (i, j) = (i', j' + 1) \/ (i, j) = (i' + 1, j' - 1))
    as Hcases.
  { destruct Hadj as [[-> ->]|[[-> ->]|[[-> ->]|[[-> ->]|[[-> ->]|[-> ->]]]]]].
    - right; right; right; left. f_equal; lia.
    - right; right; right; right; right. f_equal; lia.
    - right; right; right; right; left. f_equal; lia.
    - right; left. done.
    - right; right; left. done.
    - left. done. }
  destruct Hcases as [H|[H|[H|H]]].
  - apply inT_link_fwd; auto.
  - apply inT_link_fwd; auto.
  - apply inT_link_fwd; auto.
  - destruct (inT_link_fwd (i', j') (i, j) Hv Hu) as (y & x & Hy & Hx & Hcy & Hcx & Hc);
      auto.
    exists x, y. repeat split; try done. by apply conn_sym.
Qed.

Lemma up_conn u v :
  conn (ycell n (reduce col)) u v ->
  forall x y, inT u x -> col x = true -> inT v y -> col y = true ->
              conn (ycell (n + 1) col) x y.
Proof.
  induction 1 as [u [Hu Ru]|u w v [Hu Ru] Hadj Hwv IH]; intros x y Hx Hcx Hy Hcy.
  - by apply (inT_conn u).
  - pose proof (conn_head _ _ _ Hwv) as [Hw Rw].
    destruct (inT_link u w Hu Hw Hadj Ru Rw) as (x' & y' & Hx' & Hy' & Hcx' & Hcy' & Hc).
    eapply conn_trans; [by apply (inT_conn u x x')|].
    eapply conn_trans; [exact Hc|]. by apply IH.
Qed.

Lemma reduce_up : winY n (reduce col) -> winY (n + 1) col.
Proof.
  intros (a & b & c & Ha & Hb & Hc & Hab & Hac).
  pose proof (conn_head _ _ _ Hab) as [Hta Rea].
  pose proof (conn_last _ _ _ Hab) as [Htb Reb].
  pose proof (conn_last _ _ _ Hac) as [Htc Rec].
  (* a cell of the colour on each side *)
  assert (exists x, inT a x /\ col x = true /\ x.1 = 0) as (x & Hx & Hcx & Hx0).
  { unfold reduce, maj in Rea. destruct a as [i j]. simpl in *. subst i.
    destruct (col (0, j)) eqn:E1.
    - exists (0, j). unfold inT. auto.
    - exists (0, j + 1). unfold inT. simpl. split; [auto|]. split; [|done].
      destruct (col (0 + 1, j)), (col (0, j + 1)); simpl in Rea; done. }
  assert (exists y, inT b y /\ col y = true /\ y.2 = 0) as (y & Hy & Hcy & Hy0).
  { unfold reduce, maj in Reb. destruct b as [i j]. simpl in *. subst j.
    destruct (col (i, 0)) eqn:E1.
    - exists (i, 0). unfold inT. auto.
    - exists (i + 1, 0). unfold inT. simpl. split; [auto|]. split; [|done].
      destruct (col (i + 1, 0)), (col (i, 0 + 1)); simpl in Reb; done. }
  assert (exists z, inT c z /\ col z = true /\ z.1 + z.2 = n + 1 - 1) as (z & Hz & Hcz & Hz0).
  { unfold reduce, maj in Rec. destruct c as [i j]. simpl in *.
    destruct (col (i + 1, j)) eqn:E1.
    - exists (i + 1, j). unfold inT. simpl. split; [auto|]. split; [done|lia].
    - exists (i, j + 1). unfold inT. simpl. split; [auto|]. split; [|lia].
      destruct (col (i, j)), (col (i, j + 1)); simpl in Rec; done. }
  exists x, y, z. repeat split; try done.
  - by apply (up_conn a b).
  - by apply (up_conn a c).
Qed.

(** The other direction: an edge of the large board lies in exactly one
    upward triangle, whose corner is a cell of the reduced board. *)
Definition rep (x u : Z * Z) : Prop :=
  tri n u /\ inT u x /\ reduce col u = true.

Lemma two_of_three u x y :
  inT u x -> inT u y -> x <> y -> col x = true -> col y = true ->
  reduce col u = true.
Proof.
  unfold inT, reduce, maj.
  intros [->|[->| ->]] [->|[->| ->]] Hne Hx Hy; try congruence;
    rewrite ?Hx, ?Hy; simpl; rewrite ?orb_true_r; try done;
    destruct (col _); done.
Qed.

Lemma edge_rep x y :
  ycell (n + 1) col x -> ycell (n + 1) col y -> adj x y ->
  exists u, rep x u /\ rep y u.
Proof.
  intros [Hx Hcx] [Hy Hcy] Hadj. apply adj_iff in Hadj.
  destruct x as [i j], y as [i' j']. unfold tri in Hx, Hy. simpl in *.
  assert (forall u, tri n u -> inT u (i, j) -> inT u (i', j') -> (i, j) <> (i', j') ->
            exists u, rep (i, j) u /\ rep (i', j') u) as Hfin.
  { intros u Hu H1 H2 Hne. exists u. unfold rep.
    pose proof (two_of_three u _ _ H1 H2 Hne Hcx Hcy). done. }
  destruct Hadj as [[-> ->]|[[-> ->]|[[-> ->]|[[-> ->]|[[-> ->]|[-> ->]]]]]].
  - apply (Hfin (i - 1, j)); unfold tri, inT; simpl.
    + lia.
    + right; left. f_equal; lia.
    + by left.
    + intros H. injection H as H. lia.
  - apply (Hfin (i - 1, j)); unfold tri, inT; simpl.
    + lia.
    + right; left. f_equal; lia.
    + right; right. done.
    + intros H. injection H as H. lia.
  - apply (Hfin (i, j - 1)); unfold tri, inT; simpl.
    + lia.
    + right; right. f_equal; lia.
    + by left.
    + intros H. injection H as H. lia.
  - apply (Hfin (i, j)); unfold tri, inT; simpl.
    + lia.
    + by left.
    + right; right. done.
    + intros H. injection H as H. lia.
  - apply (Hfin (i, j - 1)); unfold tri, inT; simpl.
    + lia.
    + right; right. f_equal; lia.
    + right; left. done.
    + intros H. injection H as H. lia.
  - apply (Hfin (i, j)); unfold tri, inT; simpl.
    + lia.
    + by left.
    + right; left. done.
    + intros H. injection H as H. lia.
Qed.

Lemma rep_near x u v :
  rep x u -> rep x v -> conn (ycell n (reduce col)) u v.
Proof.
  intros (Hu & Hxu & Ru) (Hv & Hxv & Rv).
  destruct (decide (u = v)) as [->|Hne]; [by apply conn_refl|].
  apply conn_edge; [done|done|]. apply adj_iff.
  destruct u as [i j], v as [i' j'], x as [a b]. unfold inT in *. simpl in *.
  destruct Hxu as [H1|[H1|H1]], Hxv as [H2|[H2|H2]];
    injection H1 as -> ->; injection H2 as ? ?;
    try lia; exfalso; apply Hne; f_equal; lia.
Qed.

Lemma down_conn x y :
  conn (ycell (n + 1) col) x y ->
  forall u v, rep x u -> rep y v -> conn (ycell n (reduce col)) u v.
Proof.
  induction 1 as [x Hx|x w y Hx Hadj Hwy IH]; intros u v Hu Hv.
  - by apply (rep_near x).
  - pose proof (conn_head _ _ _ Hwy) as Hw.
    destruct (edge_rep x w Hx Hw Hadj) as (t & Hxt & Hwt).
    eapply conn_trans; [by apply (rep_near x u t)|]. by apply IH.
Qed.

Lemma rep_side1 x u : rep x u -> x.1 = 0 -> u.1 = 0.
Proof.
  intros ([Hu1 _] & Hx & _) H0. unfold inT in Hx.
  destruct Hx as [->|[->| ->]]; simpl in *; lia.
Qed.

Lemma rep_side2 x u : rep x u -> x.2 = 0 -> u.2 = 0.
Proof.
  intros ((_ & Hu2 & _) & Hx & _) H0. unfold inT in Hx.
  destruct Hx as [->|[->| ->]]; simpl in *; lia.
Qed.

Lemma rep_side3 x u : rep x u -> x.1 + x.2 = n + 1 - 1 -> u.1 + u.2 = n - 1.
Proof.
  intros ((_ & _ & Hu3) & Hx & _) H0. unfold inT in Hx.
  destruct Hx as [->|[->| ->]]; simpl in *; lia.
Qed.

Lemma has_rep x y :
  conn (ycell (n + 1) col) x y -> x <> y -> exists u, rep x u.
Proof.
  intros Hc Hne. pose proof (conn_head _ _ _ Hc) as Hx.
  destruct (conn_first _ _ _ Hc) as [?|(x1 & Hadj & Hx1)]; [done|].
  destruct (edge_rep x x1 Hx Hx1 Hadj) as (u & Hu & _). eauto.
Qed.

Lemma reduce_down : winY (n + 1) col -> winY n (reduce col).
Proof.
  intros (a & b & c & Ha & Hb & Hc & Hab & Hac).
  assert (exists u, rep a u) as [ua Hua].
  { destruct (decide (a = c)) as [->|Hne].
    - apply (has_rep c b); [done|]. intros ->. lia.
    - by apply (has_rep a c). }
  assert (exists u, rep b u) as [ub Hub].
  { destruct (decide (b = a)) as [->|Hne].
    - apply (has_rep a c); [done|]. intros ->. lia.
    - apply (has_rep b a); [by apply conn_sym|done]. }
  assert (exists u, rep c u) as [uc Huc].
  { destruct (decide (c = a)) as [->|Hne].
    - apply (has_rep a b); [done|]. intros ->. lia.
    - apply (has_rep c a); [by apply conn_sym|done]. }
  exists ua, ub, uc. split; [by apply (rep_side1 a)|].
  split; [by apply (rep_side2 b)|]. split; [by apply (rep_side3 c)|].
  split; [by apply (down_conn a b)|by apply (down_conn a c)].
Qed.

End Reduction.

Lemma reduce_negb col x :
  reduce (fun y => negb (col y)) x = negb (reduce col x).
Proof.
  unfold reduce, maj.
  destruct (col x), (col (x.1 + 1, x.2)), (col (x.1, x.2 + 1)); reflexivity.
Qed.

Lemma winY_one col : winY 1 col <-> col (0, 0) = true.
Proof.
  split.
  - intros (a & b & c & Ha & Hb & Hc & Hab & Hac).
    pose proof (conn_head _ _ _ Hab) as [Ht Hcol].
    destruct a as [i j]. unfold tri in Ht. simpl in *.
    replace (0, 0) with (i, j); [done|]. f_equal; lia.
  - intros H. exists (0, 0), (0, 0), (0, 0).
    assert (ycell 1 col (0, 0)) by (split; [unfold tri; simpl; lia|done]).
    repeat split; try done; by apply conn_refl.
Qed.

(** On a Y board of any size, with every cell coloured, exactly one of
    the two colours wins. *)
Lemma Y_one_winner (k : nat) col :
  winY (Z.of_nat k + 1) col <-> ~ winY (Z.of_nat k + 1) (fun x => negb (col x)).
Proof.
  revert col. induction k as [|k IH]; intros col.
  - simpl. rewrite !winY_one. destruct (col (0, 0)); simpl; split; done.
  - replace (Z.of_nat (S k) + 1) with ((Z.of_nat k + 1) + 1) by lia.
    assert (1 <= Z.of_nat k + 1) as Hpos by lia.
    split.
    + intros Hw Hw'. apply reduce_down in Hw; [|done]. apply reduce_down in Hw'; [|done].
      apply IH in Hw. apply Hw.
      eapply winY_ext; [|exact Hw']. intros x. apply reduce_negb.
    + intros Hn. apply reduce_up. apply IH. intros Hw'. apply Hn.
      apply reduce_up.
      eapply winY_ext; [|exact Hw']. intros x. symmetry. apply reduce_negb.
Qed.

(** ** The Hex theorem, from the Y theorem

    The [N] x [N] rhombus sits in the corner of the Y board of size
    [2N - 1]; the cells below it take the first colour, the cells to its
    right the second. *)

Definition in_sq (N : Z) (x : Z * Z) : Prop := 0 <= x.1 < N /\ 0 <= x.2 < N.

Definition sq_cell (N : Z) (f : Z * Z -> bool) (x : Z * Z) : Prop :=
  in_sq N x /\ f x = true.

Definition crossing_tb (N : Z) (f : Z * Z -> bool) : Prop :=
  exists a b, a.1 = 0 /\ b.1 = N - 1 /\ conn (sq_cell N f) a b.

Definition crossing_lr (N : Z) (f : Z * Z -> bool) : Prop :=
  exists a b, a.2 = 0 /\ b.2 = N - 1 /\ conn (sq_cell N f) a b.

Definition hex_to_y (N : Z) (f : Z * Z -> bool) (x : Z * Z) : bool :=
  if x.1 <? N then (if x.2 <? N then f x else false) else true.

Section Embedding.
Variable N : Z.
Variable f : Z * Z -> bool.
Hypothesis N_pos : 1 <= N.

Let Y1 := ycell (2 * N - 1) (hex_to_y N f).
Let Y2 := ycell (2 * N - 1) (fun x => negb (hex_to_y N f x)).

Lemma sq_Y1 x : sq_cell N f x -> Y1 x.
Proof.
  intros [[H1 H2] Hf]. split; [unfold tri; lia|].
  unfold hex_to_y. destruct (Z.ltb_spec x.1 N); [|lia].
  destruct (Z.ltb_spec x.2 N); [done|lia].
Qed.

Lemma sq_Y2 x : sq_cell N (fun y => negb (f y)) x -> Y2 x.
Proof.
  intros [[H1 H2] Hf]. split; [unfold tri; lia|].
  unfold hex_to_y. destruct (Z.ltb_spec x.1 N); [|lia].
  destruct (Z.ltb_spec x.2 N); [done|lia].
Qed.

Lemma below_Y1 i j : N <= i -> 0 <= j -> i + j <= 2 * N - 2 -> Y1 (i, j).
Proof.
  intros. split; [unfold tri; simpl; lia|].
  unfold hex_to_y. simpl. destruct (Z.ltb_spec i N); [lia|done].
Qed.

Lemma right_Y2 i j : 0 <= i -> N <= j -> i + j <= 2 * N - 2 -> Y2 (i, j).
Proof.
  intros. split; [unfold tri; simpl; lia|].
  unfold hex_to_y. simpl. destruct (Z.ltb_spec i N); [|lia].
  destruct (Z.ltb_spec j N); [lia|done].
Qed.

Lemma below_down (k : nat) i :
  N <= i -> i + Z.of_nat k <= 2 * N - 2 -> conn Y1 (i, Z.of_nat k) (i, 0).
Proof.
  intros Hi. induction k as [|k IH]; intros Hk.
  - apply conn_refl. apply below_Y1; lia.
  - eapply conn_step; [apply below_Y1; lia| |apply IH; lia].
    apply adj_iff. simpl. lia.
Qed.

Lemma below_along (k : nat) :
  N + Z.of_nat k <= 2 * N - 2 -> conn Y1 (N, 0) (N + Z.of_nat k, 0).
Proof.
  induction k as [|k IH]; intros Hk.
  - replace (N + Z.of_nat 0) with N by lia. apply conn_refl. apply below_Y1; lia.
  - eapply conn_snoc; [apply IH; lia| |apply below_Y1; lia].
    apply adj_iff. simpl. lia.
Qed.

Lemma right_up (k : nat) j :
  N <= j -> Z.of_nat k + j <= 2 * N - 2 -> conn Y2 (Z.of_nat k, j) (0, j).
Proof.
  intros Hj. induction k as [|k IH]; intros Hk.
  - apply conn_refl. apply right_Y2; lia.
  - eapply conn_step; [apply right_Y2; lia| |apply IH; lia].
    apply adj_iff. simpl. lia.
Qed.

Lemma right_along (k : nat) :
  N + Z.of_nat k <= 2 * N - 2 -> conn Y2 (0, N) (0, N + Z.of_nat k).
Proof.
  induction k as [|k IH]; intros Hk.
  - replace (N + Z.of_nat 0) with N by lia. apply conn_refl. apply right_Y2; lia.
  - eapply conn_snoc; [apply IH; lia| |apply right_Y2; lia].
    apply adj_iff. simpl. lia.
Qed.

Lemma tb_to_Y : crossing_tb N f -> winY (2 * N - 1) (hex_to_y N f).
Proof.
  intros (a & b & Ha & Hb & Hab).
  pose proof (conn_head _ _ _ Hab) as [[Ha1 Ha2] _].
  pose proof (conn_last _ _ _ Hab) as [[Hb1 Hb2] _].
  pose proof (conn_mono _ Y1 _ _ sq_Y1 Hab) as Hab'.
  destruct (decide (N = 1)) as [HN|HN].
  - exists a, a, a. pose proof (conn_head _ _ _ Hab') as Hya.
    repeat split; try lia; by apply conn_refl.
  - assert (conn Y1 a (N, 0)) as HaN.
    { destruct b as [bi bj]. simpl in *. subst bi.
      destruct (decide (bj = 0)) as [->|Hbj].
      - eapply conn_snoc; [exact Hab'| |apply below_Y1; lia].
        apply adj_iff. simpl. lia.
      - eapply conn_trans; [eapply conn_snoc; [exact Hab'| |]|].
        + instantiate (1 := (N, bj - 1)). apply adj_iff. simpl. lia.
        + apply below_Y1; lia.
        + replace (bj - 1) with (Z.of_nat (Z.to_nat (bj - 1))) by lia.
          apply below_down; lia. }
    exists a, (N, 0), (2 * N - 2, 0). simpl.
    repeat split; try lia; [done|].
    eapply conn_trans; [exact HaN|].
    replace (2 * N - 2) with (N + Z.of_nat (Z.to_nat (N - 2))) by lia.
    apply below_along. lia.
Qed.

Lemma lr_to_Y :
  crossing_lr N (fun y => negb (f y)) ->
  winY (2 * N - 1) (fun x => negb (hex_to_y N f x)).
Proof.
  intros (a & b & Ha & Hb & Hab).
  pose proof (conn_head _ _ _ Hab) as [[Ha1 Ha2] _].
  pose proof (conn_last _ _ _ Hab) as [[Hb1 Hb2] _].
  pose proof (conn_mono _ Y2 _ _ sq_Y2 Hab) as Hab'.
  destruct (decide (N = 1)) as [HN|HN].
  - exists a, a, a. pose proof (conn_head _ _ _ Hab') as Hya.
    repeat split; try lia; by apply conn_refl.
  - assert (conn Y2 a (0, N)) as HaN.
    { destruct b as [bi bj]. simpl in *. subst bj.
      destruct (decide (bi = 0)) as [->|Hbi].
      - eapply conn_snoc; [exact Hab'| |apply right_Y2; lia].
        apply adj_iff. simpl. lia.
      - eapply conn_trans; [eapply conn_snoc; [exact Hab'| |]|].
        + instantiate (1 := (bi - 1, N)). apply adj_iff. simpl. lia.
        + apply right_Y2; lia.
        + replace (bi - 1) with (Z.of_nat (Z.to_nat (bi - 1))) by lia.
          apply right_up; lia. }
    exists (0, N), a, (0, 2 * N - 2). simpl.
    repeat split; try lia; [by apply conn_sym|].
    replace (2 * N - 2) with (N + Z.of_nat (Z.to_nat (N - 2))) by lia.
    apply right_along. lia.
Qed.

Lemma Y1_sq x : Y1 x -> x.1 <= N - 1 -> sq_cell N f x.
Proof.
  intros [Ht Hc] Hx. unfold tri in Ht. unfold hex_to_y in Hc.
  destruct (Z.ltb_spec x.1 N); [|lia].
  destruct (Z.ltb_spec x.2 N); [|done]. split; [unfold in_sq; lia|done].
Qed.

Lemma Y2_sq x : Y2 x -> x.2 <= N - 1 -> sq_cell N (fun y => negb (f y)) x.
Proof.
  intros [Ht Hc] Hx. unfold tri in Ht. unfold hex_to_y in Hc.
  destruct (Z.ltb_spec x.1 N); [|done].
  destruct (Z.ltb_spec x.2 N); [|lia]. split; [unfold in_sq; lia|done].
Qed.

Lemma Y1_prefix x y :
  conn Y1 x y -> x.1 <= N - 1 -> N - 1 <= y.1 ->
  exists z, z.1 = N - 1 /\ conn (sq_cell N f) x z.
Proof.
  induction 1 as [x Hx|x w y Hx Hadj Hwy IH]; intros Hlo Hhi.
  - exists x. split; [lia|]. apply conn_refl. by apply Y1_sq.
  - destruct (decide (x.1 = N - 1)) as [E|E].
    + exists x. split; [done|]. apply conn_refl. by apply Y1_sq.
    + destruct IH as (z & Hz & Hc); [apply adj_iff in Hadj; lia|done|].
      exists z. split; [done|]. eapply conn_step; [by apply Y1_sq|done|done].
Qed.

Lemma Y2_prefix x y :
  conn Y2 x y -> x.2 <= N - 1 -> N - 1 <= y.2 ->
  exists z, z.2 = N - 1 /\ conn (sq_cell N (fun y => negb (f y))) x z.
Proof.
  induction 1 as [x Hx|x w y Hx Hadj Hwy IH]; intros Hlo Hhi.
  - exists x. split; [lia|]. apply conn_refl. by apply Y2_sq.
  - destruct (decide (x.2 = N - 1)) as [E|E].
    + exists x. split; [done|]. apply conn_refl. by apply Y2_sq.
    + destruct IH as (z & Hz & Hc); [apply adj_iff in Hadj; lia|done|].
      exists z. split; [done|]. eapply conn_step; [by apply Y2_sq|done|done].
Qed.

Lemma Y_to_tb : winY (2 * N - 1) (hex_to_y N f) -> crossing_tb N f.
Proof.
  intros (a & b & c & Ha & Hb & Hc & Hab & Hac).
  destruct (Y1_prefix a c Hac) as (z & Hz & Hconn).
  - lia.
  - pose proof (conn_last _ _ _ Hac) as [Ht Hcol]. unfold tri in Ht.
    unfold hex_to_y in Hcol.
    destruct (Z.ltb_spec c.1 N); [|lia].
    destruct (Z.ltb_spec c.2 N); [lia|done].
  - by exists a, z.
Qed.

Lemma Y_to_lr :
  winY (2 * N - 1) (fun x => negb (hex_to_y N f x)) ->
  crossing_lr N (fun y => negb (f y)).
Proof.
  intros (a & b & c & Ha & Hb & Hc & Hab & Hac).
  assert (conn Y2 b c) as Hbc.
  { eapply conn_trans; [apply conn_sym; exact Hab|exact Hac]. }
  destruct (Y2_prefix b c Hbc) as (z & Hz & Hconn).
  - lia.
  - pose proof (conn_last _ _ _ Hac) as [Ht Hcol]. unfold tri in Ht.
    unfold hex_to_y in Hcol.
    destruct (Z.ltb_spec c.1 N); [|done].
    destruct (Z.ltb_spec c.2 N); [lia|lia].
  - by exists b, z.
Qed.

(** On a rhombus with every cell in one of two colours, the first colour
    joins top and bottom exactly when the second does not join left and
    right. *)
Lemma hex_one_winner :
  crossing_tb N f <-> ~ crossing_lr N (fun y => negb (f y)).
Proof.
  pose proof (Y_one_winner (Z.to_nat (2 * N - 2)) (hex_to_y N f)) as HY.
  replace (Z.of_nat (Z.to_nat (2 * N - 2)) + 1) with (2 * N - 1) in HY by lia.
  split.
  - intros Htb Hlr. apply tb_to_Y in Htb. apply lr_to_Y in Hlr. by apply HY.
  - intros Hn. apply Y_to_tb. apply HY. intros Hw. apply Hn. by apply Y_to_lr.
Qed.

End Embedding.

Lemma crossing_lr_mono N (f h : Z * Z -> bool) :
  (forall x, in_sq N x -> f x = true -> h x = true) ->
  crossing_lr N f -> crossing_lr N h.
Proof.
  intros Hfh (a & b & Ha & Hb & Hab). exists a, b. split; [done|]. split; [done|].
  eapply conn_mono; [|exact Hab]. intros x [Hs Hx]. split; auto.
Qed.

Lemma crossing_tb_mono N (f h : Z * Z -> bool) :
  (forall x, in_sq N x -> f x = true -> h x = true) ->
  crossing_tb N f -> crossing_tb N h.
Proof.
  intros Hfh (a & b & Ha & Hb & Hab). exists a, b. split; [done|]. split; [done|].
  eapply conn_mono; [|exact Hab]. intros x [Hs Hx]. split; auto.
Qed.

(** A full rhombus has a winner. *)
Lemma hex_no_draw N f :
  1 <= N -> ~ crossing_tb N f -> crossing_lr N (fun y => negb (f y)).
Proof.
  intros HN Hno.
  pose proof (Y_one_winner (Z.to_nat (2 * N - 2))
                (fun x => negb (hex_to_y N f x))) as HY.
  replace (Z.of_nat (Z.to_nat (2 * N - 2)) + 1) with (2 * N - 1) in HY by lia.
  apply Y_to_lr; [done|]. apply HY. intros Hw. apply Hno. apply Y_to_tb; [done|].
  eapply winY_ext; [|exact Hw]. intros x. simpl. by rewrite negb_involutive.
Qed.

(** ** Chains on a game board *)

Lemma chain_red g :
  chain g RED <->
  crossing_tb (HexGame.size g) (fun x => get2 EMPTY (HexGame.board g) x.1 x.2 =? RED).
Proof.
  unfold chain, crossing_tb, start_edge, goal_edge. simpl.
  split; intros (a & b & Ha & Hb & Hab); exists a, b; (split; [done|]); (split; [done|]);
    (eapply conn_mono; [|exact Hab]); intros x.
  - intros [Hin Hc]. apply in_bounds_range in Hin. split; [done|]. by apply Z.eqb_eq.
  - intros [Hin Hc]. split; [by apply in_bounds_range|]. by apply Z.eqb_eq.
Qed.

Lemma chain_blue g :
  chain g BLUE <->
  crossing_lr (HexGame.size g) (fun x => get2 EMPTY (HexGame.board g) x.1 x.2 =? BLUE).
Proof.
  unfold chain, crossing_lr, start_edge, goal_edge. simpl.
  split; intros (a & b & Ha & Hb & Hab); exists a, b; (split; [done|]); (split; [done|]);
    (eapply conn_mono; [|exact Hab]); intros x.
  - intros [Hin Hc]. apply in_bounds_range in Hin. split; [done|]. by apply Z.eqb_eq.
  - intros [Hin Hc]. split; [by apply in_bounds_range|]. by apply Z.eqb_eq.
Qed.

Lemma chain_size g p : chain g p -> 1 <= HexGame.size g.
Proof.
  intros (a & b & _ & _ & Hab). apply conn_head in Hab as [Hin _].
  apply in_bounds_range in Hin. lia.
Qed.

(** At most one player has a chain, whatever the board holds. *)
Lemma chain_exclusive g : chain g RED -> chain g BLUE -> False.
Proof.
  intros Hr Hb. pose proof (chain_size g RED Hr) as HN.
  apply chain_red in Hr. apply chain_blue in Hb.
  apply (hex_one_winner _ _ HN) in Hr. apply Hr.
  eapply crossing_lr_mono; [|exact Hb].
  intros x _ Hx. simpl in *. apply Z.eqb_eq in Hx. rewrite Hx. reflexivity.
Qed.

(** On a board without an empty cell, one player has a chain. *)
Definition board_full (g : HexGame.t) : Prop :=
  forall r c, in_bounds (HexGame.size g) r c = true ->
    get2 EMPTY (HexGame.board g) r c = RED \/ get2 EMPTY (HexGame.board g) r c = BLUE.

Lemma full_board_chain g :
  1 <= HexGame.size g -> board_full g -> ~ chain g RED -> chain g BLUE.
Proof.
  intros HN Hfull Hno. apply chain_blue.
  eapply crossing_lr_mono;
    [|apply (hex_no_draw _ (fun x => get2 EMPTY (HexGame.board g) x.1 x.2 =? RED) HN);
      by rewrite <- chain_red].
  intros x Hx Hc. simpl in *.
  destruct (Hfull x.1 x.2) as [E|E]; [by apply in_bounds_range| |].
  - rewrite E in Hc. done.
  - by rewrite E.
Qed.

(** ** States of the declared shape *)

Definition wf_board (g : HexGame.t) : Prop :=
  shape (Z.to_nat (HexGame.size g)) (HexGame.board g).

Definition wf_state (g : HexGame.t) : Prop :=
  wf_board g /\ (HexGame.current g = RED \/ HexGame.current g = BLUE).

(** The three reasons for which [play] refuses a move. *)
Definition rejects (g : HexGame.t) (mv : Move.t) : Prop :=
  HexGame.winner g <> EMPTY \/
  in_bounds (HexGame.size g) (Move.r mv) (Move.c mv) = false \/
  get2 EMPTY (HexGame.board g) (Move.r mv) (Move.c mv) <> EMPTY.

(** The state right after the stone is placed, before the win test. *)
Definition placed (g : HexGame.t) (mv : Move.t) : HexGame.t :=
  {| HexGame.size := HexGame.size g;
     HexGame.board := set2 (HexGame.board g) (Move.r mv) (Move.c mv) (HexGame.current g);
     HexGame.current := HexGame.current g;
     HexGame.winner := HexGame.winner g;
     HexGame.last_move := Some mv;
     HexGame.moves_played := HexGame.moves_played g + 1 |}.

Lemma chain_ext g1 g2 p :
  HexGame.size g1 = HexGame.size g2 -> HexGame.board g1 = HexGame.board g2 ->
  chain g1 p -> chain g2 p.
Proof.
  intros Hs Hb (a & b & Ha & Hgb & Hab). exists a, b.
  split; [done|]. split; [by rewrite <- Hs|].
  eapply conn_mono; [|exact Hab]. intros x [H1 H2].
  split; [by rewrite <- Hs|by rewrite <- Hb].
Qed.

Lemma play_reject g mv : rejects g mv -> HexGame.play g mv = (false, g).
Proof.
  intros Hrej. unfold HexGame.play.
  destruct (HexGame.winner g =? EMPTY) eqn:Ew; cbn [negb]; [|done].
  apply Z.eqb_eq in Ew.
  change (HexGame.in_bounds g (Move.r mv) (Move.c mv))
    with (in_bounds (HexGame.size g) (Move.r mv) (Move.c mv)).
  destruct (in_bounds (HexGame.size g) (Move.r mv) (Move.c mv)) eqn:Eb; cbn [negb]; [|done].
  destruct (get2 EMPTY (HexGame.board g) (Move.r mv) (Move.c mv) =? EMPTY) eqn:Ec;
    cbn [negb]; [|done].
  apply Z.eqb_eq in Ec. destruct Hrej as [?|[?|?]]; congruence.
Qed.

Lemma play_accept g mv :
  ~ rejects g mv ->
  HexGame.play g mv =
  if HexGame.has_won (placed g mv) (HexGame.current g) then
    (true, {| HexGame.size := HexGame.size g;
              HexGame.board := HexGame.board (placed g mv);
              HexGame.current := HexGame.current g;
              HexGame.winner := HexGame.current g;
              HexGame.last_move := Some mv;
              HexGame.moves_played := HexGame.moves_played g + 1 |})
  else
    (true, {| HexGame.size := HexGame.size g;
              HexGame.board := HexGame.board (placed g mv);
              HexGame.current := (if HexGame.current g =? RED then BLUE else RED);
              HexGame.winner := HexGame.winner g;
              HexGame.last_move := Some mv;
              HexGame.moves_played := HexGame.moves_played g + 1 |}).
Proof.
  intros Hacc. unfold HexGame.play.
  destruct (HexGame.winner g =? EMPTY) eqn:Ew; cbn [negb].
  2:{ exfalso. apply Hacc. left. by apply Z.eqb_neq. }
  change (HexGame.in_bounds g (Move.r mv) (Move.c mv))
    with (in_bounds (HexGame.size g) (Move.r mv) (Move.c mv)).
  destruct (in_bounds (HexGame.size g) (Move.r mv) (Move.c mv)) eqn:Eb; cbn [negb].
  2:{ exfalso. apply Hacc. right. by left. }
  destruct (get2 EMPTY (HexGame.board g) (Move.r mv) (Move.c mv) =? EMPTY) eqn:Ec;
    cbn [negb].
  2:{ exfalso. apply Hacc. right. right. by apply Z.eqb_neq. }
  reflexivity.
Qed.

Lemma rejects_dec g mv : rejects g mv \/ ~ rejects g mv.
Proof.
  unfold rejects.
  destruct (decide (HexGame.winner g = EMPTY)); [|by left; left].
  destruct (in_bounds (HexGame.size g) (Move.r mv) (Move.c mv)); [|by left; right; left].
  destruct (decide (get2 EMPTY (HexGame.board g) (Move.r mv) (Move.c mv) = EMPTY));
    [|by left; right; right].
  right. intros [?|[?|?]]; done.
Qed.

Lemma not_rejects g mv :
  ~ rejects g mv <->
  HexGame.winner g = EMPTY /\
  in_bounds (HexGame.size g) (Move.r mv) (Move.c mv) = true /\
  get2 EMPTY (HexGame.board g) (Move.r mv) (Move.c mv) = EMPTY.
Proof.
  unfold rejects. split.
  - intros H. repeat split.
    + destruct (decide (HexGame.winner g = EMPTY)); [done|]. exfalso. apply H. by left.
    + destruct (in_bounds _ _ _); [done|]. exfalso. apply H. right. by left.
    + destruct (decide (get2 EMPTY (HexGame.board g) (Move.r mv) (Move.c mv) = EMPTY));
        [done|]. exfalso. apply H. right. by right.
  - intros (H1 & H2 & H3) [?|[?|?]]; congruence.
Qed.

Lemma other_swap p :
  p = RED \/ p = BLUE -> (if p =? RED then BLUE else RED) = other p.
Proof. intros [-> | ->]; reflexivity. Qed.

(** The full account of an accepted move. *)
Lemma play_accept_spec g mv :
  wf_state g -> ~ rejects g mv ->
  exists g',
    HexGame.play g mv = (true, g') /\
    HexGame.size g' = HexGame.size g /\
    HexGame.board g' =
      set2 (HexGame.board g) (Move.r mv) (Move.c mv) (HexGame.current g) /\
    HexGame.last_move g' = Some mv /\
    HexGame.moves_played g' = HexGame.moves_played g + 1 /\
    (chain g' (HexGame.current g) ->
       HexGame.winner g' = HexGame.current g /\
       HexGame.current g' = HexGame.current g) /\
    (~ chain g' (HexGame.current g) ->
       HexGame.winner g' = EMPTY /\
       HexGame.current g' = other (HexGame.current g)).
Proof.
  intros [Hwf Hcur] Hacc. rewrite (play_accept g mv Hacc).
  pose proof (has_won_chain (placed g mv) (HexGame.current g) Hcur) as Hw.
  apply not_rejects in Hacc as (Hwin & _ & _).
  destruct (HexGame.has_won (placed g mv) (HexGame.current g)) eqn:E.
  - eexists. split; [reflexivity|]. cbn [HexGame.size HexGame.board HexGame.last_move
      HexGame.moves_played HexGame.winner HexGame.current placed].
    do 4 (split; [done|]). split; [done|].
    intros Hn. exfalso. apply Hn.
    eapply chain_ext; [| |apply Hw; reflexivity]; reflexivity.
  - eexists. split; [reflexivity|]. cbn [HexGame.size HexGame.board HexGame.last_move
      HexGame.moves_played HexGame.winner HexGame.current placed].
    do 4 (split; [done|]). split.
    + intros Hc. assert (false = true); [|done]. apply Hw.
      eapply chain_ext; [| |exact Hc]; reflexivity.
    + intros _. split; [done|]. by apply other_swap.
Qed.

Lemma set2_get_same n m r c v :
  shape n m -> 0 <= r -> 0 <= c -> (Z.to_nat r < n)%nat -> (Z.to_nat c < n)%nat ->
  get2 EMPTY (set2 m r c v) r c = v.
Proof. intros. by apply (get2_set2_eq EMPTY n). Qed.

Lemma set2_get_other (m : list (list Z)) r c v r' c' :
  0 <= r -> 0 <= c -> 0 <= r' -> 0 <= c' -> (r', c') <> (r, c) ->
  get2 EMPTY (set2 m r c v) r' c' = get2 EMPTY m r' c'.
Proof.
  intros ???? Hne. apply get2_set2_ne.
  destruct (decide (r = r')) as [->|?]; [right|left; lia].
  intros ?. apply Hne. f_equal. lia.
Qed.

(** ** Cells of a board *)

Definition vacant (g : HexGame.t) (x : Z * Z) : Prop :=
  in_bounds (HexGame.size g) x.1 x.2 = true /\
  get2 EMPTY (HexGame.board g) x.1 x.2 = EMPTY.

Definition occupied (g : HexGame.t) (x : Z * Z) : Prop :=
  in_bounds (HexGame.size g) x.1 x.2 = true /\
  get2 EMPTY (HexGame.board g) x.1 x.2 <> EMPTY.

Lemma range_elem n i : i ∈ range n <-> 0 <= i < n.
Proof. unfold range. rewrite elem_of_seqZ. lia. Qed.

Lemma range_In n i : In i (range n) <-> 0 <= i < n.
Proof. rewrite <- list_elem_of_In. apply range_elem. Qed.

Lemma in_bounds_iff n r c : in_bounds n r c = true <-> 0 <= r < n /\ 0 <= c < n.
Proof. unfold in_bounds. rewrite !andb_true_iff. lia. Qed.

Lemma empty_cells_In g m :
  In m (empty_cells g) <-> vacant g (Move.r m, Move.c m).
Proof.
  unfold empty_cells, vacant. rewrite in_flat_map. simpl. split.
  - intros (r & Hr & Hin). apply in_flat_map in Hin as (c & Hc & Hin).
    apply range_In in Hr, Hc.
    destruct (get2 EMPTY (HexGame.board g) r c =? EMPTY) eqn:E; [|done].
    destruct Hin as [<-|[]]. simpl. apply Z.eqb_eq in E.
    split; [apply in_bounds_iff; lia|done].
  - intros [Hb He]. apply in_bounds_iff in Hb. destruct m as [r c]. simpl in *.
    exists r. split; [apply range_In; lia|].
    apply in_flat_map. exists c. split; [apply range_In; lia|].
    rewrite He. simpl. by left.
Qed.

Lemma legal_moves_empty_cells g :
  HexGame.legal_moves g = if HexGame.winner g =? EMPTY then empty_cells g else [].
Proof. unfold HexGame.legal_moves. by destruct (HexGame.winner g =? EMPTY). Qed.

Lemma neighbors_In n r c x :
  In x (neighbors n r c) <-> adj (r, c) x /\ in_bounds n x.1 x.2 = true.
Proof.
  unfold neighbors. rewrite filter_In, in_map_iff. unfold adj. simpl. split.
  - intros [(d & <- & Hd) Hb]. simpl in *. split; [|done].
    replace (r + d.1 - r) with d.1 by lia. replace (c + d.2 - c) with d.2 by lia.
    by destruct d.
  - intros [Hadj Hb]. split; [|done]. exists (x.1 - r, x.2 - c). split; [|done].
    simpl. destruct x. simpl. f_equal; lia.
Qed.

Section Frontier.
Context {RT : PyRuntime}.

Lemma frontier_adds_In g x :
  In x (frontier_adds g) <-> exists y, occupied g y /\ adj y x /\ vacant g x.
Proof.
  unfold frontier_adds. rewrite in_flat_map. split.
  - intros (r & Hr & Hin). apply in_flat_map in Hin as (c & Hc & Hin).
    apply range_In in Hr, Hc.
    destruct (get2 EMPTY (HexGame.board g) r c =? EMPTY) eqn:E; simpl in Hin; [done|].
    apply filter_In in Hin as [Hn He]. apply neighbors_In in Hn as [Hadj Hb].
    exists (r, c). split; [|split; [done|]].
    + split; [apply in_bounds_iff; simpl; lia|]. simpl. by apply Z.eqb_neq.
    + split; [done|]. by apply Z.eqb_eq.
  - intros ([r c] & [Hb Ho] & Hadj & [Hbx Hex]). simpl in *.
    apply in_bounds_iff in Hb.
    exists r. split; [apply range_In; lia|].
    apply in_flat_map. exists c. split; [apply range_In; lia|].
    apply Z.eqb_neq in Ho. rewrite Ho. simpl.
    apply filter_In. split; [by apply neighbors_In|by apply Z.eqb_eq].
Qed.

Lemma any_stone_true g : any_stone g = true <-> exists y, occupied g y.
Proof.
  unfold any_stone. rewrite existsb_exists. split.
  - intros (r & Hr & H). apply existsb_exists in H as (c & Hc & H).
    apply range_In in Hr, Hc. exists (r, c). split; simpl.
    + apply in_bounds_iff. lia.
    + apply negb_true_iff in H. by apply Z.eqb_neq.
  - intros ([r c] & Hb & Ho). simpl in *. apply in_bounds_iff in Hb.
    exists r. split; [apply range_In; lia|].
    apply existsb_exists. exists c. split; [apply range_In; lia|].
    apply negb_true_iff. by apply Z.eqb_neq.
Qed.

(** The frontier set, in the words of the specification. *)
Definition in_frontier (g : HexGame.t) (x : Z * Z) : Prop :=
  (exists y, occupied g y /\ adj y x /\ vacant g x) \/
  ((forall y, ~ occupied g y) /\
   let mid := HexGame.size g / 2 in
   (x = (mid, mid) \/
    (adj (mid, mid) x /\ in_bounds (HexGame.size g) x.1 x.2 = true))).

Definition frontier_set (g : HexGame.t) : list (Z * Z) :=
  if negb (any_stone g) then
    frontier_adds g ++
      (HexGame.size g / 2, HexGame.size g / 2)
        :: neighbors (HexGame.size g) (HexGame.size g / 2) (HexGame.size g / 2)
  else frontier_adds g.

Lemma frontier_cands_eq g :
  frontier_cands g = map (fun x => Move.mk x.1 x.2) (set_iter (frontier_set g)).
Proof. unfold frontier_cands, frontier_set. by destruct (any_stone g). Qed.

Lemma frontier_set_In g x : In x (frontier_set g) <-> in_frontier g x.
Proof.
  unfold frontier_set, in_frontier.
  destruct (any_stone g) eqn:E; simpl.
  - rewrite frontier_adds_In. split; [by left|].
    intros [H|[Hno _]]; [done|]. apply any_stone_true in E as [y Hy]. by destruct (Hno y).
  - assert (forall y, ~ occupied g y) as Hno.
    { intros y Hy. assert (any_stone g = true) by (apply any_stone_true; eauto).
      congruence. }
    rewrite in_app_iff, frontier_adds_In. simpl. rewrite neighbors_In. split.
    + intros [H|[<-|H]]; [by left|right|right]; (split; [done|]); auto.
    + intros [H|[_ [->|H]]]; [by left|right; by left|right; by right].
Qed.

Lemma set_iter_length l : length (set_iter l) = length (remove_dups l).
Proof.
  apply Permutation_length. apply NoDup_Permutation.
  - apply set_iter_NoDup.
  - apply NoDup_remove_dups.
  - intros x. rewrite set_iter_elem, elem_of_remove_dups. done.
Qed.

Lemma frontier_cands_length g :
  length (frontier_cands g) = length (remove_dups (frontier_set g)).
Proof. rewrite frontier_cands_eq, length_map. apply set_iter_length. Qed.

Lemma frontier_cands_enum g (l : list (Z * Z)) :
  NoDup l -> (forall x, x ∈ l <-> in_frontier g x) ->
  length (frontier_cands g) = length l.
Proof.
  intros Hnd Hl. rewrite frontier_cands_eq, length_map.
  apply Permutation_length. apply NoDup_Permutation; [apply set_iter_NoDup|done|].
  intros x. rewrite set_iter_elem, Hl, list_elem_of_In. apply frontier_set_In.
Qed.

Lemma frontier_moves_small g k :
  (length (frontier_cands g) < 8)%nat -> frontier_moves g k = empty_cells g.
Proof.
  intros H. unfold frontier_moves.
  destruct (Z.ltb_spec (Z.of_nat (length (frontier_cands g))) 8); [done|lia].
Qed.

Lemma frontier_moves_large g k :
  (8 <= length (frontier_cands g))%nat ->
  frontier_moves g k = slice_to (sort_desc (frontier_score g) (frontier_cands g)) k.
Proof.
  intros H. unfold frontier_moves.
  destruct (Z.ltb_spec (Z.of_nat (length (frontier_cands g))) 8); [lia|done].
Qed.

End Frontier.

(** ** Sorting and slicing keep the elements *)

Lemma insert_desc_perm {A} (key : A -> float) x l :
  Permutation (insert_desc key x l) (x :: l).
Proof.
  induction l as [|y l IH]; simpl; [done|].
  destruct (key x <? key y)%float; [|done].
  rewrite IH. apply perm_swap.
Qed.

Lemma sort_desc_perm {A} (key : A -> float) l : Permutation (sort_desc key l) l.
Proof.
  induction l as [|x l IH]; simpl; [done|].
  rewrite insert_desc_perm. by constructor.
Qed.

Lemma firstn_In {A} n (l : list A) x : In x (firstn n l) -> In x l.
Proof.
  revert l. induction n as [|n IH]; intros [|y l]; simpl; try done.
  intros [->|H]; [by left|right; auto].
Qed.

Lemma slice_to_incl {A} (l : list A) k x : In x (slice_to l k) -> In x l.
Proof. unfold slice_to. destruct (k <? 0); apply firstn_In. Qed.

Lemma slice_to_nonempty {A} (l : list A) k :
  1 <= k -> l <> [] -> slice_to l k <> [].
Proof.
  intros Hk Hl. unfold slice_to. destruct (Z.ltb_spec k 0); [lia|].
  destruct (Z.to_nat k) eqn:E; [lia|]. by destruct l.
Qed.

(** ** The rollout policy picks one of its candidates *)

Lemma sample_In moves exps r acc m :
  sample moves exps r acc = Some m -> In m moves.
Proof.
  revert exps acc. induction moves as [|m0 moves IH]; intros [|e exps] acc; simpl; try done.
  destruct (r <=? acc + e)%float; [intros [= ->]; by left|].
  intros H. right. eauto.
Qed.

Lemma last_In {A} (l : list A) x : last l = Some x -> In x l.
Proof.
  induction l as [|y l IH]; [done|]. destruct l as [|z l]; simpl in *.
  - intros [= ->]. by left.
  - intros H. right. by apply IH.
Qed.

Section Rollout.
Context {RT : PyRuntime}.

Lemma rollout_policy_ok g cap rnd :
  frontier_moves g cap <> [] ->
  exists m, rollout_policy g cap rnd =
              Ok (m, {| draws := draws rnd; taken := S (taken rnd) |}) /\
            In m (frontier_moves g cap).
Proof.
  intros Hne. unfold rollout_policy.
  destruct (frontier_moves g cap) as [|m0 ms] eqn:E; [done|].
  cbn [map float_max rbind random].
  match goal with |- context [sample ?a ?b ?c ?d] => destruct (sample a b c d) as [m|] eqn:Es end.
  - exists m. split; [done|]. by apply sample_In in Es.
  - unfold last_move_of. destruct (last (m0 :: ms)) as [m|] eqn:El.
    + exists m. split; [done|]. by apply last_In.
    + exfalso. clear -El. revert m0 El. induction ms as [|z ms IH]; intros m0 El; [done|].
      by apply (IH z).
Qed.

Lemma rollout_policy_empty g cap rnd :
  frontier_moves g cap = [] -> rollout_policy g cap rnd = Raise ValueError.
Proof. intros H. unfold rollout_policy. by rewrite H. Qed.

(** Every candidate is a vacant cell, provided the board has a cell. *)
Lemma frontier_set_vacant g x :
  1 <= HexGame.size g -> In x (frontier_set g) -> vacant g x.
Proof.
  intros Hn Hx. apply frontier_set_In in Hx as [(y & _ & _ & Hv)|[Hno Hx]]; [done|].
  assert (in_bounds (HexGame.size g) x.1 x.2 = true) as Hb.
  { destruct Hx as [->|[_ Hb]]; [|done]. simpl. apply in_bounds_iff.
    pose proof (Z.div_pos (HexGame.size g) 2). pose proof (Z.div_lt_upper_bound (HexGame.size g) 2 (HexGame.size g)). lia. }
  split; [done|].
  destruct (decide (get2 EMPTY (HexGame.board g) x.1 x.2 = EMPTY)); [done|].
  by destruct (Hno x).
Qed.

Lemma frontier_moves_vacant g cap m :
  1 <= HexGame.size g -> In m (frontier_moves g cap) ->
  vacant g (Move.r m, Move.c m).
Proof.
  intros Hn Hm. unfold frontier_moves in Hm.
  destruct (Z.of_nat (length (frontier_cands g)) <? 8).
  - by apply empty_cells_In.
  - apply slice_to_incl in Hm.
    apply (Permutation_in _ (sort_desc_perm _ _)) in Hm.
    rewrite frontier_cands_eq in Hm. apply in_map_iff in Hm as (x & <- & Hx).
    rewrite <- list_elem_of_In, set_iter_elem, list_elem_of_In in Hx.
    destruct x as [a b]. cbn [fst snd Move.r Move.c].
    by apply frontier_set_vacant.
Qed.

Lemma frontier_moves_nonempty g cap :
  1 <= cap -> (exists x, vacant g x) -> frontier_moves g cap <> [].
Proof.
  intros Hcap [x Hx]. unfold frontier_moves.
  destruct (Z.ltb_spec (Z.of_nat (length (frontier_cands g))) 8) as [Hlt|Hge].
  - intros He. assert (In (Move.mk x.1 x.2) (empty_cells g)) as Hin.
    { apply empty_cells_In. by destruct x. }
    rewrite He in Hin. done.
  - apply slice_to_nonempty; [done|]. intros He.
    pose proof (Permutation_length (sort_desc_perm (frontier_score g) (frontier_cands g))) as Hl.
    rewrite He in Hl. simpl in Hl. lia.
Qed.

End Rollout.

(** ** Reachable states and what they keep *)

Inductive reachable : HexGame.t -> Prop :=
| reach_init sz : reachable (HexGame.init sz)
| reach_play g mv g' :
    reachable g -> HexGame.play g mv = (true, g') -> reachable g'.

Record game_inv (g : HexGame.t) : Prop := {
  gi_wf : wf_state g;
  gi_cells : forall x, in_bounds (HexGame.size g) x.1 x.2 = true ->
     get2 EMPTY (HexGame.board g) x.1 x.2 = EMPTY \/
     get2 EMPTY (HexGame.board g) x.1 x.2 = RED \/
     get2 EMPTY (HexGame.board g) x.1 x.2 = BLUE;
  gi_open : HexGame.winner g = EMPTY -> ~ chain g RED /\ ~ chain g BLUE
}.

Lemma init_get sz x :
  in_bounds sz x.1 x.2 = true ->
  get2 EMPTY (HexGame.board (HexGame.init sz)) x.1 x.2 = EMPTY.
Proof.
  intros Hb. apply in_bounds_iff in Hb. simpl. apply get2_replicate; lia.
Qed.

Lemma game_inv_init sz : game_inv (HexGame.init sz).
Proof.
  split.
  - split; [apply shape_replicate|by left].
  - intros x Hb. left. by apply init_get.
  - intros _. split; intros (a & b & _ & _ & Hab);
      apply conn_head in Hab as [Hb Hc]; rewrite init_get in Hc; done.
Qed.

Lemma play_true_accept g mv g' :
  HexGame.play g mv = (true, g') -> ~ rejects g mv.
Proof.
  intros Hp Hrej. rewrite (play_reject g mv Hrej) in Hp. done.
Qed.

Lemma game_inv_play g mv g' :
  game_inv g -> HexGame.play g mv = (true, g') -> game_inv g'.
Proof.
  intros [Hwf Hcells Hopen] Hp.
  pose proof (play_true_accept g mv g' Hp) as Hacc.
  destruct (play_accept_spec g mv Hwf Hacc)
    as (g2 & Hp2 & Hsz & Hbd & Hlm & Hmp & Hwin & Hnowin).
  rewrite Hp in Hp2. injection Hp2 as <-.
  apply not_rejects in Hacc as (Hw0 & Hb & Hv).
  destruct Hwf as [Hshape Hcur].
  pose proof Hb as Hb'. apply in_bounds_iff in Hb'.
  assert (forall x, in_bounds (HexGame.size g) x.1 x.2 = true ->
            get2 EMPTY (HexGame.board g') x.1 x.2 =
            if decide (x = (Move.r mv, Move.c mv)) then HexGame.current g
            else get2 EMPTY (HexGame.board g) x.1 x.2) as Hget.
  { intros x Hx. rewrite Hbd. apply in_bounds_iff in Hx.
    destruct (decide (x = (Move.r mv, Move.c mv))) as [->|Hne].
    - simpl. apply (get2_set2_eq EMPTY (Z.to_nat (HexGame.size g))); [done|lia|lia].
    - apply set2_get_other; try lia. by destruct x. }
  assert (chain g' (other (HexGame.current g)) -> chain g (other (HexGame.current g)))
    as Hother.
  { intros (a & b & Ha & Hgb & Hab). exists a, b. split; [done|].
    split; [by rewrite <- Hsz|]. eapply conn_mono; [|exact Hab].
    intros x [Hx Hc]. rewrite Hsz in Hx. split; [done|].
    rewrite Hget in Hc by done. destruct (decide (x = _)); [|done].
    destruct Hcur as [E|E]; rewrite E in Hc; done. }
  split.
  - split.
    + unfold wf_board. rewrite Hsz, Hbd. by apply shape_set2.
    + destruct (HexGame.has_won (placed g mv) (HexGame.current g)) eqn:E.
      * destruct Hwin as [_ ->]; [|done].
        eapply chain_ext; [| |apply (has_won_chain (placed g mv)); [done|exact E]];
          [by rewrite Hsz|by rewrite Hbd].
      * destruct Hnowin as [_ ->].
        -- intros Hc. assert (false = true); [|done]. rewrite <- E.
           apply has_won_chain; [done|]. eapply chain_ext; [| |exact Hc];
             [by rewrite Hsz|by rewrite Hbd].
        -- destruct Hcur as [-> | ->]; [by right|by left].
  - intros x Hx. rewrite Hsz in Hx. rewrite Hget by done.
    destruct (decide (x = _)); [|by apply Hcells].
    destruct Hcur as [-> | ->]; auto.
  - intros Hw. destruct (Hopen Hw0) as [HnR HnB].
    assert (~ chain g' (HexGame.current g)) as Hnc.
    { intros Hc. destruct (Hwin Hc) as [Hw' _]. rewrite Hw in Hw'.
      destruct Hcur as [E|E]; rewrite E in Hw'; done. }
    destruct Hcur as [E|E]; rewrite E in *; split; try done.
    + intros Hc. apply HnB. by apply Hother.
    + intros Hc. apply HnR. by apply Hother.
Qed.

Lemma reachable_inv g : reachable g -> game_inv g.
Proof.
  induction 1 as [sz|g mv g' _ IH Hp]; [apply game_inv_init|].
  by apply (game_inv_play g mv).
Qed.

(** An open position of a reachable game has a vacant cell. *)
Lemma open_has_vacant g :
  game_inv g -> 1 <= HexGame.size g -> HexGame.winner g = EMPTY ->
  exists x, vacant g x.
Proof.
  intros [Hwf Hcells Hopen] Hn Hw.
  destruct (empty_cells g) as [|m ms] eqn:E.
  - exfalso. destruct (Hopen Hw) as [HnR HnB]. apply HnB.
    apply full_board_chain; [done| |done].
    intros r c Hb. destruct (Hcells (r, c) Hb) as [He|H]; [|done]. exfalso.
    assert (In (Move.mk r c) (empty_cells g)) as Hin by (by apply empty_cells_In).
    rewrite E in Hin. destruct Hin.
  - exists (Move.r m, Move.c m). apply empty_cells_In. rewrite E. by left.
Qed.

Definition count_empty (g : HexGame.t) : nat :=
  count2 (fun v => v =? EMPTY) (HexGame.board g).

Lemma count_empty_le g :
  wf_board g -> 0 <= HexGame.size g ->
  Z.of_nat (count_empty g) <= HexGame.size g * HexGame.size g.
Proof.
  intros Hs Hn. pose proof (count2_le (fun v => v =? EMPTY) _ _ Hs) as H.
  unfold count_empty. nia.
Qed.

Lemma play_vacant g m :
  wf_state g -> HexGame.winner g = EMPTY -> vacant g (Move.r m, Move.c m) ->
  exists g', HexGame.play g m = (true, g') /\
             HexGame.size g' = HexGame.size g /\
             S (count_empty g') = count_empty g.
Proof.
  intros Hwf Hw [Hb Hv]. simpl in *.
  assert (~ rejects g m) as Hacc by (by apply not_rejects).
  destruct (play_accept_spec g m Hwf Hacc) as (g' & Hp & Hsz & Hbd & _).
  exists g'. split; [done|]. split; [done|].
  unfold count_empty. rewrite Hbd. apply in_bounds_iff in Hb.
  destruct Hwf as [Hs Hcur].
  apply (count2_set2 _ EMPTY (Z.to_nat (HexGame.size g))); [done|lia|lia| |].
  - by rewrite Hv.
  - destruct Hcur as [-> | ->]; done.
Qed.

Section RolloutLoop.
Context {RT : PyRuntime}.

Lemma rollout_done fuel cap g rnd :
  HexGame.winner g <> EMPTY -> MCTSBot.rollout fuel cap g rnd = Ok (g, rnd).
Proof.
  intros Hw. apply Z.eqb_neq in Hw. destruct fuel; simpl; by rewrite Hw.
Qed.

Lemma rollout_step fuel cap g rnd :
  HexGame.winner g = EMPTY ->
  MCTSBot.rollout (S fuel) cap g rnd =
  (mg <- rollout_policy g cap rnd ;;
   MCTSBot.rollout fuel cap (HexGame.play g mg.1).2 mg.2).
Proof. intros Hw. simpl. by rewrite Hw. Qed.

(** From an open reachable position the playout ends with a winner, and
    takes no more moves than there are vacant cells. *)
Lemma rollout_ends fuel cap g rnd :
  1 <= cap -> 1 <= HexGame.size g -> game_inv g ->
  (count_empty g <= fuel)%nat ->
  exists g' rnd',
    MCTSBot.rollout fuel cap g rnd = Ok (g', rnd') /\
    HexGame.winner g' <> EMPTY /\
    draws rnd' = draws rnd /\
    (taken rnd <= taken rnd' <= taken rnd + count_empty g)%nat.
Proof.
  intros Hcap. revert g rnd.
  induction fuel as [|fuel IH]; intros g rnd Hn Hinv Hfuel.
  - destruct (decide (HexGame.winner g = EMPTY)) as [Hw|Hw].
    + exfalso. destruct (open_has_vacant g Hinv Hn Hw) as [x Hx].
      destruct (play_vacant g (Move.mk x.1 x.2) (gi_wf g Hinv) Hw) as (g' & _ & _ & Hc).
      { by destruct x. }
      lia.
    + exists g, rnd. rewrite rollout_done by done. repeat split; try done; lia.
  - destruct (decide (HexGame.winner g = EMPTY)) as [Hw|Hw].
    + rewrite rollout_step by done.
      pose proof (open_has_vacant g Hinv Hn Hw) as Hvac.
      destruct (rollout_policy_ok g cap rnd (frontier_moves_nonempty g cap Hcap Hvac))
        as (m & -> & Hm).
      apply frontier_moves_vacant in Hm; [|done].
      destruct (play_vacant g m (gi_wf g Hinv) Hw Hm) as (g1 & Hp & Hsz & Hc).
      cbn [rbind fst snd]. rewrite Hp. cbn [snd].
      destruct (IH g1 {| draws := draws rnd; taken := S (taken rnd) |})
        as (g' & rnd' & Hr & Hw' & Hd & Ht).
      * by rewrite Hsz.
      * by apply (game_inv_play g m).
      * lia.
      * exists g', rnd'. split; [done|]. split; [done|]. split; [done|].
        simpl in Ht. lia.
    + exists g, rnd. rewrite rollout_done by done. repeat split; try done; lia.
Qed.

End RolloutLoop.

(** ** A reference runtime, to run the model on concrete inputs

    The set order is the order of first insertion; [exp] and [log] are
    computed in binary64 by argument reduction and a short series, which is
    accurate far beyond what the examples below depend on. *)

Definition exp_series (y : float) : float :=
  (1 + y * (1 + y / 2 * (1 + y / 3 * (1 + y / 4 * (1 + y / 5 *
     (1 + y / 6 * (1 + y / 7 * (1 + y / 8))))))))%float.

Fixpoint square_n (n : nat) (x : float) : float :=
  match n with
  | O => x
  | S k => square_n k (x * x)%float
  end.

Definition approx_exp (x : float) : float := square_n 10 (exp_series (x / 1024)%float).

Fixpoint log_iter (n : nat) (x y : float) : float :=
  match n with
  | O => y
  | S k => let e := approx_exp y in log_iter k x (y + 2 * ((x - e) / (x + e)))%float
  end.

Definition approx_log (x : float) : float := log_iter 24 x 0%float.

Definition lcg (s : Z) : Z := (1103515245 * s + 12345) mod 2147483648.

Definition lcg_stream (seed : option Z) (k : nat) : float :=
  let z := Nat.iter (S k) lcg (default 0 seed) in
  (float_of_int z / 2147483648)%float.

Definition ref_runtime : PyRuntime :=
  {| set_iter := remove_dups;
     set_iter_NoDup := NoDup_remove_dups;
     set_iter_elem := fun l x => elem_of_remove_dups l x;
     math_exp := approx_exp;
     math_log := approx_log;
     seed_stream := lcg_stream |}.

(** A generator state whose every draw is [u]. *)
Definition constant_draws (u : float) : Random := {| draws := fun _ => u; taken := 0 |}.

(** ** Concrete positions *)

(** 2 x 2, after RED (0,0), BLUE (1,1), RED (1,0): RED has won and the
    cell (0,1) is still empty. *)
Definition won_2x2 : HexGame.t :=
  {| HexGame.size := 2;
     HexGame.board := [[1; 0]; [1; 2]];
     HexGame.current := RED;
     HexGame.winner := RED;
     HexGame.last_move := Some (Move.mk 1 0);
     HexGame.moves_played := 3 |}.

(** 4 x 4, after RED (1,1), BLUE (2,2): ten vacant cells touch a stone. *)
Definition two_stones_4x4 : HexGame.t :=
  {| HexGame.size := 4;
     HexGame.board := [[0; 0; 0; 0]; [0; 1; 0; 0]; [0; 0; 2; 0]; [0; 0; 0; 0]];
     HexGame.current := RED;
     HexGame.winner := EMPTY;
     HexGame.last_move := Some (Move.mk 2 2);
     HexGame.moves_played := 2 |}.

Fixpoint play_all (g : HexGame.t) (moves : list Move.t) : option HexGame.t :=
  match moves with
  | [] => Some g
  | m :: ms =>
      let (ok, g') := HexGame.play g m in
      if ok then play_all g' ms else None
  end.

Lemma play_all_reachable g moves g' :
  reachable g -> play_all g moves = Some g' -> reachable g'.
Proof.
  revert g. induction moves as [|m ms IH]; intros g Hg; simpl.
  - intros [= <-]. done.
  - destruct (HexGame.play g m) as [[] g1] eqn:E; [|done].
    apply IH. by apply (reach_play g m).
Qed.

Lemma won_2x2_reachable : reachable won_2x2.
Proof.
  apply (play_all_reachable (HexGame.init 2) [Move.mk 0 0; Move.mk 1 1; Move.mk 1 0]).
  - apply reach_init.
  - vm_compute. reflexivity.
Qed.

Lemma two_stones_4x4_reachable : reachable two_stones_4x4.
Proof.
  apply (play_all_reachable (HexGame.init 4) [Move.mk 1 1; Move.mk 2 2]).
  - apply reach_init.
  - vm_compute. reflexivity.
Qed.

Lemma two_stones_4x4_no_candidates (RT : PyRuntime) :
  frontier_moves two_stones_4x4 0 = [].
Proof.
  rewrite frontier_moves_large.
  - unfold slice_to. simpl. reflexivity.
  - rewrite frontier_cands_length. vm_compute. lia.
Qed.

(** ** Properties of the board model *)

(** C4.  On a board of the declared shape, for either player, the search
    of [has_won] ends, and answers [true] exactly when that player has a
    chain of stones, linked by the six-neighbour adjacency, from a stone
    on the start edge (top row for RED, left column for BLUE) to a cell
    on the opposite edge.  So a chain gives [true] for its owner and
    [false] for the other player, and no chain gives [false]. *)
Theorem has_won_iff_chain (g : HexGame.t) (p : Z) :
  wf_board g -> p = RED \/ p = BLUE ->
  (exists b, HexGame.has_won_run g p = Some b) /\
  (HexGame.has_won g p = true <-> chain g p) /\
  (chain g p -> HexGame.has_won g p = true /\ HexGame.has_won g (other p) = false) /\
  (~ chain g p -> HexGame.has_won g p = false).
Proof.
  intros _ Hp. pose proof (has_won_chain g p Hp) as Hiff.
  split; [|split; [done|split]].
  - destruct (has_won_run_spec g p Hp) as (b & Hb & _). eauto.
  - intros Hc. split; [by apply Hiff|].
    destruct (HexGame.has_won g (other p)) eqn:E; [|done]. exfalso.
    apply has_won_chain in E; [|destruct Hp as [-> | ->]; auto].
    destruct Hp as [-> | ->]; [by apply (chain_exclusive g)|by apply (chain_exclusive g)].
  - intros Hn. destruct (HexGame.has_won g p) eqn:E; [|done]. exfalso.
    by apply Hn, Hiff.
Qed.

Lemma has_won_iff_chain_witness :
  wf_board won_2x2 /\ (RED = RED \/ RED = BLUE) /\
  (HexGame.has_won won_2x2 RED = true <-> chain won_2x2 RED).
Proof.
  assert (wf_board won_2x2) as Hwf by (split; [reflexivity|repeat constructor]).
  assert (RED = RED \/ RED = BLUE) as Hp by (left; reflexivity).
  split; [exact Hwf|]. split; [exact Hp|].
  exact (proj1 (proj2 (has_won_iff_chain won_2x2 RED Hwf Hp))).
Defined.

(** C2.  On a state of the declared shape, [play] returns [False] and
    leaves the state as it was when the game has a winner, the move is out
    of bounds or the cell is taken.  Otherwise it returns [True]; the new
    board differs from the old one in that cell only, which holds the
    mover's stone; the move is the last move; the counter went up by one;
    the winner is the mover exactly when the mover now has a chain (and
    stays none otherwise); and the player to move is swapped exactly when
    the mover has no chain. *)
Theorem play_spec (g : HexGame.t) (mv : Move.t) :
  wf_state g ->
  (rejects g mv -> HexGame.play g mv = (false, g)) /\
  (~ rejects g mv ->
   exists g',
     HexGame.play g mv = (true, g') /\
     HexGame.size g' = HexGame.size g /\
     HexGame.board g' =
       set2 (HexGame.board g) (Move.r mv) (Move.c mv) (HexGame.current g) /\
     get2 EMPTY (HexGame.board g') (Move.r mv) (Move.c mv) = HexGame.current g /\
     (forall r c, in_bounds (HexGame.size g) r c = true ->
        (r, c) <> (Move.r mv, Move.c mv) ->
        get2 EMPTY (HexGame.board g') r c = get2 EMPTY (HexGame.board g) r c) /\
     HexGame.last_move g' = Some mv /\
     HexGame.moves_played g' = HexGame.moves_played g + 1 /\
     (HexGame.winner g' = HexGame.current g <-> chain g' (HexGame.current g)) /\
     (HexGame.winner g' = EMPTY <-> ~ chain g' (HexGame.current g)) /\
     (HexGame.current g' = other (HexGame.current g) <-> ~ chain g' (HexGame.current g)) /\
     (HexGame.current g' = HexGame.current g <-> chain g' (HexGame.current g))).
Proof.
  intros Hwf. split; [apply play_reject|]. intros Hacc.
  destruct (play_accept_spec g mv Hwf Hacc)
    as (g' & Hp & Hsz & Hbd & Hlm & Hmp & Hwin & Hnowin).
  apply not_rejects in Hacc as (Hw0 & Hb & Hv).
  destruct Hwf as [Hshape Hcur]. pose proof Hb as Hb'. apply in_bounds_iff in Hb'.
  exists g'. do 3 (split; [done|]). split.
  { rewrite Hbd. apply (get2_set2_eq EMPTY (Z.to_nat (HexGame.size g))); [done|lia|lia]. }
  split.
  { intros r c Hrc Hne. rewrite Hbd. apply in_bounds_iff in Hrc.
    apply set2_get_other; try lia. done. }
  do 2 (split; [done|]).
  assert (HexGame.current g <> EMPTY) as Hne by (destruct Hcur as [-> | ->]; done).
  assert (other (HexGame.current g) <> HexGame.current g) as Hne'
    by (destruct Hcur as [-> | ->]; done).
  assert (chain g' (HexGame.current g) \/ ~ chain g' (HexGame.current g)) as [Hc|Hc].
  { destruct (HexGame.has_won g' (HexGame.current g)) eqn:E.
    - left. by apply has_won_chain.
    - right. intros Hc. apply has_won_chain in Hc; [congruence|done]. }
  - destruct (Hwin Hc) as [E1 E2]. rewrite E1, E2.
    repeat split; try done; intros; try done; congruence.
  - destruct (Hnowin Hc) as [E1 E2]. rewrite E1, E2.
    repeat split; try done; intros; try done; congruence.
Qed.

Lemma play_spec_witness :
  wf_state (HexGame.init 2) /\
  (rejects (HexGame.init 2) (Move.mk 5 0) ->
   HexGame.play (HexGame.init 2) (Move.mk 5 0) = (false, HexGame.init 2)).
Proof.
  assert (wf_state (HexGame.init 2)) as Hwf.
  { split; [split; [reflexivity|repeat constructor]|left; reflexivity]. }
  split; [exact Hwf|].
  exact (proj1 (play_spec (HexGame.init 2) (Move.mk 5 0) Hwf)).
Defined.

(** ** Properties of the candidate generator and the rollout policy *)

(** C3, as the code has it.  When the frontier set (vacant cells next to a
    stone, or the centre and its neighbours on a board without a stone) has
    fewer than 8 members, [frontier_moves] returns all the vacant cells in
    row-major order, whatever the cap; that list is the legal-move list
    when the state has no winner. *)
Theorem frontier_fallback_empty_cells {RT : PyRuntime}
    (g : HexGame.t) (k : Z) (l : list (Z * Z)) :
  NoDup l -> (forall x, x ∈ l <-> in_frontier g x) -> (length l < 8)%nat ->
  frontier_moves g k = empty_cells g /\
  (HexGame.winner g = EMPTY -> frontier_moves g k = HexGame.legal_moves g).
Proof.
  intros Hnd Hl Hlen.
  assert (frontier_moves g k = empty_cells g) as E.
  { apply frontier_moves_small. by rewrite (frontier_cands_enum g l). }
  split; [done|]. intros Hw. rewrite legal_moves_empty_cells, Hw. done.
Qed.

Lemma won_2x2_frontier x : x ∈ [(0, 1)] <-> in_frontier won_2x2 x.
Proof.
  rewrite <- frontier_set_In, list_elem_of_In.
  change (frontier_set won_2x2) with [(0, 1); (0, 1); (0, 1)]. simpl. tauto.
Qed.

Lemma frontier_fallback_empty_cells_witness :
  NoDup [(0, 1)] /\ (length [(0, 1)] < 8)%nat /\
  frontier_moves (RT := ref_runtime) won_2x2 30 = empty_cells won_2x2.
Proof.
  assert (NoDup [(0, 1)]) as Hnd by (apply NoDup_singleton).
  assert (length [(0, 1)] < 8)%nat as Hlen by (simpl; lia).
  split; [exact Hnd|]. split; [exact Hlen|].
  exact (proj1 (frontier_fallback_empty_cells (RT := ref_runtime) won_2x2 30 [(0, 1)]
                  Hnd won_2x2_frontier Hlen)).
Defined.

(** C3 as stated fails on a finished game: one frontier cell, and the
    fallback is that vacant cell while the legal-move list is empty. *)
Lemma frontier_fallback_not_legal_moves :
  NoDup [(0, 1)] /\ (forall x, x ∈ [(0, 1)] <-> in_frontier won_2x2 x) /\
  (length [(0, 1)] < 8)%nat /\
  forall (RT : PyRuntime) (k : Z),
    frontier_moves won_2x2 k = [Move.mk 0 1] /\ HexGame.legal_moves won_2x2 = [].
Proof.
  split; [apply NoDup_singleton|]. split; [apply won_2x2_frontier|].
  split; [simpl; lia|]. intros RT k. split; [|reflexivity].
  rewrite frontier_moves_small; [reflexivity|].
  rewrite (frontier_cands_enum won_2x2 [(0, 1)]);
    [simpl; lia|apply NoDup_singleton|apply won_2x2_frontier].
Qed.

(** C9, as the code has it.  For a cap of at least 1, on a state of the
    declared shape with no winner and a vacant cell, the candidate list is
    not empty and [rollout_policy] returns, without raising, one of its
    members: a vacant cell in bounds, a legal move, which [play] accepts. *)
Theorem rollout_policy_legal {RT : PyRuntime}
    (g : HexGame.t) (cap : Z) (rnd : Random) :
  wf_state g -> HexGame.winner g = EMPTY -> (exists x, vacant g x) -> 1 <= cap ->
  frontier_moves g cap <> [] /\
  exists m rnd',
    rollout_policy g cap rnd = Ok (m, rnd') /\
    In m (frontier_moves g cap) /\
    vacant g (Move.r m, Move.c m) /\
    In m (HexGame.legal_moves g) /\
    (HexGame.play g m).1 = true.
Proof.
  intros Hwf Hw Hvac Hcap.
  pose proof (frontier_moves_nonempty g cap Hcap Hvac) as Hne.
  split; [done|].
  destruct (rollout_policy_ok g cap rnd Hne) as (m & Hr & Hm).
  assert (1 <= HexGame.size g) as Hn.
  { destruct Hvac as [x [Hb _]]. apply in_bounds_iff in Hb. lia. }
  pose proof (frontier_moves_vacant g cap m Hn Hm) as Hv.
  exists m, {| draws := draws rnd; taken := S (taken rnd) |}.
  split; [done|]. split; [done|]. split; [done|]. split.
  - rewrite legal_moves_empty_cells, Hw. simpl. by apply empty_cells_In.
  - destruct (play_vacant g m Hwf Hw Hv) as (g' & -> & _). done.
Qed.

Lemma rollout_policy_legal_witness :
  wf_state (HexGame.init 2) /\ HexGame.winner (HexGame.init 2) = EMPTY /\
  (exists x, vacant (HexGame.init 2) x) /\ 1 <= 12 /\
  frontier_moves (RT := ref_runtime) (HexGame.init 2) 12 <> [].
Proof.
  assert (wf_state (HexGame.init 2)) as Hwf.
  { split; [split; [reflexivity|repeat constructor]|left; reflexivity]. }
  assert (HexGame.winner (HexGame.init 2) = EMPTY) as Hw by reflexivity.
  assert (exists x, vacant (HexGame.init 2) x) as Hvac.
  { exists (0, 0). split; reflexivity. }
  assert (1 <= 12) as Hcap by lia.
  split; [exact Hwf|]. split; [exact Hw|]. split; [exact Hvac|]. split; [exact Hcap|].
  exact (proj1 (rollout_policy_legal (RT := ref_runtime) (HexGame.init 2) 12
                  (constant_draws 0%float) Hwf Hw Hvac Hcap)).
Defined.

(** C9 as stated fails for the cap 0: with ten frontier cells the
    candidate list is cut to nothing and [max] of no score raises. *)
Lemma rollout_policy_cap_zero_raises :
  wf_state two_stones_4x4 /\ HexGame.winner two_stones_4x4 = EMPTY /\
  vacant two_stones_4x4 (0, 0) /\
  forall (RT : PyRuntime) (rnd : Random),
    frontier_moves two_stones_4x4 0 = [] /\
    rollout_policy two_stones_4x4 0 rnd = Raise ValueError.
Proof.
  split; [split; [split; [reflexivity|repeat constructor]|left; reflexivity]|].
  split; [reflexivity|]. split; [split; reflexivity|].
  intros RT rnd. split; [apply two_stones_4x4_no_candidates|].
  apply rollout_policy_empty, two_stones_4x4_no_candidates.
Qed.

(** C8, as the code has it.  For a cap of at least 1, from a reachable
    state with no winner and a vacant cell, the playout loop ends, within
    [N * N] rounds, in a state with a winner; it plays one move per draw of
    the generator, at most [N * N] of them. *)
Theorem rollout_reaches_winner {RT : PyRuntime}
    (g : HexGame.t) (cap : Z) (rnd : Random) :
  reachable g -> HexGame.winner g = EMPTY -> (exists x, vacant g x) -> 1 <= cap ->
  exists g' rnd',
    MCTSBot.rollout (Z.to_nat (HexGame.size g * HexGame.size g)) cap g rnd
      = Ok (g', rnd') /\
    HexGame.winner g' <> EMPTY /\
    (taken rnd' - taken rnd <= Z.to_nat (HexGame.size g * HexGame.size g))%nat.
Proof.
  intros Hreach Hw Hvac Hcap. pose proof (reachable_inv g Hreach) as Hinv.
  assert (1 <= HexGame.size g) as Hn.
  { destruct Hvac as [x [Hb _]]. apply in_bounds_iff in Hb. lia. }
  pose proof (count_empty_le g (proj1 (gi_wf g Hinv))) as Hle.
  destruct (rollout_ends (Z.to_nat (HexGame.size g * HexGame.size g)) cap g rnd)
    as (g' & rnd' & Hr & Hw' & _ & Ht); try done; [lia|].
  exists g', rnd'. split; [done|]. split; [done|]. lia.
Qed.

Lemma rollout_reaches_winner_witness :
  reachable (HexGame.init 2) /\ HexGame.winner (HexGame.init 2) = EMPTY /\
  (exists x, vacant (HexGame.init 2) x) /\ 1 <= 12 /\
  exists g' rnd',
    MCTSBot.rollout (RT := ref_runtime) 4 12 (HexGame.init 2) (constant_draws 0%float)
      = Ok (g', rnd') /\
    HexGame.winner g' <> EMPTY /\ (taken rnd' - 0 <= 4)%nat.
Proof.
  assert (reachable (HexGame.init 2)) as Hr by (apply reach_init).
  assert (HexGame.winner (HexGame.init 2) = EMPTY) as Hw by reflexivity.
  assert (exists x, vacant (HexGame.init 2) x) as Hvac.
  { exists (0, 0). split; reflexivity. }
  assert (1 <= 12) as Hcap by lia.
  split; [exact Hr|]. split; [exact Hw|]. split; [exact Hvac|]. split; [exact Hcap|].
  exact (rollout_reaches_winner (RT := ref_runtime) (HexGame.init 2) 12
           (constant_draws 0%float) Hr Hw Hvac Hcap).
Defined.

(** C8 as stated fails for the cap 0: the first round of the playout
    raises, for any amount of fuel the loop never returns a state. *)
Lemma rollout_cap_zero_never_ends :
  reachable two_stones_4x4 /\ HexGame.winner two_stones_4x4 = EMPTY /\
  vacant two_stones_4x4 (0, 0) /\
  forall (RT : PyRuntime) (fuel : nat) (rnd : Random),
    MCTSBot.rollout (S fuel) 0 two_stones_4x4 rnd = Raise ValueError.
Proof.
  split; [apply two_stones_4x4_reachable|]. split; [reflexivity|].
  split; [split; reflexivity|]. intros RT fuel rnd.
  rewrite rollout_step by reflexivity.
  rewrite rollout_policy_empty by apply two_stones_4x4_no_candidates. reflexivity.
Qed.

(** ** The decision at the end of [choose] *)

(** [best] is the child with the greatest visit count, the first such in
    the insertion order of the dictionary. *)
Definition first_max_child (h : list Node.t) (chs : list ((Z * Z) * nat))
    (best : nat) : Prop :=
  exists i k nd,
    chs !! i = Some (k, best) /\ h !! best = Some nd /\
    (forall j kj cj ndj, chs !! j = Some (kj, cj) -> h !! cj = Some ndj ->
       Node.visits ndj <= Node.visits nd) /\
    (forall j kj cj ndj, (j < i)%nat -> chs !! j = Some (kj, cj) ->
       h !! cj = Some ndj -> Node.visits ndj < Node.visits nd).

Definition children_valid (h : list Node.t) (chs : list ((Z * Z) * nat)) : Prop :=
  forall k c, (k, c) ∈ chs -> is_Some (h !! c).

Lemma node_get_Some h i nd : h !! i = Some nd -> Node.get h i = Ok nd.
Proof. intros H. unfold Node.get. by rewrite H. Qed.

Lemma node_get_Ok h i nd : Node.get h i = Ok nd -> h !! i = Some nd.
Proof. unfold Node.get. destruct (h !! i); [by intros [= ->]|done]. Qed.

Section Decision.
Context {RT : PyRuntime}.

Lemma max_visits_spec h chs pre best :
  first_max_child h pre best ->
  children_valid h chs ->
  forall nd, h !! best = Some nd ->
  exists r, MCTSBot.max_visits h chs best (Node.visits nd) = Ok r /\
            first_max_child h (pre ++ chs) r.
Proof.
  revert pre best. induction chs as [|[k ch] chs IH]; intros pre best Hfm Hval nd Hnd.
  - exists best. split; [done|]. by rewrite app_nil_r.
  - destruct (Hval k ch) as [ndc Hndc]; [by left|].
    cbn [MCTSBot.max_visits]. rewrite (node_get_Some _ _ _ Hndc). cbn [rbind].
    replace (pre ++ (k, ch) :: chs) with ((pre ++ [(k, ch)]) ++ chs)
      by (by rewrite <- app_assoc).
    assert (children_valid h chs) as Hval'.
    { intros k' c' Hin. apply (Hval k' c'). by right. }
    destruct Hfm as (i & kb & nd' & Hi & Hnd' & Hmax & Hfirst).
    rewrite Hnd in Hnd'. injection Hnd' as <-.
    pose proof (lookup_lt_Some _ _ _ Hi) as Hilt.
    destruct (Z.ltb_spec (Node.visits nd) (Node.visits ndc)) as [Hlt|Hge].
    + apply (IH (pre ++ [(k, ch)]) ch); [|done|done].
      exists (length pre), k, ndc. split; [|split; [done|split]].
      * rewrite lookup_app_r by lia. by rewrite Nat.sub_diag.
      * intros j kj cj ndj Hj Hndj.
        destruct (decide (j < length pre)%nat) as [Hjl|Hjl].
        -- rewrite lookup_app_l in Hj by done.
           pose proof (Hmax j kj cj ndj Hj Hndj). lia.
        -- rewrite lookup_app_r in Hj by lia.
           destruct (j - length pre)%nat; [|done]. simpl in Hj.
           injection Hj as <- <-. rewrite Hndc in Hndj. injection Hndj as <-. lia.
      * intros j kj cj ndj Hjl Hj Hndj.
        rewrite lookup_app_l in Hj by done.
        pose proof (Hmax j kj cj ndj Hj Hndj). lia.
    + apply (IH (pre ++ [(k, ch)]) best); [|done|done].
      exists i, kb, nd. split; [|split; [done|split]].
      * by rewrite lookup_app_l.
      * intros j kj cj ndj Hj Hndj.
        destruct (decide (j < length pre)%nat) as [Hjl|Hjl].
        -- rewrite lookup_app_l in Hj by done. by apply (Hmax j kj cj ndj).
        -- rewrite lookup_app_r in Hj by lia.
           destruct (j - length pre)%nat; [|done]. simpl in Hj.
           injection Hj as <- <-. rewrite Hndc in Hndj. injection Hndj as <-. lia.
      * intros j kj cj ndj Hjl Hj Hndj.
        rewrite lookup_app_l in Hj by lia. by apply (Hfirst j kj cj ndj).
Qed.

Lemma best_child_spec h chs :
  chs <> [] -> children_valid h chs ->
  exists best, MCTSBot.best_child h chs = Ok best /\ first_max_child h chs best.
Proof.
  intros Hne Hval. destruct chs as [|[k ch] chs]; [done|].
  destruct (Hval k ch) as [ndc Hndc]; [by left|].
  cbn [MCTSBot.best_child]. rewrite (node_get_Some _ _ _ Hndc). cbn [rbind].
  apply (max_visits_spec h chs [(k, ch)] ch); [| |done].
  - exists 0%nat, k, ndc. split; [done|]. split; [done|]. split.
    + intros [|j] kj cj ndj Hj Hndj; [|done]. simpl in Hj.
      injection Hj as <- <-. rewrite Hndc in Hndj. injection Hndj as <-. lia.
    + intros j kj cj ndj Hj. lia.
  - intros k' c' Hin. apply (Hval k' c'). by right.
Qed.

Lemma dict_get_In {V} (d : list ((Z * Z) * V)) k v :
  Node.dict_get d k = Some v -> (k, v) ∈ d.
Proof.
  induction d as [|[k' v'] d IH]; simpl; [done|].
  destruct (Node.key_eqb k' k) eqn:E.
  - intros [= ->]. unfold Node.key_eqb in E. apply andb_true_iff in E as [E1 E2].
    apply Z.eqb_eq in E1, E2. destruct k, k'. simpl in *. subst. by left.
  - intros H. right. by apply IH.
Qed.

Lemma apply_move_ok self move :
  (forall rt, MCTSBot.root self = Some rt ->
     exists nd, MCTSBot.heap self !! rt = Some nd /\
                children_valid (MCTSBot.heap self) (Node.children nd)) ->
  exists self', MCTSBot._apply_move_to_tree self move = Ok self'.
Proof.
  intros Hroot. unfold MCTSBot._apply_move_to_tree.
  destruct (MCTSBot.root self) as [rt|] eqn:Er; [|eauto].
  destruct (Hroot rt eq_refl) as (nd & En & Hval).
  rewrite (node_get_Some _ _ _ En). cbn [rbind].
  destruct (Node.dict_get (Node.children nd) (Move.r move, Move.c move)) as [nxt|] eqn:Ed;
    [|eauto].
  destruct (Hval _ _ (dict_get_In _ _ _ Ed)) as [nn Hnn].
  rewrite (node_get_Some _ _ _ Hnn). cbn [rbind]. eauto.
Qed.

Lemma decide_children self game rt nd :
  MCTSBot.root self = Some rt -> MCTSBot.heap self !! rt = Some nd ->
  Node.children nd <> [] ->
  MCTSBot.decide self game =
  (best <- MCTSBot.best_child (MCTSBot.heap self) (Node.children nd) ;;
   bn <- Node.get (MCTSBot.heap self) best ;;
   match Node.move bn with
   | None => Raise AttributeError
   | Some best_move =>
       self' <- MCTSBot._apply_move_to_tree self best_move ;;
       Ok (best_move, self')
   end).
Proof.
  intros Hr Hn Hc. unfold MCTSBot.decide. rewrite Hr, (node_get_Some _ _ _ Hn).
  cbn [rbind]. destruct (Node.children nd); done.
Qed.

Lemma decide_no_children self game rt nd :
  MCTSBot.root self = Some rt -> MCTSBot.heap self !! rt = Some nd ->
  Node.children nd = [] ->
  MCTSBot.decide self game =
  match frontier_moves game (MCTSBot.expand_candidates self) with
  | m :: _ => Ok (m, self)
  | [] => match empty_cells game with
          | m :: _ => Ok (m, self)
          | [] => Raise IndexError
          end
  end.
Proof.
  intros Hr Hn Hc. unfold MCTSBot.decide. rewrite Hr, (node_get_Some _ _ _ Hn).
  cbn [rbind]. by rewrite Hc.
Qed.

Lemma choose_Ok self game ticks rnd m self' rnd' :
  MCTSBot.choose self game ticks rnd = Ok (m, self', rnd') ->
  exists s1 s,
    MCTSBot.acquire self game = Ok s1 /\
    MCTSBot.search ticks 0 s1 game rnd = Ok (s, rnd') /\
    MCTSBot.decide s game = Ok (m, self').
Proof.
  unfold MCTSBot.choose. intros H.
  destruct (MCTSBot.acquire self game) as [s1| | |] eqn:E1; try done. cbn [rbind] in H.
  destruct (MCTSBot.search ticks 0 s1 game rnd) as [[s r]| | |] eqn:E2; try done.
  cbn [rbind fst snd] in H.
  destruct (MCTSBot.decide s game) as [[m0 s0]| | |] eqn:E3; try done.
  cbn [rbind fst snd] in H. injection H as -> -> ->. by exists s1, s.
Qed.

End Decision.

(** An engine state with a root and two children, the second visited
    more often. *)
Definition two_children_bot : MCTSBot.t :=
  {| MCTSBot.time_limit_s := 1.2;
     MCTSBot.uct_c := 1.35;
     MCTSBot.playout_limit := 3;
     MCTSBot.rollout_candidates := 12;
     MCTSBot.expand_candidates := 30;
     MCTSBot.rng := constant_draws 0;
     MCTSBot.root := Some 0%nat;
     MCTSBot.root_player := Some RED;
     MCTSBot.heap :=
       [ Node.mk None None RED [Move.mk 1 0; Move.mk 1 1]
                 [((0, 0), 1%nat); ((0, 1), 2%nat)] 3 2;
         Node.mk (Some 0%nat) (Some (Move.mk 0 0)) BLUE [] [] 1 1;
         Node.mk (Some 0%nat) (Some (Move.mk 0 1)) BLUE [] [] 2 1 ] |}.

Example decide_two_children :
  exists s', MCTSBot.decide (RT := ref_runtime) two_children_bot (HexGame.init 2)
             = Ok (Move.mk 0 1, s') /\ MCTSBot.root s' = Some 2%nat.
Proof. eexists. vm_compute. split; reflexivity. Qed.

(** ** Where the engine's randomness comes from *)

(** A generator state that first returns the values of [l], then zeros. *)
Definition draws_from (l : list float) : Random :=
  {| draws := fun k => nth k l 0%float; taken := 0 |}.

(** [MCTSBot(playout_limit=5, seed=seed)] *)
Definition five_playouts (seed : option Z) : MCTSBot.t :=
  MCTSBot.init (RT := ref_runtime) 1.2 1.35 5 12 30 seed.

(** The move chosen, when the call returns. *)
Definition chosen (x : result (Move.t * MCTSBot.t * Random)) : option Move.t :=
  match x with
  | Ok (m, _, _) => Some m
  | _ => None
  end.

(** The values that [random.random()] returns after [random.seed(1)] and
    after [random.seed(5)] (the Mersenne Twister of CPython, first sixteen
    draws; the search below takes eleven). *)
Definition stream_seed_1 : list float :=
  [0.13436424411240122; 0.8474337369372327; 0.763774618976614;
   0.2550690257394217; 0.49543508709194095; 0.4494910647887381;
   0.651592972722763; 0.7887233511355132; 0.0938595867742349;
   0.02834747652200631; 0.8357651039198697; 0.43276706790505337;
   0.762280082457942; 0.0021060533511106927; 0.4453871940548014;
   0.7215400323407826]%float.

Definition stream_seed_5 : list float :=
  [0.6229016948897019; 0.7417869892607294; 0.7951935655656966;
   0.9424502837770503; 0.7398985747399307; 0.922324996665417;
   0.029005228283614737; 0.46562265437810535; 0.9433567169983137;
   0.6489745531369242; 0.9009004917506227; 0.11320596465314436;
   0.46906904778216374; 0.24657283261983032; 0.5437608592359304;
   0.5739411879281008]%float.

(** The number of draws the call has taken from the generator. *)
Definition draws_taken (x : result (Move.t * MCTSBot.t * Random)) : option nat :=
  match x with
  | Ok (_, _, r) => Some (taken r)
  | _ => None
  end.

(** C1 fails on the code.  Two engines built with the same seed, on the
    same empty 2 x 2 board, with the same iteration cap and a deadline that
    does not cut the search short, choose different moves when the
    module-level generator of [random] is in different states: (0,0) and
    (0,1) on the streams 0.0, 0.0, ... and 0.5, 0.0, ..., and again (0,0)
    and (0,1) on the streams that follow [random.seed(1)] and
    [random.seed(5)], of which each search takes eleven draws.  Engines
    built with different seeds choose the same move when the module-level
    generator is in the same state.  [rollout_policy] draws from
    [random.random()], never from the generator [self.rng] that [__init__]
    seeds. *)
Theorem choose_not_determined_by_seed :
  chosen (MCTSBot.choose (RT := ref_runtime) (five_playouts (Some 42))
            (HexGame.init 2) 100 (draws_from [])) = Some (Move.mk 0 0) /\
  chosen (MCTSBot.choose (RT := ref_runtime) (five_playouts (Some 42))
            (HexGame.init 2) 100 (draws_from [0.5%float])) = Some (Move.mk 0 1) /\
  chosen (MCTSBot.choose (RT := ref_runtime) (five_playouts (Some 7))
            (HexGame.init 2) 100 (draws_from [0.5%float])) = Some (Move.mk 0 1) /\
  chosen (MCTSBot.choose (RT := ref_runtime) (five_playouts None)
            (HexGame.init 2) 100 (draws_from [0.5%float])) = Some (Move.mk 0 1) /\
  chosen (MCTSBot.choose (RT := ref_runtime) (five_playouts (Some 42))
            (HexGame.init 2) 100 (draws_from stream_seed_1)) = Some (Move.mk 0 0) /\
  chosen (MCTSBot.choose (RT := ref_runtime) (five_playouts (Some 42))
            (HexGame.init 2) 100 (draws_from stream_seed_5)) = Some (Move.mk 0 1) /\
  draws_taken (MCTSBot.choose (RT := ref_runtime) (five_playouts (Some 42))
                 (HexGame.init 2) 100 (draws_from stream_seed_1)) = Some 11%nat /\
  draws_taken (MCTSBot.choose (RT := ref_runtime) (five_playouts (Some 42))
                 (HexGame.init 2) 100 (draws_from stream_seed_5)) = Some 11%nat.
Proof. vm_compute. repeat split; reflexivity. Qed.

(** ** The root-perspective player across calls *)

(** When the retained root is kept, [choose] keeps the retained
    root-perspective player, whoever is to move. *)
Lemma acquire_keeps_root_player {RT : PyRuntime} self game rt nd p :
  MCTSBot.root self = Some rt -> MCTSBot.heap self !! rt = Some nd ->
  Node.player_to_move nd = HexGame.current game ->
  MCTSBot.root_player self = Some p ->
  exists s, MCTSBot.acquire self game = Ok s /\
            MCTSBot.root s = Some rt /\ MCTSBot.root_player s = Some p.
Proof.
  intros Hr Hn Hp Hrp. unfold MCTSBot.acquire.
  rewrite Hr, (node_get_Some _ _ _ Hn). cbn [rbind].
  rewrite Hp, Z.eqb_refl. cbn [negb rbind]. rewrite Hrp, Hr.
  rewrite (node_get_Some _ _ _ Hn). cbn [rbind].
  destruct ((length (Node.untried nd) =? 0)%nat && (length (Node.children nd) =? 0)%nat);
    eexists; (split; [reflexivity|]); done.
Qed.

(** One engine playing both sides: the first call of [choose] on [g0],
    the chosen move played, then the root acquisition of the second call.
    The result is the move, the player to move at the second call, whether
    the retained root was kept, and the root-perspective player with which
    the second search loop starts. *)
Definition self_play_second_entry {RT : PyRuntime}
    (bot : MCTSBot.t) (g0 : HexGame.t) (ticks : nat) (rnd : Random)
  : option (Move.t * Z * bool * option Z) :=
  match MCTSBot.choose bot g0 ticks rnd with
  | Ok (m, bot1, _) =>
      let g1 := (HexGame.play g0 m).2 in
      match MCTSBot.acquire bot1 g1, MCTSBot.root bot1 with
      | Ok bot2, Some rt =>
          Some (m, HexGame.current g1,
                match MCTSBot.root bot2 with
                | Some rt' => (rt' =? rt)%nat
                | None => false
                end,
                MCTSBot.root_player bot2)
      | _, _ => None
      end
  | _ => None
  end.

(** C7 as stated fails in self-play with one engine.  On a 2 x 2 board
    the first call, for RED, returns (0,0) and retains the child it chose
    as root; that move is played; the second call, for BLUE, keeps this
    root and enters its search loop with RED, not the live mover BLUE, as
    root-perspective player. *)
Lemma root_player_stale_in_self_play :
  self_play_second_entry (RT := ref_runtime) (five_playouts None) (HexGame.init 2) 100
    (draws_from []) = Some (Move.mk 0 0, BLUE, true, Some RED).
Proof. vm_compute. reflexivity. Qed.

(** ** game.py with objects and references

    [clone] is about sharing, which a value of type [HexGame.t] cannot
    show.  Here a game is an object in a store: it refers to its board, a
    list object that refers to its rows, list objects that hold the cells.
    [play] writes into a row object in place. *)

Module Store.

Record game_obj := mk_game {
  size : Z;
  board : positive;
  current : Z;
  winner : Z;
  last_move : option Move.t;
  moves_played : Z
}.

Inductive obj :=
| Row (cells : list Z)
| Rows (refs : list positive)
| Game (g : game_obj).

(** A new object gets a reference that is not in use. *)
Definition alloc (h : gmap positive obj) (o : obj) : gmap positive obj * positive :=
  let l := fresh (dom h) in (<[l := o]> h, l).

(** One new list object per row. *)
Fixpoint alloc_rows (h : gmap positive obj) (rows : list (list Z))
  : gmap positive obj * list positive :=
  match rows with
  | [] => (h, [])
  | cells :: rest =>
      let (h1, l) := alloc h (Row cells) in
      let (h2, ls) := alloc_rows h1 rest in
      (h2, l :: ls)
  end.

Definition read_row (h : gmap positive obj) (l : positive) : option (list Z) :=
  match h !! l with
  | Some (Row cells) => Some cells
  | _ => None
  end.

Fixpoint read_rows (h : gmap positive obj) (ls : list positive)
  : option (list (list Z)) :=
  match ls with
  | [] => Some []
  | l :: ls' =>
      match read_row h l, read_rows h ls' with
      | Some cells, Some rest => Some (cells :: rest)
      | _, _ => None
      end
  end.

Definition read_board (h : gmap positive obj) (bl : positive)
  : option (list (list Z)) :=
  match h !! bl with
  | Some (Rows refs) => read_rows h refs
  | _ => None
  end.

(** The value of a game object: what its fields and its board hold. *)
Definition view (h : gmap positive obj) (s : game_obj) : option HexGame.t :=
  match read_board h (board s) with
  | Some b => Some (HexGame.mk (size s) b (current s) (winner s)
                               (last_move s) (moves_played s))
  | None => None
  end.

Definition read_game (h : gmap positive obj) (l : positive) : option HexGame.t :=
  match h !! l with
  | Some (Game s) => view h s
  | _ => None
  end.

(** [HexGame(size)] *)
Definition init (h : gmap positive obj) (sz : Z) : gmap positive obj * positive :=
  let (h1, ls) :=
    alloc_rows h (replicate (Z.to_nat sz) (replicate (Z.to_nat sz) EMPTY)) in
  let (h2, bl) := alloc h1 (Rows ls) in
  alloc h2 (Game (mk_game sz bl RED EMPTY None 0)).

(** [self.clone()] *)
Definition clone (h : gmap positive obj) (self : positive)
  : option (gmap positive obj * positive) :=
  match h !! self with
  | Some (Game s) =>
      let (h1, g) := init h (size s) in
      match h1 !! board s with
      | Some (Rows refs) =>
          match read_rows h1 refs with
          | Some copies =>
              let (h2, ls) := alloc_rows h1 copies in
              let (h3, bl) := alloc h2 (Rows ls) in
              match h3 !! g with
              | Some (Game go) =>
                  Some (<[g := Game (mk_game (size go) bl (current s) (winner s)
                                             (last_move s) (moves_played s))]> h3, g)
              | _ => None
              end
          | None => None
          end
      | _ => None
      end
  | _ => None
  end.

(** [self.play(mv)]; [None] stands for an exception. *)
Definition play (h : gmap positive obj) (self : positive) (mv : Move.t)
  : option (gmap positive obj * bool) :=
  match h !! self with
  | Some (Game s) =>
      match h !! board s with
      | Some (Rows refs) =>
          if negb (winner s =? EMPTY) then Some (h, false)
          else if negb (in_bounds (size s) (Move.r mv) (Move.c mv)) then Some (h, false)
          else
            match refs !! Z.to_nat (Move.r mv) with
            | Some rl =>
                match h !! rl with
                | Some (Row cells) =>
                    match cells !! Z.to_nat (Move.c mv) with
                    | Some v =>
                        if negb (v =? EMPTY) then Some (h, false)
                        else
                          let p := current s in
                          let h1 := <[rl := Row (<[Z.to_nat (Move.c mv) := p]> cells)]> h in
                          let s1 := mk_game (size s) (board s) (current s) (winner s)
                                            (Some mv) (moves_played s + 1) in
                          match view h1 s1 with
                          | Some placed =>
                              if HexGame.has_won placed p then
                                Some (<[self := Game (mk_game (size s1) (board s1)
                                         (current s1) p (last_move s1)
                                         (moves_played s1))]> h1, true)
                              else
                                Some (<[self := Game (mk_game (size s1) (board s1)
                                         (if current s1 =? RED then BLUE else RED)
                                         (winner s1) (last_move s1)
                                         (moves_played s1))]> h1, true)
                          | None => None
                          end
                    | None => None
                    end
                | _ => None
                end
            | None => None
            end
      | _ => None
      end
  | _ => None
  end.

(** A sequence of calls of [play] on the same object. *)
Fixpoint plays (h : gmap positive obj) (self : positive) (mvs : list Move.t)
  : option (gmap positive obj) :=
  match mvs with
  | [] => Some h
  | mv :: rest =>
      match play h self mv with
      | Some (h', _) => plays h' self rest
      | None => None
      end
  end.

End Store.

(** The same sequence on a value of the functional model. *)
Fixpoint play_list (g : HexGame.t) (mvs : list Move.t) : HexGame.t :=
  match mvs with
  | [] => g
  | mv :: rest => play_list (HexGame.play g mv).2 rest
  end.

(** ** Objects, references and [clone] *)

Import Store.

(** The object graph of a game: the object [l] with fields [s], the rows
    [refs] of its board, and the cells [b] they hold. *)
Record game_at (h : gmap positive obj) (l : positive) (s : game_obj)
    (refs : list positive) (b : list (list Z)) : Prop := {
  ga_obj : h !! l = Some (Game s);
  ga_board : h !! board s = Some (Rows refs);
  ga_rows : read_rows h refs = Some b
}.

Definition footprint (l : positive) (s : game_obj) (refs : list positive)
  : list positive := l :: board s :: refs.

Definition value_of (s : game_obj) (b : list (list Z)) : HexGame.t :=
  HexGame.mk (size s) b (current s) (winner s) (last_move s) (moves_played s).

Lemma alloc_spec h o h' l :
  alloc h o = (h', l) -> h !! l = None /\ h' = <[l := o]> h.
Proof.
  unfold alloc. intros H. injection H as <- <-. split; [|done].
  apply not_elem_of_dom. apply is_fresh.
Qed.

Lemma read_rows_frame h h' ls :
  (forall l, l ∈ ls -> h' !! l = h !! l) -> read_rows h' ls = read_rows h ls.
Proof.
  induction ls as [|l ls IH]; intros Hf; simpl; [done|].
  unfold read_row. rewrite (Hf l) by (by left).
  rewrite IH; [done|]. intros x Hx. apply Hf. by right.
Qed.

Lemma read_rows_Some_lookup h ls b l :
  read_rows h ls = Some b -> l ∈ ls -> exists cells, h !! l = Some (Row cells).
Proof.
  revert b. induction ls as [|l0 ls IH]; intros b Hr Hl; [by apply elem_of_nil in Hl|].
  simpl in Hr. unfold read_row in Hr.
  destruct (h !! l0) as [[cells| |]|] eqn:E; try done.
  destruct (read_rows h ls) as [rest|] eqn:Er; [|done].
  apply elem_of_cons in Hl as [->|Hl]; [eauto|]. by apply (IH rest).
Qed.

Lemma read_rows_length h ls b : read_rows h ls = Some b -> length b = length ls.
Proof.
  revert b. induction ls as [|l ls IH]; intros b; simpl; [by intros [= <-]|].
  destruct (read_row h l); [|done]. destruct (read_rows h ls) as [rest|]; [|done].
  intros [= <-]. simpl. f_equal. by apply IH.
Qed.

Lemma read_rows_lookup h ls b i l :
  read_rows h ls = Some b -> ls !! i = Some l ->
  exists cells, h !! l = Some (Row cells) /\ b !! i = Some cells.
Proof.
  revert b i. induction ls as [|l0 ls IH]; intros b i Hr Hi; [done|].
  simpl in Hr. unfold read_row in Hr.
  destruct (h !! l0) as [[cells| |]|] eqn:E; try done.
  destruct (read_rows h ls) as [rest|] eqn:Er; [|done].
  injection Hr as <-. destruct i as [|i]; simpl in *.
  - injection Hi as <-. eauto.
  - by apply (IH rest).
Qed.

Lemma read_rows_write h ls b i l cells' :
  NoDup ls -> read_rows h ls = Some b -> ls !! i = Some l ->
  read_rows (<[l := Row cells']> h) ls = Some (<[i := cells']> b).
Proof.
  revert b i. induction ls as [|l0 ls IH]; intros b i Hnd Hr Hi; [done|].
  apply NoDup_cons in Hnd as [Hnotin Hnd].
  simpl in Hr. unfold read_row in Hr.
  destruct (h !! l0) as [[cells| |]|] eqn:E; try done.
  destruct (read_rows h ls) as [rest|] eqn:Er; [|done].
  injection Hr as <-. destruct i as [|i]; simpl in *.
  - injection Hi as <-. unfold read_row. rewrite lookup_insert_eq.
    rewrite read_rows_frame with (h := h); [by rewrite Er|].
    intros x Hx. apply lookup_insert_ne. intros ->. done.
  - assert (l0 <> l) as Hne.
    { intros ->. apply Hnotin. by eapply list_elem_of_lookup_2. }
    unfold read_row. rewrite lookup_insert_ne by done. rewrite E.
    by rewrite (IH rest i Hnd eq_refl Hi).
Qed.

Lemma alloc_rows_spec h rows h' ls :
  alloc_rows h rows = (h', ls) ->
  h ⊆ h' /\ read_rows h' ls = Some rows /\ NoDup ls /\
  (forall l, l ∈ ls -> h !! l = None) /\
  (forall l, l ∉ ls -> h' !! l = h !! l).
Proof.
  revert h h' ls. induction rows as [|cells rows IH]; intros h h' ls; cbn [alloc_rows].
  - intros H. injection H as <- <-. split; [done|]. split; [done|].
    split; [constructor|].
    split; [intros l Hl; by apply elem_of_nil in Hl|done].
  - destruct (alloc h (Row cells)) as [h1 l] eqn:Ea.
    destruct (alloc_rows h1 rows) as [h2 ls'] eqn:Er. intros H. injection H as <- <-.
    apply alloc_spec in Ea as [Hl ->].
    destruct (IH _ _ _ Er) as (Hsub & Hread & Hnd & Hfresh & Hsame).
    assert (l ∉ ls') as Hnot.
    { intros Hin. pose proof (Hfresh l Hin) as H. by rewrite lookup_insert_eq in H. }
    split; [|split; [|split; [|split]]].
    + etransitivity; [|exact Hsub]. by apply insert_subseteq.
    + simpl. unfold read_row. rewrite (Hsame l Hnot), lookup_insert_eq. by rewrite Hread.
    + by apply NoDup_cons.
    + intros x Hx. apply elem_of_cons in Hx as [->|Hx]; [done|].
      pose proof (Hfresh x Hx) as H.
      destruct (decide (l = x)) as [->|Hne]; [done|]. by rewrite lookup_insert_ne in H.
    + intros x Hx. apply not_elem_of_cons in Hx as [Hx1 Hx2].
      rewrite (Hsame x Hx2). by apply lookup_insert_ne.
Qed.

Lemma game_at_frame h h' l s refs b :
  game_at h l s refs b ->
  (forall x, x ∈ footprint l s refs -> h' !! x = h !! x) ->
  game_at h' l s refs b.
Proof.
  intros [Ho Hb Hr] Hf. unfold footprint in Hf. split.
  - rewrite Hf; [done|]. by left.
  - rewrite Hf; [done|]. right. by left.
  - rewrite (read_rows_frame h); [done|]. intros x Hx. apply Hf. right. by right.
Qed.

Lemma read_game_at h l g :
  read_game h l = Some g <->
  exists s refs b, game_at h l s refs b /\ g = value_of s b.
Proof.
  unfold read_game, view, read_board. split.
  - destruct (h !! l) as [[| |s]|] eqn:E; try done.
    destruct (h !! board s) as [[|refs|]|] eqn:Eb; try done.
    destruct (read_rows h refs) as [b|] eqn:Er; [|done].
    intros [= <-]. exists s, refs, b. split; [by split|done].
  - intros (s & refs & b & [Ho Hb Hr] & ->). by rewrite Ho, Hb, Hr.
Qed.

Lemma read_rows_mono h h' ls b :
  h ⊆ h' -> read_rows h ls = Some b -> read_rows h' ls = Some b.
Proof.
  intros Hsub Hr. rewrite <- Hr. apply read_rows_frame. intros l Hl.
  destruct (read_rows_Some_lookup h ls b l Hr Hl) as [cells Hc].
  rewrite Hc. by apply (lookup_weaken h h').
Qed.

Lemma footprint_live h l s refs b x :
  game_at h l s refs b -> x ∈ footprint l s refs -> is_Some (h !! x).
Proof.
  intros [Ho Hb Hr] Hx. unfold footprint in Hx.
  apply elem_of_cons in Hx as [->|Hx]; [eauto|].
  apply elem_of_cons in Hx as [->|Hx]; [eauto|].
  destruct (read_rows_Some_lookup h refs b x Hr Hx) as [cells Hc]. eauto.
Qed.

Lemma game_at_mono h h' l s refs b :
  h ⊆ h' -> game_at h l s refs b -> game_at h' l s refs b.
Proof.
  intros Hsub Hg. apply (game_at_frame h); [done|]. intros x Hx.
  destruct (footprint_live h l s refs b x Hg Hx) as [o Ho].
  rewrite Ho. by apply (lookup_weaken h h').
Qed.

(** [clone] builds a second object graph with the same value, out of
    references that were not in use. *)
Lemma clone_spec h self s refs b :
  game_at h self s refs b ->
  exists h' dst s' refs',
    clone h self = Some (h', dst) /\
    h ⊆ h' /\
    game_at h' dst s' refs' b /\
    value_of s' b = value_of s b /\
    NoDup refs' /\
    (forall x, x ∈ footprint dst s' refs' -> h !! x = None).
Proof.
  intros Hg. pose proof Hg as [Ho Hb Hr]. unfold clone. rewrite Ho.
  unfold init.
  destruct (alloc_rows h _) as [ha lsa] eqn:Ea.
  destruct (alloc ha (Rows lsa)) as [hb bla] eqn:Eb.
  destruct (alloc hb _) as [h1 g] eqn:Eg.
  apply alloc_rows_spec in Ea as (Hsa & _ & _ & _ & _).
  apply alloc_spec in Eb as [Hbla ->].
  apply alloc_spec in Eg as [Hgf ->].
  set (h1 := <[g := _]> (<[bla := Rows lsa]> ha)) in *.
  assert (h ⊆ h1) as Hs1.
  { etransitivity; [exact Hsa|]. etransitivity; [by apply insert_subseteq|].
    by apply insert_subseteq. }
  rewrite (lookup_weaken h h1 _ _ Hb Hs1).
  rewrite (read_rows_mono h h1 refs b Hs1 Hr).
  destruct (alloc_rows h1 b) as [h2 ls] eqn:E2.
  destruct (alloc h2 (Rows ls)) as [h3 bl] eqn:E3.
  apply alloc_rows_spec in E2 as (Hs2 & Hread2 & Hnd & Hfresh2 & Hsame2).
  apply alloc_spec in E3 as [Hblf ->].
  assert (h1 !! g = Some (Game (mk_game (size s) bla RED EMPTY None 0))) as Hg1
    by apply lookup_insert_eq.
  assert (h2 !! g = Some (Game (mk_game (size s) bla RED EMPTY None 0))) as Hg2
    by (by apply (lookup_weaken h1 h2)).
  assert (bl <> g) as Hne by (intros ->; congruence).
  rewrite lookup_insert_ne by done. rewrite Hg2.
  exists (<[g := Game (mk_game (size s) bl (current s) (winner s) (last_move s)
                                (moves_played s))]> (<[bl := Rows ls]> h2)),
    g, (mk_game (size s) bl (current s) (winner s) (last_move s) (moves_played s)), ls.
  split; [reflexivity|].
  assert (h !! g = None) as Hgh.
  { destruct (h !! g) eqn:E; [|done].
    assert (<[bla := Rows lsa]> ha !! g = Some o); [|congruence].
    eapply lookup_weaken; [exact E|].
    etransitivity; [exact Hsa|]. by apply insert_subseteq. }
  assert (h !! bl = None) as Hblh.
  { destruct (h !! bl) eqn:E; [|done].
    assert (h2 !! bl = Some o); [|congruence].
    eapply lookup_weaken; [exact E|]. by etransitivity. }
  assert (forall l, l ∈ ls -> h !! l = None) as Hlsh.
  { intros l Hl. destruct (h !! l) eqn:E; [|done].
    pose proof (Hfresh2 l Hl). assert (h1 !! l = Some o); [|congruence].
    by eapply lookup_weaken. }
  split; [|split; [|split; [done|split; [done|]]]].
  - apply map_subseteq_spec. intros x o Hx.
    assert (g <> x) as Hn1 by (intros <-; congruence).
    assert (bl <> x) as Hn2 by (intros <-; congruence).
    rewrite lookup_insert_ne by done. rewrite lookup_insert_ne by done.
    eapply lookup_weaken; [exact Hx|]. by etransitivity.
  - split; simpl.
    + apply lookup_insert_eq.
    + rewrite lookup_insert_ne by done. apply lookup_insert_eq.
    + rewrite (read_rows_frame h2); [done|]. intros l Hl.
      assert (g <> l) as Hn1.
      { intros <-. pose proof (Hfresh2 g Hl). congruence. }
      assert (bl <> l) as Hn2.
      { intros <-. destruct (read_rows_Some_lookup h2 ls b bl Hread2 Hl). congruence. }
      rewrite lookup_insert_ne by done. by rewrite lookup_insert_ne.
  - intros x Hx. unfold footprint in Hx. simpl in Hx.
    apply elem_of_cons in Hx as [->|Hx]; [done|].
    apply elem_of_cons in Hx as [->|Hx]; [done|]. by apply Hlsh.
Qed.

Lemma alter_as_insert {A} (f : A -> A) (l : list A) i x :
  l !! i = Some x -> alter f i l = <[i := f x]> l.
Proof.
  revert i. induction l as [|y l IH]; intros [|i] H; simpl in *; try done.
  - by injection H as ->.
  - f_equal. by apply IH.
Qed.

Lemma play_size_shape g mv n :
  shape n (HexGame.board g) ->
  HexGame.size (HexGame.play g mv).2 = HexGame.size g /\
  shape n (HexGame.board (HexGame.play g mv).2).
Proof.
  intros Hs. destruct (rejects_dec g mv) as [Hrej|Hacc].
  - by rewrite (play_reject g mv Hrej).
  - rewrite (play_accept g mv Hacc).
    destruct (HexGame.has_won _ _); simpl; (split; [done|by apply shape_set2]).
Qed.

(** [play] on an object whose rows are distinct objects does what the
    functional model does, and writes only into that object's graph. *)
Lemma play_refines h l s refs b mv :
  game_at h l s refs b -> NoDup refs -> shape (Z.to_nat (size s)) b ->
  exists h' s',
    Store.play h l mv = Some (h', (HexGame.play (value_of s b) mv).1) /\
    game_at h' l s' refs (HexGame.board (HexGame.play (value_of s b) mv).2) /\
    value_of s' (HexGame.board (HexGame.play (value_of s b) mv).2)
      = (HexGame.play (value_of s b) mv).2 /\
    board s' = board s /\
    (forall x, x ∉ footprint l s refs -> h' !! x = h !! x).
Proof.
  intros Hg Hnd Hshape. pose proof Hg as [Ho Hb Hr].
  unfold Store.play. rewrite Ho, Hb.
  destruct (rejects_dec (value_of s b) mv) as [Hrej|Hacc].
  - rewrite (play_reject _ mv Hrej). cbn [fst snd].
    exists h, s. split; [|split; [done|split; [by destruct s|done]]].
    destruct (winner s =? EMPTY) eqn:Ew; cbn [negb]; [|done].
    destruct (in_bounds (size s) (Move.r mv) (Move.c mv)) eqn:Eb; cbn [negb]; [|done].
    apply Z.eqb_eq in Ew. pose proof Eb as Eb'. apply in_bounds_iff in Eb'.
    pose proof (read_rows_length _ _ _ Hr) as Hlen. destruct Hshape as [Hl Hf].
    destruct (lookup_lt_is_Some_2 refs (Z.to_nat (Move.r mv))) as [rl Hrl]; [lia|].
    rewrite Hrl. destruct (read_rows_lookup _ _ _ _ _ Hr Hrl) as (cells & Hc & Hbc).
    rewrite Hc.
    assert (length cells = Z.to_nat (size s)) as Hcl.
    { rewrite Forall_forall in Hf. apply Hf. by eapply list_elem_of_lookup_2. }
    destruct (lookup_lt_is_Some_2 cells (Z.to_nat (Move.c mv))) as [v Hv]; [lia|].
    rewrite Hv.
    assert (get2 EMPTY b (Move.r mv) (Move.c mv) = v) as Hget
      by (by apply (get2_lookup EMPTY b _ _ cells)).
    destruct (v =? EMPTY) eqn:Ev; cbn [negb]; [|done].
    apply Z.eqb_eq in Ev. exfalso.
    destruct Hrej as [H|[H|H]]; simpl in H; congruence.
  - pose proof Hacc as Hacc'. apply not_rejects in Hacc' as (Hw & Hb' & Hv').
    simpl in Hw, Hb', Hv'.
    rewrite Hw. cbn [Z.eqb negb]. change (EMPTY =? EMPTY) with true. cbn [negb].
    rewrite Hb'. cbn [negb].
    pose proof Hb' as Hin. apply in_bounds_iff in Hin.
    pose proof (read_rows_length _ _ _ Hr) as Hlen. destruct Hshape as [Hl Hf].
    destruct (lookup_lt_is_Some_2 refs (Z.to_nat (Move.r mv))) as [rl Hrl]; [lia|].
    rewrite Hrl. destruct (read_rows_lookup _ _ _ _ _ Hr Hrl) as (cells & Hc & Hbc).
    rewrite Hc.
    assert (length cells = Z.to_nat (size s)) as Hcl.
    { rewrite Forall_forall in Hf. apply Hf. by eapply list_elem_of_lookup_2. }
    destruct (lookup_lt_is_Some_2 cells (Z.to_nat (Move.c mv))) as [v Hv]; [lia|].
    rewrite Hv.
    assert (get2 EMPTY b (Move.r mv) (Move.c mv) = v) as Hget
      by (by apply (get2_lookup EMPTY b _ _ cells)).
    rewrite Hv' in Hget. subst v. change (EMPTY =? EMPTY) with true. cbn [negb].
    assert (rl <> board s) as Hn1 by (intros ->; congruence).
    assert (rl <> l) as Hn2 by (intros ->; congruence).
    assert (l ∉ refs) as Hn3.
    { intros Hin'. destruct (read_rows_Some_lookup _ _ _ _ Hr Hin'). congruence. }
    set (h1 := <[rl := Row (<[Z.to_nat (Move.c mv) := current s]> cells)]> h).
    assert (read_rows h1 refs =
            Some (set2 b (Move.r mv) (Move.c mv) (current s))) as Hr1.
    { unfold set2. rewrite (alter_as_insert _ b _ cells Hbc).
      by apply read_rows_write. }
    assert (l <> board s) as Hn4 by (intros ->; congruence).
    assert (forall s', board s' = board s ->
              game_at (<[l := Game s']> h1) l s' refs
                      (set2 b (Move.r mv) (Move.c mv) (current s)) /\
              (forall x, x ∉ footprint l s refs -> <[l := Game s']> h1 !! x = h !! x))
      as Hfin.
    { intros s' Hbs. split; [split|].
      - apply lookup_insert_eq.
      - rewrite Hbs. rewrite lookup_insert_ne by done. unfold h1.
        rewrite lookup_insert_ne by done. exact Hb.
      - rewrite (read_rows_frame h1); [exact Hr1|].
        intros x Hx. apply lookup_insert_ne. intros ->. done.
      - intros x Hx. unfold footprint in Hx.
        apply not_elem_of_cons in Hx as [Hx1 Hx2].
        apply not_elem_of_cons in Hx2 as [Hx2 Hx3].
        rewrite lookup_insert_ne by done. unfold h1.
        apply lookup_insert_ne. intros ->. apply Hx3.
        by eapply list_elem_of_lookup_2. }
    unfold view, read_board. cbn [board].
    unfold h1 at 1. rewrite lookup_insert_ne by done. rewrite Hb, Hr1.
    cbn [size board current winner last_move moves_played].
    rewrite (play_accept _ mv Hacc). unfold placed, value_of.
    cbn [HexGame.size HexGame.board HexGame.current HexGame.winner
         HexGame.last_move HexGame.moves_played].
    rewrite ?Hw.
    match goal with |- context [HexGame.has_won ?g ?p] =>
      destruct (HexGame.has_won g p) end; cbn [fst snd HexGame.board].
    + destruct (Hfin (mk_game (size s) (board s) (current s) (current s) (Some mv)
                              (moves_played s + 1)) eq_refl) as [H1 H2].
      eexists _, _. split; [reflexivity|]. split; [exact H1|].
      split; [reflexivity|]. split; [reflexivity|exact H2].
    + destruct (Hfin (mk_game (size s) (board s)
                              (if current s =? RED then BLUE else RED) EMPTY (Some mv)
                              (moves_played s + 1)) eq_refl) as [H1 H2].
      eexists _, _. split; [reflexivity|]. split; [exact H1|].
      split; [reflexivity|]. split; [reflexivity|exact H2].
Qed.

Lemma plays_frame self s refs b dst refs' mvs :
  forall h sd bd,
    game_at h self s refs b -> game_at h dst sd refs' bd ->
    NoDup refs' -> shape (Z.to_nat (size sd)) bd ->
    (forall x, x ∈ footprint self s refs -> x ∉ footprint dst sd refs') ->
    exists h2,
      Store.plays h dst mvs = Some h2 /\
      game_at h2 self s refs b /\
      read_game h2 dst = Some (play_list (value_of sd bd) mvs).
Proof.
  induction mvs as [|mv mvs IH]; intros h sd bd Hself Hdst Hnd Hshape Hsep.
  - exists h. split; [done|]. split; [done|]. apply read_game_at. by exists sd, refs', bd.
  - destruct (play_refines h dst sd refs' bd mv Hdst Hnd Hshape)
      as (h' & s' & Hplay & Hdst' & Hval & Hbs & Hframe).
    cbn [Store.plays play_list]. rewrite Hplay.
    destruct (play_size_shape (value_of sd bd) mv _ Hshape) as [Hsz Hsh].
    assert (size s' = size sd) as Hsize.
    { apply (f_equal HexGame.size) in Hval. simpl in Hval. by rewrite Hval, Hsz. }
    destruct (IH h' s' (HexGame.board (HexGame.play (value_of sd bd) mv).2))
      as (h2 & Hp2 & Hself2 & Hread2).
    + apply (game_at_frame h); [done|]. intros x Hx. apply Hframe. by apply Hsep.
    + done.
    + done.
    + by rewrite Hsize.
    + intros x Hx. unfold footprint. rewrite Hbs. by apply Hsep.
    + exists h2. split; [done|]. split; [done|]. by rewrite <- Hval.
Qed.

(** A store with one 2 x 2 game, just created. *)
Definition one_game_store : gmap positive obj :=
  <[1%positive := Game (mk_game 2 2%positive RED EMPTY None 0)]>
    (<[2%positive := Rows [3%positive; 4%positive]]>
       (<[3%positive := Row [0; 0]]> (<[4%positive := Row [0; 0]]> ∅))).

(** C10.  For every game object, [clone] returns a new object whose value
    (size, board, current player, winner, last move, move counter) is the
    value of the source; and after any sequence of moves played on the
    clone, the source still has that value, while the clone has the value
    the game model gives for those moves. *)
Theorem clone_independent (h : gmap positive obj) (self : positive) (g : HexGame.t) :
  read_game h self = Some g -> wf_board g ->
  exists h1 dst,
    Store.clone h self = Some (h1, dst) /\
    h !! dst = None /\
    read_game h1 dst = Some g /\
    read_game h1 self = Some g /\
    forall mvs, exists h2,
      Store.plays h1 dst mvs = Some h2 /\
      read_game h2 self = Some g /\
      read_game h2 dst = Some (play_list g mvs).
Proof.
  intros Hread Hwf. apply read_game_at in Hread as (s & refs & b & Hg & ->).
  destruct (clone_spec h self s refs b Hg)
    as (h1 & dst & s' & refs' & Hclone & Hsub & Hdst & Hval & Hnd & Hfresh).
  pose proof (game_at_mono h h1 self s refs b Hsub Hg) as Hself.
  exists h1, dst. split; [done|]. split; [apply Hfresh; by left|].
  split; [apply read_game_at; exists s', refs', b; by rewrite Hval|].
  split; [apply read_game_at; by exists s, refs, b|].
  intros mvs.
  destruct (plays_frame self s refs b dst refs' mvs h1 s' b) as (h2 & Hp & Hs2 & Hd2);
    try done.
  - unfold wf_board in Hwf. simpl in Hwf.
    apply (f_equal HexGame.size) in Hval. simpl in Hval. by rewrite Hval.
  - intros x Hx Hx'. destruct (footprint_live h self s refs b x Hg Hx) as [o Ho].
    rewrite (Hfresh x Hx') in Ho. done.
  - exists h2. split; [done|]. split; [apply read_game_at; by exists s, refs, b|].
    by rewrite <- Hval.
Qed.

Lemma clone_independent_witness :
  read_game one_game_store 1%positive = Some (HexGame.init 2) /\
  wf_board (HexGame.init 2) /\
  exists h1 dst,
    Store.clone one_game_store 1%positive = Some (h1, dst) /\
    one_game_store !! dst = None /\
    read_game h1 dst = Some (HexGame.init 2) /\
    read_game h1 1%positive = Some (HexGame.init 2) /\
    forall mvs, exists h2,
      Store.plays h1 dst mvs = Some h2 /\
      read_game h2 1%positive = Some (HexGame.init 2) /\
      read_game h2 dst = Some (play_list (HexGame.init 2) mvs).
Proof.
  assert (read_game one_game_store 1%positive = Some (HexGame.init 2)) as Hread
    by (vm_compute; reflexivity).
  assert (wf_board (HexGame.init 2)) as Hwf by (split; [reflexivity|repeat constructor]).
  split; [exact Hread|]. split; [exact Hwf|].
  exact (clone_independent one_game_store 1%positive (HexGame.init 2) Hread Hwf).
Defined.

(** ** The retained tree follows the game

    [pos] gives, for the nodes it knows, the position they stand for.  In a
    tree that is in step with the live game, the root stands for the live
    position, and a child under the key [k] stands for the position after
    the move [k], which is legal there; its [move] is [k] and its
    [player_to_move] is the player to move in that position. *)

Record tree_ok (h : list Node.t) (pos : nat -> option HexGame.t) : Prop := {
  tk_child : forall id nd k c,
    h !! id = Some nd -> (k, c) ∈ Node.children nd ->
    exists ndc, h !! c = Some ndc /\ Node.move ndc = Some (Move.mk k.1 k.2);
  tk_pos : forall id nd k c g,
    h !! id = Some nd -> (k, c) ∈ Node.children nd -> pos id = Some g ->
    exists ndc g',
      h !! c = Some ndc /\
      HexGame.play g (Move.mk k.1 k.2) = (true, g') /\
      pos c = Some g' /\
      Node.player_to_move ndc = HexGame.current g'
}.

Definition synced (self : MCTSBot.t) (game : HexGame.t) : Prop :=
  exists pos, tree_ok (MCTSBot.heap self) pos /\
    forall rt, MCTSBot.root self = Some rt ->
      is_Some (MCTSBot.heap self !! rt) /\ pos rt = Some game.

(** What [tree_ok] reads of a node. *)
Definition skel (nd : Node.t) : option Move.t * Z * list ((Z * Z) * nat) :=
  (Node.move nd, Node.player_to_move nd, Node.children nd).

Definition same_tree (h h' : list Node.t) : Prop :=
  forall id, skel <$> (h' !! id) = skel <$> (h !! id).

Lemma same_tree_lookup h h' id nd' :
  same_tree h h' -> h' !! id = Some nd' ->
  exists nd, h !! id = Some nd /\ skel nd = skel nd'.
Proof.
  intros Hs Hl. specialize (Hs id). rewrite Hl in Hs. simpl in Hs.
  destruct (h !! id) as [nd|]; [|done]. simpl in Hs.
  exists nd. split; [done|]. congruence.
Qed.

Lemma same_tree_lookup_r h h' id nd :
  same_tree h h' -> h !! id = Some nd ->
  exists nd', h' !! id = Some nd' /\ skel nd = skel nd'.
Proof.
  intros Hs Hl. specialize (Hs id). rewrite Hl in Hs. simpl in Hs.
  destruct (h' !! id) as [nd'|]; [|done]. simpl in Hs.
  exists nd'. split; [done|]. congruence.
Qed.

Lemma same_tree_refl h : same_tree h h.
Proof. by intros id. Qed.

Lemma same_tree_trans h1 h2 h3 :
  same_tree h1 h2 -> same_tree h2 h3 -> same_tree h1 h3.
Proof. intros H1 H2 id. by rewrite H2, H1. Qed.

Lemma same_tree_insert h i nd nd' :
  h !! i = Some nd -> skel nd' = skel nd -> same_tree h (<[i := nd']> h).
Proof.
  intros Hl Hs id. destruct (decide (i = id)) as [->|Hne].
  - rewrite list_lookup_insert_eq by (by eapply lookup_lt_Some).
    rewrite Hl. simpl. by rewrite Hs.
  - by rewrite list_lookup_insert_ne.
Qed.

Lemma tree_ok_same h h' pos : same_tree h h' -> tree_ok h pos -> tree_ok h' pos.
Proof.
  intros Hs [Hc Hp]. split.
  - intros id nd' k c Hid Hin.
    destruct (same_tree_lookup h h' id nd' Hs Hid) as (nd & Hnd & Hsk).
    injection Hsk as _ _ Hch. rewrite <- Hch in Hin.
    destruct (Hc id nd k c Hnd Hin) as (ndc & Hndc & Hm).
    destruct (same_tree_lookup_r h h' c ndc Hs Hndc) as (ndc' & Hndc' & Hsk').
    injection Hsk' as Hm' _ _. exists ndc'. split; [done|]. by rewrite <- Hm'.
  - intros id nd' k c g Hid Hin Hpos.
    destruct (same_tree_lookup h h' id nd' Hs Hid) as (nd & Hnd & Hsk).
    injection Hsk as _ _ Hch. rewrite <- Hch in Hin.
    destruct (Hp id nd k c g Hnd Hin Hpos) as (ndc & g' & Hndc & Hplay & Hpc & Hptm).
    destruct (same_tree_lookup_r h h' c ndc Hs Hndc) as (ndc' & Hndc' & Hsk').
    injection Hsk' as _ Hp' _. exists ndc', g'. repeat split; try done.
    by rewrite <- Hp'.
Qed.

Lemma clone_id g : HexGame.clone g = g.
Proof. destruct g. unfold HexGame.clone. simpl. f_equal. apply map_id. Qed.

Lemma key_eqb_eq a b : Node.key_eqb a b = true -> a = b.
Proof.
  unfold Node.key_eqb. intros H. apply andb_true_iff in H as [H1 H2].
  apply Z.eqb_eq in H1, H2. destruct a, b. simpl in *. by subst.
Qed.

Lemma dict_set_In {V} (d : list ((Z * Z) * V)) key v k c :
  (k, c) ∈ Node.dict_set d key v -> (k, c) ∈ d \/ (k = key /\ c = v).
Proof.
  induction d as [|[k' v'] d IH]; simpl.
  - intros H. apply list_elem_of_singleton in H. injection H as -> ->. by right.
  - destruct (Node.key_eqb k' key) eqn:E.
    + intros H. apply elem_of_cons in H as [H|H].
      * injection H as -> ->. right. split; [by apply key_eqb_eq|done].
      * left. by right.
    + intros H. apply elem_of_cons in H as [H|H].
      * left. rewrite H. by left.
      * destruct (IH H) as [?|?]; [left; by right|by right].
Qed.

Lemma dict_get_complete {V} (d : list ((Z * Z) * V)) k c :
  (k, c) ∈ d -> exists c', Node.dict_get d k = Some c'.
Proof.
  induction d as [|[k' v'] d IH]; intros Hin; [by apply elem_of_nil in Hin|].
  simpl. destruct (Node.key_eqb k' k) eqn:E; [eauto|].
  apply elem_of_cons in Hin as [Hin|Hin]; [|by apply IH].
  injection Hin as <- <-. unfold Node.key_eqb in E. rewrite !Z.eqb_refl in E. done.
Qed.

Section Sync.
Context {RT : PyRuntime}.

Lemma uct_scan_In h nd c chs best bv r :
  Node.uct_scan h nd c chs best bv = Ok (Some r) ->
  best = Some r \/ exists k, (k, r) ∈ chs.
Proof.
  revert best bv. induction chs as [|[k ch] chs IH]; intros best bv; simpl.
  - intros [= ->]. by left.
  - destruct (Node.get h ch) as [ndc| | |]; try done. cbn [rbind].
    destruct (Node.uct_value nd ndc c) as [val| | |]; try done. cbn [rbind].
    destruct (bv <? val)%float; intros H; apply IH in H as [H|[k' H]].
    + injection H as <-. right. exists k. by left.
    + right. exists k'. by right.
    + by left.
    + right. exists k'. by right.
Qed.

Lemma select_pos fuel self pos node state node' state' :
  tree_ok (MCTSBot.heap self) pos -> pos node = Some state ->
  MCTSBot.select fuel self node state = Ok (node', state') ->
  pos node' = Some state' /\ is_Some (MCTSBot.heap self !! node').
Proof.
  intros Hok. revert node state.
  induction fuel as [|fuel IH]; intros node state Hpos Hsel.
  - simpl in Hsel. destruct (Node.get (MCTSBot.heap self) node) as [nd| | |] eqn:En;
      try done. cbn [rbind] in Hsel.
    destruct (_ && _ && _); [done|]. injection Hsel as <- <-.
    split; [done|]. apply node_get_Ok in En. eauto.
  - simpl in Hsel. destruct (Node.get (MCTSBot.heap self) node) as [nd| | |] eqn:En;
      try done. cbn [rbind] in Hsel. apply node_get_Ok in En.
    destruct (_ && _ && _).
    2:{ injection Hsel as <- <-. split; [done|]. eauto. }
    destruct (Node.uct_select_child (MCTSBot.heap self) nd (MCTSBot.uct_c self))
      as [[ch|]| | |] eqn:Eu; try done. cbn [rbind] in Hsel.
    destruct (Node.get (MCTSBot.heap self) ch) as [chn| | |] eqn:Ec; try done.
    cbn [rbind] in Hsel. apply node_get_Ok in Ec.
    destruct (Node.move chn) as [mv|] eqn:Em; [|done].
    unfold Node.uct_select_child in Eu.
    apply uct_scan_In in Eu as [?|[k Hin]]; [done|].
    destruct (tk_pos _ _ Hok node nd k ch state En Hin Hpos)
      as (ndc & g' & Hndc & Hplay & Hpc & _).
    destruct (tk_child _ _ Hok node nd k ch En Hin) as (ndc' & Hndc' & Hmv).
    rewrite Ec in Hndc'. injection Hndc' as <-. rewrite Em in Hmv. injection Hmv as ->.
    rewrite Hplay in Hsel. by apply (IH ch g').
Qed.


Lemma tree_ok_add_root h pos nd0 g :
  tree_ok h pos -> Node.children nd0 = [] ->
  tree_ok (h ++ [nd0]) (fun id => if decide (id = length h) then Some g else pos id).
Proof.
  intros [Hc Hp] Hnil.
  assert (forall id nd, (h ++ [nd0]) !! id = Some nd ->
            (h !! id = Some nd /\ (id < length h)%nat) \/ (id = length h /\ nd = nd0))
    as Hcase.
  { intros id nd Hl. destruct (decide (id < length h)%nat) as [Hlt|Hge].
    - rewrite lookup_app_l in Hl by done. by left.
    - rewrite lookup_app_r in Hl by lia.
      destruct (id - length h)%nat eqn:E; [|done]. simpl in Hl. injection Hl as <-.
      right. split; [lia|done]. }
  split.
  - intros id nd k c Hid Hin. destruct (Hcase id nd Hid) as [[Hid' _]|[-> ->]].
    + destruct (Hc id nd k c Hid' Hin) as (ndc & Hndc & Hm). exists ndc.
      split; [|done]. rewrite lookup_app_l; [done|]. by eapply lookup_lt_Some.
    + rewrite Hnil in Hin. by apply elem_of_nil in Hin.
  - intros id nd k c g0 Hid Hin Hpos. destruct (Hcase id nd Hid) as [[Hid' Hlt]|[-> ->]].
    + destruct (decide (id = length h)); [lia|].
      destruct (Hp id nd k c g0 Hid' Hin Hpos) as (ndc & g' & Hndc & Hplay & Hpc & Hptm).
      exists ndc, g'. pose proof (lookup_lt_Some _ _ _ Hndc).
      split; [by rewrite lookup_app_l|]. split; [done|]. split; [|done].
      destruct (decide (c = length h)); [lia|done].
    + rewrite Hnil in Hin. by apply elem_of_nil in Hin.
Qed.

Lemma tree_ok_add_child h pos node nd mv state state1 u1 u2 :
  tree_ok h pos -> h !! node = Some nd -> pos node = Some state ->
  HexGame.play state mv = (true, state1) ->
  tree_ok
    (<[node := Node.set_children (Node.set_untried nd u1)
                 (Node.dict_set (Node.children nd) (Move.r mv, Move.c mv) (length h))]>
       (<[node := Node.set_untried nd u1]> h
          ++ [Node.mk (Some node) (Some mv) (HexGame.current state1) u2 [] 0 0%float]))
    (fun id => if decide (id = length h) then Some state1 else pos id).
Proof.
  intros Hok Hnode Hpos Hplay.
  set (newnode := Node.mk (Some node) (Some mv) (HexGame.current state1) u2 [] 0 0%float).
  set (nd' := Node.set_children (Node.set_untried nd u1)
                (Node.dict_set (Node.children nd) (Move.r mv, Move.c mv) (length h))).
  set (h1 := <[node := Node.set_untried nd u1]> h).
  pose proof (lookup_lt_Some _ _ _ Hnode) as Hlt.
  assert (length h1 = length h) as Hlen1 by apply length_insert.
  assert (same_tree h h1) as Hs1 by (by apply (same_tree_insert h node nd)).
  pose proof (tree_ok_same h h1 pos Hs1 Hok) as Hok1.
  pose proof (tree_ok_add_root h1 pos newnode state1 Hok1 eq_refl) as Hok2.
  rewrite Hlen1 in Hok2.
  set (pos' := fun id => if decide (id = length h) then Some state1 else pos id) in *.
  set (h2 := h1 ++ [newnode]) in *.
  assert (h2 !! node = Some (Node.set_untried nd u1)) as Hn2.
  { unfold h2. rewrite lookup_app_l by lia. unfold h1.
    by apply list_lookup_insert_eq. }
  assert (h2 !! length h = Some newnode) as Hc2.
  { unfold h2. rewrite lookup_app_r by lia. rewrite Hlen1, Nat.sub_diag. done. }
  assert (length h2 = S (length h)) as Hlen2.
  { unfold h2. rewrite length_app, Hlen1. simpl. lia. }
  (* lookups after the children of [node] are replaced *)
  assert (forall id x, <[node := nd']> h2 !! id = Some x ->
            (id = node /\ x = nd') \/ (id <> node /\ h2 !! id = Some x)) as Hcase.
  { intros id x Hl. destruct (decide (node = id)) as [<-|Hne].
    - rewrite list_lookup_insert_eq in Hl by lia. injection Hl as <-. by left.
    - rewrite list_lookup_insert_ne in Hl by done. right. split; [congruence|done]. }
  assert (forall c ndc, h2 !! c = Some ndc ->
            exists ndc', <[node := nd']> h2 !! c = Some ndc' /\
              Node.move ndc' = Node.move ndc /\
              Node.player_to_move ndc' = Node.player_to_move ndc) as Hkeep.
  { intros c ndc Hl. destruct (decide (node = c)) as [<-|Hne].
    - rewrite list_lookup_insert_eq by lia. exists nd'. split; [done|].
      rewrite Hn2 in Hl. injection Hl as <-. done.
    - exists ndc. by rewrite list_lookup_insert_ne. }
  destruct Hok2 as [Hc Hp].
  assert (pos' node = Some state) as Hposn.
  { unfold pos'. destruct (decide (node = length h)); [lia|done]. }
  split.
  - intros id x k c Hid Hin. destruct (Hcase id x Hid) as [[-> ->]|[Hne Hid']].
    + simpl in Hin. apply dict_set_In in Hin as [Hin|[-> ->]].
      * destruct (Hc node (Node.set_untried nd u1) k c Hn2 Hin) as (ndc & Hndc & Hm).
        destruct (Hkeep c ndc Hndc) as (ndc' & Hl' & Hm' & _).
        exists ndc'. split; [done|]. by rewrite Hm'.
      * destruct (Hkeep _ _ Hc2) as (ndc' & Hl' & Hm' & _).
        exists ndc'. split; [done|]. rewrite Hm'. simpl. by destruct mv.
    + destruct (Hc id x k c Hid' Hin) as (ndc & Hndc & Hm).
      destruct (Hkeep c ndc Hndc) as (ndc' & Hl' & Hm' & _).
      exists ndc'. split; [done|]. by rewrite Hm'.
  - intros id x k c g Hid Hin Hg. destruct (Hcase id x Hid) as [[-> ->]|[Hne Hid']].
    + simpl in Hin. rewrite Hposn in Hg. injection Hg as <-.
      apply dict_set_In in Hin as [Hin|[-> ->]].
      * destruct (Hp node (Node.set_untried nd u1) k c state Hn2 Hin Hposn)
          as (ndc & g' & Hndc & Hpl & Hpc & Hptm).
        destruct (Hkeep c ndc Hndc) as (ndc' & Hl' & _ & Hp').
        exists ndc', g'. split; [done|]. split; [done|]. split; [done|]. by rewrite Hp'.
      * destruct (Hkeep _ _ Hc2) as (ndc' & Hl' & _ & Hp').
        exists ndc', state1. split; [done|]. simpl.
        split; [by destruct mv|]. split; [|by rewrite Hp'].
        unfold pos'. destruct (decide (length h = length h)); done.
    + destruct (Hp id x k c g Hid' Hin Hg) as (ndc & g' & Hndc & Hpl & Hpc & Hptm).
      destruct (Hkeep c ndc Hndc) as (ndc' & Hl' & _ & Hp').
      exists ndc', g'. split; [done|]. split; [done|]. split; [done|]. by rewrite Hp'.
Qed.


(** The engine while a search runs on [game]: a tree in step with it. *)
Record search_inv (self : MCTSBot.t) (rt : nat) (game : HexGame.t)
    (pos : nat -> option HexGame.t) : Prop := {
  si_tree : tree_ok (MCTSBot.heap self) pos;
  si_root : MCTSBot.root self = Some rt;
  si_live : is_Some (MCTSBot.heap self !! rt);
  si_pos : pos rt = Some game
}.

Lemma expand_sync self pos node state self' out :
  tree_ok (MCTSBot.heap self) pos -> pos node = Some state ->
  MCTSBot.expand self node state = Ok (self', out) ->
  MCTSBot.root self' = MCTSBot.root self /\
  exists pos',
    tree_ok (MCTSBot.heap self') pos' /\
    (forall id, is_Some (MCTSBot.heap self !! id) ->
       is_Some (MCTSBot.heap self' !! id) /\ pos' id = pos id).
Proof.
  intros Hok Hpos. unfold MCTSBot.expand.
  destruct (Node.get (MCTSBot.heap self) node) as [nd| | |] eqn:En; try done.
  cbn [rbind]. apply node_get_Ok in En.
  destruct ((HexGame.winner state =? EMPTY) && (0 <? length (Node.untried nd))%nat).
  2:{ intros [= <- <-]. split; [done|]. exists pos. split; [done|]. done. }
  destruct (Node.untried nd) as [|mv rest] eqn:Eu; [done|].
  destruct (HexGame.play state mv) as [ok state1] eqn:Ep.
  pose proof (lookup_lt_Some _ _ _ En) as Hlt.
  destruct ok; cbn [negb].
  - unfold MCTSBot.alloc.
    assert ((<[node := Node.set_untried nd rest]> (MCTSBot.heap self)
               ++ [Node.mk (Some node) (Some mv) (HexGame.current state1)
                     (frontier_moves state1 (MCTSBot.expand_candidates self)) [] 0 0%float])
              !! node = Some (Node.set_untried nd rest)) as Hn2.
    { rewrite lookup_app_l by (rewrite length_insert; lia).
      by apply list_lookup_insert_eq. }
    rewrite (node_get_Some _ _ _ Hn2). cbn [rbind]. rewrite length_insert.
    intros [= <- <-]. split; [done|].
    eexists. split.
    + cbn [MCTSBot.heap MCTSBot.set_heap Node.children Node.set_untried].
      apply (tree_ok_add_child (MCTSBot.heap self) pos node nd mv state state1);
        done.
    + intros id [x Hx]. pose proof (lookup_lt_Some _ _ _ Hx) as Hid.
      cbn [MCTSBot.heap MCTSBot.set_heap]. split.
      * apply lookup_lt_is_Some_2. rewrite length_insert, length_app, length_insert.
        simpl. lia.
      * destruct (decide (id = length (MCTSBot.heap self))); [lia|done].
  - intros [= <- <-]. split; [done|]. exists pos. split.
    + cbn [MCTSBot.heap MCTSBot.set_heap].
      eapply tree_ok_same; [|exact Hok]. by apply (same_tree_insert _ node nd).
    + intros id [x Hx]. split; [|done]. cbn [MCTSBot.heap MCTSBot.set_heap].
      apply lookup_lt_is_Some_2. rewrite length_insert. by eapply lookup_lt_Some.
Qed.

Lemma backprop_same fuel h node res h' :
  MCTSBot.backprop fuel h node res = Ok h' ->
  same_tree h h' /\ length h' = length h.
Proof.
  revert h node. induction fuel as [|fuel IH]; intros h node; simpl.
  - destruct node; [done|]. intros [= <-]. split; [apply same_tree_refl|done].
  - destruct node as [i|]; [|intros [= <-]; split; [apply same_tree_refl|done]].
    destruct (Node.get h i) as [nd| | |] eqn:En; try done. cbn [rbind].
    apply node_get_Ok in En. intros H. apply IH in H as [Hs Hl].
    split.
    + eapply same_tree_trans; [|exact Hs]. by apply (same_tree_insert h i nd).
    + by rewrite Hl, length_insert.
Qed.

Lemma iteration_sync self rt game pos rnd self' rnd' :
  search_inv self rt game pos ->
  MCTSBot.iteration self game rnd = Ok (self', rnd') ->
  exists pos', search_inv self' rt game pos'.
Proof.
  intros [Hok Hr Hlive Hpos]. unfold MCTSBot.iteration. rewrite Hr.
  rewrite clone_id.
  destruct (MCTSBot.select _ self rt game) as [[node state]| | |] eqn:Es; try done.
  cbn [rbind fst snd].
  destruct (select_pos _ self pos rt game node state Hok Hpos Es) as [Hpn Hln].
  destruct (MCTSBot.expand self node state) as [[s1 out]| | |] eqn:Ee; try done.
  cbn [rbind fst snd].
  destruct (expand_sync self pos node state s1 out Hok Hpn Ee)
    as (Hr1 & pos' & Hok1 & Hkeep).
  destruct (Hkeep rt Hlive) as [Hlive1 Hpos1].
  destruct out as [[node1 state1]|].
  2:{ intros [= <- <-]. exists pos'. split; try done; congruence. }
  destruct (MCTSBot.rollout _ _ state1 rnd) as [[final rnd1]| | |]; try done.
  cbn [rbind fst snd].
  destruct (MCTSBot.backprop _ _ _ _) as [h| | |] eqn:Eb; try done.
  cbn [rbind]. intros [= <- <-]. apply backprop_same in Eb as [Hs Hl].
  exists pos'. split.
  - cbn [MCTSBot.heap MCTSBot.set_heap]. by eapply tree_ok_same.
  - by rewrite <- Hr, <- Hr1.
  - cbn [MCTSBot.heap MCTSBot.set_heap]. apply lookup_lt_is_Some_2. rewrite Hl.
    destruct Hlive1 as [x Hx]. by eapply lookup_lt_Some.
  - congruence.
Qed.

Lemma search_sync ticks playouts self rt game pos rnd self' rnd' :
  search_inv self rt game pos ->
  MCTSBot.search ticks playouts self game rnd = Ok (self', rnd') ->
  exists pos', search_inv self' rt game pos'.
Proof.
  revert playouts self pos rnd.
  induction ticks as [|ticks IH]; intros playouts self pos rnd Hinv; simpl.
  - intros [= <- <-]. eauto.
  - destruct (playouts <? MCTSBot.playout_limit self); [|intros [= <- <-]; eauto].
    destruct (MCTSBot.iteration self game rnd) as [[s1 r1]| | |] eqn:Ei; try done.
    cbn [rbind fst snd]. intros Hs.
    destruct (iteration_sync self rt game pos rnd s1 r1 Hinv Ei) as [pos1 Hinv1].
    by apply (IH (playouts + 1) s1 pos1 r1).
Qed.


Lemma new_root_inv self game pos :
  tree_ok (MCTSBot.heap self) pos ->
  exists pos',
    search_inv (MCTSBot.set_root (MCTSBot._new_root self game).1
                  (Some (MCTSBot._new_root self game).2))
               (MCTSBot._new_root self game).2 game pos'.
Proof.
  intros Hok. unfold MCTSBot._new_root, MCTSBot.alloc. cbn [fst snd].
  eexists. split.
  - cbn [MCTSBot.heap MCTSBot.set_root MCTSBot.set_heap MCTSBot.set_root_player].
    by apply (tree_ok_add_root _ pos _ game).
  - done.
  - cbn [MCTSBot.heap MCTSBot.set_root MCTSBot.set_heap MCTSBot.set_root_player].
    rewrite lookup_app_r by lia. rewrite Nat.sub_diag. eauto.
  - cbn [MCTSBot.heap MCTSBot.set_root_player].
    destruct (decide (length (MCTSBot.heap self) = length (MCTSBot.heap self))); done.
Qed.

Lemma acquire_tail self1 rt game pos s :
  search_inv self1 rt game pos ->
  (let self2 :=
     match MCTSBot.root_player self1 with
     | None => MCTSBot.set_root_player self1 (Some (HexGame.current game))
     | Some _ => self1
     end in
   match MCTSBot.root self2 with
   | None => Raise AttributeError
   | Some rt =>
       nd <- Node.get (MCTSBot.heap self2) rt ;;
       if (length (Node.untried nd) =? 0)%nat && (length (Node.children nd) =? 0)%nat
       then Ok (MCTSBot.set_heap self2
                  (<[rt := Node.set_untried nd
                             (frontier_moves game (MCTSBot.expand_candidates self2))]>
                     (MCTSBot.heap self2)))
       else Ok self2
   end) = Ok s ->
  search_inv s rt game pos.
Proof.
  intros [Hok Hr [nd Hnd] Hpos]. cbv zeta.
  assert (forall self2, MCTSBot.heap self2 = MCTSBot.heap self1 ->
            MCTSBot.root self2 = MCTSBot.root self1 ->
            (match MCTSBot.root self2 with
             | None => Raise AttributeError
             | Some rt =>
                 nd <- Node.get (MCTSBot.heap self2) rt ;;
                 if (length (Node.untried nd) =? 0)%nat
                    && (length (Node.children nd) =? 0)%nat
                 then Ok (MCTSBot.set_heap self2
                            (<[rt := Node.set_untried nd
                                 (frontier_moves game (MCTSBot.expand_candidates self2))]>
                               (MCTSBot.heap self2)))
                 else Ok self2
             end) = Ok s -> search_inv s rt game pos) as Hgen.
  { intros self2 Hh Hrt. rewrite Hrt, Hr, Hh, (node_get_Some _ _ _ Hnd). cbn [rbind].
    destruct (_ && _); intros [= <-].
    - split.
      + cbn [MCTSBot.heap MCTSBot.set_heap].
        eapply tree_ok_same; [|exact Hok]. by apply (same_tree_insert _ rt nd).
      + destruct self2; simpl in *. congruence.
      + cbn [MCTSBot.heap MCTSBot.set_heap]. apply lookup_lt_is_Some_2.
        rewrite length_insert. by eapply lookup_lt_Some.
      + done.
    - split; [by rewrite Hh|congruence|rewrite Hh; eauto|done]. }
  destruct (MCTSBot.root_player self1); apply Hgen; by destruct self1.
Qed.

Lemma acquire_sync self game s :
  synced self game -> MCTSBot.acquire self game = Ok s ->
  exists pos rt, search_inv s rt game pos.
Proof.
  intros (pos & Hok & Hroot). unfold MCTSBot.acquire.
  destruct (new_root_inv self game pos Hok) as [pos' Hnew].
  destruct (MCTSBot.root self) as [rt|] eqn:Er.
  - destruct (Hroot rt eq_refl) as [[nd Hnd] Hpos].
    rewrite (node_get_Some _ _ _ Hnd). cbn [rbind].
    destruct (negb (Node.player_to_move nd =? HexGame.current game)).
    + destruct (MCTSBot._new_root self game) as [s0 rt0]. cbn [rbind fst snd] in *.
      intros H. exists pos', rt0. by apply (acquire_tail _ rt0 game pos' s Hnew).
    + cbn [rbind]. intros H. exists pos, rt.
      apply (acquire_tail self rt game pos s); [|done]. split; eauto.
  - destruct (MCTSBot._new_root self game) as [s0 rt0]. cbn [rbind fst snd] in *.
    intros H. exists pos', rt0. by apply (acquire_tail _ rt0 game pos' s Hnew).
Qed.

Lemma max_visits_In h chs best bv r :
  MCTSBot.max_visits h chs best bv = Ok r ->
  r = best \/ exists k, (k, r) ∈ chs.
Proof.
  revert best bv. induction chs as [|[k ch] chs IH]; intros best bv; simpl.
  - intros [= ->]. by left.
  - destruct (Node.get h ch) as [nd| | |]; try done. cbn [rbind].
    destruct (bv <? Node.visits nd); intros H; apply IH in H as [->|[k' H]].
    + right. exists k. by left.
    + right. exists k'. by right.
    + by left.
    + right. exists k'. by right.
Qed.

Lemma best_child_In h chs r :
  MCTSBot.best_child h chs = Ok r -> exists k, (k, r) ∈ chs.
Proof.
  destruct chs as [|[k ch] chs]; [done|]. simpl.
  destruct (Node.get h ch) as [nd| | |]; try done. cbn [rbind].
  intros H. apply max_visits_In in H as [->|[k' H]].
  - exists k. by left.
  - exists k'. by right.
Qed.

(** Re-rooting on a move that is played on the live game. *)
Lemma apply_move_sync self rt game pos m self' :
  search_inv self rt game pos ->
  MCTSBot._apply_move_to_tree self m = Ok self' ->
  (MCTSBot.root self' = None /\ MCTSBot.root_player self' = None /\
   MCTSBot.heap self' = MCTSBot.heap self) \/
  (exists g' nxt nn,
     HexGame.play game m = (true, g') /\
     MCTSBot.root self' = Some nxt /\
     MCTSBot.heap self' !! nxt = Some nn /\
     Node.parent nn = None /\
     Node.player_to_move nn = HexGame.current g' /\
     search_inv self' nxt g' pos).
Proof.
  intros [Hok Hr [nd Hnd] Hpos]. unfold MCTSBot._apply_move_to_tree.
  rewrite Hr, (node_get_Some _ _ _ Hnd). cbn [rbind].
  destruct (Node.dict_get (Node.children nd) (Move.r m, Move.c m)) as [nxt|] eqn:Ed.
  2:{ intros [= <-]. left. done. }
  apply dict_get_In in Ed.
  destruct (tk_pos _ _ Hok rt nd _ nxt game Hnd Ed Hpos)
    as (nn & g' & Hnn & Hplay & Hpn & Hptm).
  rewrite (node_get_Some _ _ _ Hnn). cbn [rbind]. intros [= <-]. right.
  exists g', nxt, (Node.set_parent nn None). simpl in Hplay.
  pose proof (lookup_lt_Some _ _ _ Hnn) as Hlt.
  assert (<[nxt := Node.set_parent nn None]> (MCTSBot.heap self) !! nxt
          = Some (Node.set_parent nn None)) as Hl by (by apply list_lookup_insert_eq).
  split; [by destruct m|]. split; [done|]. split; [exact Hl|].
  split; [done|]. split; [done|]. split.
  - cbn [MCTSBot.heap MCTSBot.set_root MCTSBot.set_heap].
    eapply tree_ok_same; [|exact Hok]. by apply (same_tree_insert _ nxt nn).
  - done.
  - cbn [MCTSBot.heap MCTSBot.set_root MCTSBot.set_heap]. eauto.
  - done.
Qed.

Lemma decide_sync s rt game pos nd m self' :
  search_inv s rt game pos -> MCTSBot.heap s !! rt = Some nd ->
  Node.children nd <> [] ->
  MCTSBot.decide s game = Ok (m, self') ->
  exists g' nxt nn,
    HexGame.play game m = (true, g') /\
    MCTSBot.root self' = Some nxt /\
    MCTSBot.heap self' !! nxt = Some nn /\
    Node.parent nn = None /\
    Node.player_to_move nn = HexGame.current g' /\
    search_inv self' nxt g' pos.
Proof.
  intros Hinv Hnd Hne. pose proof Hinv as [Hok Hr _ Hpos].
  rewrite (decide_children s game rt nd Hr Hnd Hne).
  destruct (MCTSBot.best_child _ _) as [best| | |] eqn:Eb; try done. cbn [rbind].
  destruct (Node.get (MCTSBot.heap s) best) as [bn| | |] eqn:En; try done.
  cbn [rbind]. apply node_get_Ok in En.
  destruct (Node.move bn) as [bm|] eqn:Em; [|done].
  destruct (MCTSBot._apply_move_to_tree s bm) as [s'| | |] eqn:Ea; try done.
  cbn [rbind]. intros [= <- <-].
  destruct (apply_move_sync s rt game pos bm s' Hinv Ea) as [(Hnone & _)|H]; [|done].
  exfalso. apply best_child_In in Eb as [k Hin].
  destruct (tk_child _ _ Hok rt nd k best Hnd Hin) as (bn' & Hbn' & Hm').
  rewrite En in Hbn'. injection Hbn' as <-. rewrite Em in Hm'. injection Hm' as ->.
  destruct (dict_get_complete _ _ _ Hin) as [c' Hc'].
  unfold MCTSBot._apply_move_to_tree in Ea.
  rewrite Hr, (node_get_Some _ _ _ Hnd) in Ea. cbn [rbind] in Ea.
  simpl in Ea. replace (k.1, k.2) with k in Ea by (by destruct k). rewrite Hc' in Ea.
  destruct (Node.get (MCTSBot.heap s) c'); try done. cbn [rbind] in Ea.
  injection Ea as <-. done.
Qed.

Lemma decide_total s rt game pos nd :
  search_inv s rt game pos -> MCTSBot.heap s !! rt = Some nd ->
  Node.children nd <> [] ->
  exists m self', MCTSBot.decide s game = Ok (m, self').
Proof.
  intros [Hok Hr _ Hpos] Hnd Hne.
  assert (children_valid (MCTSBot.heap s) (Node.children nd)) as Hval.
  { intros k c Hin. destruct (tk_child _ _ Hok rt nd k c Hnd Hin) as (ndc & Hc & _). eauto. }
  rewrite (decide_children s game rt nd Hr Hnd Hne).
  destruct (best_child_spec _ _ Hne Hval) as (best & Hbest & i & k & bn & Hi & Hbn & _).
  rewrite Hbest. cbn [rbind]. rewrite (node_get_Some _ _ _ Hbn). cbn [rbind].
  apply list_elem_of_lookup_2 in Hi.
  destruct (tk_child _ _ Hok rt nd k best Hnd Hi) as (bn' & Hbn' & Hm).
  rewrite Hbn in Hbn'. injection Hbn' as <-. rewrite Hm.
  destruct (apply_move_ok s (Move.mk k.1 k.2)) as [s' Hs'].
  - intros rt' Hrt'. rewrite Hr in Hrt'. injection Hrt' as <-. eauto.
  - rewrite Hs'. cbn [rbind]. eauto.
Qed.

Lemma search_inv_synced s rt game pos : search_inv s rt game pos -> synced s game.
Proof.
  intros [Hok Hr Hl Hpos]. exists pos. split; [done|].
  intros rt' Hrt'. rewrite Hr in Hrt'. by injection Hrt' as <-.
Qed.

End Sync.

(** The state in which [choose] takes its decision (lines 217-268), and the
    children of the root it decides from. *)
Definition searched {RT : PyRuntime} (self : MCTSBot.t) (game : HexGame.t)
    (ticks : nat) (rnd : Random) : result (MCTSBot.t * Random) :=
  s1 <- MCTSBot.acquire self game ;; MCTSBot.search ticks 0 s1 game rnd.

Definition root_children (s : MCTSBot.t) : list ((Z * Z) * nat) :=
  match MCTSBot.root s with
  | Some rt =>
      match MCTSBot.heap s !! rt with
      | Some nd => Node.children nd
      | None => []
      end
  | None => []
  end.

(** The sentence of the specification on [choose]: whenever [choose]
    returns [m], a retained root expects the player who moves after [m]. *)
Definition root_expects_next_mover {RT : PyRuntime} (self : MCTSBot.t)
    (game : HexGame.t) (ticks : nat) (rnd : Random) : Prop :=
  forall m self' rnd' game' rt nd,
    MCTSBot.choose self game ticks rnd = Ok (m, self', rnd') ->
    HexGame.play game m = (true, game') ->
    MCTSBot.root self' = Some rt -> MCTSBot.heap self' !! rt = Some nd ->
    Node.player_to_move nd = HexGame.current game'.

(** [MCTSBot(playout_limit=0)] *)
Definition no_playouts : MCTSBot.t :=
  MCTSBot.init (RT := ref_runtime) 1.2 1.35 0 12 30 None.

Definition five_playouts_searched : MCTSBot.t * Random :=
  match searched (RT := ref_runtime) (five_playouts None) (HexGame.init 2) 100
          (draws_from []) with
  | Ok x => x
  | _ => (five_playouts None, draws_from [])
  end.

Lemma fresh_engine_synced {RT : PyRuntime} tl uc pl rc ec seed game :
  synced (MCTSBot.init tl uc pl rc ec seed) game.
Proof.
  exists (fun _ => None). split; [|done].
  split; intros id nd k c; simpl; by rewrite lookup_nil.
Qed.

(** When the tree is in step with the game and the search leaves a root
    with a child, [choose] returns, the move is accepted, and the tree is
    in step with the game after the move. *)
Lemma choose_reroots {RT : PyRuntime} self game ticks rnd s0 rnd' :
  synced self game ->
  searched self game ticks rnd = Ok (s0, rnd') ->
  root_children s0 <> [] ->
  exists m self' game' nxt nn,
    MCTSBot.choose self game ticks rnd = Ok (m, self', rnd') /\
    HexGame.play game m = (true, game') /\
    MCTSBot.root self' = Some nxt /\
    MCTSBot.heap self' !! nxt = Some nn /\
    Node.parent nn = None /\
    Node.player_to_move nn = HexGame.current game' /\
    synced self' game'.
Proof.
  intros Hsync Hs Hch. unfold searched in Hs.
  destruct (MCTSBot.acquire self game) as [s1| | |] eqn:Ea; try done.
  cbn [rbind] in Hs.
  destruct (acquire_sync self game s1 Hsync Ea) as (pos1 & rt & Hinv1).
  destruct (search_sync _ _ _ _ _ _ _ _ _ Hinv1 Hs) as [pos0 Hinv0].
  pose proof Hinv0 as [_ Hr0 [nd Hnd] _].
  unfold root_children in Hch. rewrite Hr0, Hnd in Hch.
  destruct (decide_total s0 rt game pos0 nd Hinv0 Hnd Hch) as (m & self' & Hdec).
  destruct (decide_sync s0 rt game pos0 nd m self' Hinv0 Hnd Hch Hdec)
    as (g' & nxt & nn & Hplay & Hr' & Hnn & Hpar & Hptm & Hinv').
  exists m, self', g', nxt, nn.
  split.
  { unfold MCTSBot.choose. rewrite Ea. cbn [rbind]. rewrite Hs. cbn [rbind fst snd].
    rewrite Hdec. done. }
  do 5 (split; [done|]). by eapply search_inv_synced.
Qed.

(** X26.  Tree reuse.  For a retained root [nd] and a played move, reported
    through [notify_opponent_moved] or decided by [choose]: when the move's
    key is a key of [nd]'s children, that child becomes the root and its
    parent link is cleared, the rest of the store and the root-perspective
    player staying as they were; when it is not, root and root-perspective
    player are reset to [None], and the next [choose] starts from a fresh
    root for the live game.  When the retained tree is in step with the
    live game and the root has a child when the search ends, [choose]
    returns a move [m] that is legal in the live game, and the retained
    root then is a parentless node that expects the player to move after
    [m]; the tree is in step with the game after [m]. *)
Theorem tree_reuse {RT : PyRuntime} :
  (forall self rt nd move nxt nn,
     MCTSBot.root self = Some rt -> MCTSBot.heap self !! rt = Some nd ->
     Node.dict_get (Node.children nd) (Move.r move, Move.c move) = Some nxt ->
     MCTSBot.heap self !! nxt = Some nn ->
     exists self',
       MCTSBot.notify_opponent_moved self move = Ok self' /\
       MCTSBot._apply_move_to_tree self move = Ok self' /\
       MCTSBot.root self' = Some nxt /\
       MCTSBot.heap self' = <[nxt := Node.set_parent nn None]> (MCTSBot.heap self) /\
       (exists nn', MCTSBot.heap self' !! nxt = Some nn' /\ Node.parent nn' = None /\
                    skel nn' = skel nn) /\
       MCTSBot.root_player self' = MCTSBot.root_player self) /\
  (forall self rt nd move game,
     MCTSBot.root self = Some rt -> MCTSBot.heap self !! rt = Some nd ->
     Node.dict_get (Node.children nd) (Move.r move, Move.c move) = None ->
     exists self' s,
       MCTSBot.notify_opponent_moved self move = Ok self' /\
       MCTSBot._apply_move_to_tree self move = Ok self' /\
       MCTSBot.root self' = None /\ MCTSBot.root_player self' = None /\
       MCTSBot.acquire self' game = Ok s /\
       MCTSBot.root s = Some (length (MCTSBot.heap self)) /\
       MCTSBot.heap s !! length (MCTSBot.heap self) =
         Some (Node.mk None None (HexGame.current game)
                 (frontier_moves game (MCTSBot.expand_candidates self)) [] 0 0%float) /\
       MCTSBot.root_player s = Some (HexGame.current game)) /\
  (forall self game ticks rnd s0 rnd',
     synced self game ->
     searched self game ticks rnd = Ok (s0, rnd') ->
     root_children s0 <> [] ->
     exists m self' game' nxt nn,
       MCTSBot.choose self game ticks rnd = Ok (m, self', rnd') /\
       HexGame.play game m = (true, game') /\
       MCTSBot.root self' = Some nxt /\
       MCTSBot.heap self' !! nxt = Some nn /\
       Node.parent nn = None /\
       Node.player_to_move nn = HexGame.current game' /\
       synced self' game').
Proof.
  split; [|split].
  - intros self rt nd move nxt nn Hr Hnd Hd Hnn.
    unfold MCTSBot.notify_opponent_moved, MCTSBot._apply_move_to_tree.
    rewrite Hr, (node_get_Some _ _ _ Hnd). cbn [rbind]. rewrite Hd.
    rewrite (node_get_Some _ _ _ Hnn). cbn [rbind].
    eexists. split; [reflexivity|]. split; [reflexivity|]. split; [done|].
    split; [done|]. split; [|done].
    exists (Node.set_parent nn None). split; [|done].
    cbn [MCTSBot.heap MCTSBot.set_root MCTSBot.set_heap].
    apply list_lookup_insert_eq. by eapply lookup_lt_Some.
  - intros self rt nd move game Hr Hnd Hd.
    unfold MCTSBot.notify_opponent_moved, MCTSBot._apply_move_to_tree.
    rewrite Hr, (node_get_Some _ _ _ Hnd). cbn [rbind]. rewrite Hd.
    exists (MCTSBot.set_root_player (MCTSBot.set_root self None) None).
    unfold MCTSBot.acquire, MCTSBot._new_root, MCTSBot.alloc.
    cbn [MCTSBot.root MCTSBot.set_root MCTSBot.set_root_player MCTSBot.set_heap
         MCTSBot.heap MCTSBot.root_player MCTSBot.expand_candidates rbind].
    unfold Node.get. rewrite lookup_app_r by lia. rewrite Nat.sub_diag.
    cbn [lookup list_lookup rbind Node.untried Node.children length].
    destruct (_ && _); eexists; (split; [reflexivity|]); (split; [reflexivity|]);
      (split; [done|]); (split; [done|]).
    + split; [reflexivity|]. split; [done|].
      cbn [MCTSBot.heap MCTSBot.set_heap]. split; [|done].
      rewrite list_lookup_insert_eq; [done|]. rewrite length_app. simpl. lia.
    + split; [reflexivity|]. split; [done|].
      cbn [MCTSBot.heap MCTSBot.set_heap MCTSBot.set_root]. split; [|done].
      rewrite lookup_app_r by lia. by rewrite Nat.sub_diag.
  - intros self game ticks rnd s0 rnd'. apply choose_reroots.
Qed.

Lemma tree_reuse_witness :
  (exists self',
     MCTSBot.notify_opponent_moved two_children_bot (Move.mk 0 1) = Ok self' /\
     MCTSBot.root self' = Some 2%nat /\
     exists nn', MCTSBot.heap self' !! 2%nat = Some nn' /\ Node.parent nn' = None) /\
  (exists self' s,
     MCTSBot.notify_opponent_moved two_children_bot (Move.mk 1 1) = Ok self' /\
     MCTSBot.root self' = None /\ MCTSBot.root_player self' = None /\
     MCTSBot.acquire (RT := ref_runtime) self' (HexGame.init 2) = Ok s /\
     MCTSBot.root s = Some 3%nat /\
     MCTSBot.root_player s = Some RED) /\
  (exists m self' game' nxt nn,
     MCTSBot.choose (RT := ref_runtime) (five_playouts None) (HexGame.init 2) 100
       (draws_from []) = Ok (m, self', five_playouts_searched.2) /\
     HexGame.play (HexGame.init 2) m = (true, game') /\
     MCTSBot.root self' = Some nxt /\
     MCTSBot.heap self' !! nxt = Some nn /\
     Node.parent nn = None /\
     Node.player_to_move nn = HexGame.current game').
Proof.
  pose proof (tree_reuse (RT := ref_runtime)) as (Hmatch & Hmiss & Hchoose).
  split; [|split].
  - destruct (Hmatch two_children_bot 0%nat
                (Node.mk None None RED [Move.mk 1 0; Move.mk 1 1]
                         [((0, 0), 1%nat); ((0, 1), 2%nat)] 3 2)
                (Move.mk 0 1) 2%nat
                (Node.mk (Some 0%nat) (Some (Move.mk 0 1)) BLUE [] [] 2 1)
                eq_refl eq_refl eq_refl eq_refl)
      as (self' & Hn & _ & Hr & _ & (nn' & Hnn' & Hp & _) & _).
    exists self'. split; [exact Hn|]. split; [exact Hr|]. by exists nn'.
  - destruct (Hmiss two_children_bot 0%nat
                (Node.mk None None RED [Move.mk 1 0; Move.mk 1 1]
                         [((0, 0), 1%nat); ((0, 1), 2%nat)] 3 2)
                (Move.mk 1 1) (HexGame.init 2) eq_refl eq_refl eq_refl)
      as (self' & s & Hn & _ & Hr & Hrp & Ha & Hrs & _ & Hrps).
    exists self', s. do 5 (split; [assumption|]). exact Hrps.
  - destruct (Hchoose (five_playouts None) (HexGame.init 2) 100%nat (draws_from [])
                five_playouts_searched.1 five_playouts_searched.2)
      as (m & self' & game' & nxt & nn & Hc & Hp & Hr & Hnn & Hpar & Hptm & _).
    + apply fresh_engine_synced.
    + assert (is_ok (searched (RT := ref_runtime) (five_playouts None) (HexGame.init 2)
                       100 (draws_from [])) = true) as Hok by (vm_compute; reflexivity).
      unfold five_playouts_searched.
      destruct (searched (RT := ref_runtime) (five_playouts None) (HexGame.init 2)
                  100 (draws_from [])) as [[s r]| | |]; try discriminate Hok.
      reflexivity.
    + assert (length (root_children five_playouts_searched.1) = 4%nat) as Hlen
        by (vm_compute; reflexivity).
      intros Hnil. rewrite Hnil in Hlen. discriminate Hlen.
    + exists m, self', game', nxt, nn. do 5 (split; [assumption|]). exact Hptm.
Defined.

(** What [choose] hands back: the move, and the mover its retained root
    expects. *)
Definition retained_mover (s : MCTSBot.t) : option Z :=
  match MCTSBot.root s with
  | Some rt =>
      match MCTSBot.heap s !! rt with
      | Some nd => Some (Node.player_to_move nd)
      | None => None
      end
  | None => None
  end.

Definition chosen_and_mover (x : result (Move.t * MCTSBot.t * Random))
    : option (Move.t * option Z) :=
  match x with
  | Ok (m, s, _) => Some (m, retained_mover s)
  | _ => None
  end.

(** The root from which [choose] searches when it is called on [g] with
    the engine [bot] that an earlier call left: whether it is the root
    that [bot] retained, and its list of untried moves. *)
Definition next_entry {RT : PyRuntime} (bot : MCTSBot.t) (g : HexGame.t)
    : option (bool * list Move.t) :=
  match MCTSBot.acquire bot g, MCTSBot.root bot with
  | Ok bot', Some rt =>
      match MCTSBot.root bot' with
      | Some rt' =>
          match MCTSBot.heap bot' !! rt' with
          | Some nd => Some ((rt' =? rt)%nat, Node.untried nd)
          | None => None
          end
      | None => None
      end
  | _, _ => None
  end.

(** A call of [choose] on [g0], the chosen move and the answer [m2] played
    on the board without a notification, then the root acquisition of the
    next call. *)
Definition entry_after_answer {RT : PyRuntime} (bot : MCTSBot.t) (g0 : HexGame.t)
    (ticks : nat) (rnd : Random) (m2 : Move.t) : option (bool * list Move.t) :=
  match MCTSBot.choose bot g0 ticks rnd with
  | Ok (m, bot1, _) =>
      next_entry bot1 (HexGame.play (HexGame.play g0 m).2 m2).2
  | _ => None
  end.

(** C5 fails on the code.  When the search leaves the root without a
    child, [choose] returns through its fallback and skips the re-rooting
    step that its other return performs.  With an iteration cap of 0 on
    the empty 2 x 2 board, [choose] returns (0,0), a move that is the key
    of no child, and keeps the root it built: the tree is not discarded,
    and the retained root expects RED, the player who has just moved,
    while BLUE is to move.  When BLUE then answers (0,1) and [choose] is
    called again, the retained root passes the test on the player to move,
    so no root is built for the live position: the search starts from the
    old root, whose untried moves are those of the empty board, (0,0) and
    (0,1) among them. *)
Theorem choose_fallback_keeps_root :
  chosen_and_mover
    (MCTSBot.choose (RT := ref_runtime) no_playouts (HexGame.init 2) 100 (draws_from []))
    = Some (Move.mk 0 0, Some RED) /\
  HexGame.play (HexGame.init 2) (Move.mk 0 0)
    = (true, HexGame.mk 2 [[RED; EMPTY]; [EMPTY; EMPTY]] BLUE EMPTY
               (Some (Move.mk 0 0)) 1) /\
  ~ root_expects_next_mover (RT := ref_runtime) no_playouts (HexGame.init 2) 100
      (draws_from []) /\
  entry_after_answer (RT := ref_runtime) no_playouts (HexGame.init 2) 100 (draws_from [])
    (Move.mk 0 1)
    = Some (true, [Move.mk 0 0; Move.mk 0 1; Move.mk 1 0; Move.mk 1 1]).
Proof.
  assert (chosen_and_mover
            (MCTSBot.choose (RT := ref_runtime) no_playouts (HexGame.init 2) 100
               (draws_from [])) = Some (Move.mk 0 0, Some RED)) as Hc
    by (vm_compute; reflexivity).
  assert (HexGame.play (HexGame.init 2) (Move.mk 0 0)
          = (true, HexGame.mk 2 [[RED; EMPTY]; [EMPTY; EMPTY]] BLUE EMPTY
                     (Some (Move.mk 0 0)) 1)) as Hp by (vm_compute; reflexivity).
  split; [exact Hc|]. split; [exact Hp|]. split; [|vm_compute; reflexivity].
  intros H.
  destruct (MCTSBot.choose (RT := ref_runtime) no_playouts (HexGame.init 2) 100
              (draws_from [])) as [[[m s'] rnd']| | |] eqn:E; try discriminate Hc.
  cbn [chosen_and_mover] in Hc. injection Hc as -> Hm.
  unfold retained_mover in Hm.
  destruct (MCTSBot.root s') as [rt|] eqn:Er; [|discriminate Hm].
  destruct (MCTSBot.heap s' !! rt) as [nd|] eqn:En; [|discriminate Hm].
  injection Hm as Hm.
  pose proof (H _ _ _ _ _ _ E Hp Er En) as Hx.
  rewrite Hm in Hx. discriminate Hx.
Qed.

(** ** More about game.py *)

Lemma wf_state_init sz : wf_state (HexGame.init sz).
Proof. split; [apply shape_replicate|by left]. Qed.

Lemma play_fst_true g m : (HexGame.play g m).1 = true <-> ~ rejects g m.
Proof.
  split.
  - intros H Hrej. rewrite (play_reject g m Hrej) in H. done.
  - intros Hacc. rewrite (play_accept g m Hacc).
    by destruct (HexGame.has_won (placed g m) (HexGame.current g)).
Qed.

(** X1.  On a state of the declared shape, the members of
    [legal_moves()] are exactly the moves that [play] accepts. *)
Theorem legal_moves_iff_accepted (g : HexGame.t) (m : Move.t) :
  wf_state g ->
  (In m (HexGame.legal_moves g) <-> (HexGame.play g m).1 = true).
Proof.
  intros _. rewrite play_fst_true, not_rejects, legal_moves_empty_cells.
  destruct (HexGame.winner g =? EMPTY) eqn:Ew.
  - apply Z.eqb_eq in Ew. rewrite empty_cells_In. unfold vacant. simpl. tauto.
  - apply Z.eqb_neq in Ew. simpl. tauto.
Qed.

Lemma legal_moves_iff_accepted_witness :
  wf_state (HexGame.init 2) /\
  (In (Move.mk 1 0) (HexGame.legal_moves (HexGame.init 2)) <->
   (HexGame.play (HexGame.init 2) (Move.mk 1 0)).1 = true).
Proof.
  split; [apply wf_state_init|].
  apply (legal_moves_iff_accepted (HexGame.init 2) (Move.mk 1 0)), wf_state_init.
Defined.

Lemma has_won_run_not_blue g p :
  (p =? BLUE) = false ->
  HexGame.has_won_run g p =
  let n := HexGame.size g in
  let st := fold_left (seed_gen g (fun c => (0, c)) RED) (range n)
              (replicate (Z.to_nat n) (replicate (Z.to_nat n) false), []) in
  HexGame.bfs (HexGame.has_won_fuel g) g p (fun r c => r =? n - 1) st.1 st.2.
Proof. intros E. unfold HexGame.has_won_run. rewrite E. reflexivity. Qed.

Lemma has_won_run_total g p : is_Some (HexGame.has_won_run g p).
Proof.
  assert (forall i, 0 <= i < HexGame.size g ->
            in_bounds (HexGame.size g) (0, i).1 (0, i).2 = true) as Hred.
  { intros i Hi. simpl. unfold in_bounds. rewrite !andb_true_iff. lia. }
  assert (forall i, 0 <= i < HexGame.size g ->
            in_bounds (HexGame.size g) (i, 0).1 (i, 0).2 = true) as Hblue.
  { intros i Hi. simpl. unfold in_bounds. rewrite !andb_true_iff. lia. }
  destruct (p =? BLUE) eqn:E.
  - apply Z.eqb_eq in E as ->. rewrite has_won_run_blue. cbv zeta.
    apply bfs_total.
    + apply (seed_range g (fun r => (r, 0)) BLUE Hblue).
    + apply (seeded_fuel g BLUE (fun r => (r, 0)) Hblue).
  - rewrite (has_won_run_not_blue g p E). cbv zeta.
    apply bfs_total.
    + apply (seed_range g (fun c => (0, c)) RED Hred).
    + apply (seeded_fuel g RED (fun c => (0, c)) Hred).
Qed.

(** X2.  The search loop of [has_won] ends, whatever the board holds and
    whatever value is passed as the player: it takes no more than
    [size * size + size + 1] rounds. *)
Theorem has_won_terminates (g : HexGame.t) (p : Z) :
  wf_board g -> exists b, HexGame.has_won_run g p = Some b.
Proof. intros _. exact (has_won_run_total g p). Qed.

Lemma has_won_terminates_witness :
  wf_board won_2x2 /\ exists b, HexGame.has_won_run won_2x2 EMPTY = Some b.
Proof.
  assert (wf_board won_2x2) as Hwf by (split; [reflexivity|repeat constructor]).
  split; [exact Hwf|]. exact (has_won_terminates won_2x2 EMPTY Hwf).
Defined.

(** X3.  No draw: on a board of the declared shape, of size at least 1,
    on which every cell holds a stone, [has_won] answers [True] for
    exactly one of the two players. *)
Theorem full_board_has_winner (g : HexGame.t) :
  wf_board g -> 1 <= HexGame.size g -> board_full g ->
  (HexGame.has_won g RED = true /\ HexGame.has_won g BLUE = false) \/
  (HexGame.has_won g RED = false /\ HexGame.has_won g BLUE = true).
Proof.
  intros _ HN Hfull.
  destruct (HexGame.has_won g RED) eqn:ER; destruct (HexGame.has_won g BLUE) eqn:EB;
    auto; exfalso.
  - apply (chain_exclusive g); apply has_won_chain; auto.
  - assert (chain g BLUE) as Hc.
    { apply full_board_chain; [done|done|].
      intros Hc. apply has_won_chain in Hc; [congruence|auto]. }
    apply has_won_chain in Hc; [congruence|auto].
Qed.

(** 2 x 2, every cell taken: RED holds the left column. *)
Definition full_2x2 : HexGame.t :=
  {| HexGame.size := 2;
     HexGame.board := [[1; 2]; [1; 2]];
     HexGame.current := RED;
     HexGame.winner := RED;
     HexGame.last_move := Some (Move.mk 1 0);
     HexGame.moves_played := 4 |}.

Lemma full_2x2_full : board_full full_2x2.
Proof.
  intros r c Hb. apply in_bounds_iff in Hb. simpl in Hb.
  assert (r = 0 \/ r = 1) as [-> | ->] by lia;
    (assert (c = 0 \/ c = 1) as [-> | ->] by lia); simpl; auto.
Qed.

Lemma full_board_has_winner_witness :
  wf_board full_2x2 /\ 1 <= HexGame.size full_2x2 /\ board_full full_2x2 /\
  ((HexGame.has_won full_2x2 RED = true /\ HexGame.has_won full_2x2 BLUE = false) \/
   (HexGame.has_won full_2x2 RED = false /\ HexGame.has_won full_2x2 BLUE = true)).
Proof.
  assert (wf_board full_2x2) as Hwf by (split; [reflexivity|repeat constructor]).
  assert (1 <= HexGame.size full_2x2) as HN by (simpl; lia).
  split; [exact Hwf|]. split; [exact HN|]. split; [exact full_2x2_full|].
  exact (full_board_has_winner full_2x2 Hwf HN full_2x2_full).
Defined.

(** X4.  A game in progress is never stuck: a state reached from
    [HexGame(size)], [size >= 1], by accepted moves and without a winner
    has a legal move, and [play] accepts the first one listed. *)
Theorem open_position_has_move (g : HexGame.t) :
  reachable g -> 1 <= HexGame.size g -> HexGame.winner g = EMPTY ->
  exists m ms g',
    HexGame.legal_moves g = m :: ms /\ HexGame.play g m = (true, g').
Proof.
  intros Hr HN Hw. pose proof (reachable_inv g Hr) as Hinv.
  destruct (open_has_vacant g Hinv HN Hw) as [x Hx].
  destruct (HexGame.legal_moves g) as [|m ms] eqn:E.
  - exfalso. assert (In (Move.mk x.1 x.2) (HexGame.legal_moves g)) as Hin.
    { rewrite legal_moves_empty_cells, Hw. simpl. apply empty_cells_In. by destruct x. }
    rewrite E in Hin. destruct Hin.
  - exists m, ms.
    assert (In m (HexGame.legal_moves g)) as Hin by (rewrite E; by left).
    rewrite legal_moves_empty_cells, Hw in Hin. simpl in Hin.
    apply empty_cells_In in Hin.
    destruct (play_vacant g m (gi_wf g Hinv) Hw Hin) as (g' & Hp & _). eauto.
Qed.

Lemma open_position_has_move_witness :
  reachable two_stones_4x4 /\ 1 <= HexGame.size two_stones_4x4 /\
  HexGame.winner two_stones_4x4 = EMPTY /\
  exists m ms g',
    HexGame.legal_moves two_stones_4x4 = m :: ms /\
    HexGame.play two_stones_4x4 m = (true, g').
Proof.
  assert (1 <= HexGame.size two_stones_4x4) as HN by (simpl; lia).
  assert (HexGame.winner two_stones_4x4 = EMPTY) as Hw by reflexivity.
  split; [exact two_stones_4x4_reachable|]. split; [exact HN|]. split; [exact Hw|].
  exact (open_position_has_move two_stones_4x4 two_stones_4x4_reachable HN Hw).
Defined.

(** ** Counting stones *)

Definition b2n (b : bool) : nat := if b then 1%nat else 0%nat.

Lemma count_row_gen {A} (P : A -> bool) (row : list A) i x v :
  row !! i = Some x ->
  (length (List.filter P (<[i:=v]> row)) + b2n (P x) =
   length (List.filter P row) + b2n (P v))%nat.
Proof.
  intros Hi. revert i Hi.
  induction row as [|b row IH]; intros [|i] H; simpl in *; try done.
  - injection H as ->. destruct (P x), (P v); simpl; lia.
  - specialize (IH i H). destruct (P b); simpl; lia.
Qed.

Lemma count2_alter_gen {A} (P : A -> bool) (m : list (list A)) i j row x v :
  m !! i = Some row -> row !! j = Some x ->
  (count2 P (alter (fun row => <[j:=v]> row) i m) + b2n (P x) =
   count2 P m + b2n (P v))%nat.
Proof.
  unfold count2. intros Hi Hj. revert i Hi.
  induction m as [|r0 m IH]; intros [|i] Hi; simpl in *; try done.
  - injection Hi as ->. rewrite !List.filter_app, !length_app.
    pose proof (count_row_gen P row j x v Hj) as H. simpl in H. lia.
  - rewrite !List.filter_app, !length_app. specialize (IH i Hi).
    change (list_alter ?f i m) with (alter f i m). lia.
Qed.

Lemma count2_set2_gen {A} (P : A -> bool) (d : A) n m r c v :
  shape n m -> (Z.to_nat r < n)%nat -> (Z.to_nat c < n)%nat ->
  (count2 P (set2 m r c v) + b2n (P (get2 d m r c)) = count2 P m + b2n (P v))%nat.
Proof.
  intros Hs Hr Hc.
  destruct (shape_lookup n m _ Hs Hr) as (row & Hrow & Hlen).
  destruct (lookup_lt_is_Some_2 row (Z.to_nat c)) as [b Hb]; [lia|].
  rewrite (get2_lookup d m r c row b Hrow Hb).
  unfold set2. by apply (count2_alter_gen P m _ _ row b).
Qed.

Lemma filter_replicate_false {A} (P : A -> bool) k (x : A) :
  P x = false -> List.filter P (replicate k x) = [].
Proof. intros Hx. induction k as [|k IHk]; simpl; [done|]. by rewrite Hx. Qed.

Lemma filter_replicate_true {A} (P : A -> bool) k (x : A) :
  P x = true -> List.filter P (replicate k x) = replicate k x.
Proof. intros Hx. induction k as [|k IHk]; simpl; [done|]. by rewrite Hx, IHk. Qed.

Lemma count2_replicate_false {A} (P : A -> bool) n k (x : A) :
  P x = false -> count2 P (replicate n (replicate k x)) = 0%nat.
Proof.
  intros Hx. unfold count2. induction n as [|n IH]; simpl; [done|].
  by rewrite List.filter_app, length_app, IH, filter_replicate_false.
Qed.

Lemma count2_replicate_true {A} (P : A -> bool) n k (x : A) :
  P x = true -> count2 P (replicate n (replicate k x)) = (n * k)%nat.
Proof.
  intros Hx. unfold count2. induction n as [|n IH]; simpl; [done|].
  by rewrite List.filter_app, length_app, IH, filter_replicate_true, length_replicate.
Qed.

(** The number of stones of [p] on the board. *)
Definition count_stones (g : HexGame.t) (p : Z) : nat :=
  count2 (fun v => v =? p) (HexGame.board g).

(** What a game keeps besides [game_inv]: the winner is the player who
    has just moved and holds a chain; the counter counts the stones; RED
    moves first and the players alternate. *)
Record score_inv (g : HexGame.t) : Prop := {
  sc_winner : HexGame.winner g <> EMPTY ->
    HexGame.winner g = HexGame.current g /\ chain g (HexGame.current g);
  sc_moves : HexGame.moves_played g =
    Z.of_nat (count_stones g RED) + Z.of_nat (count_stones g BLUE);
  sc_cells : (count_empty g + count_stones g RED + count_stones g BLUE =
              Z.to_nat (HexGame.size g) * Z.to_nat (HexGame.size g))%nat;
  sc_turn : count_stones g RED =
    Nat.add (count_stones g BLUE)
      (b2n ((HexGame.winner g =? RED) ||
            ((HexGame.winner g =? EMPTY) && (HexGame.current g =? BLUE))));
  sc_last : match HexGame.last_move g with
            | None => HexGame.moves_played g = 0
            | Some m =>
                0 < HexGame.moves_played g /\
                in_bounds (HexGame.size g) (Move.r m) (Move.c m) = true /\
                get2 EMPTY (HexGame.board g) (Move.r m) (Move.c m) =
                  if HexGame.winner g =? EMPTY then other (HexGame.current g)
                  else HexGame.current g
            end
}.

Lemma score_inv_init sz : score_inv (HexGame.init sz).
Proof.
  assert (forall p, p <> EMPTY -> count_stones (HexGame.init sz) p = 0%nat) as Hz.
  { intros p Hp. unfold count_stones. cbn [HexGame.init HexGame.reset HexGame.board HexGame.size].
    apply count2_replicate_false. by apply Z.eqb_neq. }
  assert (count_empty (HexGame.init sz) = (Z.to_nat sz * Z.to_nat sz)%nat) as He.
  { unfold count_empty. cbn [HexGame.init HexGame.reset HexGame.board HexGame.size].
    by apply count2_replicate_true. }
  split.
  - intros H. by simpl in H.
  - rewrite !Hz by done. reflexivity.
  - rewrite He, !Hz by done. cbn [HexGame.init HexGame.reset HexGame.size]. lia.
  - rewrite !Hz by done. reflexivity.
  - reflexivity.
Qed.

Lemma score_inv_play g mv g' :
  game_inv g -> score_inv g -> HexGame.play g mv = (true, g') -> score_inv g'.
Proof.
  intros [Hwf Hcells Hopen] [Hwin Hmoves Hcnt Hturn Hlast] Hp.
  pose proof (play_true_accept g mv g' Hp) as Hacc.
  destruct (play_accept_spec g mv Hwf Hacc)
    as (g2 & Hp2 & Hsz & Hbd & Hlm & Hmp & Hw & Hnw).
  rewrite Hp in Hp2. injection Hp2 as <-.
  apply not_rejects in Hacc as (Hw0 & Hb & Hv).
  destruct Hwf as [Hshape Hcur].
  pose proof Hb as Hb'. apply in_bounds_iff in Hb'.
  assert (forall P : Z -> bool,
            (count2 P (HexGame.board g') + b2n (P EMPTY) =
             count2 P (HexGame.board g) + b2n (P (HexGame.current g)))%nat) as Hc.
  { intros P. rewrite Hbd, <- Hv.
    apply (count2_set2_gen P EMPTY (Z.to_nat (HexGame.size g))); [done|lia|lia]. }
  pose proof (Hc (fun v => v =? RED)) as HcR.
  pose proof (Hc (fun v => v =? BLUE)) as HcB.
  pose proof (Hc (fun v => v =? EMPTY)) as HcE.
  fold (count_stones g' RED) in HcR. fold (count_stones g RED) in HcR.
  fold (count_stones g' BLUE) in HcB. fold (count_stones g BLUE) in HcB.
  fold (count_empty g') in HcE. fold (count_empty g) in HcE.
  rewrite Hw0 in Hturn. cbn [Z.eqb EMPTY RED orb andb] in Hturn.
  assert (get2 EMPTY (HexGame.board g') (Move.r mv) (Move.c mv) = HexGame.current g)
    as Hget.
  { rewrite Hbd. apply (get2_set2_eq EMPTY (Z.to_nat (HexGame.size g))); [done|lia|lia]. }
  assert (chain g' (HexGame.current g) \/ ~ chain g' (HexGame.current g)) as [Hch|Hch].
  { destruct (HexGame.has_won g' (HexGame.current g)) eqn:E.
    - left. by apply has_won_chain.
    - right. intros Hch. apply has_won_chain in Hch; [congruence|done]. }
  - destruct (Hw Hch) as [E1 E2].
    split.
    + intros _. rewrite E1, E2. done.
    + rewrite Hmp, Hmoves. destruct Hcur as [E|E]; rewrite E in *; simpl in *; lia.
    + rewrite Hsz. destruct Hcur as [E|E]; rewrite E in *; simpl in *; lia.
    + rewrite E1. destruct Hcur as [E|E]; rewrite E in *; simpl in *; lia.
    + rewrite Hlm, Hsz, E1, E2, Hget. split; [lia|]. split; [done|].
      destruct Hcur as [E|E]; rewrite E; reflexivity.
  - destruct (Hnw Hch) as [E1 E2].
    split.
    + intros Hne. by rewrite E1 in Hne.
    + rewrite Hmp, Hmoves. destruct Hcur as [E|E]; rewrite E in *; simpl in *; lia.
    + rewrite Hsz. destruct Hcur as [E|E]; rewrite E in *; simpl in *; lia.
    + rewrite E1, E2. destruct Hcur as [E|E]; rewrite E in *; simpl in *; lia.
    + rewrite Hlm, Hsz, E1, E2, Hget. split; [lia|]. split; [done|].
      destruct Hcur as [E|E]; rewrite E; reflexivity.
Qed.

Lemma reachable_score g : reachable g -> score_inv g.
Proof.
  induction 1 as [sz|g mv g' Hr IH Hp]; [apply score_inv_init|].
  apply (score_inv_play g mv); [by apply reachable_inv|done|done].
Qed.

(** X5.  In every state reached from [HexGame(size)] by accepted moves,
    the [winner] field agrees with [has_won]: without a winner [has_won]
    is false for both players; with a winner, the winner is a player, is
    still the player in [current] (the turn is not passed after a win),
    [has_won] is true for the winner and false for the opponent. *)
Theorem winner_agrees_with_has_won (g : HexGame.t) :
  reachable g ->
  (HexGame.winner g = EMPTY /\
   HexGame.has_won g RED = false /\ HexGame.has_won g BLUE = false) \/
  ((HexGame.winner g = RED \/ HexGame.winner g = BLUE) /\
   HexGame.winner g = HexGame.current g /\
   HexGame.has_won g (HexGame.winner g) = true /\
   HexGame.has_won g (other (HexGame.winner g)) = false).
Proof.
  intros Hr. pose proof (reachable_inv g Hr) as [[_ Hcur] _ Hopen].
  pose proof (reachable_score g Hr) as [Hwin _ _ _ _].
  destruct (decide (HexGame.winner g = EMPTY)) as [Hw|Hw].
  - left. split; [done|]. destruct (Hopen Hw) as [HnR HnB].
    split.
    + destruct (HexGame.has_won g RED) eqn:E; [|done].
      exfalso. apply HnR, has_won_chain; auto.
    + destruct (HexGame.has_won g BLUE) eqn:E; [|done].
      exfalso. apply HnB, has_won_chain; auto.
  - right. destruct (Hwin Hw) as [Heq Hch]. rewrite Heq.
    split; [done|]. split; [done|]. split; [by apply has_won_chain|].
    destruct (HexGame.has_won g (other (HexGame.current g))) eqn:E; [|done].
    exfalso. apply has_won_chain in E; [|destruct Hcur as [-> | ->]; auto].
    destruct Hcur as [Ec|Ec]; rewrite Ec in *;
      [by apply (chain_exclusive g)|by apply (chain_exclusive g)].
Qed.

Lemma winner_agrees_with_has_won_witness :
  reachable won_2x2 /\
  ((HexGame.winner won_2x2 = EMPTY /\
    HexGame.has_won won_2x2 RED = false /\ HexGame.has_won won_2x2 BLUE = false) \/
   ((HexGame.winner won_2x2 = RED \/ HexGame.winner won_2x2 = BLUE) /\
    HexGame.winner won_2x2 = HexGame.current won_2x2 /\
    HexGame.has_won won_2x2 (HexGame.winner won_2x2) = true /\
    HexGame.has_won won_2x2 (other (HexGame.winner won_2x2)) = false)).
Proof.
  split; [exact won_2x2_reachable|].
  exact (winner_agrees_with_has_won won_2x2 won_2x2_reachable).
Defined.

(** X6.  In every state reached from [HexGame(size)] by accepted moves,
    [moves_played] is the number of stones on the board, stones and empty
    cells together are the [size * size] cells, and [last_move] is [None]
    exactly before the first move; afterwards it names a cell within
    bounds that holds the stone of the player who moved last. *)
Theorem moves_played_counts_stones (g : HexGame.t) :
  reachable g ->
  HexGame.moves_played g =
    Z.of_nat (count_stones g RED) + Z.of_nat (count_stones g BLUE) /\
  HexGame.moves_played g + Z.of_nat (count_empty g) =
    Z.of_nat (Z.to_nat (HexGame.size g) * Z.to_nat (HexGame.size g)) /\
  (HexGame.last_move g = None <-> HexGame.moves_played g = 0) /\
  (forall m, HexGame.last_move g = Some m ->
     in_bounds (HexGame.size g) (Move.r m) (Move.c m) = true /\
     get2 EMPTY (HexGame.board g) (Move.r m) (Move.c m) =
       if HexGame.winner g =? EMPTY then other (HexGame.current g)
       else HexGame.current g).
Proof.
  intros Hr. pose proof (reachable_score g Hr) as [_ Hmoves Hcells _ Hlast].
  split; [done|]. split; [lia|].
  destruct (HexGame.last_move g) as [m|].
  - destruct Hlast as (Hpos & Hb & Hget). split.
    + split; [done|lia].
    + intros m' [= <-]. done.
  - split; [done|]. intros m' ?. done.
Qed.

Lemma moves_played_counts_stones_witness :
  reachable two_stones_4x4 /\
  HexGame.moves_played two_stones_4x4 =
    Z.of_nat (count_stones two_stones_4x4 RED) +
    Z.of_nat (count_stones two_stones_4x4 BLUE).
Proof.
  split; [exact two_stones_4x4_reachable|].
  exact (proj1 (moves_played_counts_stones two_stones_4x4 two_stones_4x4_reachable)).
Defined.

(** X7.  RED moves first and the players alternate: in every state
    reached from [HexGame(size)] by accepted moves, RED has as many stones
    as BLUE when RED is to move or BLUE has just won, and one more when
    BLUE is to move or RED has just won. *)
Theorem players_alternate (g : HexGame.t) :
  reachable g ->
  (HexGame.current g = RED \/ HexGame.current g = BLUE) /\
  (HexGame.winner g = EMPTY -> HexGame.current g = RED ->
     count_stones g RED = count_stones g BLUE) /\
  (HexGame.winner g = EMPTY -> HexGame.current g = BLUE ->
     count_stones g RED = S (count_stones g BLUE)) /\
  (HexGame.winner g = RED -> count_stones g RED = S (count_stones g BLUE)) /\
  (HexGame.winner g = BLUE -> count_stones g RED = count_stones g BLUE).
Proof.
  intros Hr. pose proof (reachable_inv g Hr) as [[_ Hcur] _ _].
  pose proof (reachable_score g Hr) as [_ _ _ Hturn _].
  split; [done|].
  repeat split; intros; repeat match goal with
    | H : HexGame.winner g = _ |- _ => rewrite H in Hturn; clear H
    | H : HexGame.current g = _ |- _ => rewrite H in Hturn; clear H
    end; simpl in Hturn; lia.
Qed.

Lemma players_alternate_witness :
  reachable won_2x2 /\
  (HexGame.winner won_2x2 = RED ->
   count_stones won_2x2 RED = S (count_stones won_2x2 BLUE)).
Proof.
  split; [exact won_2x2_reachable|].
  exact (proj1 (proj2 (proj2 (proj2 (players_alternate won_2x2 won_2x2_reachable))))).
Defined.

(** ** Listing the cells *)

Lemma flat_map_bind {A B} (f : A -> list B) l : flat_map f l = l ≫= f.
Proof. induction l as [|x l IH]; [done|]. simpl. by rewrite IH. Qed.

Lemma NoDup_range n : NoDup (range n).
Proof. apply NoDup_seqZ. Qed.

Lemma empty_cells_NoDup g : NoDup (empty_cells g).
Proof.
  unfold empty_cells. rewrite flat_map_bind. apply NoDup_bind; [| |apply NoDup_range].
  - intros r1 r2 m _ _ H1 H2. cbv beta in H1, H2.
    apply list_elem_of_In, in_flat_map in H1 as (c1 & _ & H1).
    apply list_elem_of_In, in_flat_map in H2 as (c2 & _ & H2).
    destruct (_ =? _) in H1; [|done]. destruct (_ =? _) in H2; [|done].
    destruct H1 as [<-|[]]. destruct H2 as [H2|[]]. by injection H2.
  - intros r _. rewrite flat_map_bind. apply NoDup_bind; [| |apply NoDup_range].
    + intros c1 c2 m _ _ H1 H2.
      destruct (_ =? _) in H1; [|by apply elem_of_nil in H1].
      destruct (_ =? _) in H2; [|by apply elem_of_nil in H2].
      apply list_elem_of_singleton in H1, H2. subst m. by injection H2.
    + intros c _. destruct (_ =? _); [apply NoDup_singleton|apply NoDup_nil_2].
Qed.

(** All the cells of a board of size [n], row by row. *)
Definition all_cells (n : Z) : list Move.t :=
  flat_map (fun r => map (Move.mk r) (range n)) (range n).

Lemma flat_map_length_const {A B} (f : A -> list B) k l :
  (forall x, In x l -> length (f x) = k) -> length (flat_map f l) = (length l * k)%nat.
Proof.
  induction l as [|x l IH]; intros H; simpl; [done|].
  rewrite length_app, IH, H; [done|by left|]. intros y Hy. apply H. by right.
Qed.

Lemma all_cells_length n : length (all_cells n) = (Z.to_nat n * Z.to_nat n)%nat.
Proof.
  unfold all_cells. rewrite (flat_map_length_const _ (Z.to_nat n)).
  - unfold range. by rewrite length_seqZ.
  - intros r _. rewrite length_map. unfold range. by rewrite length_seqZ.
Qed.

Lemma flat_map_ext_In {A B} (f h : A -> list B) l :
  (forall x, In x l -> f x = h x) -> flat_map f l = flat_map h l.
Proof.
  induction l as [|x l IH]; intros H; simpl; [done|].
  rewrite H by (by left). f_equal. apply IH. intros y Hy. apply H. by right.
Qed.

Lemma empty_cells_init sz : empty_cells (HexGame.init sz) = all_cells sz.
Proof.
  unfold empty_cells, all_cells. cbn [HexGame.init HexGame.reset HexGame.size HexGame.board].
  apply flat_map_ext_In. intros r Hr. apply range_In in Hr.
  assert (forall l, (forall c, In c l -> 0 <= c < sz) ->
    flat_map (fun c =>
      if get2 EMPTY (replicate (Z.to_nat sz) (replicate (Z.to_nat sz) EMPTY)) r c =? EMPTY
      then [Move.mk r c] else []) l = map (Move.mk r) l) as Hl.
  { induction l as [|c l IH]; intros Hin; [done|]. simpl.
    rewrite get2_replicate by (pose proof (Hin c (or_introl eq_refl)); lia).
    simpl. f_equal. apply IH. intros c' Hc'. apply Hin. by right. }
  apply Hl. intros c Hc. by apply range_In in Hc.
Qed.

(** X8.  [HexGame(size).legal_moves()] is the list of all the cells, row
    by row: [size * size] of them, none when [size <= 0]; and
    [legal_moves()] never lists a cell twice. *)
Theorem legal_moves_listing (sz : Z) :
  HexGame.legal_moves (HexGame.init sz) = all_cells sz /\
  length (HexGame.legal_moves (HexGame.init sz)) = (Z.to_nat sz * Z.to_nat sz)%nat /\
  (forall m, In m (HexGame.legal_moves (HexGame.init sz)) <->
             in_bounds sz (Move.r m) (Move.c m) = true) /\
  forall g, NoDup (HexGame.legal_moves g).
Proof.
  assert (HexGame.legal_moves (HexGame.init sz) = all_cells sz) as E.
  { rewrite legal_moves_empty_cells. simpl. apply empty_cells_init. }
  split; [done|]. split; [rewrite E; apply all_cells_length|]. split.
  - intros m. rewrite legal_moves_empty_cells. simpl. rewrite empty_cells_In.
    unfold vacant. simpl. split; [tauto|]. intros Hb. split; [done|].
    apply in_bounds_iff in Hb. apply get2_replicate; lia.
  - intros g. rewrite legal_moves_empty_cells.
    destruct (_ =? _); [apply empty_cells_NoDup|apply NoDup_nil_2].
Qed.

(** X9.  [has_won] is monotone in a player's stones: between two boards
    of the same size, when every cell that holds the player's stone on the
    first holds it on the second, a win on the first is a win on the
    second. *)
Theorem has_won_monotone (g1 g2 : HexGame.t) (p : Z) :
  wf_board g1 -> wf_board g2 -> p = RED \/ p = BLUE ->
  HexGame.size g1 = HexGame.size g2 ->
  (forall r c, in_bounds (HexGame.size g1) r c = true ->
     get2 EMPTY (HexGame.board g1) r c = p -> get2 EMPTY (HexGame.board g2) r c = p) ->
  HexGame.has_won g1 p = true -> HexGame.has_won g2 p = true.
Proof.
  intros _ _ Hp Hsz Hsub Hw. apply has_won_chain; [done|].
  apply has_won_chain in Hw; [|done].
  destruct Hw as (a & b & Ha & Hb & Hab). exists a, b.
  split; [done|]. split; [by rewrite <- Hsz|].
  eapply conn_mono; [|exact Hab]. intros x [Hx Hc].
  split; [by rewrite <- Hsz|]. by apply Hsub.
Qed.

Lemma has_won_monotone_witness :
  wf_board won_2x2 /\ wf_board full_2x2 /\ (RED = RED \/ RED = BLUE) /\
  HexGame.has_won won_2x2 RED = true /\ HexGame.has_won full_2x2 RED = true.
Proof.
  assert (wf_board won_2x2) as H1 by (split; [reflexivity|repeat constructor]).
  assert (wf_board full_2x2) as H2 by (split; [reflexivity|repeat constructor]).
  assert (RED = RED \/ RED = BLUE) as Hp by (left; reflexivity).
  assert (HexGame.has_won won_2x2 RED = true) as Hw by (vm_compute; reflexivity).
  split; [exact H1|]. split; [exact H2|]. split; [exact Hp|]. split; [exact Hw|].
  apply (has_won_monotone won_2x2 full_2x2 RED H1 H2 Hp eq_refl); [|exact Hw].
  intros r c Hb. apply in_bounds_iff in Hb. simpl in Hb.
  assert (r = 0 \/ r = 1) as [-> | ->] by lia;
    (assert (c = 0 \/ c = 1) as [-> | ->] by lia); simpl; intros H;
    first [reflexivity|discriminate H].
Defined.

Lemma wf_state_play g m g' :
  wf_state g -> HexGame.play g m = (true, g') -> wf_state g'.
Proof.
  intros Hwf Hp. pose proof (play_true_accept g m g' Hp) as Hacc.
  destruct (play_accept_spec g m Hwf Hacc) as (g2 & Hp2 & Hsz & Hbd & _ & _ & Hw & Hnw).
  rewrite Hp in Hp2. injection Hp2 as <-. destruct Hwf as [Hs Hcur]. split.
  - unfold wf_board. rewrite Hsz, Hbd. by apply shape_set2.
  - assert (chain g' (HexGame.current g) \/ ~ chain g' (HexGame.current g)) as [Hc|Hc].
    { destruct (HexGame.has_won g' (HexGame.current g)) eqn:E.
      - left. by apply has_won_chain.
      - right. intros Hc. apply has_won_chain in Hc; [congruence|done]. }
    + destruct (Hw Hc) as [_ ->]. done.
    + destruct (Hnw Hc) as [_ ->]. destruct Hcur as [-> | ->]; [by right|by left].
Qed.

(** X10.  Stones stay where they were put.  After a sequence of accepted
    moves from a state of the declared shape, the size is the same, the
    counter went up by the number of moves, and every cell that held a
    stone before holds the same stone. *)
Theorem stones_stay (g : HexGame.t) (ms : list Move.t) (g' : HexGame.t) :
  wf_state g -> play_all g ms = Some g' ->
  HexGame.size g' = HexGame.size g /\
  HexGame.moves_played g' = HexGame.moves_played g + Z.of_nat (length ms) /\
  forall r c, in_bounds (HexGame.size g) r c = true ->
    get2 EMPTY (HexGame.board g) r c <> EMPTY ->
    get2 EMPTY (HexGame.board g') r c = get2 EMPTY (HexGame.board g) r c.
Proof.
  revert g. induction ms as [|m ms IH]; intros g Hwf; simpl.
  - intros [= <-]. split; [done|]. split; [lia|done].
  - destruct (HexGame.play g m) as [[] g1] eqn:Hp; [|done]. intros Hall.
    pose proof (wf_state_play g m g1 Hwf Hp) as Hwf1.
    destruct (IH g1 Hwf1 Hall) as (Hsz & Hmp & Hkeep).
    pose proof (play_true_accept g m g1 Hp) as Hacc.
    destruct (play_accept_spec g m Hwf Hacc) as (g2 & Hp2 & Hsz1 & Hbd & _ & Hmp1 & _).
    rewrite Hp in Hp2. injection Hp2 as <-.
    apply not_rejects in Hacc as (_ & Hb & Hv).
    split; [congruence|]. split; [lia|]. intros r c Hrc Hne.
    assert (get2 EMPTY (HexGame.board g1) r c = get2 EMPTY (HexGame.board g) r c) as E.
    { rewrite Hbd. apply in_bounds_iff in Hrc, Hb. apply set2_get_other; try lia.
      intros [= -> ->]. done. }
    rewrite <- E. apply Hkeep; [by rewrite Hsz1|by rewrite E].
Qed.

Lemma stones_stay_witness :
  wf_state (HexGame.init 2) /\
  play_all (HexGame.init 2) [Move.mk 0 0; Move.mk 1 1; Move.mk 1 0] = Some won_2x2 /\
  HexGame.moves_played won_2x2 = HexGame.moves_played (HexGame.init 2) + 3.
Proof.
  assert (play_all (HexGame.init 2) [Move.mk 0 0; Move.mk 1 1; Move.mk 1 0]
          = Some won_2x2) as Hall by (vm_compute; reflexivity).
  split; [apply wf_state_init|]. split; [exact Hall|].
  exact (proj1 (proj2 (stones_stay (HexGame.init 2) _ won_2x2 (wf_state_init 2) Hall))).
Defined.

(** ** More about the helpers of bot.py *)

Lemma NoDup_List_filter {A} (P : A -> bool) (l : list A) :
  NoDup l -> NoDup (List.filter P l).
Proof.
  induction 1 as [|x l Hx _ IH]; simpl; [constructor|].
  destruct (P x); [|done]. constructor; [|done].
  rewrite list_elem_of_In, filter_In, <- list_elem_of_In. tauto.
Qed.

Lemma NoDup_NEIGHBORS : NoDup NEIGHBORS.
Proof.
  unfold NEIGHBORS.
  repeat (constructor; [rewrite ?not_elem_of_cons; repeat split;
                        first [discriminate|apply not_elem_of_nil]|]).
  constructor.
Qed.

Lemma neighbors_NoDup n r c : NoDup (neighbors n r c).
Proof.
  unfold neighbors. apply NoDup_List_filter.
  change (map ?f ?l) with (f <$> l).
  apply NoDup_fmap_2_strong; [|apply NoDup_NEIGHBORS].
  intros [a b] [a' b'] _ _ [= H1 H2]. simpl in *. f_equal; lia.
Qed.

Lemma neighbors_length n r c : (length (neighbors n r c) <= 6)%nat.
Proof.
  unfold neighbors. etransitivity; [apply List.filter_length_le|].
  rewrite length_map. reflexivity.
Qed.

(** X11.  The adjacency used by the heuristics is the one [has_won]
    searches along, and it is symmetric: for a cell within bounds, a cell
    is yielded by [neighbors] exactly when it is within bounds and yields
    the first one.  [neighbors] yields at most six cells, each once, all
    within bounds, and never the cell itself. *)
Theorem neighbors_symmetric (n r c a b : Z) :
  in_bounds n r c = true ->
  NEIGHBORS = NEI /\
  (In (a, b) (neighbors n r c) <->
   in_bounds n a b = true /\ In (r, c) (neighbors n a b)) /\
  ~ In (r, c) (neighbors n r c) /\
  NoDup (neighbors n r c) /\
  (length (neighbors n r c) <= 6)%nat /\
  (forall x, In x (neighbors n r c) -> in_bounds n x.1 x.2 = true).
Proof.
  intros Hb. split; [reflexivity|]. split; [|split; [|split; [|split]]].
  - rewrite !neighbors_In. simpl. split.
    + intros [Hadj Hab]. split; [done|]. split; [by apply adj_sym|done].
    + intros [Hab [Hadj _]]. split; [by apply adj_sym|done].
  - rewrite neighbors_In, adj_iff. simpl. lia.
  - apply neighbors_NoDup.
  - apply neighbors_length.
  - intros x Hx. by apply neighbors_In in Hx as [_ Hx].
Qed.

Lemma neighbors_symmetric_witness :
  in_bounds 3 0 0 = true /\
  (In (0, 1) (neighbors 3 0 0) <->
   in_bounds 3 0 1 = true /\ In (0, 0) (neighbors 3 0 1)) /\
  (length (neighbors 3 0 0) <= 6)%nat.
Proof.
  assert (in_bounds 3 0 0 = true) as Hb by reflexivity.
  pose proof (neighbors_symmetric 3 0 0 0 1 Hb) as (_ & H1 & _ & _ & H2 & _).
  split; [exact Hb|]. split; [exact H1|exact H2].
Defined.

(** X12.  For a cell within bounds, [manhattan_like_to_goal] is the
    distance to the nearer of the two edges the player connects (rows for
    RED, columns for every other value of [player]): it is between 0 and
    [(n - 1) / 2], and it is 0 exactly on those edges. *)
Theorem manhattan_like_to_goal_bounds (player n r c : Z) :
  in_bounds n r c = true ->
  0 <= manhattan_like_to_goal player n r c /\
  2 * manhattan_like_to_goal player n r c <= n - 1 /\
  (player = RED ->
   manhattan_like_to_goal player n r c = Z.min r (n - 1 - r) /\
   (manhattan_like_to_goal player n r c = 0 <-> r = 0 \/ r = n - 1)) /\
  (player <> RED ->
   manhattan_like_to_goal player n r c = Z.min c (n - 1 - c) /\
   (manhattan_like_to_goal player n r c = 0 <-> c = 0 \/ c = n - 1)).
Proof.
  intros Hb. apply in_bounds_iff in Hb. unfold manhattan_like_to_goal.
  destruct (Z.eqb_spec player RED) as [E|E].
  - repeat split; try lia; intros; try done; lia.
  - repeat split; try lia; intros; try done; lia.
Qed.

Lemma manhattan_like_to_goal_bounds_witness :
  in_bounds 5 1 4 = true /\
  manhattan_like_to_goal RED 5 1 4 = 1 /\ manhattan_like_to_goal BLUE 5 1 4 = 0.
Proof.
  assert (in_bounds 5 1 4 = true) as Hb by reflexivity.
  pose proof (manhattan_like_to_goal_bounds RED 5 1 4 Hb) as (_ & _ & HR & _).
  pose proof (manhattan_like_to_goal_bounds BLUE 5 1 4 Hb) as (_ & _ & _ & HB).
  split; [exact Hb|]. split.
  - exact (proj1 (HR eq_refl)).
  - refine (proj1 (HB _)). discriminate.
Defined.

(** ** Counting the stones around a cell *)

Lemma count_fold {A} (P : A -> bool) (l : list A) (z : Z) :
  fold_left (fun cnt x => if P x then cnt + 1 else cnt) l z =
  z + Z.of_nat (length (List.filter P l)).
Proof.
  revert z. induction l as [|x l IH]; intros z; simpl; [lia|].
  rewrite IH. destruct (P x); simpl; lia.
Qed.

Lemma count_adjacent_stones_filter g r c p :
  count_adjacent_stones g r c p =
  Z.of_nat (length (List.filter
    (fun x => get2 EMPTY (HexGame.board g) x.1 x.2 =? p)
    (neighbors (HexGame.size g) r c))).
Proof. unfold count_adjacent_stones. by rewrite count_fold. Qed.

Lemma count_adjacent_any_filter g r c :
  count_adjacent_any g r c =
  Z.of_nat (length (List.filter
    (fun x => negb (get2 EMPTY (HexGame.board g) x.1 x.2 =? EMPTY))
    (neighbors (HexGame.size g) r c))).
Proof. unfold count_adjacent_any. by rewrite count_fold. Qed.

(** Every cell within bounds holds 0, 1 or 2. *)
Definition cells_valid (g : HexGame.t) : Prop :=
  forall r c, in_bounds (HexGame.size g) r c = true ->
    get2 EMPTY (HexGame.board g) r c = EMPTY \/
    get2 EMPTY (HexGame.board g) r c = RED \/
    get2 EMPTY (HexGame.board g) r c = BLUE.

Lemma cells_valid_reachable g : reachable g -> cells_valid g.
Proof.
  intros Hr r c Hb. pose proof (reachable_inv g Hr) as [_ Hcells _].
  exact (Hcells (r, c) Hb).
Qed.

(** X13.  On a board whose cells hold 0, 1 or 2, the occupied neighbours
    of a cell are its RED neighbours and its BLUE neighbours:
    [count_adjacent_any] is the sum of [count_adjacent_stones] for the two
    players, and no count is below 0 or above 6. *)
Theorem count_adjacent_split (g : HexGame.t) (r c : Z) :
  wf_board g -> cells_valid g ->
  count_adjacent_any g r c =
    count_adjacent_stones g r c RED + count_adjacent_stones g r c BLUE /\
  0 <= count_adjacent_stones g r c RED /\
  0 <= count_adjacent_stones g r c BLUE /\
  count_adjacent_any g r c <= 6.
Proof.
  intros _ Hv. rewrite count_adjacent_any_filter, !count_adjacent_stones_filter.
  pose proof (neighbors_length (HexGame.size g) r c) as Hlen.
  assert (forall x, In x (neighbors (HexGame.size g) r c) ->
            in_bounds (HexGame.size g) x.1 x.2 = true) as Hin.
  { intros x Hx. by apply neighbors_In in Hx as [_ Hx]. }
  split; [|split; [lia|split; [lia|]]].
  - induction (neighbors (HexGame.size g) r c) as [|x l IH]; [done|]. simpl.
    assert (forall y, In y l -> in_bounds (HexGame.size g) y.1 y.2 = true) as Hin'.
    { intros y Hy. apply Hin. by right. }
    assert (length l <= 6)%nat as Hlen' by (simpl in Hlen; lia).
    specialize (IH Hlen' Hin').
    destruct (Hv x.1 x.2 (Hin x (or_introl eq_refl))) as [E|[E|E]]; rewrite E; simpl; lia.
  - pose proof (List.filter_length_le
      (fun x => negb (get2 EMPTY (HexGame.board g) x.1 x.2 =? EMPTY))
      (neighbors (HexGame.size g) r c)). lia.
Qed.

Lemma count_adjacent_split_witness :
  wf_board two_stones_4x4 /\ cells_valid two_stones_4x4 /\
  count_adjacent_any two_stones_4x4 1 2 =
    count_adjacent_stones two_stones_4x4 1 2 RED +
    count_adjacent_stones two_stones_4x4 1 2 BLUE.
Proof.
  assert (wf_board two_stones_4x4) as Hwf by (split; [reflexivity|repeat constructor]).
  pose proof (cells_valid_reachable _ two_stones_4x4_reachable) as Hv.
  split; [exact Hwf|]. split; [exact Hv|].
  exact (proj1 (count_adjacent_split two_stones_4x4 1 2 Hwf Hv)).
Defined.

(** ** More about the candidate generator *)

Lemma remove_dups_length_le {A} `{EqDecision A} (l : list A) :
  (length (remove_dups l) <= length l)%nat.
Proof.
  induction l as [|x l IH]; simpl; [done|].
  destruct (decide_rel elem_of x l); simpl; lia.
Qed.

Section FrontierMore.
Context {RT : PyRuntime}.

Lemma frontier_adds_no_stone g :
  (forall y, ~ occupied g y) -> frontier_adds g = [].
Proof.
  intros Hno. destruct (frontier_adds g) as [|x l] eqn:E; [done|]. exfalso.
  assert (In x (frontier_adds g)) as Hin by (rewrite E; by left).
  apply frontier_adds_In in Hin as (y & Hy & _). by apply (Hno y).
Qed.

Lemma frontier_cands_no_stone g :
  (forall y, ~ occupied g y) -> (length (frontier_cands g) <= 7)%nat.
Proof.
  intros Hno. rewrite frontier_cands_length.
  etransitivity; [apply remove_dups_length_le|].
  unfold frontier_set.
  assert (any_stone g = false) as ->.
  { destruct (any_stone g) eqn:E; [|done].
    apply any_stone_true in E as [y Hy]. by destruct (Hno y). }
  cbn [negb]. rewrite (frontier_adds_no_stone g Hno). cbn [app length].
  pose proof (neighbors_length (HexGame.size g) (HexGame.size g / 2) (HexGame.size g / 2)).
  lia.
Qed.

Lemma frontier_moves_no_stone_eq g cap :
  (forall y, ~ occupied g y) -> frontier_moves g cap = empty_cells g.
Proof.
  intros Hno. apply frontier_moves_small.
  pose proof (frontier_cands_no_stone g Hno). lia.
Qed.

Lemma frontier_moves_NoDup g cap : NoDup (frontier_moves g cap).
Proof.
  unfold frontier_moves. destruct (_ <? 8); [apply empty_cells_NoDup|].
  assert (NoDup (frontier_cands g)) as Hc.
  { rewrite frontier_cands_eq. change (map ?f ?l) with (f <$> l).
    apply NoDup_fmap_2_strong; [|apply set_iter_NoDup].
    intros [a b] [a' b'] _ _ [= -> ->]. done. }
  assert (NoDup (sort_desc (frontier_score g) (frontier_cands g))) as Hs.
  { by rewrite sort_desc_perm. }
  unfold slice_to.
  destruct (cap <? 0); (eapply sublist_NoDup; [exact Hs|apply sublist_take]).
Qed.

Lemma frontier_moves_all_vacant g cap m :
  In m (frontier_moves g cap) -> vacant g (Move.r m, Move.c m).
Proof.
  intros Hm. destruct (Z_lt_le_dec (HexGame.size g) 1) as [Hlt|Hge].
  - rewrite frontier_moves_no_stone_eq in Hm; [by apply empty_cells_In|].
    intros y [Hb _]. apply in_bounds_iff in Hb. lia.
  - by apply (frontier_moves_vacant g cap).
Qed.

End FrontierMore.

Lemma empty_cells_all g :
  (forall y, ~ occupied g y) -> empty_cells g = all_cells (HexGame.size g).
Proof.
  intros Hno. unfold empty_cells, all_cells.
  apply flat_map_ext_In. intros r Hr. apply range_In in Hr.
  assert (forall l, (forall c, In c l -> 0 <= c < HexGame.size g) ->
    flat_map (fun c =>
      if get2 EMPTY (HexGame.board g) r c =? EMPTY then [Move.mk r c] else []) l
    = map (Move.mk r) l) as Hl.
  { induction l as [|c l IH]; intros Hin; [done|]. simpl.
    assert (get2 EMPTY (HexGame.board g) r c = EMPTY) as ->.
    { destruct (decide (get2 EMPTY (HexGame.board g) r c = EMPTY)) as [E|E]; [done|].
      exfalso. apply (Hno (r, c)). split; [|done]. simpl. apply in_bounds_iff.
      pose proof (Hin c (or_introl eq_refl)). lia. }
    simpl. f_equal. apply IH. intros c' Hc'. apply Hin. by right. }
  apply Hl. intros c Hc. by apply range_In in Hc.
Qed.

Lemma no_stone_init sz y : ~ occupied (HexGame.init sz) y.
Proof. intros [Hb Ho]. apply Ho. by apply init_get. Qed.

(** X14.  On a board without a stone the candidate set is the centre and
    its neighbours, at most 7 cells, fewer than the 8 the generator asks
    for: [frontier_moves] returns every cell of the board, row by row,
    whatever the cap.  So the candidates for the first move of a game are
    all the cells. *)
Theorem frontier_moves_no_stone {RT : PyRuntime} (g : HexGame.t) (cap : Z) :
  wf_board g -> (forall y, ~ occupied g y) ->
  (length (frontier_cands g) <= 7)%nat /\
  frontier_moves g cap = empty_cells g /\
  frontier_moves g cap = all_cells (HexGame.size g).
Proof.
  intros _ Hno. split; [|split].
  - by apply frontier_cands_no_stone.
  - by apply frontier_moves_no_stone_eq.
  - rewrite frontier_moves_no_stone_eq by done. by apply empty_cells_all.
Qed.

Lemma frontier_moves_no_stone_witness :
  wf_board (HexGame.init 11) /\ (forall y, ~ occupied (HexGame.init 11) y) /\
  frontier_moves (RT := ref_runtime) (HexGame.init 11) 30 = all_cells 11.
Proof.
  assert (wf_board (HexGame.init 11)) as Hwf by (apply wf_state_init).
  split; [exact Hwf|]. split; [exact (no_stone_init 11)|].
  exact (proj2 (proj2 (frontier_moves_no_stone (RT := ref_runtime) (HexGame.init 11) 30
                         Hwf (no_stone_init 11)))).
Defined.

(** X15.  What [frontier_moves] returns, on a state of the declared
    shape: a list without repetition of vacant cells within bounds.  When
    the candidate set has at least 8 cells and the cap is not negative,
    the list holds [min(cap, number of candidates)] cells, each a vacant
    cell next to a stone; with a cap that is not below the number of
    candidates it is a rearrangement of the candidate set. *)
Theorem frontier_moves_sound {RT : PyRuntime} (g : HexGame.t) (cap : Z) :
  wf_state g ->
  NoDup (frontier_moves g cap) /\
  (forall m, In m (frontier_moves g cap) -> vacant g (Move.r m, Move.c m)) /\
  ((8 <= length (frontier_cands g))%nat -> 0 <= cap ->
   length (frontier_moves g cap) = Nat.min (Z.to_nat cap) (length (frontier_cands g)) /\
   forall m, In m (frontier_moves g cap) ->
     exists y, occupied g y /\ adj y (Move.r m, Move.c m)) /\
  ((8 <= length (frontier_cands g))%nat ->
   Z.of_nat (length (frontier_cands g)) <= cap ->
   Permutation (frontier_moves g cap) (frontier_cands g)).
Proof.
  intros _. split; [apply frontier_moves_NoDup|]. split; [|split].
  - intros m Hm. by apply (frontier_moves_all_vacant g cap).
  - intros H8 Hcap. rewrite (frontier_moves_large g cap H8).
    unfold slice_to. destruct (Z.ltb_spec cap 0); [lia|]. split.
    + rewrite length_take. by rewrite (Permutation_length (sort_desc_perm _ _)).
    + intros m Hm. apply firstn_In in Hm.
      apply (Permutation_in _ (sort_desc_perm _ _)) in Hm.
      rewrite frontier_cands_eq in Hm. apply in_map_iff in Hm as (x & <- & Hx).
      rewrite <- list_elem_of_In, set_iter_elem, list_elem_of_In in Hx.
      apply frontier_set_In in Hx as [(y & Hy & Hadj & _)|[Hno _]].
      * exists y. by destruct x.
      * exfalso. pose proof (frontier_cands_no_stone g Hno). lia.
  - intros H8 Hcap. rewrite (frontier_moves_large g cap H8).
    unfold slice_to. destruct (Z.ltb_spec cap 0); [lia|].
    rewrite firstn_all2; [apply sort_desc_perm|].
    rewrite (Permutation_length (sort_desc_perm _ _)). lia.
Qed.

Lemma frontier_moves_sound_witness :
  wf_state two_stones_4x4 /\
  (8 <= length (frontier_cands (RT := ref_runtime) two_stones_4x4))%nat /\ 0 <= 5 /\
  NoDup (frontier_moves (RT := ref_runtime) two_stones_4x4 5) /\
  length (frontier_moves (RT := ref_runtime) two_stones_4x4 5) =
    Nat.min (Z.to_nat 5) (length (frontier_cands (RT := ref_runtime) two_stones_4x4)).
Proof.
  assert (wf_state two_stones_4x4) as Hwf.
  { split; [split; [reflexivity|repeat constructor]|left; reflexivity]. }
  assert (8 <= length (frontier_cands (RT := ref_runtime) two_stones_4x4))%nat as H8.
  { vm_compute. repeat constructor. }
  assert (0 <= 5) as Hcap by lia.
  pose proof (frontier_moves_sound (RT := ref_runtime) two_stones_4x4 5 Hwf)
    as (Hnd & _ & Hlen & _).
  split; [exact Hwf|]. split; [exact H8|]. split; [exact Hcap|]. split; [exact Hnd|].
  exact (proj1 (Hlen H8 Hcap)).
Defined.

(** X16.  [rollout_policy] raises [ValueError] exactly when
    [frontier_moves] returns no candidate; otherwise it returns one of the
    candidates and has drawn exactly one number from the generator of
    [random], whatever the state, finished games included. *)
Theorem rollout_policy_outcome {RT : PyRuntime}
    (g : HexGame.t) (cap : Z) (rnd : Random) :
  (rollout_policy g cap rnd = Raise ValueError <-> frontier_moves g cap = []) /\
  (frontier_moves g cap <> [] <->
   exists m, rollout_policy g cap rnd =
               Ok (m, {| draws := draws rnd; taken := S (taken rnd) |}) /\
             In m (frontier_moves g cap)).
Proof.
  split.
  - split; [|apply rollout_policy_empty].
    intros Hr. destruct (frontier_moves g cap) as [|m ms] eqn:E; [done|].
    destruct (rollout_policy_ok g cap rnd) as (m' & Hm' & _); [by rewrite E|].
    rewrite Hm' in Hr. done.
  - split; [apply rollout_policy_ok|].
    intros (m & Hr & _) He. rewrite (rollout_policy_empty g cap rnd He) in Hr. done.
Qed.

(** ** More about the engine *)

Section EngineMore.
Context {RT : PyRuntime}.

Lemma decide_legal s rt game pos m self' :
  search_inv s rt game pos -> HexGame.winner game = EMPTY ->
  MCTSBot.decide s game = Ok (m, self') ->
  exists game', HexGame.play game m = (true, game').
Proof.
  intros Hinv Hw Hdec. pose proof Hinv as [_ Hr [nd Hnd] _].
  destruct (Node.children nd) as [|ch chs] eqn:Ec.
  - rewrite (decide_no_children s game rt nd Hr Hnd Ec) in Hdec.
    assert (vacant game (Move.r m, Move.c m)) as [Hb Hv].
    { destruct (frontier_moves game (MCTSBot.expand_candidates s)) as [|m0 ms] eqn:E.
      - destruct (empty_cells game) as [|m1 ms1] eqn:E1; [done|].
        injection Hdec as <- _. apply empty_cells_In. rewrite E1. by left.
      - injection Hdec as <- _.
        apply (frontier_moves_all_vacant game (MCTSBot.expand_candidates s)).
        rewrite E. by left. }
    assert (~ rejects game m) as Hacc by (by apply not_rejects).
    rewrite (play_accept game m Hacc).
    destruct (HexGame.has_won (placed game m) (HexGame.current game)); eauto.
  - destruct (decide_sync s rt game pos nd m self' Hinv Hnd) as (g' & _ & _ & Hp & _);
      [by rewrite Ec|done|]. eauto.
Qed.

End EngineMore.

(** X17.  [choose] returns a legal move.  When the retained tree is in
    step with the live game (as it is for a fresh engine, and after every
    [choose] or [notify_opponent_moved] that followed the game) and the
    game has no winner, the move that [choose] returns is one of
    [legal_moves()], and [play] accepts it. *)
Theorem choose_returns_legal_move {RT : PyRuntime}
    (self : MCTSBot.t) (game : HexGame.t) (ticks : nat) (rnd : Random)
    (m : Move.t) (self' : MCTSBot.t) (rnd' : Random) :
  synced self game -> wf_state game -> HexGame.winner game = EMPTY ->
  MCTSBot.choose self game ticks rnd = Ok (m, self', rnd') ->
  In m (HexGame.legal_moves game) /\
  exists game', HexGame.play game m = (true, game').
Proof.
  intros Hsync _ Hw Hc.
  destruct (choose_Ok self game ticks rnd m self' rnd' Hc) as (s1 & s0 & Ha & Hs & Hd).
  destruct (acquire_sync self game s1 Hsync Ha) as (pos1 & rt & Hinv1).
  destruct (search_sync _ _ _ _ _ _ _ _ _ Hinv1 Hs) as [pos0 Hinv0].
  destruct (decide_legal s0 rt game pos0 m self' Hinv0 Hw Hd) as [g' Hp].
  split; [|eauto].
  assert (~ rejects game m) as Hacc by (by apply (play_true_accept game m g')).
  apply not_rejects in Hacc as (_ & Hb & Hv).
  rewrite legal_moves_empty_cells, Hw. simpl. by apply empty_cells_In.
Qed.

Lemma choose_returns_legal_move_witness :
  synced (five_playouts None) (HexGame.init 2) /\ wf_state (HexGame.init 2) /\
  HexGame.winner (HexGame.init 2) = EMPTY /\
  exists m,
    chosen (MCTSBot.choose (RT := ref_runtime) (five_playouts None) (HexGame.init 2) 100
              (draws_from [])) = Some m /\
    In m (HexGame.legal_moves (HexGame.init 2)).
Proof.
  assert (synced (five_playouts None) (HexGame.init 2)) as Hs
    by (apply fresh_engine_synced).
  split; [exact Hs|]. split; [apply wf_state_init|]. split; [reflexivity|].
  assert (is_ok (MCTSBot.choose (RT := ref_runtime) (five_playouts None) (HexGame.init 2)
                   100 (draws_from [])) = true) as Hok by (vm_compute; reflexivity).
  destruct (MCTSBot.choose (RT := ref_runtime) (five_playouts None) (HexGame.init 2)
              100 (draws_from [])) as [[[m s'] r']| | |] eqn:E; try discriminate Hok.
  exists m. split; [reflexivity|].
  exact (proj1 (choose_returns_legal_move (RT := ref_runtime) (five_playouts None)
                  (HexGame.init 2) 100 (draws_from []) m s' r'
                  Hs (wf_state_init 2) eq_refl E)).
Defined.

(** X18.  [notify_opponent_moved] follows the game.  When the retained
    tree is in step with the live game and the reported move is accepted
    by [play], the call returns and the retained tree is in step with the
    game after the move: the child under the move's key is the new root,
    or, when there is none, the tree is dropped. *)
Theorem notify_keeps_sync {RT : PyRuntime}
    (self : MCTSBot.t) (game : HexGame.t) (m : Move.t) (game' : HexGame.t) :
  synced self game -> HexGame.play game m = (true, game') ->
  exists self',
    MCTSBot.notify_opponent_moved self m = Ok self' /\ synced self' game' /\
    (MCTSBot.root self' = None \/
     exists rt nd nxt,
       MCTSBot.root self = Some rt /\ MCTSBot.heap self !! rt = Some nd /\
       Node.dict_get (Node.children nd) (Move.r m, Move.c m) = Some nxt /\
       MCTSBot.root self' = Some nxt).
Proof.
  intros (pos & Hok & Hroot) Hp. unfold MCTSBot.notify_opponent_moved.
  destruct (MCTSBot.root self) as [rt|] eqn:Er.
  - destruct (Hroot rt eq_refl) as [[nd Hnd] Hpos].
    assert (search_inv self rt game pos) as Hinv by (split; eauto).
    destruct (apply_move_ok self m) as [self' Ha].
    { intros rt' Hrt'. rewrite Er in Hrt'. injection Hrt' as <-. exists nd. split; [done|].
      intros k c Hin. destruct (tk_child _ _ Hok rt nd k c Hnd Hin) as (ndc & Hc & _).
      eauto. }
    exists self'. split; [done|].
    destruct (apply_move_sync self rt game pos m self' Hinv Ha)
      as [(Hr' & _ & Hh)|(g2 & nxt & nn & Hp2 & Hr' & Hnn & _ & _ & Hinv')].
    + split; [|by left]. exists pos. split; [by rewrite Hh|]. intros rt'. by rewrite Hr'.
    + rewrite Hp in Hp2. injection Hp2 as <-. split; [by eapply search_inv_synced|].
      right. unfold MCTSBot._apply_move_to_tree in Ha.
      rewrite Er, (node_get_Some _ _ _ Hnd) in Ha. cbn [rbind] in Ha.
      destruct (Node.dict_get (Node.children nd) (Move.r m, Move.c m)) as [nxt'|] eqn:Ed.
      * exists rt, nd, nxt'. do 3 (split; [done|]).
        destruct (Node.get (MCTSBot.heap self) nxt'); try done. cbn [rbind] in Ha.
        by injection Ha as <-.
      * injection Ha as <-. done.
  - exists self. unfold MCTSBot._apply_move_to_tree. rewrite Er.
    split; [done|]. split; [|by left].
    exists pos. split; [done|]. intros rt. by rewrite Er.
Qed.

Lemma notify_keeps_sync_witness :
  exists m s r g1,
    MCTSBot.choose (RT := ref_runtime) (five_playouts None) (HexGame.init 2) 100
      (draws_from []) = Ok (m, s, r) /\
    HexGame.play (HexGame.init 2) m = (true, g1) /\
    synced s g1 /\
    length (root_children s) = 1%nat /\
    (exists g2 s2 nxt,
       HexGame.play g1 (Move.mk 0 1) = (true, g2) /\
       MCTSBot.notify_opponent_moved s (Move.mk 0 1) = Ok s2 /\
       MCTSBot.root s2 = Some nxt /\ synced s2 g2) /\
    (exists g3 s3,
       HexGame.play g1 (Move.mk 1 1) = (true, g3) /\
       MCTSBot.notify_opponent_moved s (Move.mk 1 1) = Ok s3 /\
       MCTSBot.root s3 = None /\ synced s3 g3).
Proof.
  assert (match MCTSBot.choose (RT := ref_runtime) (five_playouts None) (HexGame.init 2)
                  100 (draws_from []) with
          | Ok (m, s, _) =>
              Some (m, length (root_children s),
                    match MCTSBot.notify_opponent_moved s (Move.mk 0 1) with
                    | Ok s2 => Some (MCTSBot.root s2)
                    | _ => None
                    end,
                    match MCTSBot.notify_opponent_moved s (Move.mk 1 1) with
                    | Ok s3 => Some (MCTSBot.root s3)
                    | _ => None
                    end)
          | _ => None
          end = Some (Move.mk 0 0, 1%nat, Some (Some 5%nat), Some None)) as Hsum
    by (vm_compute; reflexivity).
  assert (match searched (RT := ref_runtime) (five_playouts None) (HexGame.init 2) 100
                  (draws_from []) with
          | Ok (s0, _) => length (root_children s0)
          | _ => 0%nat
          end = 4%nat) as Hlen by (vm_compute; reflexivity).
  destruct (searched (RT := ref_runtime) (five_playouts None) (HexGame.init 2) 100
              (draws_from [])) as [[s0 r0]| | |] eqn:Es; try discriminate Hlen.
  destruct (choose_reroots (RT := ref_runtime) (five_playouts None) (HexGame.init 2) 100
              (draws_from []) s0 r0 (fresh_engine_synced _ _ _ _ _ _ _) Es)
    as (m & s & g1 & nxt & nn & Hc & Hp & _ & _ & _ & _ & Hs).
  { intros Hnil. rewrite Hnil in Hlen. discriminate Hlen. }
  rewrite Hc in Hsum. injection Hsum as -> Hch H01 H11.
  assert (HexGame.play (HexGame.init 2) (Move.mk 0 0)
          = (true, HexGame.mk 2 [[RED; EMPTY]; [EMPTY; EMPTY]] BLUE EMPTY
                     (Some (Move.mk 0 0)) 1)) as Hp' by (vm_compute; reflexivity).
  rewrite Hp' in Hp. injection Hp as <-.
  exists (Move.mk 0 0), s, r0, (HexGame.mk 2 [[RED; EMPTY]; [EMPTY; EMPTY]] BLUE EMPTY
                                  (Some (Move.mk 0 0)) 1).
  split; [exact Hc|]. split; [exact Hp'|]. split; [exact Hs|]. split; [exact Hch|].
  split.
  - destruct (notify_keeps_sync (RT := ref_runtime) s _ (Move.mk 0 1)
                (HexGame.mk 2 [[RED; BLUE]; [EMPTY; EMPTY]] RED EMPTY
                   (Some (Move.mk 0 1)) 2) Hs)
      as (s2 & Hn & Hs2 & _); [vm_compute; reflexivity|].
    rewrite Hn in H01. injection H01 as Hr2.
    exists (HexGame.mk 2 [[RED; BLUE]; [EMPTY; EMPTY]] RED EMPTY (Some (Move.mk 0 1)) 2),
      s2, 5%nat.
    split; [vm_compute; reflexivity|]. split; [exact Hn|]. split; [exact Hr2|exact Hs2].
  - destruct (notify_keeps_sync (RT := ref_runtime) s _ (Move.mk 1 1)
                (HexGame.mk 2 [[RED; EMPTY]; [EMPTY; BLUE]] RED EMPTY
                   (Some (Move.mk 1 1)) 2) Hs)
      as (s3 & Hn & Hs3 & _); [vm_compute; reflexivity|].
    rewrite Hn in H11. injection H11 as Hr3.
    exists (HexGame.mk 2 [[RED; EMPTY]; [EMPTY; BLUE]] RED EMPTY (Some (Move.mk 1 1)) 2),
      s3.
    split; [vm_compute; reflexivity|]. split; [exact Hn|]. split; [exact Hr3|exact Hs3].
Defined.

(** ** How much the tree grows *)

(** The parameters of an engine, which no method changes. *)
Definition config (s : MCTSBot.t) : float * float * Z * Z * Z * Random :=
  (MCTSBot.time_limit_s s, MCTSBot.uct_c s, MCTSBot.playout_limit s,
   MCTSBot.rollout_candidates s, MCTSBot.expand_candidates s, MCTSBot.rng s).

(** [s'] has the nodes of [s] and at most [k] more. *)
Definition grown (k : nat) (s s' : MCTSBot.t) : Prop :=
  config s' = config s /\
  (length (MCTSBot.heap s) <= length (MCTSBot.heap s'))%nat /\
  (length (MCTSBot.heap s') <= length (MCTSBot.heap s) + k)%nat.

Lemma grown_refl s : grown 0 s s.
Proof. split; [done|]. split; lia. Qed.

Lemma grown_trans k1 k2 s1 s2 s3 :
  grown k1 s1 s2 -> grown k2 s2 s3 -> grown (k1 + k2) s1 s3.
Proof.
  intros (Hc1 & Hl1 & Hu1) (Hc2 & Hl2 & Hu2). split; [congruence|]. split; lia.
Qed.

Lemma grown_mono k k' s s' : (k <= k')%nat -> grown k s s' -> grown k' s s'.
Proof. intros Hk (Hc & Hl & Hu). split; [done|]. split; lia. Qed.

Section Growth.
Context {RT : PyRuntime}.

Lemma expand_grown self node state self' out :
  MCTSBot.expand self node state = Ok (self', out) -> grown 1 self self'.
Proof.
  unfold MCTSBot.expand.
  destruct (Node.get (MCTSBot.heap self) node) as [nd| | |]; try done.
  cbn [rbind].
  destruct ((HexGame.winner state =? EMPTY) && (0 <? length (Node.untried nd))%nat).
  2:{ intros [= <- <-]. apply (grown_mono 0); [lia|apply grown_refl]. }
  destruct (Node.untried nd) as [|mv rest]; [done|].
  destruct (HexGame.play state mv) as [ok state1].
  destruct ok; cbn [negb].
  - unfold MCTSBot.alloc.
    match goal with
    | |- context [Node.get ?h node] => destruct (Node.get h node) as [nd1| | |]
    end; try done.
    cbn [rbind]. intros [= <- <-]. split; [done|].
    cbn [MCTSBot.heap MCTSBot.set_heap].
    rewrite length_insert, length_app, length_insert. simpl. lia.
  - intros [= <- <-]. split; [done|].
    cbn [MCTSBot.heap MCTSBot.set_heap]. rewrite length_insert. lia.
Qed.

Lemma iteration_grown self game rnd self' rnd' :
  MCTSBot.iteration self game rnd = Ok (self', rnd') -> grown 1 self self'.
Proof.
  unfold MCTSBot.iteration. destruct (MCTSBot.root self) as [rt|]; [|done].
  destruct (MCTSBot.select _ self rt _) as [[node state]| | |]; try done.
  cbn [rbind fst snd].
  destruct (MCTSBot.expand self node state) as [[s1 out]| | |] eqn:Ee; try done.
  cbn [rbind fst snd]. apply expand_grown in Ee.
  destruct out as [[node1 state1]|]; [|by intros [= <- <-]].
  destruct (MCTSBot.rollout _ _ state1 rnd) as [[final rnd1]| | |]; try done.
  cbn [rbind fst snd].
  destruct (MCTSBot.backprop _ _ _ _) as [h| | |] eqn:Eb; try done.
  cbn [rbind]. intros [= <- <-]. apply backprop_same in Eb as [_ Hl].
  destruct Ee as (Hc & Hl1 & Hu1). split; [done|].
  cbn [MCTSBot.heap MCTSBot.set_heap]. rewrite Hl. lia.
Qed.

Lemma search_grown ticks playouts self game rnd self' rnd' :
  MCTSBot.search ticks playouts self game rnd = Ok (self', rnd') ->
  grown (Nat.min ticks (Z.to_nat (MCTSBot.playout_limit self - playouts))) self self'.
Proof.
  revert playouts self rnd.
  induction ticks as [|ticks IH]; intros playouts self rnd; cbn [MCTSBot.search].
  - intros [= <- <-]. apply (grown_mono 0); [lia|apply grown_refl].
  - destruct (Z.ltb_spec playouts (MCTSBot.playout_limit self)) as [Hlt|Hge].
    2:{ intros [= <- <-]. apply (grown_mono 0); [lia|apply grown_refl]. }
    destruct (MCTSBot.iteration self game rnd) as [[s1 r1]| | |] eqn:Ei; try done.
    cbn [rbind fst snd]. intros Hs. apply iteration_grown in Ei.
    apply IH in Hs.
    assert (MCTSBot.playout_limit s1 = MCTSBot.playout_limit self) as El.
    { destruct Ei as (Hc & _). unfold config in Hc. by injection Hc. }
    rewrite El in Hs.
    eapply grown_mono; [|exact (grown_trans _ _ _ _ _ Ei Hs)]. lia.
Qed.

Lemma acquire_grown self game s :
  MCTSBot.acquire self game = Ok s -> grown 1 self s.
Proof.
  unfold MCTSBot.acquire.
  assert (forall s0 : MCTSBot.t, grown 1 self s0 ->
    (let self2 :=
       match MCTSBot.root_player s0 with
       | None => MCTSBot.set_root_player s0 (Some (HexGame.current game))
       | Some _ => s0
       end in
     match MCTSBot.root self2 with
     | None => Raise AttributeError
     | Some rt =>
         nd <- Node.get (MCTSBot.heap self2) rt ;;
         if (length (Node.untried nd) =? 0)%nat && (length (Node.children nd) =? 0)%nat
         then Ok (MCTSBot.set_heap self2
                    (<[rt := Node.set_untried nd
                               (frontier_moves game (MCTSBot.expand_candidates self2))]>
                       (MCTSBot.heap self2)))
         else Ok self2
     end) = Ok s -> grown 1 self s) as Htail.
  { intros s0 Hg. cbv zeta.
    assert (grown 1 self
              match MCTSBot.root_player s0 with
              | None => MCTSBot.set_root_player s0 (Some (HexGame.current game))
              | Some _ => s0
              end) as Hg2 by (by destruct (MCTSBot.root_player s0)).
    destruct (MCTSBot.root _) as [rt|]; [|done].
    destruct (Node.get _ rt) as [nd| | |]; try done. cbn [rbind].
    destruct (_ && _); intros [= <-]; [|done].
    destruct Hg2 as (Hc & Hl & Hu). split; [done|].
    cbn [MCTSBot.heap MCTSBot.set_heap]. rewrite length_insert. lia. }
  assert (grown 1 self
            (MCTSBot.set_root (MCTSBot._new_root self game).1
               (Some (MCTSBot._new_root self game).2))) as Hnew.
  { unfold MCTSBot._new_root, MCTSBot.alloc. cbn [fst snd]. split; [done|].
    cbn [MCTSBot.heap MCTSBot.set_heap MCTSBot.set_root MCTSBot.set_root_player].
    rewrite length_app. simpl. lia. }
  destruct (MCTSBot.root self) as [rt|].
  - destruct (Node.get (MCTSBot.heap self) rt) as [nd| | |]; try done. cbn [rbind].
    destruct (negb _).
    + destruct (MCTSBot._new_root self game) as [s0 rt0]. cbn [rbind fst snd] in *.
      by apply Htail.
    + cbn [rbind]. apply Htail. apply (grown_mono 0); [lia|apply grown_refl].
  - destruct (MCTSBot._new_root self game) as [s0 rt0]. cbn [rbind fst snd] in *.
    by apply Htail.
Qed.

Lemma apply_move_grown self m self' :
  MCTSBot._apply_move_to_tree self m = Ok self' -> grown 0 self self'.
Proof.
  unfold MCTSBot._apply_move_to_tree.
  destruct (MCTSBot.root self) as [rt|]; [|intros [= <-]; apply grown_refl].
  destruct (Node.get _ rt) as [nd| | |]; try done. cbn [rbind].
  destruct (Node.dict_get _ _) as [nxt|].
  - destruct (Node.get _ nxt) as [nn| | |]; try done. cbn [rbind].
    intros [= <-]. split; [done|].
    cbn [MCTSBot.heap MCTSBot.set_heap MCTSBot.set_root]. rewrite length_insert. lia.
  - intros [= <-]. split; [done|]. simpl. lia.
Qed.

Lemma decide_grown self game m self' :
  MCTSBot.decide self game = Ok (m, self') -> grown 0 self self'.
Proof.
  unfold MCTSBot.decide. destruct (MCTSBot.root self) as [rt|]; [|done].
  destruct (Node.get _ rt) as [nd| | |]; try done. cbn [rbind].
  destruct (_ =? _)%nat.
  - destruct (frontier_moves _ _); [destruct (empty_cells game)|];
      try done; intros [= <- <-]; apply grown_refl.
  - destruct (MCTSBot.best_child _ _) as [best| | |]; try done. cbn [rbind].
    destruct (Node.get _ best) as [bn| | |]; try done. cbn [rbind].
    destruct (Node.move bn) as [bm|]; [|done].
    destruct (MCTSBot._apply_move_to_tree self bm) as [s'| | |] eqn:Ea; try done.
    cbn [rbind]. intros [= <- <-]. by apply (apply_move_grown self bm).
Qed.

End Growth.

(** X19.  The tree grows by at most one node for each round of the search
    loop.  A call of [choose] that returns leaves the parameters of the
    engine as they were, keeps every node it found, and creates at most
    one node for the root and one for each round, of which there are no
    more than the deadline allows and no more than [playout_limit];
    [notify_opponent_moved] creates none. *)
Theorem tree_growth {RT : PyRuntime}
    (self : MCTSBot.t) (game : HexGame.t) (ticks : nat) (rnd : Random) :
  (forall m self' rnd',
     MCTSBot.choose self game ticks rnd = Ok (m, self', rnd') ->
     config self' = config self /\
     (length (MCTSBot.heap self) <= length (MCTSBot.heap self'))%nat /\
     (length (MCTSBot.heap self') <=
      length (MCTSBot.heap self) + 1 +
      Nat.min ticks (Z.to_nat (MCTSBot.playout_limit self)))%nat) /\
  (forall m self',
     MCTSBot.notify_opponent_moved self m = Ok self' ->
     config self' = config self /\
     length (MCTSBot.heap self') = length (MCTSBot.heap self)).
Proof.
  split.
  - intros m self' rnd' Hc.
    destruct (choose_Ok self game ticks rnd m self' rnd' Hc) as (s1 & s0 & Ha & Hs & Hd).
    apply acquire_grown in Ha. apply search_grown in Hs. apply decide_grown in Hd.
    assert (MCTSBot.playout_limit s1 = MCTSBot.playout_limit self) as El.
    { destruct Ha as (Hcf & _). unfold config in Hcf. by injection Hcf. }
    rewrite El, Z.sub_0_r in Hs.
    pose proof (grown_trans _ _ _ _ _ (grown_trans _ _ _ _ _ Ha Hs) Hd) as (H1 & H2 & H3).
    split; [done|]. split; lia.
  - intros m self' Hn. apply apply_move_grown in Hn as (H1 & H2 & H3).
    split; [done|]. lia.
Qed.

Lemma tree_growth_witness :
  exists m self' rnd',
    MCTSBot.choose (RT := ref_runtime) (five_playouts None) (HexGame.init 2) 100
      (draws_from []) = Ok (m, self', rnd') /\
    (length (MCTSBot.heap self') <= 0 + 1 + Nat.min 100 (Z.to_nat 5))%nat.
Proof.
  assert (is_ok (MCTSBot.choose (RT := ref_runtime) (five_playouts None) (HexGame.init 2)
                   100 (draws_from [])) = true) as Hok by (vm_compute; reflexivity).
  destruct (MCTSBot.choose (RT := ref_runtime) (five_playouts None) (HexGame.init 2)
              100 (draws_from [])) as [[[m s'] r']| | |] eqn:E; try discriminate Hok.
  exists m, s', r'. split; [reflexivity|].
  exact (proj2 (proj2 (proj1 (tree_growth (RT := ref_runtime) (five_playouts None)
                                (HexGame.init 2) 100 (draws_from [])) m s' r' E))).
Defined.

(** ** [choose] at the edges: no budget, finished game *)

(** The fallback of [choose]: lines 271-274. *)
Definition fallback {RT : PyRuntime} (s : MCTSBot.t) (game : HexGame.t)
    (rnd : Random) : result (Move.t * MCTSBot.t * Random) :=
  match frontier_moves game (MCTSBot.expand_candidates s) with
  | m :: _ => Ok (m, s, rnd)
  | [] => match empty_cells game with
          | m :: _ => Ok (m, s, rnd)
          | [] => Raise IndexError
          end
  end.

Section Edges.
Context {RT : PyRuntime}.

Lemma acquire_fresh self game :
  MCTSBot.root self = None ->
  exists s, MCTSBot.acquire self game = Ok s /\
    config s = config self /\
    MCTSBot.root s = Some (length (MCTSBot.heap self)) /\
    MCTSBot.heap s = MCTSBot.heap self ++
      [Node.mk None None (HexGame.current game)
         (frontier_moves game (MCTSBot.expand_candidates self)) [] 0 0%float].
Proof.
  intros Hr. unfold MCTSBot.acquire, MCTSBot._new_root, MCTSBot.alloc. rewrite Hr.
  cbn [MCTSBot.root MCTSBot.set_root MCTSBot.set_root_player MCTSBot.set_heap
       MCTSBot.heap MCTSBot.root_player MCTSBot.expand_candidates rbind].
  unfold Node.get. rewrite lookup_app_r by lia. rewrite Nat.sub_diag.
  cbn [lookup list_lookup rbind Node.untried Node.children length].
  destruct (_ && _); eexists; (split; [reflexivity|]); (split; [done|]);
    (split; [done|]).
  - cbn [MCTSBot.heap MCTSBot.set_heap MCTSBot.set_root].
    apply list_eq. intros i.
    destruct (decide (i = length (MCTSBot.heap self))) as [->|Hne].
    + rewrite list_lookup_insert_eq by (rewrite length_app; simpl; lia).
      rewrite lookup_app_r by lia. rewrite Nat.sub_diag. done.
    + by rewrite list_lookup_insert_ne.
  - done.
Qed.

Lemma search_no_budget ticks playouts self game rnd :
  ticks = 0%nat \/ MCTSBot.playout_limit self <= playouts ->
  MCTSBot.search ticks playouts self game rnd = Ok (self, rnd).
Proof.
  intros [-> |Hl]; [done|]. destruct ticks; [done|]. cbn [MCTSBot.search].
  destruct (Z.ltb_spec playouts (MCTSBot.playout_limit self)); [lia|done].
Qed.

Lemma decide_fallback s game rt nd rnd :
  MCTSBot.root s = Some rt -> MCTSBot.heap s !! rt = Some nd ->
  Node.children nd = [] ->
  (d <- MCTSBot.decide s game ;; Ok (d.1, d.2, rnd)) = fallback s game rnd.
Proof.
  intros Hr Hnd Hc. rewrite (decide_no_children s game rt nd Hr Hnd Hc).
  unfold fallback. destruct (frontier_moves _ _); [destruct (empty_cells game)|]; done.
Qed.

Lemma select_finished fuel self node state nd :
  HexGame.winner state <> EMPTY -> MCTSBot.heap self !! node = Some nd ->
  MCTSBot.select fuel self node state = Ok (node, state).
Proof.
  intros Hw Hnd. apply Z.eqb_neq in Hw.
  destruct fuel; cbn [MCTSBot.select]; rewrite (node_get_Some _ _ _ Hnd);
    cbn [rbind]; rewrite Hw; done.
Qed.

Lemma expand_finished self node state nd :
  HexGame.winner state <> EMPTY -> MCTSBot.heap self !! node = Some nd ->
  MCTSBot.expand self node state = Ok (self, Some (node, state)).
Proof.
  intros Hw Hnd. apply Z.eqb_neq in Hw. unfold MCTSBot.expand.
  rewrite (node_get_Some _ _ _ Hnd). cbn [rbind]. by rewrite Hw.
Qed.

Lemma iteration_finished self game rnd rt nd :
  HexGame.winner game <> EMPTY ->
  MCTSBot.root self = Some rt -> MCTSBot.heap self !! rt = Some nd ->
  Node.parent nd = None ->
  exists w,
    MCTSBot.iteration self game rnd =
    Ok (MCTSBot.set_heap self
          (<[rt := Node.set_stats nd (Node.visits nd + 1) w]> (MCTSBot.heap self)),
        rnd).
Proof.
  intros Hw Hr Hnd Hp. unfold MCTSBot.iteration. rewrite Hr, clone_id.
  rewrite (select_finished _ self rt game nd Hw Hnd). cbn [rbind fst snd].
  rewrite (expand_finished self rt game nd Hw Hnd). cbn [rbind fst snd].
  rewrite (rollout_done _ _ game rnd Hw). cbn [rbind fst snd].
  cbn [MCTSBot.backprop]. rewrite (node_get_Some _ _ _ Hnd). cbn [rbind].
  rewrite Hp. destruct (length (MCTSBot.heap self)); cbn [MCTSBot.backprop rbind]; eauto.
Qed.

Lemma search_finished ticks playouts self game rnd rt nd :
  HexGame.winner game <> EMPTY ->
  MCTSBot.root self = Some rt -> MCTSBot.heap self !! rt = Some nd ->
  Node.parent nd = None ->
  exists s nd',
    MCTSBot.search ticks playouts self game rnd = Ok (s, rnd) /\
    config s = config self /\
    MCTSBot.root s = Some rt /\ MCTSBot.heap s !! rt = Some nd' /\
    Node.children nd' = Node.children nd /\
    Node.visits nd <= Node.visits nd'.
Proof.
  intros Hw. revert playouts self nd.
  induction ticks as [|ticks IH]; intros playouts self nd Hr Hnd Hp;
    cbn [MCTSBot.search].
  - exists self, nd. do 5 (split; [done|]). lia.
  - destruct (playouts <? MCTSBot.playout_limit self).
    2:{ exists self, nd. do 5 (split; [done|]). lia. }
    destruct (iteration_finished self game rnd rt nd Hw Hr Hnd Hp) as [w ->].
    cbn [rbind fst snd].
    pose proof (lookup_lt_Some _ _ _ Hnd) as Hlt.
    destruct (IH (playouts + 1)
                (MCTSBot.set_heap self
                   (<[rt := Node.set_stats nd (Node.visits nd + 1) w]> (MCTSBot.heap self)))
                (Node.set_stats nd (Node.visits nd + 1) w))
      as (s & nd' & Hs & Hc & Hr' & Hnd' & Hch & Hv); try done.
    { cbn [MCTSBot.heap MCTSBot.set_heap]. by apply list_lookup_insert_eq. }
    exists s, nd'. split; [done|]. split; [done|]. split; [done|]. split; [done|].
    split; [done|]. simpl in Hv. lia.
Qed.

End Edges.

(** X20.  [choose] without a budget.  On an engine without a retained
    root, when the deadline has passed before the first round or
    [playout_limit] is not positive, [choose] runs no round of the search,
    draws no random number, builds the root and takes the fallback: it
    returns the first candidate of [frontier_moves], or, that list being
    empty, the first vacant cell, and raises [IndexError] when the board
    has no vacant cell. *)
Theorem choose_without_budget {RT : PyRuntime}
    (self : MCTSBot.t) (game : HexGame.t) (ticks : nat) (rnd : Random) :
  MCTSBot.root self = None ->
  ticks = 0%nat \/ MCTSBot.playout_limit self <= 0 ->
  exists s,
    MCTSBot.acquire self game = Ok s /\
    MCTSBot.expand_candidates s = MCTSBot.expand_candidates self /\
    MCTSBot.choose self game ticks rnd = fallback s game rnd /\
    (forall m ms, frontier_moves game (MCTSBot.expand_candidates self) = m :: ms ->
       MCTSBot.choose self game ticks rnd = Ok (m, s, rnd)) /\
    (empty_cells game = [] -> MCTSBot.choose self game ticks rnd = Raise IndexError).
Proof.
  intros Hr Hb. destruct (acquire_fresh self game Hr) as (s & Ha & Hc & Hrs & Hh).
  assert (MCTSBot.expand_candidates s = MCTSBot.expand_candidates self) as He.
  { unfold config in Hc. by injection Hc. }
  assert (MCTSBot.playout_limit s = MCTSBot.playout_limit self) as Hl.
  { unfold config in Hc. by injection Hc. }
  assert (MCTSBot.choose self game ticks rnd = fallback s game rnd) as E.
  { unfold MCTSBot.choose. rewrite Ha. cbn [rbind].
    rewrite search_no_budget by (rewrite Hl; tauto). cbn [rbind fst snd].
    eapply (decide_fallback s game (length (MCTSBot.heap self)) _ rnd Hrs).
    - rewrite Hh, lookup_app_r by lia. rewrite Nat.sub_diag. reflexivity.
    - reflexivity. }
  exists s. split; [done|]. split; [done|]. split; [done|]. split.
  - intros m ms Hf. rewrite E. unfold fallback. by rewrite He, Hf.
  - intros Hne. rewrite E. unfold fallback.
    destruct (frontier_moves game (MCTSBot.expand_candidates s)) as [|m ms] eqn:Ef.
    + by rewrite Hne.
    + exfalso. assert (In m (empty_cells game)) as Hin.
      { apply empty_cells_In.
        apply (frontier_moves_all_vacant game (MCTSBot.expand_candidates s) m).
        rewrite Ef. by left. }
      by rewrite Hne in Hin.
Qed.

Lemma choose_without_budget_witness :
  MCTSBot.root no_playouts = None /\
  (100%nat = 0%nat \/ MCTSBot.playout_limit no_playouts <= 0) /\
  exists s,
    MCTSBot.choose (RT := ref_runtime) no_playouts (HexGame.init 2) 100 (draws_from [])
    = Ok (Move.mk 0 0, s, draws_from []).
Proof.
  assert (MCTSBot.root no_playouts = None) as Hr by reflexivity.
  assert (100%nat = 0%nat \/ MCTSBot.playout_limit no_playouts <= 0) as Hb
    by (right; simpl; lia).
  split; [exact Hr|]. split; [exact Hb|].
  destruct (choose_without_budget (RT := ref_runtime) no_playouts (HexGame.init 2) 100
              (draws_from []) Hr Hb) as (s & _ & _ & _ & Hf & _).
  exists s. apply (Hf (Move.mk 0 0) [Move.mk 0 1; Move.mk 1 0; Move.mk 1 1]).
  vm_compute. reflexivity.
Defined.

(** X21.  [choose] on a finished game.  On an engine without a retained
    root and a game that has a winner, every round of the search only
    counts a visit of the root; [choose] draws no random number and takes
    the fallback.  When the board has a vacant cell it returns a vacant
    cell, a move that [play] refuses; when it has none it raises
    [IndexError]. *)
Theorem choose_on_finished_game {RT : PyRuntime}
    (self : MCTSBot.t) (game : HexGame.t) (ticks : nat) (rnd : Random) :
  MCTSBot.root self = None -> HexGame.winner game <> EMPTY ->
  (empty_cells game <> [] ->
   exists m self',
     MCTSBot.choose self game ticks rnd = Ok (m, self', rnd) /\
     vacant game (Move.r m, Move.c m) /\
     HexGame.play game m = (false, game)) /\
  (empty_cells game = [] -> MCTSBot.choose self game ticks rnd = Raise IndexError).
Proof.
  intros Hr Hw. destruct (acquire_fresh self game Hr) as (s1 & Ha & Hc & Hrs & Hh).
  assert (MCTSBot.heap s1 !! length (MCTSBot.heap self) =
          Some (Node.mk None None (HexGame.current game)
                  (frontier_moves game (MCTSBot.expand_candidates self)) [] 0 0%float))
    as Hnd.
  { rewrite Hh, lookup_app_r by lia. by rewrite Nat.sub_diag. }
  destruct (search_finished ticks 0 s1 game rnd _ _ Hw Hrs Hnd eq_refl)
    as (s & nd' & Hs & Hcs & Hr' & Hnd' & Hch & _).
  assert (MCTSBot.choose self game ticks rnd = fallback s game rnd) as E.
  { unfold MCTSBot.choose. rewrite Ha. cbn [rbind]. rewrite Hs. cbn [rbind fst snd].
    by apply (decide_fallback s game _ nd' rnd Hr' Hnd'). }
  rewrite E. unfold fallback. split.
  - intros Hne.
    assert (forall m, vacant game (Move.r m, Move.c m) ->
              HexGame.play game m = (false, game)) as Hrej.
    { intros m _. apply play_reject. by left. }
    destruct (frontier_moves game (MCTSBot.expand_candidates s)) as [|m ms] eqn:Ef.
    + destruct (empty_cells game) as [|m ms] eqn:Ee; [done|].
      assert (vacant game (Move.r m, Move.c m)) as Hv.
      { apply empty_cells_In. rewrite Ee. by left. }
      exists m, s. split; [done|]. split; [done|]. by apply Hrej.
    + assert (vacant game (Move.r m, Move.c m)) as Hv.
      { apply (frontier_moves_all_vacant game (MCTSBot.expand_candidates s) m).
        rewrite Ef. by left. }
      exists m, s. split; [done|]. split; [done|]. by apply Hrej.
  - intros Hne.
    destruct (frontier_moves game (MCTSBot.expand_candidates s)) as [|m ms] eqn:Ef.
    + by rewrite Hne.
    + exfalso. assert (In m (empty_cells game)) as Hin.
      { apply empty_cells_In.
        apply (frontier_moves_all_vacant game (MCTSBot.expand_candidates s) m).
        rewrite Ef. by left. }
      by rewrite Hne in Hin.
Qed.

Lemma choose_on_finished_game_witness :
  MCTSBot.root (five_playouts None) = None /\ HexGame.winner won_2x2 <> EMPTY /\
  empty_cells won_2x2 <> [] /\
  exists m self',
    MCTSBot.choose (RT := ref_runtime) (five_playouts None) won_2x2 100 (draws_from [])
    = Ok (m, self', draws_from []) /\
    HexGame.play won_2x2 m = (false, won_2x2).
Proof.
  assert (MCTSBot.root (five_playouts None) = None) as Hr by reflexivity.
  assert (HexGame.winner won_2x2 <> EMPTY) as Hw by discriminate.
  assert (empty_cells won_2x2 <> []) as Hne by discriminate.
  split; [exact Hr|]. split; [exact Hw|]. split; [exact Hne|].
  destruct (proj1 (choose_on_finished_game (RT := ref_runtime) (five_playouts None)
                     won_2x2 100 (draws_from []) Hr Hw) Hne)
    as (m & s & Hc & _ & Hp).
  exists m, s. split; [exact Hc|exact Hp].
Defined.

(** ** The loops of [choose] end

    The embedding bounds the descent, the playout and the walk up the
    parent links by a fuel, and gives a dereference the outcome
    [Dangling] when the reference is not in the store.  Neither outcome
    is one of Python; this part shows that neither occurs. *)

(** An outcome of Python: a value or an exception. *)
Definition proper {A} (x : result A) : bool :=
  match x with
  | Ok _ | Raise _ => true
  | Diverge | Dangling => false
  end.

(** The shape of the store: a parent was created before its child, and
    the references held by a node are in the store. *)
Record struct_wf (h : list Node.t) : Prop := {
  sw_parent : forall id nd p,
    h !! id = Some nd -> Node.parent nd = Some p -> (p < id)%nat;
  sw_child : forall id nd k c,
    h !! id = Some nd -> (k, c) ∈ Node.children nd ->
    (id < c)%nat /\ is_Some (h !! c)
}.

Definition engine_wf (s : MCTSBot.t) : Prop :=
  struct_wf (MCTSBot.heap s) /\
  forall rt, MCTSBot.root s = Some rt -> is_Some (MCTSBot.heap s !! rt).

Lemma proper_bind {A B} (x : result A) (k : A -> result B) :
  proper x = true -> (forall a, x = Ok a -> proper (k a) = true) ->
  proper (rbind x k) = true.
Proof. destruct x; simpl; try done. intros _ H. by apply H. Qed.

Lemma struct_wf_nil : struct_wf [].
Proof. split; intros id nd; by rewrite lookup_nil. Qed.

Lemma struct_wf_insert h i nd nd' :
  h !! i = Some nd ->
  (Node.parent nd' = Node.parent nd \/ Node.parent nd' = None) ->
  Node.children nd' = Node.children nd ->
  struct_wf h -> struct_wf (<[i := nd']> h).
Proof.
  intros Hi Hp Hc [Hpar Hch]. pose proof (lookup_lt_Some _ _ _ Hi) as Hlt.
  assert (forall c, is_Some (h !! c) -> is_Some (<[i := nd']> h !! c)) as Hlive.
  { intros c Hc'. apply lookup_lt_is_Some_2. rewrite length_insert.
    by apply lookup_lt_is_Some_1. }
  split.
  - intros id x p Hx Hxp. destruct (decide (id = i)) as [->|Hne].
    + rewrite list_lookup_insert_eq in Hx by done. injection Hx as <-.
      destruct Hp as [Hp|Hp]; [|congruence]. rewrite Hp in Hxp. eauto.
    + rewrite list_lookup_insert_ne in Hx by done. eauto.
  - intros id x k c Hx Hin. destruct (decide (id = i)) as [->|Hne].
    + rewrite list_lookup_insert_eq in Hx by done. injection Hx as <-.
      rewrite Hc in Hin. destruct (Hch i nd k c Hi Hin) as [? ?]. split; auto.
    + rewrite list_lookup_insert_ne in Hx by done.
      destruct (Hch id x k c Hx Hin) as [? ?]. split; auto.
Qed.

Lemma struct_wf_alloc h nd :
  (forall p, Node.parent nd = Some p -> (p < length h)%nat) ->
  Node.children nd = [] ->
  struct_wf h -> struct_wf (h ++ [nd]).
Proof.
  intros Hp Hc [Hpar Hch].
  assert (forall c, is_Some (h !! c) -> is_Some ((h ++ [nd]) !! c)) as Hlive.
  { intros c Hc'. apply lookup_lt_is_Some_2. rewrite length_app.
    apply lookup_lt_is_Some_1 in Hc'. lia. }
  split.
  - intros id x p Hx Hxp. destruct (decide (id < length h)%nat) as [Hlt|Hge].
    + rewrite lookup_app_l in Hx by done. eauto.
    + rewrite lookup_app_r in Hx by lia.
      destruct (id - length h)%nat eqn:E; [|by destruct n].
      injection Hx as <-. specialize (Hp p Hxp). lia.
  - intros id x k c Hx Hin. destruct (decide (id < length h)%nat) as [Hlt|Hge].
    + rewrite lookup_app_l in Hx by done.
      destruct (Hch id x k c Hx Hin) as [? ?]. split; auto.
    + rewrite lookup_app_r in Hx by lia.
      destruct (id - length h)%nat eqn:E; [|by destruct n].
      injection Hx as <-. rewrite Hc in Hin. by apply elem_of_nil in Hin.
Qed.

(** Linking a node created last under one of the earlier nodes. *)
Lemma struct_wf_link h i nd key :
  h !! i = Some nd -> (i < length h - 1)%nat ->
  struct_wf h ->
  struct_wf (<[i := Node.set_children nd
                      (Node.dict_set (Node.children nd) key (length h - 1)%nat)]> h).
Proof.
  intros Hi Hlt [Hpar Hch].
  assert (forall c, is_Some (h !! c) ->
            is_Some (<[i := Node.set_children nd
                       (Node.dict_set (Node.children nd) key (length h - 1)%nat)]> h !! c))
    as Hlive.
  { intros c Hc'. apply lookup_lt_is_Some_2. rewrite length_insert.
    by apply lookup_lt_is_Some_1. }
  split.
  - intros id x p Hx Hxp. destruct (decide (id = i)) as [->|Hne].
    + rewrite list_lookup_insert_eq in Hx by lia. injection Hx as <-. simpl in Hxp. eauto.
    + rewrite list_lookup_insert_ne in Hx by done. eauto.
  - intros id x k c Hx Hin. destruct (decide (id = i)) as [->|Hne].
    + rewrite list_lookup_insert_eq in Hx by lia. injection Hx as <-. simpl in Hin.
      apply dict_set_In in Hin as [Hin|[_ ->]].
      * destruct (Hch i nd k c Hi Hin) as [? ?]. split; auto.
      * split; [lia|]. apply Hlive. apply lookup_lt_is_Some_2. lia.
    + rewrite list_lookup_insert_ne in Hx by done.
      destruct (Hch id x k c Hx Hin) as [? ?]. split; auto.
Qed.

Lemma play_snd_rejected g m : (HexGame.play g m).1 = false -> (HexGame.play g m).2 = g.
Proof.
  intros H. destruct (rejects_dec g m) as [Hr|Ha].
  - by rewrite (play_reject g m Hr).
  - apply play_fst_true in Ha. congruence.
Qed.

Lemma wf_state_play_snd g m : wf_state g -> wf_state (HexGame.play g m).2.
Proof.
  intros Hwf. destruct (HexGame.play g m) as [[] g'] eqn:E.
  - by apply (wf_state_play g m g').
  - pose proof (play_snd_rejected g m) as H. rewrite E in H. simpl in *. by rewrite H.
Qed.

Section Termination.
Context {RT : PyRuntime}.

Lemma uct_value_proper self ch c : proper (Node.uct_value self ch c) = true.
Proof.
  unfold Node.uct_value. destruct (_ =? 0); [done|].
  unfold Node.py_log. destruct (_ <=? 0)%float; [done|]. cbn [rbind].
  unfold Node.py_sqrt. destruct (_ <? 0)%float; done.
Qed.

Lemma uct_scan_proper h nd c chs best bv :
  (forall k ch, (k, ch) ∈ chs -> is_Some (h !! ch)) ->
  proper (Node.uct_scan h nd c chs best bv) = true.
Proof.
  revert best bv. induction chs as [|[k ch] chs IH]; intros best bv Hlive; [done|].
  cbn [Node.uct_scan]. destruct (Hlive k ch (list_elem_of_here _ _)) as [x Hx].
  rewrite (node_get_Some _ _ _ Hx). cbn [rbind].
  pose proof (uct_value_proper nd x c) as Hv.
  destruct (Node.uct_value nd x c) as [val| | |]; try done. cbn [rbind].
  destruct (bv <? val)%float; apply IH; intros k' c' Hin; apply (Hlive k' c'); by right.
Qed.

Lemma select_proper fuel self node state :
  struct_wf (MCTSBot.heap self) -> is_Some (MCTSBot.heap self !! node) ->
  (length (MCTSBot.heap self) <= fuel + node)%nat ->
  proper (MCTSBot.select fuel self node state) = true.
Proof.
  intros Hwf. revert node state.
  induction fuel as [|fuel IH]; intros node state [nd Hnd] Hlen.
  - apply lookup_lt_Some in Hnd. lia.
  - cbn [MCTSBot.select]. rewrite (node_get_Some _ _ _ Hnd). cbn [rbind].
    destruct (_ && _); [|done].
    assert (forall k ch, (k, ch) ∈ Node.children nd ->
              is_Some (MCTSBot.heap self !! ch)) as Hlive.
    { intros k ch Hin. by destruct (sw_child _ Hwf node nd k ch Hnd Hin). }
    pose proof (uct_scan_proper (MCTSBot.heap self) nd (MCTSBot.uct_c self)
                  (Node.children nd) None (-1e9)%float Hlive) as Hp.
    unfold Node.uct_select_child.
    destruct (Node.uct_scan _ _ _ _ _ _) as [[ch|]| | |] eqn:Es; try done.
    cbn [rbind]. apply uct_scan_In in Es as [?|[k Hin]]; [done|].
    destruct (sw_child _ Hwf node nd k ch Hnd Hin) as [Hlt [chn Hchn]].
    rewrite (node_get_Some _ _ _ Hchn). cbn [rbind].
    destruct (Node.move chn); [|done]. apply IH; [eauto|lia].
Qed.

Lemma select_ok fuel self node state node' state' :
  struct_wf (MCTSBot.heap self) -> is_Some (MCTSBot.heap self !! node) ->
  wf_state state ->
  MCTSBot.select fuel self node state = Ok (node', state') ->
  is_Some (MCTSBot.heap self !! node') /\ wf_state state'.
Proof.
  intros Hwf. revert node state.
  induction fuel as [|fuel IH]; intros node state [nd Hnd] Hst;
    cbn [MCTSBot.select]; rewrite (node_get_Some _ _ _ Hnd); cbn [rbind].
  - destruct (_ && _); [done|]. intros [= <- <-]. eauto.
  - destruct (_ && _); [|intros [= <- <-]; eauto].
    unfold Node.uct_select_child.
    destruct (Node.uct_scan _ _ _ _ _ _) as [[ch|]| | |] eqn:Es; try done.
    cbn [rbind]. apply uct_scan_In in Es as [?|[k Hin]]; [done|].
    destruct (sw_child _ Hwf node nd k ch Hnd Hin) as [Hlt [chn Hchn]].
    rewrite (node_get_Some _ _ _ Hchn). cbn [rbind].
    destruct (Node.move chn) as [mv|]; [|done].
    apply IH; [eauto|by apply wf_state_play_snd].
Qed.

Lemma rollout_proper fuel cap state rnd :
  wf_state state -> (count_empty state < fuel)%nat ->
  proper (MCTSBot.rollout fuel cap state rnd) = true.
Proof.
  revert state rnd. induction fuel as [|fuel IH]; intros state rnd Hwf Hc; [lia|].
  cbn [MCTSBot.rollout]. destruct (Z.eqb_spec (HexGame.winner state) EMPTY) as [Hw|Hw];
    [|done].
  destruct (frontier_moves state cap) as [|m0 ms] eqn:Ef.
  - by rewrite (rollout_policy_empty state cap rnd Ef).
  - destruct (rollout_policy_ok state cap rnd) as (m & -> & Hm); [by rewrite Ef|].
    cbn [rbind fst snd].
    pose proof (frontier_moves_all_vacant state cap m Hm) as Hv.
    destruct (play_vacant state m Hwf Hw Hv) as (g' & Hp & _ & Hcnt).
    rewrite Hp. cbn [snd]. apply IH; [by apply (wf_state_play state m)|lia].
Qed.

Lemma rollout_fuel_enough state :
  wf_state state -> (count_empty state < MCTSBot.rollout_fuel state)%nat.
Proof.
  intros [Hs _]. pose proof (count2_le (fun v => v =? EMPTY) _ _ Hs) as H.
  unfold MCTSBot.rollout_fuel, count_empty.
  destruct (Z_lt_le_dec (HexGame.size state) 0) as [Hn|Hn].
  - replace (Z.to_nat (HexGame.size state)) with 0%nat in H by lia. lia.
  - assert (Z.to_nat (HexGame.size state * HexGame.size state) =
            (Z.to_nat (HexGame.size state) * Z.to_nat (HexGame.size state))%nat) as ->
      by (rewrite Z2Nat.inj_mul; lia).
    lia.
Qed.

Lemma backprop_ok fuel h node res :
  struct_wf h ->
  (forall i, node = Some i -> is_Some (h !! i) /\ (i < fuel)%nat) ->
  exists h', MCTSBot.backprop fuel h node res = Ok h' /\
             struct_wf h' /\ length h' = length h.
Proof.
  revert h node. induction fuel as [|fuel IH]; intros h node Hwf Hn.
  - destruct node as [i|]; [destruct (Hn i eq_refl); lia|]. simpl. eauto.
  - destruct node as [i|]; [|simpl; eauto].
    destruct (Hn i eq_refl) as [[nd Hnd] Hlt]. cbn [MCTSBot.backprop].
    rewrite (node_get_Some _ _ _ Hnd). cbn [rbind].
    destruct (IH (<[i := Node.set_stats nd (Node.visits nd + 1)
                           (Node.wins_for_root_player nd + res)%float]> h)
                 (Node.parent nd)) as (h' & Hb & Hwf' & Hl').
    + apply (struct_wf_insert h i nd); auto.
    + intros p Hp. pose proof (sw_parent _ Hwf i nd p Hnd Hp) as Hpi. split; [|lia].
      apply lookup_lt_is_Some_2. rewrite length_insert.
      apply lookup_lt_Some in Hnd. lia.
    + exists h'. split; [done|]. split; [done|]. by rewrite Hl', length_insert.
Qed.

Lemma expand_wf self node state :
  struct_wf (MCTSBot.heap self) -> is_Some (MCTSBot.heap self !! node) ->
  wf_state state ->
  proper (MCTSBot.expand self node state) = true /\
  forall self' out,
    MCTSBot.expand self node state = Ok (self', out) ->
    struct_wf (MCTSBot.heap self') /\
    MCTSBot.root self' = MCTSBot.root self /\
    (length (MCTSBot.heap self) <= length (MCTSBot.heap self'))%nat /\
    forall n1 st1, out = Some (n1, st1) ->
      is_Some (MCTSBot.heap self' !! n1) /\ wf_state st1.
Proof.
  intros Hwf [nd Hnd] Hst. unfold MCTSBot.expand.
  rewrite (node_get_Some _ _ _ Hnd). cbn [rbind].
  pose proof (lookup_lt_Some _ _ _ Hnd) as Hlt.
  destruct (_ && _).
  2:{ split; [done|]. intros self' out [= <- <-]. do 3 (split; [done|]).
      intros n1 st1 [= <- <-]. eauto. }
  destruct (Node.untried nd) as [|mv rest] eqn:Eu; [by split|].
  destruct (HexGame.play state mv) as [ok state1] eqn:Ep.
  assert (struct_wf (<[node := Node.set_untried nd rest]> (MCTSBot.heap self))) as Hwf1.
  { apply (struct_wf_insert _ node nd); auto. }
  destruct ok; cbn [negb].
  - unfold MCTSBot.alloc.
    set (h1 := <[node := Node.set_untried nd rest]> (MCTSBot.heap self)) in *.
    set (child := Node.mk (Some node) (Some mv) (HexGame.current state1)
                    (frontier_moves state1 (MCTSBot.expand_candidates self)) [] 0 0%float).
    assert (length h1 = length (MCTSBot.heap self)) as Hl1
      by (unfold h1; by rewrite length_insert).
    assert ((h1 ++ [child]) !! node = Some (Node.set_untried nd rest)) as Hn2.
    { rewrite lookup_app_l by lia. unfold h1. by apply list_lookup_insert_eq. }
    rewrite (node_get_Some _ _ _ Hn2). cbn [rbind].
    split; [done|]. intros self' out [= <- <-].
    cbn [MCTSBot.heap MCTSBot.set_heap MCTSBot.root].
    assert (struct_wf (h1 ++ [child])) as Hwf2.
    { apply struct_wf_alloc; [|done|done]. intros p [= <-]. lia. }
    split.
    { replace (length h1) with (length (h1 ++ [child]) - 1)%nat
        by (rewrite length_app; simpl; lia).
      apply (struct_wf_link (h1 ++ [child]) node (Node.set_untried nd rest));
        [done| |done]. rewrite length_app. simpl. lia. }
    split; [done|]. split; [rewrite length_insert, length_app; simpl; lia|].
    intros n1 st1 [= <- <-]. split; [|by apply (wf_state_play state mv)].
    apply lookup_lt_is_Some_2. rewrite length_insert, length_app. simpl. lia.
  - split; [done|]. intros self' out [= <- <-].
    cbn [MCTSBot.heap MCTSBot.set_heap MCTSBot.root].
    split; [done|]. split; [done|]. split; [by rewrite length_insert|]. done.
Qed.

Lemma iteration_wf self game rnd :
  engine_wf self -> wf_state game ->
  proper (MCTSBot.iteration self game rnd) = true /\
  forall self' rnd',
    MCTSBot.iteration self game rnd = Ok (self', rnd') ->
    engine_wf self' /\ MCTSBot.root self' = MCTSBot.root self.
Proof.
  intros [Hwf Hroot] Hg. unfold MCTSBot.iteration.
  destruct (MCTSBot.root self) as [rt|] eqn:Er; [|by split].
  destruct (Hroot rt eq_refl) as [nd Hnd]. rewrite clone_id.
  assert (proper (MCTSBot.select (S (length (MCTSBot.heap self))) self rt game) = true)
    as Hsp by (apply select_proper; [done|eauto|lia]).
  destruct (MCTSBot.select _ self rt game) as [[node state]| | |] eqn:Es; try done.
  cbn [rbind fst snd].
  destruct (select_ok _ self rt game node state Hwf (ex_intro _ nd Hnd) Hg Es)
    as [Hlive Hst].
  destruct (expand_wf self node state Hwf Hlive Hst) as [Hep Hex].
  destruct (MCTSBot.expand self node state) as [[s1 out]| | |] eqn:Ee; try done.
  cbn [rbind fst snd].
  destruct (Hex s1 out eq_refl) as (Hwf1 & Hr1 & Hlen1 & Hout).
  assert (is_Some (MCTSBot.heap s1 !! rt)) as Hrt1.
  { apply lookup_lt_is_Some_2. apply lookup_lt_Some in Hnd. lia. }
  destruct out as [[node1 state1]|].
  2:{ split; [done|]. intros self' rnd' [= <- <-]. split; [|congruence].
      split; [done|]. intros rt' Hrt'. rewrite Hr1, Er in Hrt'. by injection Hrt' as <-. }
  destruct (Hout node1 state1 eq_refl) as [Hl1 Hst1].
  pose proof (rollout_proper (MCTSBot.rollout_fuel state1)
                (MCTSBot.rollout_candidates self) state1 rnd Hst1
                (rollout_fuel_enough state1 Hst1)) as Hrp.
  destruct (MCTSBot.rollout _ _ state1 rnd) as [[final rnd1]| | |]; try done.
  cbn [rbind fst snd]. cbv zeta.
  match goal with
  | |- context [MCTSBot.backprop ?f ?h ?n ?r] =>
      destruct (backprop_ok f h n r Hwf1) as (h' & -> & Hwf' & Hl')
  end.
  { intros i [= <-]. split; [done|]. apply lookup_lt_is_Some_1 in Hl1. lia. }
  cbn [rbind]. split; [done|]. intros self' rnd' [= <- <-].
  cbn [MCTSBot.root MCTSBot.set_heap]. split; [|congruence]. split.
  - done.
  - intros rt' Hrt'. assert (rt' = rt) as -> by (simpl in Hrt'; congruence).
    cbn [MCTSBot.heap MCTSBot.set_heap]. apply lookup_lt_is_Some_2. rewrite Hl'.
    by apply lookup_lt_is_Some_1.
Qed.

Lemma search_wf ticks playouts self game rnd :
  engine_wf self -> wf_state game ->
  proper (MCTSBot.search ticks playouts self game rnd) = true /\
  forall self' rnd',
    MCTSBot.search ticks playouts self game rnd = Ok (self', rnd') ->
    engine_wf self' /\ MCTSBot.root self' = MCTSBot.root self.
Proof.
  intros Hwf Hg. revert playouts self rnd Hwf.
  induction ticks as [|ticks IH]; intros playouts self rnd Hwf; cbn [MCTSBot.search].
  - split; [done|]. by intros self' rnd' [= <- <-].
  - destruct (playouts <? MCTSBot.playout_limit self).
    2:{ split; [done|]. by intros self' rnd' [= <- <-]. }
    destruct (iteration_wf self game rnd Hwf Hg) as [Hp Hok].
    destruct (MCTSBot.iteration self game rnd) as [[s1 r1]| | |]; try done.
    cbn [rbind fst snd]. destruct (Hok s1 r1 eq_refl) as [Hwf1 Hr1].
    destruct (IH (playouts + 1) s1 r1 Hwf1) as [Hp2 Hok2]. split; [done|].
    intros self' rnd' Hs. destruct (Hok2 self' rnd' Hs) as [? ?]. split; [done|congruence].
Qed.

Lemma new_root_wf self game :
  struct_wf (MCTSBot.heap self) ->
  engine_wf (MCTSBot.set_root (MCTSBot._new_root self game).1
               (Some (MCTSBot._new_root self game).2)).
Proof.
  intros Hwf. unfold MCTSBot._new_root, MCTSBot.alloc. cbn [fst snd]. split.
  - cbn [MCTSBot.heap MCTSBot.set_heap MCTSBot.set_root MCTSBot.set_root_player].
    by apply struct_wf_alloc.
  - intros rt [= <-].
    cbn [MCTSBot.heap MCTSBot.set_heap MCTSBot.set_root MCTSBot.set_root_player].
    apply lookup_lt_is_Some_2. rewrite length_app. simpl. lia.
Qed.

Lemma acquire_tail_wf s0 game :
  engine_wf s0 -> is_Some (MCTSBot.root s0) ->
  exists s,
    (let self2 :=
       match MCTSBot.root_player s0 with
       | None => MCTSBot.set_root_player s0 (Some (HexGame.current game))
       | Some _ => s0
       end in
     match MCTSBot.root self2 with
     | None => Raise AttributeError
     | Some rt =>
         nd <- Node.get (MCTSBot.heap self2) rt ;;
         if (length (Node.untried nd) =? 0)%nat && (length (Node.children nd) =? 0)%nat
         then Ok (MCTSBot.set_heap self2
                    (<[rt := Node.set_untried nd
                               (frontier_moves game (MCTSBot.expand_candidates self2))]>
                       (MCTSBot.heap self2)))
         else Ok self2
     end) = Ok s /\ engine_wf s.
Proof.
  intros [Hwf Hroot] [rt Hr]. cbv zeta.
  destruct (Hroot rt Hr) as [nd Hnd].
  assert (forall self2, MCTSBot.heap self2 = MCTSBot.heap s0 ->
            MCTSBot.root self2 = MCTSBot.root s0 ->
            exists s,
              match MCTSBot.root self2 with
              | None => Raise AttributeError
              | Some rt =>
                  nd <- Node.get (MCTSBot.heap self2) rt ;;
                  if (length (Node.untried nd) =? 0)%nat
                     && (length (Node.children nd) =? 0)%nat
                  then Ok (MCTSBot.set_heap self2
                             (<[rt := Node.set_untried nd
                                  (frontier_moves game (MCTSBot.expand_candidates self2))]>
                                (MCTSBot.heap self2)))
                  else Ok self2
              end = Ok s /\ engine_wf s) as Hgen.
  { intros self2 Hh Hrt. rewrite Hrt, Hr, Hh, (node_get_Some _ _ _ Hnd). cbn [rbind].
    destruct (_ && _); eexists; (split; [reflexivity|]).
    - split.
      + cbn [MCTSBot.heap MCTSBot.set_heap]. apply (struct_wf_insert _ rt nd); auto.
      + intros rt' Hrt'. assert (rt' = rt) as -> by (simpl in Hrt'; congruence).
        cbn [MCTSBot.heap MCTSBot.set_heap]. apply lookup_lt_is_Some_2.
        rewrite length_insert. by eapply lookup_lt_Some.
    - split; [by rewrite Hh|]. intros rt' Hrt'. rewrite Hh. apply Hroot. congruence. }
  destruct (MCTSBot.root_player s0); apply Hgen; by destruct s0.
Qed.

Lemma acquire_wf self game :
  engine_wf self ->
  exists s, MCTSBot.acquire self game = Ok s /\ engine_wf s.
Proof.
  intros Hself. pose proof Hself as [Hwf Hroot]. unfold MCTSBot.acquire.
  pose proof (new_root_wf self game Hwf) as Hnew.
  destruct (MCTSBot.root self) as [rt|] eqn:Er.
  - destruct (Hroot rt eq_refl) as [nd Hnd]. rewrite (node_get_Some _ _ _ Hnd).
    cbn [rbind]. destruct (negb _).
    + destruct (MCTSBot._new_root self game) as [s0 rt0]. cbn [rbind fst snd] in *.
      apply acquire_tail_wf; [done|]. simpl. eauto.
    + cbn [rbind]. apply acquire_tail_wf; [done|]. rewrite Er. eauto.
  - destruct (MCTSBot._new_root self game) as [s0 rt0]. cbn [rbind fst snd] in *.
    apply acquire_tail_wf; [done|]. simpl. eauto.
Qed.

Lemma max_visits_proper h chs best bv :
  (forall k ch, (k, ch) ∈ chs -> is_Some (h !! ch)) ->
  proper (MCTSBot.max_visits h chs best bv) = true.
Proof.
  revert best bv. induction chs as [|[k ch] chs IH]; intros best bv Hlive; [done|].
  cbn [MCTSBot.max_visits]. destruct (Hlive k ch (list_elem_of_here _ _)) as [x Hx].
  rewrite (node_get_Some _ _ _ Hx). cbn [rbind].
  destruct (bv <? Node.visits x); apply IH; intros k' c' Hin; apply (Hlive k' c');
    by right.
Qed.

Lemma best_child_proper h chs :
  (forall k ch, (k, ch) ∈ chs -> is_Some (h !! ch)) ->
  proper (MCTSBot.best_child h chs) = true.
Proof.
  intros Hlive. destruct chs as [|[k ch] chs]; [done|]. cbn [MCTSBot.best_child].
  destruct (Hlive k ch (list_elem_of_here _ _)) as [x Hx].
  rewrite (node_get_Some _ _ _ Hx). cbn [rbind].
  apply max_visits_proper. intros k' c' Hin. apply (Hlive k' c'). by right.
Qed.

Lemma apply_move_wf self m :
  engine_wf self ->
  exists self', MCTSBot._apply_move_to_tree self m = Ok self' /\ engine_wf self'.
Proof.
  intros [Hwf Hroot]. unfold MCTSBot._apply_move_to_tree.
  destruct (MCTSBot.root self) as [rt|] eqn:Er.
  2:{ exists self. split; [done|]. split; [done|]. intros rt. by rewrite Er. }
  destruct (Hroot rt eq_refl) as [nd Hnd]. rewrite (node_get_Some _ _ _ Hnd).
  cbn [rbind].
  destruct (Node.dict_get (Node.children nd) (Move.r m, Move.c m)) as [nxt|] eqn:Ed.
  - apply dict_get_In in Ed. destruct (sw_child _ Hwf rt nd _ nxt Hnd Ed) as [_ [nn Hnn]].
    rewrite (node_get_Some _ _ _ Hnn). cbn [rbind]. eexists. split; [reflexivity|].
    split.
    + cbn [MCTSBot.heap MCTSBot.set_heap MCTSBot.set_root].
      apply (struct_wf_insert _ nxt nn); auto.
    + intros rt' [= <-]. cbn [MCTSBot.heap MCTSBot.set_heap MCTSBot.set_root].
      apply lookup_lt_is_Some_2. rewrite length_insert. by eapply lookup_lt_Some.
  - eexists. split; [reflexivity|]. split; [done|]. intros rt'. done.
Qed.

Lemma decide_wf self game :
  engine_wf self ->
  proper (MCTSBot.decide self game) = true /\
  forall m self', MCTSBot.decide self game = Ok (m, self') -> engine_wf self'.
Proof.
  intros Hwf. pose proof Hwf as [Hs Hroot]. unfold MCTSBot.decide.
  destruct (MCTSBot.root self) as [rt|] eqn:Er; [|by split].
  destruct (Hroot rt eq_refl) as [nd Hnd]. rewrite (node_get_Some _ _ _ Hnd).
  cbn [rbind]. destruct (_ =? _)%nat.
  - destruct (frontier_moves _ _); [destruct (empty_cells game)|];
      (split; [done|]); intros m' s'; try done; by intros [= <- <-].
  - assert (forall k ch, (k, ch) ∈ Node.children nd ->
              is_Some (MCTSBot.heap self !! ch)) as Hlive.
    { intros k ch Hin. by destruct (sw_child _ Hs rt nd k ch Hnd Hin). }
    pose proof (best_child_proper _ _ Hlive) as Hp.
    destruct (MCTSBot.best_child _ _) as [best| | |] eqn:Eb; try done. cbn [rbind].
    apply best_child_In in Eb as [k Hin]. destruct (Hlive k best Hin) as [bn Hbn].
    rewrite (node_get_Some _ _ _ Hbn). cbn [rbind].
    destruct (Node.move bn) as [bm|]; [|by split].
    destruct (apply_move_wf self bm Hwf) as (s' & -> & Hwf'). cbn [rbind].
    split; [done|]. by intros m' s'' [= <- <-].
Qed.

End Termination.

Lemma engine_wf_init {RT : PyRuntime} tl uc pl rc ec seed :
  engine_wf (MCTSBot.init tl uc pl rc ec seed).
Proof. split; [apply struct_wf_nil|done]. Qed.

(** X22.  The loops of [choose] end, and every reference it follows is
    in the store.  On an engine whose store has the shape [engine_wf]
    (parents created before their children, the references held by the
    nodes and the root in the store), and a game of the declared shape,
    [choose] returns or raises: the descent of the selection, the playout
    and the walk up the parent links all end within the bounds of the
    embedding.  When [choose] returns, and after every
    [notify_opponent_moved], which always returns, the store has that
    shape again; the store of a new engine has it. *)
Theorem choose_loops_end {RT : PyRuntime}
    (self : MCTSBot.t) (game : HexGame.t) (ticks : nat) (rnd : Random) :
  engine_wf self -> wf_state game ->
  proper (MCTSBot.choose self game ticks rnd) = true /\
  (forall m self' rnd',
     MCTSBot.choose self game ticks rnd = Ok (m, self', rnd') -> engine_wf self') /\
  (forall m, exists self',
     MCTSBot.notify_opponent_moved self m = Ok self' /\ engine_wf self') /\
  (forall tl uc pl rc ec seed, engine_wf (MCTSBot.init tl uc pl rc ec seed)).
Proof.
  intros Hwf Hg. unfold MCTSBot.choose.
  destruct (acquire_wf self game Hwf) as (s1 & Ha & Hwf1). rewrite Ha. cbn [rbind].
  destruct (search_wf ticks 0 s1 game rnd Hwf1 Hg) as [Hsp Hsok].
  split; [|split; [|split]].
  - destruct (MCTSBot.search ticks 0 s1 game rnd) as [[s0 r0]| | |]; try done.
    cbn [rbind fst snd]. destruct (Hsok s0 r0 eq_refl) as [Hwf0 _].
    destruct (decide_wf s0 game Hwf0) as [Hdp _].
    by destruct (MCTSBot.decide s0 game) as [[m s']| | |].
  - intros m self' rnd'.
    destruct (MCTSBot.search ticks 0 s1 game rnd) as [[s0 r0]| | |]; try done.
    cbn [rbind fst snd]. destruct (Hsok s0 r0 eq_refl) as [Hwf0 _].
    destruct (decide_wf s0 game Hwf0) as [_ Hdok].
    destruct (MCTSBot.decide s0 game) as [[m0 s0']| | |]; try done.
    cbn [rbind fst snd]. intros [= <- <- <-]. by apply (Hdok m0).
  - intros m. by apply apply_move_wf.
  - intros. apply engine_wf_init.
Qed.

Lemma choose_loops_end_witness :
  engine_wf (five_playouts None) /\ wf_state (HexGame.init 2) /\
  proper (MCTSBot.choose (RT := ref_runtime) (five_playouts None) (HexGame.init 2) 100
            (draws_from [])) = true.
Proof.
  assert (engine_wf (five_playouts None)) as Hwf by (apply engine_wf_init).
  split; [exact Hwf|]. split; [apply wf_state_init|].
  exact (proj1 (choose_loops_end (RT := ref_runtime) (five_playouts None) (HexGame.init 2)
                  100 (draws_from []) Hwf (wf_state_init 2))).
Defined.

(** ** Every child in the tree has been visited *)

(** No count is negative, and a node that is the child of a node has
    been visited, the nodes in [P] apart. *)
Definition visited_ex (P : nat -> Prop) (h : list Node.t) : Prop :=
  (forall id nd, h !! id = Some nd -> 0 <= Node.visits nd) /\
  (forall id nd k c, h !! id = Some nd -> (k, c) ∈ Node.children nd -> ~ P c ->
     exists ndc, h !! c = Some ndc /\ 1 <= Node.visits ndc).

Definition visited_inv (h : list Node.t) : Prop := visited_ex (fun _ => False) h.

Lemma visited_ex_weaken (P Q : nat -> Prop) h :
  (forall c, P c -> Q c) -> visited_ex P h -> visited_ex Q h.
Proof. intros HPQ [H0 H1]. split; [done|]. intros id nd k c Hnd Hin HnQ. eauto. Qed.

Lemma visited_ex_insert P h i nd nd' :
  h !! i = Some nd -> Node.children nd' = Node.children nd ->
  Node.visits nd <= Node.visits nd' ->
  visited_ex P h -> visited_ex P (<[i := nd']> h).
Proof.
  intros Hi Hc Hv [H0 H1]. pose proof (lookup_lt_Some _ _ _ Hi) as Hlt.
  assert (forall c ndc, h !! c = Some ndc -> 1 <= Node.visits ndc ->
            exists ndc', <[i := nd']> h !! c = Some ndc' /\ 1 <= Node.visits ndc') as Hkeep.
  { intros c ndc Hc' Hv'. destruct (decide (c = i)) as [->|Hne].
    - exists nd'. split; [by apply list_lookup_insert_eq|].
      rewrite Hi in Hc'. injection Hc' as <-. lia.
    - exists ndc. by rewrite list_lookup_insert_ne. }
  split.
  - intros id x Hx. destruct (decide (id = i)) as [->|Hne].
    + rewrite list_lookup_insert_eq in Hx by done. injection Hx as <-.
      pose proof (H0 i nd Hi). lia.
    + rewrite list_lookup_insert_ne in Hx by done. eauto.
  - intros id x k c Hx Hin HnP. destruct (decide (id = i)) as [->|Hne].
    + rewrite list_lookup_insert_eq in Hx by done. injection Hx as <-.
      rewrite Hc in Hin. destruct (H1 i nd k c Hi Hin HnP) as (ndc & ? & ?). eauto.
    + rewrite list_lookup_insert_ne in Hx by done.
      destruct (H1 id x k c Hx Hin HnP) as (ndc & ? & ?). eauto.
Qed.

Lemma visited_ex_alloc P h nd :
  Node.children nd = [] -> 0 <= Node.visits nd ->
  visited_ex P h -> visited_ex P (h ++ [nd]).
Proof.
  intros Hc Hv [H0 H1]. split.
  - intros id x Hx. destruct (decide (id < length h)%nat) as [Hlt|Hge].
    + rewrite lookup_app_l in Hx by done. eauto.
    + rewrite lookup_app_r in Hx by lia.
      destruct (id - length h)%nat eqn:E; [|by destruct n]. by injection Hx as <-.
  - intros id x k c Hx Hin HnP. destruct (decide (id < length h)%nat) as [Hlt|Hge].
    + rewrite lookup_app_l in Hx by done.
      destruct (H1 id x k c Hx Hin HnP) as (ndc & Hndc & ?). exists ndc. split; [|done].
      rewrite lookup_app_l; [done|]. by eapply lookup_lt_Some.
    + rewrite lookup_app_r in Hx by lia.
      destruct (id - length h)%nat eqn:E; [|by destruct n].
      injection Hx as <-. rewrite Hc in Hin. by apply elem_of_nil in Hin.
Qed.

Lemma visited_ex_link P h i nd key c0 :
  h !! i = Some nd -> visited_ex P h ->
  visited_ex (fun c => P c \/ c = c0)
    (<[i := Node.set_children nd (Node.dict_set (Node.children nd) key c0)]> h).
Proof.
  intros Hi [H0 H1]. pose proof (lookup_lt_Some _ _ _ Hi) as Hlt.
  assert (forall c ndc, h !! c = Some ndc -> 1 <= Node.visits ndc ->
            exists ndc',
              <[i := Node.set_children nd (Node.dict_set (Node.children nd) key c0)]> h
                !! c = Some ndc' /\ 1 <= Node.visits ndc') as Hkeep.
  { intros c ndc Hc' Hv'. destruct (decide (c = i)) as [->|Hne].
    - eexists. split; [by apply list_lookup_insert_eq|].
      rewrite Hi in Hc'. injection Hc' as <-. done.
    - exists ndc. by rewrite list_lookup_insert_ne. }
  split.
  - intros id x Hx. destruct (decide (id = i)) as [->|Hne].
    + rewrite list_lookup_insert_eq in Hx by done. injection Hx as <-. simpl. eauto.
    + rewrite list_lookup_insert_ne in Hx by done. eauto.
  - intros id x k c Hx Hin HnP. destruct (decide (id = i)) as [->|Hne].
    + rewrite list_lookup_insert_eq in Hx by done. injection Hx as <-. simpl in Hin.
      apply dict_set_In in Hin as [Hin|[_ ->]]; [|by destruct HnP; right].
      destruct (H1 i nd k c Hi Hin) as (ndc & ? & ?); [tauto|]. eauto.
    + rewrite list_lookup_insert_ne in Hx by done.
      destruct (H1 id x k c Hx Hin) as (ndc & ? & ?); [tauto|]. eauto.
Qed.

Section Visits.
Context {RT : PyRuntime}.

(** What the walk up the parent links does to the counts. *)
Lemma backprop_visits fuel h node res h' :
  MCTSBot.backprop fuel h node res = Ok h' ->
  forall j nd, h !! j = Some nd ->
    exists nd', h' !! j = Some nd' /\
      Node.children nd' = Node.children nd /\
      Node.visits nd <= Node.visits nd' /\
      (node = Some j -> Node.visits nd + 1 <= Node.visits nd').
Proof.
  revert h node. induction fuel as [|fuel IH]; intros h node; simpl.
  - destruct node; [done|]. intros [= <-] j nd Hj. exists nd.
    split; [done|]. split; [done|]. split; [lia|done].
  - destruct node as [i|].
    2:{ intros [= <-] j nd Hj. exists nd.
        split; [done|]. split; [done|]. split; [lia|done]. }
    destruct (Node.get h i) as [ndi| | |] eqn:En; try done. cbn [rbind].
    apply node_get_Ok in En. intros Hb j nd Hj.
    pose proof (lookup_lt_Some _ _ _ En) as Hlt.
    destruct (decide (j = i)) as [->|Hne].
    + rewrite En in Hj. injection Hj as <-.
      destruct (IH _ _ Hb i (Node.set_stats ndi (Node.visits ndi + 1)
                               (Node.wins_for_root_player ndi + res)%float))
        as (nd' & Hnd' & Hc & Hv & _); [by apply list_lookup_insert_eq|].
      exists nd'. split; [done|]. split; [done|]. simpl in Hv. split; [lia|]. intros _. lia.
    + destruct (IH _ _ Hb j nd) as (nd' & Hnd' & Hc & Hv & _);
        [by rewrite list_lookup_insert_ne|].
      exists nd'. split; [done|]. split; [done|]. split; [done|]. intros [= ?]. done.
Qed.

Lemma backprop_visited fuel h n1 res h' :
  visited_ex (eq n1) h ->
  MCTSBot.backprop fuel h (Some n1) res = Ok h' -> visited_inv h'.
Proof.
  intros [H0 H1] Hb. pose proof (backprop_visits fuel h (Some n1) res h' Hb) as Hv.
  assert (forall j nd', h' !! j = Some nd' ->
            exists nd, h !! j = Some nd /\ Node.children nd' = Node.children nd /\
                       Node.visits nd <= Node.visits nd') as Hback.
  { intros j nd' Hj. apply backprop_same in Hb as [_ Hl].
    destruct (lookup_lt_is_Some_2 h j) as [nd Hnd].
    { rewrite <- Hl. by eapply lookup_lt_Some. }
    destruct (Hv j nd Hnd) as (nd2 & Hnd2 & Hc & Hle & _).
    rewrite Hj in Hnd2. injection Hnd2 as <-. eauto. }
  split.
  - intros id nd' Hid. destruct (Hback id nd' Hid) as (nd & Hnd & _ & Hle).
    pose proof (H0 id nd Hnd). lia.
  - intros id nd' k c Hid Hin _. destruct (Hback id nd' Hid) as (nd & Hnd & Hc & _).
    rewrite Hc in Hin. destruct (decide (n1 = c)) as [->|Hne].
    + assert (is_Some (h !! c)) as [ndc Hndc].
      { destruct fuel; [done|]. simpl in Hb.
        destruct (Node.get h c) as [x| | |] eqn:E; try done. apply node_get_Ok in E. eauto. }
      destruct (Hv c ndc Hndc) as (ndc' & Hndc' & _ & _ & Hplus).
      exists ndc'. split; [done|]. pose proof (H0 c ndc Hndc). specialize (Hplus eq_refl). lia.
    + destruct (H1 id nd k c Hnd Hin Hne) as (ndc & Hndc & Hge).
      destruct (Hv c ndc Hndc) as (ndc' & Hndc' & _ & Hle & _).
      exists ndc'. split; [done|]. lia.
Qed.

Lemma expand_visited self node state self' out :
  visited_inv (MCTSBot.heap self) ->
  MCTSBot.expand self node state = Ok (self', out) ->
  match out with
  | None => visited_inv (MCTSBot.heap self')
  | Some (n1, _) => visited_ex (eq n1) (MCTSBot.heap self')
  end.
Proof.
  intros Hv. unfold MCTSBot.expand.
  destruct (Node.get (MCTSBot.heap self) node) as [nd| | |] eqn:En; try done.
  cbn [rbind]. apply node_get_Ok in En.
  destruct (_ && _).
  2:{ intros [= <- <-]. eapply visited_ex_weaken; [|exact Hv]. done. }
  destruct (Node.untried nd) as [|mv rest] eqn:Eu; [done|].
  destruct (HexGame.play state mv) as [ok state1] eqn:Ep.
  pose proof (lookup_lt_Some _ _ _ En) as Hlt.
  assert (visited_inv (<[node := Node.set_untried nd rest]> (MCTSBot.heap self))) as Hv1.
  { apply (visited_ex_insert _ _ node nd); [done|done|simpl; lia|done]. }
  destruct ok; cbn [negb]; [|by intros [= <- <-]].
  unfold MCTSBot.alloc.
  set (h1 := <[node := Node.set_untried nd rest]> (MCTSBot.heap self)) in *.
  set (child := Node.mk (Some node) (Some mv) (HexGame.current state1)
                  (frontier_moves state1 (MCTSBot.expand_candidates self)) [] 0 0%float).
  assert ((h1 ++ [child]) !! node = Some (Node.set_untried nd rest)) as Hn2.
  { rewrite lookup_app_l by (unfold h1; rewrite length_insert; lia).
    unfold h1. by apply list_lookup_insert_eq. }
  rewrite (node_get_Some _ _ _ Hn2). cbn [rbind]. intros [= <- <-].
  cbn [MCTSBot.heap MCTSBot.set_heap].
  eapply visited_ex_weaken;
    [|apply (visited_ex_link (fun _ => False) (h1 ++ [child]) node
               (Node.set_untried nd rest) (Move.r mv, Move.c mv) (length h1) Hn2);
      by apply visited_ex_alloc].
  intros c [[]| ->]. done.
Qed.

Lemma iteration_visited self game rnd self' rnd' :
  visited_inv (MCTSBot.heap self) ->
  MCTSBot.iteration self game rnd = Ok (self', rnd') ->
  visited_inv (MCTSBot.heap self').
Proof.
  intros Hv. unfold MCTSBot.iteration. destruct (MCTSBot.root self) as [rt|]; [|done].
  destruct (MCTSBot.select _ self rt _) as [[node state]| | |]; try done.
  cbn [rbind fst snd].
  destruct (MCTSBot.expand self node state) as [[s1 out]| | |] eqn:Ee; try done.
  cbn [rbind fst snd]. apply (expand_visited _ _ _ _ _ Hv) in Ee.
  destruct out as [[node1 state1]|]; [|by intros [= <- <-]].
  destruct (MCTSBot.rollout _ _ state1 rnd) as [[final rnd1]| | |]; try done.
  cbn [rbind fst snd]. cbv zeta.
  destruct (MCTSBot.backprop _ _ _ _) as [h| | |] eqn:Eb; try done.
  cbn [rbind]. intros [= <- <-]. cbn [MCTSBot.heap MCTSBot.set_heap].
  by apply (backprop_visited _ _ _ _ _ Ee Eb).
Qed.

Lemma search_visited ticks playouts self game rnd self' rnd' :
  visited_inv (MCTSBot.heap self) ->
  MCTSBot.search ticks playouts self game rnd = Ok (self', rnd') ->
  visited_inv (MCTSBot.heap self').
Proof.
  revert playouts self rnd.
  induction ticks as [|ticks IH]; intros playouts self rnd Hv; cbn [MCTSBot.search].
  - by intros [= <- <-].
  - destruct (playouts <? MCTSBot.playout_limit self); [|by intros [= <- <-]].
    destruct (MCTSBot.iteration self game rnd) as [[s1 r1]| | |] eqn:Ei; try done.
    cbn [rbind fst snd]. apply (iteration_visited _ _ _ _ _ Hv) in Ei.
    by apply IH.
Qed.

Lemma acquire_visited self game s :
  visited_inv (MCTSBot.heap self) ->
  MCTSBot.acquire self game = Ok s -> visited_inv (MCTSBot.heap s).
Proof.
  intros Hv. unfold MCTSBot.acquire.
  assert (forall s0 : MCTSBot.t, visited_inv (MCTSBot.heap s0) ->
    (let self2 :=
       match MCTSBot.root_player s0 with
       | None => MCTSBot.set_root_player s0 (Some (HexGame.current game))
       | Some _ => s0
       end in
     match MCTSBot.root self2 with
     | None => Raise AttributeError
     | Some rt =>
         nd <- Node.get (MCTSBot.heap self2) rt ;;
         if (length (Node.untried nd) =? 0)%nat && (length (Node.children nd) =? 0)%nat
         then Ok (MCTSBot.set_heap self2
                    (<[rt := Node.set_untried nd
                               (frontier_moves game (MCTSBot.expand_candidates self2))]>
                       (MCTSBot.heap self2)))
         else Ok self2
     end) = Ok s -> visited_inv (MCTSBot.heap s)) as Htail.
  { intros s0 Hv0. cbv zeta.
    assert (visited_inv (MCTSBot.heap
              match MCTSBot.root_player s0 with
              | None => MCTSBot.set_root_player s0 (Some (HexGame.current game))
              | Some _ => s0
              end)) as Hv2 by (by destruct (MCTSBot.root_player s0)).
    destruct (MCTSBot.root _) as [rt|]; [|done].
    destruct (Node.get _ rt) as [nd| | |] eqn:En; try done. cbn [rbind].
    apply node_get_Ok in En.
    destruct (_ && _); intros [= <-]; [|done].
    cbn [MCTSBot.heap MCTSBot.set_heap].
    apply (visited_ex_insert _ _ rt nd); [done|done|simpl; lia|done]. }
  assert (visited_inv (MCTSBot.heap
            (MCTSBot.set_root (MCTSBot._new_root self game).1
               (Some (MCTSBot._new_root self game).2)))) as Hnew.
  { unfold MCTSBot._new_root, MCTSBot.alloc. cbn [fst snd].
    cbn [MCTSBot.heap MCTSBot.set_heap MCTSBot.set_root MCTSBot.set_root_player].
    by apply visited_ex_alloc. }
  destruct (MCTSBot.root self) as [rt|].
  - destruct (Node.get (MCTSBot.heap self) rt) as [nd| | |]; try done. cbn [rbind].
    destruct (negb _).
    + destruct (MCTSBot._new_root self game) as [s0 rt0]. cbn [rbind fst snd] in *.
      by apply Htail.
    + cbn [rbind]. by apply Htail.
  - destruct (MCTSBot._new_root self game) as [s0 rt0]. cbn [rbind fst snd] in *.
    by apply Htail.
Qed.

Lemma apply_move_visited self m self' :
  visited_inv (MCTSBot.heap self) ->
  MCTSBot._apply_move_to_tree self m = Ok self' -> visited_inv (MCTSBot.heap self').
Proof.
  intros Hv. unfold MCTSBot._apply_move_to_tree.
  destruct (MCTSBot.root self) as [rt|]; [|by intros [= <-]].
  destruct (Node.get _ rt) as [nd| | |]; try done. cbn [rbind].
  destruct (Node.dict_get _ _) as [nxt|]; [|by intros [= <-]].
  destruct (Node.get _ nxt) as [nn| | |] eqn:En; try done. cbn [rbind].
  apply node_get_Ok in En. intros [= <-].
  cbn [MCTSBot.heap MCTSBot.set_heap MCTSBot.set_root].
  apply (visited_ex_insert _ _ nxt nn); [done|done|simpl; lia|done].
Qed.

Lemma decide_visited self game m self' :
  visited_inv (MCTSBot.heap self) ->
  MCTSBot.decide self game = Ok (m, self') -> visited_inv (MCTSBot.heap self').
Proof.
  intros Hv. unfold MCTSBot.decide. destruct (MCTSBot.root self) as [rt|]; [|done].
  destruct (Node.get _ rt) as [nd| | |]; try done. cbn [rbind].
  destruct (_ =? _)%nat.
  - destruct (frontier_moves _ _); [destruct (empty_cells game)|];
      try done; by intros [= <- <-].
  - destruct (MCTSBot.best_child _ _) as [best| | |]; try done. cbn [rbind].
    destruct (Node.get _ best) as [bn| | |]; try done. cbn [rbind].
    destruct (Node.move bn) as [bm|]; [|done].
    destruct (MCTSBot._apply_move_to_tree self bm) as [s'| | |] eqn:Ea; try done.
    cbn [rbind]. intros [= <- <-]. by apply (apply_move_visited self bm).
Qed.

End Visits.

Lemma visited_inv_nil : visited_inv [].
Proof. split; intros id nd; by rewrite lookup_nil. Qed.

(** X23.  In the trees the engine builds, no visit count is negative and
    every node that is the child of a node has been visited at least once:
    this holds of the empty store of a new engine and, when it holds
    before, it holds after every [choose] that returns and after every
    [notify_opponent_moved].  So the selection never meets a child with
    [visits == 0]: for a child, the UCT value is always the sum of the
    exploitation and exploration terms, and the division is by a positive
    count. *)
Theorem children_visited {RT : PyRuntime}
    (self : MCTSBot.t) (game : HexGame.t) (ticks : nat) (rnd : Random) :
  visited_inv (MCTSBot.heap self) ->
  (forall m self' rnd',
     MCTSBot.choose self game ticks rnd = Ok (m, self', rnd') ->
     visited_inv (MCTSBot.heap self')) /\
  (forall m self',
     MCTSBot.notify_opponent_moved self m = Ok self' ->
     visited_inv (MCTSBot.heap self')) /\
  (forall id nd k c ndc cc,
     MCTSBot.heap self !! id = Some nd -> (k, c) ∈ Node.children nd ->
     MCTSBot.heap self !! c = Some ndc ->
     1 <= Node.visits ndc /\
     Node.uct_value nd ndc cc =
       (lg <- Node.py_log (float_of_int (Node.visits nd + 1)) ;;
        sq <- Node.py_sqrt (lg / float_of_int (Node.visits ndc))%float ;;
        Ok (Node.wins_for_root_player ndc / float_of_int (Node.visits ndc) + cc * sq)%float)).
Proof.
  intros Hv. split; [|split].
  - intros m self' rnd' Hc.
    destruct (choose_Ok self game ticks rnd m self' rnd' Hc) as (s1 & s0 & Ha & Hs & Hd).
    apply (acquire_visited _ _ _ Hv) in Ha. apply (search_visited _ _ _ _ _ _ _ Ha) in Hs.
    by apply (decide_visited _ _ _ _ Hs) in Hd.
  - intros m self' Hn. by apply (apply_move_visited self m).
  - intros id nd k c ndc cc Hnd Hin Hndc.
    destruct Hv as [_ H1]. destruct (H1 id nd k c Hnd Hin) as (x & Hx & Hge); [tauto|].
    rewrite Hndc in Hx. injection Hx as <-. split; [done|].
    unfold Node.uct_value. destruct (Z.eqb_spec (Node.visits ndc) 0); [lia|done].
Qed.

Lemma children_visited_witness :
  visited_inv (MCTSBot.heap (five_playouts None)) /\
  exists m self' rnd',
    MCTSBot.choose (RT := ref_runtime) (five_playouts None) (HexGame.init 2) 100
      (draws_from []) = Ok (m, self', rnd') /\
    visited_inv (MCTSBot.heap self').
Proof.
  assert (visited_inv (MCTSBot.heap (five_playouts None))) as Hv by (apply visited_inv_nil).
  split; [exact Hv|].
  assert (is_ok (MCTSBot.choose (RT := ref_runtime) (five_playouts None) (HexGame.init 2)
                   100 (draws_from [])) = true) as Hok by (vm_compute; reflexivity).
  destruct (MCTSBot.choose (RT := ref_runtime) (five_playouts None) (HexGame.init 2)
              100 (draws_from [])) as [[[m s'] r']| | |] eqn:E; try discriminate Hok.
  exists m, s', r'. split; [reflexivity|].
  exact (proj1 (children_visited (RT := ref_runtime) (five_playouts None) (HexGame.init 2)
                  100 (draws_from []) Hv) m s' r' E).
Defined.

(** X24.  [uct_select_child] returns [None] on a node without children,
    and never returns anything but [None] or one of the children of the
    node. *)
Theorem uct_select_child_result {RT : PyRuntime}
    (h : list Node.t) (nd : Node.t) (c : float) :
  (Node.children nd = [] -> Node.uct_select_child h nd c = Ok None) /\
  (forall r, Node.uct_select_child h nd c = Ok (Some r) ->
     exists k, (k, r) ∈ Node.children nd).
Proof.
  unfold Node.uct_select_child. split.
  - by intros ->.
  - intros r Hr. by apply uct_scan_In in Hr as [?|?].
Qed.

(** ** The engine as ui.py drives it

    Against a human, [AppUI] calls [choose] on a snapshot of the live
    game, plays the move it got, and, after the human has answered,
    reports that answer through [notify_opponent_moved] before it calls
    [choose] again. *)

Section Protocol.
Context {RT : PyRuntime}.

Lemma synced_no_root self game game' :
  synced self game -> MCTSBot.root self = None -> synced self game'.
Proof.
  intros (pos & Hok & _) Hr. exists pos. split; [done|]. intros rt. by rewrite Hr.
Qed.

Lemma notify_childless self rt nd m :
  MCTSBot.root self = Some rt -> MCTSBot.heap self !! rt = Some nd ->
  Node.children nd = [] ->
  MCTSBot.notify_opponent_moved self m =
    Ok (MCTSBot.set_root_player (MCTSBot.set_root self None) None).
Proof.
  intros Hr Hnd Hc. unfold MCTSBot.notify_opponent_moved, MCTSBot._apply_move_to_tree.
  rewrite Hr, (node_get_Some _ _ _ Hnd). cbn [rbind]. by rewrite Hc.
Qed.

Lemma decide_round s rt game pos m self' game1 m2 game2 :
  search_inv s rt game pos ->
  MCTSBot.decide s game = Ok (m, self') ->
  HexGame.play game m = (true, game1) ->
  HexGame.play game1 m2 = (true, game2) ->
  exists self2,
    MCTSBot.notify_opponent_moved self' m2 = Ok self2 /\ synced self2 game2.
Proof.
  intros Hinv Hd Hp1 Hp2. pose proof Hinv as [Hok Hr [nd Hnd] Hpos].
  destruct (Node.children nd) as [|ch chs] eqn:Ec.
  - rewrite (decide_no_children s game rt nd Hr Hnd Ec) in Hd.
    assert (self' = s) as ->.
    { destruct (frontier_moves _ _); [destruct (empty_cells game)|]; congruence. }
    rewrite (notify_childless s rt nd m2 Hr Hnd Ec). eexists. split; [reflexivity|].
    exists pos. split; [done|]. intros rt'. done.
  - destruct (decide_sync s rt game pos nd m self' Hinv Hnd) as
      (g' & nxt & nn & Hp & Hr' & Hnn & _ & _ & Hinv'); [by rewrite Ec|done|].
    rewrite Hp1 in Hp. injection Hp as <-.
    pose proof (search_inv_synced _ _ _ _ Hinv') as Hs1.
    pose proof Hs1 as (pos1 & Hok1 & Hroot1).
    destruct (Hroot1 nxt Hr') as [_ Hpos1].
    unfold MCTSBot.notify_opponent_moved.
    destruct (apply_move_ok self' m2) as [self2 Ha].
    { intros rt' Hrt'. rewrite Hr' in Hrt'. injection Hrt' as <-. exists nn.
      split; [done|]. intros k c Hin.
      destruct (tk_child _ _ Hok1 nxt nn k c Hnn Hin) as (ndc & Hc & _). eauto. }
    exists self2. split; [done|].
    assert (search_inv self' nxt game1 pos1) as Hinv1 by (split; eauto).
    destruct (apply_move_sync self' nxt game1 pos1 m2 self2 Hinv1 Ha)
      as [(Hr2 & _ & Hh)|(g2 & nxt2 & nn2 & Hp2' & _ & _ & _ & _ & Hinv2)].
    + exists pos1. split; [by rewrite Hh|]. intros rt'. by rewrite Hr2.
    + rewrite Hp2 in Hp2'. injection Hp2' as <-. by eapply search_inv_synced.
Qed.

End Protocol.

(** X25.  One round of a game against the engine, as ui.py plays it,
    keeps the retained tree in step with the live game.  When the tree is
    in step with the game before [choose], the move that [choose] returns
    is played and the answer of the opponent is accepted by [play], then
    the [notify_opponent_moved] call for that answer returns and leaves
    the tree in step with the live game, also when [choose] took its
    fallback and kept the old root: that root has no child, so the
    notification drops it. *)
Theorem ui_round_keeps_sync {RT : PyRuntime}
    (self : MCTSBot.t) (game : HexGame.t) (ticks : nat) (rnd : Random)
    (m : Move.t) (self1 : MCTSBot.t) (rnd1 : Random)
    (game1 : HexGame.t) (m2 : Move.t) (game2 : HexGame.t) :
  synced self game ->
  MCTSBot.choose self game ticks rnd = Ok (m, self1, rnd1) ->
  HexGame.play game m = (true, game1) ->
  HexGame.play game1 m2 = (true, game2) ->
  exists self2,
    MCTSBot.notify_opponent_moved self1 m2 = Ok self2 /\ synced self2 game2.
Proof.
  intros Hsync Hc Hp1 Hp2.
  destruct (choose_Ok self game ticks rnd m self1 rnd1 Hc) as (s1 & s0 & Ha & Hs & Hd).
  destruct (acquire_sync self game s1 Hsync Ha) as (pos1 & rt & Hinv1).
  destruct (search_sync _ _ _ _ _ _ _ _ _ Hinv1 Hs) as [pos0 Hinv0].
  by apply (decide_round s0 rt game pos0 m self1 game1 m2 game2).
Qed.

Lemma ui_round_keeps_sync_witness :
  synced (five_playouts None) (HexGame.init 2) /\
  exists m s r g1 m2 g2 self2,
    MCTSBot.choose (RT := ref_runtime) (five_playouts None) (HexGame.init 2) 100
      (draws_from []) = Ok (m, s, r) /\
    HexGame.play (HexGame.init 2) m = (true, g1) /\
    HexGame.play g1 m2 = (true, g2) /\
    MCTSBot.notify_opponent_moved s m2 = Ok self2 /\ synced self2 g2.
Proof.
  assert (synced (five_playouts None) (HexGame.init 2)) as Hs
    by (apply fresh_engine_synced).
  split; [exact Hs|].
  assert (match MCTSBot.choose (RT := ref_runtime) (five_playouts None) (HexGame.init 2)
                  100 (draws_from []) with
          | Ok (m, _, _) =>
              (HexGame.play (HexGame.init 2) m).1 &&
              match HexGame.legal_moves (HexGame.play (HexGame.init 2) m).2 with
              | m2 :: _ => (HexGame.play (HexGame.play (HexGame.init 2) m).2 m2).1
              | [] => false
              end
          | _ => false
          end = true) as Hacc by (vm_compute; reflexivity).
  destruct (MCTSBot.choose (RT := ref_runtime) (five_playouts None) (HexGame.init 2) 100
              (draws_from [])) as [[[m s] r]| | |] eqn:Ec; try discriminate Hacc.
  apply andb_true_iff in Hacc as [Ha1 Ha2].
  destruct (HexGame.play (HexGame.init 2) m) as [b1 g1] eqn:Ep1.
  cbn [fst snd] in Ha1, Ha2. subst b1.
  destruct (HexGame.legal_moves g1) as [|m2 ms]; [discriminate Ha2|].
  destruct (HexGame.play g1 m2) as [b2 g2] eqn:Ep2.
  cbn [fst] in Ha2. subst b2.
  destruct (ui_round_keeps_sync (RT := ref_runtime) (five_playouts None) (HexGame.init 2)
              100 (draws_from []) m s r g1 m2 g2 Hs Ec Ep1 Ep2) as (self2 & Hn & Hs2).
  exists m, s, r, g1, m2, g2, self2.
  split; [reflexivity|]. split; [exact Ep1|]. split; [exact Ep2|].
  split; [exact Hn|exact Hs2].
Defined.

(** ** The engine states that calls can reach *)

(** The move recorded in a child is the key under which its parent holds
    it. *)
Definition child_moves (h : list Node.t) : Prop :=
  forall id nd k c, h !! id = Some nd -> (k, c) ∈ Node.children nd ->
    exists ndc, h !! c = Some ndc /\ Node.move ndc = Some (Move.mk k.1 k.2).

Lemma child_moves_nil : child_moves [].
Proof. intros id nd k c H. by rewrite lookup_nil in H. Qed.

Lemma child_moves_same h h' : same_tree h h' -> child_moves h -> child_moves h'.
Proof.
  intros Hs Hc id nd' k c Hid Hin.
  destruct (same_tree_lookup h h' id nd' Hs Hid) as (nd & Hnd & Hsk).
  injection Hsk as _ _ Hch. rewrite <- Hch in Hin.
  destruct (Hc id nd k c Hnd Hin) as (ndc & Hndc & Hm).
  destruct (same_tree_lookup_r h h' c ndc Hs Hndc) as (ndc' & Hndc' & Hsk').
  injection Hsk' as Hm' _ _. exists ndc'. split; [done|]. by rewrite <- Hm'.
Qed.

Lemma child_moves_insert h i nd nd' :
  h !! i = Some nd -> skel nd' = skel nd -> child_moves h -> child_moves (<[i := nd']> h).
Proof. intros Hi Hsk. apply child_moves_same. by apply (same_tree_insert h i nd). Qed.

Lemma child_moves_alloc h nd :
  Node.children nd = [] -> child_moves h -> child_moves (h ++ [nd]).
Proof.
  intros Hnil Hc id x k c Hid Hin.
  destruct (decide (id < length h)%nat) as [Hlt|Hge].
  - rewrite lookup_app_l in Hid by done.
    destruct (Hc id x k c Hid Hin) as (ndc & Hndc & Hm). exists ndc.
    split; [|done]. rewrite lookup_app_l; [done|]. by eapply lookup_lt_Some.
  - rewrite lookup_app_r in Hid by lia.
    destruct (id - length h)%nat; [|done]. simpl in Hid. injection Hid as <-.
    rewrite Hnil in Hin. by apply elem_of_nil in Hin.
Qed.

Lemma child_moves_link h i nd key c0 ndc :
  h !! i = Some nd -> h !! c0 = Some ndc ->
  Node.move ndc = Some (Move.mk key.1 key.2) ->
  child_moves h ->
  child_moves (<[i := Node.set_children nd (Node.dict_set (Node.children nd) key c0)]> h).
Proof.
  intros Hi Hc0 Hm0 Hc.
  pose proof (lookup_lt_Some _ _ _ Hi) as Hlt.
  set (nd' := Node.set_children nd (Node.dict_set (Node.children nd) key c0)).
  assert (forall c x, h !! c = Some x ->
            exists x', <[i := nd']> h !! c = Some x' /\ Node.move x' = Node.move x)
    as Hkeep.
  { intros c x Hl. destruct (decide (i = c)) as [<-|Hne].
    - rewrite list_lookup_insert_eq by lia. exists nd'. split; [done|].
      rewrite Hi in Hl. by injection Hl as <-.
    - exists x. by rewrite list_lookup_insert_ne. }
  intros id x k c Hid Hin.
  destruct (decide (i = id)) as [<-|Hne].
  - rewrite list_lookup_insert_eq in Hid by lia. injection Hid as <-.
    simpl in Hin. apply dict_set_In in Hin as [Hin|[-> ->]].
    + destruct (Hc i nd k c Hi Hin) as (x & Hx & Hm).
      destruct (Hkeep c x Hx) as (x' & Hx' & Hm'). exists x'. split; [done|]. congruence.
    + destruct (Hkeep c0 ndc Hc0) as (x' & Hx' & Hm'). exists x'. split; [done|]. congruence.
  - rewrite list_lookup_insert_ne in Hid by done.
    destruct (Hc id x k c Hid Hin) as (y & Hy & Hm).
    destruct (Hkeep c y Hy) as (y' & Hy' & Hm'). exists y'. split; [done|]. congruence.
Qed.

Section Reach.
Context {RT : PyRuntime}.

Lemma expand_moves self node state self' out :
  child_moves (MCTSBot.heap self) ->
  MCTSBot.expand self node state = Ok (self', out) ->
  child_moves (MCTSBot.heap self').
Proof.
  intros Hv. unfold MCTSBot.expand.
  destruct (Node.get (MCTSBot.heap self) node) as [nd| | |] eqn:En; try done.
  cbn [rbind]. apply node_get_Ok in En.
  destruct (_ && _); [|by intros [= <- <-]].
  destruct (Node.untried nd) as [|mv rest] eqn:Eu; [done|].
  destruct (HexGame.play state mv) as [ok state1] eqn:Ep.
  pose proof (lookup_lt_Some _ _ _ En) as Hlt.
  assert (child_moves (<[node := Node.set_untried nd rest]> (MCTSBot.heap self))) as Hv1
    by (by apply (child_moves_insert _ node nd)).
  destruct ok; cbn [negb]; [|by intros [= <- <-]].
  unfold MCTSBot.alloc.
  set (h1 := <[node := Node.set_untried nd rest]> (MCTSBot.heap self)) in *.
  set (child := Node.mk (Some node) (Some mv) (HexGame.current state1)
                  (frontier_moves state1 (MCTSBot.expand_candidates self)) [] 0 0%float).
  assert (length h1 = length (MCTSBot.heap self)) as Hl1
    by (unfold h1; apply length_insert).
  assert ((h1 ++ [child]) !! node = Some (Node.set_untried nd rest)) as Hn2.
  { rewrite lookup_app_l by lia. unfold h1. by apply list_lookup_insert_eq. }
  assert ((h1 ++ [child]) !! length h1 = Some child) as Hc2.
  { rewrite lookup_app_r by lia. by rewrite Nat.sub_diag. }
  rewrite (node_get_Some _ _ _ Hn2). cbn [rbind]. intros [= <- <-].
  cbn [MCTSBot.heap MCTSBot.set_heap].
  apply (child_moves_link (h1 ++ [child]) node (Node.set_untried nd rest)
           (Move.r mv, Move.c mv) (length h1) child Hn2 Hc2).
  - simpl. by destruct mv.
  - by apply child_moves_alloc.
Qed.

Lemma iteration_moves self game rnd self' rnd' :
  child_moves (MCTSBot.heap self) ->
  MCTSBot.iteration self game rnd = Ok (self', rnd') ->
  child_moves (MCTSBot.heap self').
Proof.
  intros Hv. unfold MCTSBot.iteration. destruct (MCTSBot.root self) as [rt|]; [|done].
  destruct (MCTSBot.select _ self rt _) as [[node state]| | |]; try done.
  cbn [rbind fst snd].
  destruct (MCTSBot.expand self node state) as [[s1 out]| | |] eqn:Ee; try done.
  cbn [rbind fst snd].
  apply (expand_moves _ _ _ _ _ Hv) in Ee.
  destruct out as [[node1 state1]|]; [|by intros [= <- <-]].
  destruct (MCTSBot.rollout _ _ state1 rnd) as [[final rnd1]| | |]; try done.
  cbn [rbind fst snd]. cbv zeta.
  destruct (MCTSBot.backprop _ _ _ _) as [h| | |] eqn:Eb; try done.
  cbn [rbind]. intros [= <- <-]. cbn [MCTSBot.heap MCTSBot.set_heap].
  apply backprop_same in Eb as [Hs _]. by eapply child_moves_same.
Qed.

Lemma search_moves ticks playouts self game rnd self' rnd' :
  child_moves (MCTSBot.heap self) ->
  MCTSBot.search ticks playouts self game rnd = Ok (self', rnd') ->
  child_moves (MCTSBot.heap self').
Proof.
  revert playouts self rnd.
  induction ticks as [|ticks IH]; intros playouts self rnd Hv; cbn [MCTSBot.search].
  - by intros [= <- <-].
  - destruct (playouts <? MCTSBot.playout_limit self); [|by intros [= <- <-]].
    destruct (MCTSBot.iteration self game rnd) as [[s1 r1]| | |] eqn:Ei; try done.
    cbn [rbind fst snd]. apply (iteration_moves _ _ _ _ _ Hv) in Ei.
    by apply IH.
Qed.

Lemma acquire_moves self game s :
  child_moves (MCTSBot.heap self) ->
  MCTSBot.acquire self game = Ok s -> child_moves (MCTSBot.heap s).
Proof.
  intros Hv. unfold MCTSBot.acquire.
  assert (forall s0 : MCTSBot.t, child_moves (MCTSBot.heap s0) ->
    (let self2 :=
       match MCTSBot.root_player s0 with
       | None => MCTSBot.set_root_player s0 (Some (HexGame.current game))
       | Some _ => s0
       end in
     match MCTSBot.root self2 with
     | None => Raise AttributeError
     | Some rt =>
         nd <- Node.get (MCTSBot.heap self2) rt ;;
         if (length (Node.untried nd) =? 0)%nat && (length (Node.children nd) =? 0)%nat
         then Ok (MCTSBot.set_heap self2
                    (<[rt := Node.set_untried nd
                               (frontier_moves game (MCTSBot.expand_candidates self2))]>
                       (MCTSBot.heap self2)))
         else Ok self2
     end) = Ok s -> child_moves (MCTSBot.heap s)) as Htail.
  { intros s0 Hv0. cbv zeta.
    assert (child_moves (MCTSBot.heap
              match MCTSBot.root_player s0 with
              | None => MCTSBot.set_root_player s0 (Some (HexGame.current game))
              | Some _ => s0
              end)) as Hv2 by (by destruct (MCTSBot.root_player s0)).
    destruct (MCTSBot.root _) as [rt|]; [|done].
    destruct (Node.get _ rt) as [nd| | |] eqn:En; try done. cbn [rbind].
    apply node_get_Ok in En.
    destruct (_ && _); intros [= <-]; [|done].
    cbn [MCTSBot.heap MCTSBot.set_heap].
    by apply (child_moves_insert _ rt nd). }
  assert (child_moves (MCTSBot.heap
            (MCTSBot.set_root (MCTSBot._new_root self game).1
               (Some (MCTSBot._new_root self game).2)))) as Hnew.
  { unfold MCTSBot._new_root, MCTSBot.alloc. cbn [fst snd].
    cbn [MCTSBot.heap MCTSBot.set_heap MCTSBot.set_root MCTSBot.set_root_player].
    by apply child_moves_alloc. }
  destruct (MCTSBot.root self) as [rt|].
  - destruct (Node.get (MCTSBot.heap self) rt) as [nd| | |]; try done. cbn [rbind].
    destruct (negb _).
    + destruct (MCTSBot._new_root self game) as [s0 rt0]. cbn [rbind fst snd] in *.
      by apply Htail.
    + cbn [rbind]. by apply Htail.
  - destruct (MCTSBot._new_root self game) as [s0 rt0]. cbn [rbind fst snd] in *.
    by apply Htail.
Qed.

Lemma apply_move_moves self m self' :
  child_moves (MCTSBot.heap self) ->
  MCTSBot._apply_move_to_tree self m = Ok self' ->
  child_moves (MCTSBot.heap self').
Proof.
  intros Hv. unfold MCTSBot._apply_move_to_tree.
  destruct (MCTSBot.root self) as [rt|]; [|by intros [= <-]].
  destruct (Node.get _ rt) as [nd| | |]; try done. cbn [rbind].
  destruct (Node.dict_get _ _) as [nxt|]; [|by intros [= <-]].
  destruct (Node.get _ nxt) as [nn| | |] eqn:En; try done. cbn [rbind].
  apply node_get_Ok in En. intros [= <-].
  cbn [MCTSBot.heap MCTSBot.set_heap MCTSBot.set_root].
  by apply (child_moves_insert _ nxt nn).
Qed.

Lemma decide_moves self game m self' :
  child_moves (MCTSBot.heap self) ->
  MCTSBot.decide self game = Ok (m, self') ->
  child_moves (MCTSBot.heap self').
Proof.
  intros Hv. unfold MCTSBot.decide. destruct (MCTSBot.root self) as [rt|]; [|done].
  destruct (Node.get _ rt) as [nd| | |]; try done. cbn [rbind].
  destruct (_ =? _)%nat.
  - destruct (frontier_moves _ _); [destruct (empty_cells game)|];
      try done; by intros [= <- <-].
  - destruct (MCTSBot.best_child _ _) as [best| | |]; try done. cbn [rbind].
    destruct (Node.get _ best) as [bn| | |]; try done. cbn [rbind].
    destruct (Node.move bn) as [bm|]; [|done].
    destruct (MCTSBot._apply_move_to_tree self bm) as [s'| | |] eqn:Ea; try done.
    cbn [rbind]. intros [= <- <-]. by apply (apply_move_moves self bm).
Qed.

Lemma choose_moves self game ticks rnd m self' rnd' :
  child_moves (MCTSBot.heap self) ->
  MCTSBot.choose self game ticks rnd = Ok (m, self', rnd') ->
  child_moves (MCTSBot.heap self').
Proof.
  intros Hv Hc. apply choose_Ok in Hc as (s1 & s0 & Ha & Hs & Hd).
  apply (acquire_moves _ _ _ Hv) in Ha.
  apply (search_moves _ _ _ _ _ _ _ Ha) in Hs.
  by apply (decide_moves _ _ _ _ Hs) in Hd.
Qed.

Lemma choose_wf self game ticks rnd m self' rnd' :
  engine_wf self -> wf_state game ->
  MCTSBot.choose self game ticks rnd = Ok (m, self', rnd') ->
  engine_wf self'.
Proof.
  intros Hwf Hg Hc. apply choose_Ok in Hc as (s1 & s0 & Ha & Hs & Hd).
  destruct (acquire_wf self game Hwf) as (s1' & Ha' & Hwf1).
  rewrite Ha in Ha'. injection Ha' as <-.
  destruct (search_wf ticks 0 s1 game rnd Hwf1 Hg) as [_ Hsok].
  destruct (Hsok s0 rnd' Hs) as [Hwf0 _].
  destruct (decide_wf s0 game Hwf0) as [_ Hdok]. by apply (Hdok m).
Qed.

(** The engine states that a program reaches: the state the constructor
    builds, and the states in which calls of [choose], on a game of the
    declared shape, and of [notify_opponent_moved] leave the engine when
    they return. *)
Inductive engine_reachable : MCTSBot.t -> Prop :=
| er_init tl uc pl rc ec seed :
    engine_reachable (MCTSBot.init tl uc pl rc ec seed)
| er_choose self game ticks rnd m self' rnd' :
    engine_reachable self -> wf_state game ->
    MCTSBot.choose self game ticks rnd = Ok (m, self', rnd') ->
    engine_reachable self'
| er_notify self m self' :
    engine_reachable self ->
    MCTSBot.notify_opponent_moved self m = Ok self' ->
    engine_reachable self'.

Lemma engine_reachable_inv s :
  engine_reachable s -> engine_wf s /\ child_moves (MCTSBot.heap s).
Proof.
  induction 1 as [tl uc pl rc ec seed
                 |self game ticks rnd m self' rnd' _ [IHw IHm] Hg Hc
                 |self m self' _ [IHw IHm] Hn].
  - split; [apply engine_wf_init|apply child_moves_nil].
  - split; [by eapply choose_wf|by eapply choose_moves].
  - unfold MCTSBot.notify_opponent_moved in Hn. split.
    + destruct (apply_move_wf self m IHw) as (s' & Hs' & Hwf').
      rewrite Hn in Hs'. by injection Hs' as <-.
    + by apply (apply_move_moves _ _ _ IHm) in Hn.
Qed.

End Reach.

(** ** What [choose] returns *)

Section Returned.
Context {RT : PyRuntime}.

Lemma acquire_root self game s :
  MCTSBot.acquire self game = Ok s -> is_Some (MCTSBot.root s).
Proof.
  unfold MCTSBot.acquire.
  assert (forall s0 : MCTSBot.t,
    (let self2 :=
       match MCTSBot.root_player s0 with
       | None => MCTSBot.set_root_player s0 (Some (HexGame.current game))
       | Some _ => s0
       end in
     match MCTSBot.root self2 with
     | None => Raise AttributeError
     | Some rt =>
         nd <- Node.get (MCTSBot.heap self2) rt ;;
         if (length (Node.untried nd) =? 0)%nat && (length (Node.children nd) =? 0)%nat
         then Ok (MCTSBot.set_heap self2
                    (<[rt := Node.set_untried nd
                               (frontier_moves game (MCTSBot.expand_candidates self2))]>
                       (MCTSBot.heap self2)))
         else Ok self2
     end) = Ok s -> is_Some (MCTSBot.root s)) as Htail.
  { intros s0. cbv zeta.
    destruct (MCTSBot.root _) as [rt|] eqn:Er; [|done].
    destruct (Node.get _ rt) as [nd| | |]; try done. cbn [rbind].
    destruct (_ && _); intros [= <-]; cbn [MCTSBot.root MCTSBot.set_heap];
      rewrite Er; eauto. }
  destruct (MCTSBot.root self) as [rt|].
  - destruct (Node.get (MCTSBot.heap self) rt) as [nd| | |]; try done. cbn [rbind].
    destruct (negb _).
    + destruct (MCTSBot._new_root self game) as [s0 rt0]. cbn [rbind fst snd] in *.
      by apply Htail.
    + cbn [rbind]. by apply Htail.
  - destruct (MCTSBot._new_root self game) as [s0 rt0]. cbn [rbind fst snd] in *.
    by apply Htail.
Qed.

Lemma choose_decision_inv self game ticks rnd s0 rnd' :
  engine_wf self -> child_moves (MCTSBot.heap self) -> wf_state game ->
  searched self game ticks rnd = Ok (s0, rnd') ->
  exists rt nd,
    MCTSBot.root s0 = Some rt /\ MCTSBot.heap s0 !! rt = Some nd /\
    (Node.children nd <> [] ->
     exists best bn m s',
       first_max_child (MCTSBot.heap s0) (Node.children nd) best /\
       MCTSBot.heap s0 !! best = Some bn /\
       Node.move bn = Some m /\
       MCTSBot._apply_move_to_tree s0 m = Ok s' /\
       MCTSBot.choose self game ticks rnd = Ok (m, s', rnd')) /\
    (Node.children nd = [] ->
     MCTSBot.choose self game ticks rnd =
     match frontier_moves game (MCTSBot.expand_candidates self) with
     | m :: _ => Ok (m, s0, rnd')
     | [] => match empty_cells game with
             | m :: _ => Ok (m, s0, rnd')
             | [] => Raise IndexError
             end
     end).
Proof.
  intros Hwf Hm Hg Hs. unfold searched in Hs.
  destruct (MCTSBot.acquire self game) as [s1| | |] eqn:Ea; try done.
  cbn [rbind] in Hs.
  destruct (acquire_wf self game Hwf) as (s1' & Ha' & Hwf1).
  rewrite Ea in Ha'. injection Ha' as <-.
  pose proof (acquire_moves _ _ _ Hm Ea) as Hm1.
  destruct (acquire_root _ _ _ Ea) as [rt Hr1].
  destruct (search_wf ticks 0 s1 game rnd Hwf1 Hg) as [_ Hsok].
  destruct (Hsok s0 rnd' Hs) as [Hwf0 Hr0]. rewrite Hr1 in Hr0.
  pose proof (search_moves _ _ _ _ _ _ _ Hm1 Hs) as Hm0.
  pose proof Hwf0 as [Hst Hlive]. destruct (Hlive rt Hr0) as [nd Hnd].
  assert (MCTSBot.expand_candidates s0 = MCTSBot.expand_candidates self) as Hec.
  { apply acquire_grown in Ea as [Hc1 _]. apply search_grown in Hs as [Hc0 _].
    unfold config in Hc1, Hc0. congruence. }
  exists rt, nd. split; [done|]. split; [done|]. split.
  - intros Hne.
    assert (children_valid (MCTSBot.heap s0) (Node.children nd)) as Hval.
    { intros k c Hin. by destruct (sw_child _ Hst rt nd k c Hnd Hin). }
    destruct (best_child_spec (MCTSBot.heap s0) (Node.children nd) Hne Hval)
      as (best & Hbest & Hfm).
    pose proof Hfm as (i & k & bn & Hi & Hbn & _).
    apply list_elem_of_lookup_2 in Hi.
    destruct (Hm0 rt nd k best Hnd Hi) as (bn' & Hbn' & Hmv).
    rewrite Hbn in Hbn'. injection Hbn' as <-.
    destruct (apply_move_ok s0 (Move.mk k.1 k.2)) as [s' Hs'].
    { intros rt' Hr'. rewrite Hr0 in Hr'. injection Hr' as <-. eauto. }
    exists best, bn, (Move.mk k.1 k.2), s'. do 4 (split; [done|]).
    unfold MCTSBot.choose. rewrite Ea. cbn [rbind]. rewrite Hs. cbn [rbind fst snd].
    rewrite (decide_children s0 game rt nd Hr0 Hnd Hne), Hbest. cbn [rbind].
    rewrite (node_get_Some _ _ _ Hbn). cbn [rbind]. rewrite Hmv, Hs'. done.
  - intros Hnil.
    unfold MCTSBot.choose. rewrite Ea. cbn [rbind]. rewrite Hs. cbn [rbind fst snd].
    rewrite (decide_no_children s0 game rt nd Hr0 Hnd Hnil), Hec.
    destruct (frontier_moves _ _); [destruct (empty_cells game)|]; done.
Qed.

End Returned.

(** C6.  What [choose] returns.  Take an engine in a state that calls can
    reach and a game of the declared shape, and let [s0] be the state in
    which the search loop of [choose] ends.  The root of [s0] is a node
    [nd] of the store.  When [nd] has a child, [choose] returns the move
    of the child with the greatest visit count, the first such in the
    insertion order of the dictionary, and the state it leaves is [s0]
    re-rooted by that move.  When [nd] has no child, [choose] returns the
    first move of the candidate generator, or, that list being empty, the
    first vacant cell in row-major order, and leaves [s0] as it is; it
    raises [IndexError] when there is no vacant cell. *)
Theorem choose_decision {RT : PyRuntime}
    (self : MCTSBot.t) (game : HexGame.t) (ticks : nat) (rnd : Random)
    (s0 : MCTSBot.t) (rnd' : Random) :
  engine_reachable self -> wf_state game ->
  searched self game ticks rnd = Ok (s0, rnd') ->
  exists rt nd,
    MCTSBot.root s0 = Some rt /\ MCTSBot.heap s0 !! rt = Some nd /\
    (Node.children nd <> [] ->
     exists best bn m s',
       first_max_child (MCTSBot.heap s0) (Node.children nd) best /\
       MCTSBot.heap s0 !! best = Some bn /\
       Node.move bn = Some m /\
       MCTSBot._apply_move_to_tree s0 m = Ok s' /\
       MCTSBot.choose self game ticks rnd = Ok (m, s', rnd')) /\
    (Node.children nd = [] ->
     MCTSBot.choose self game ticks rnd =
     match frontier_moves game (MCTSBot.expand_candidates self) with
     | m :: _ => Ok (m, s0, rnd')
     | [] => match empty_cells game with
             | m :: _ => Ok (m, s0, rnd')
             | [] => Raise IndexError
             end
     end).
Proof.
  intros Hr Hg Hs. destruct (engine_reachable_inv self Hr) as [Hwf Hm].
  by apply choose_decision_inv.
Qed.

Lemma choose_decision_witness :
  (engine_reachable (RT := ref_runtime) (five_playouts None) /\
   wf_state (HexGame.init 2) /\
   exists s0 r0 rt nd best bn s',
     searched (RT := ref_runtime) (five_playouts None) (HexGame.init 2) 100
       (draws_from []) = Ok (s0, r0) /\
     MCTSBot.root s0 = Some rt /\ MCTSBot.heap s0 !! rt = Some nd /\
     length (Node.children nd) = 4%nat /\
     first_max_child (MCTSBot.heap s0) (Node.children nd) best /\
     MCTSBot.heap s0 !! best = Some bn /\
     Node.move bn = Some (Move.mk 0 0) /\
     MCTSBot.choose (RT := ref_runtime) (five_playouts None) (HexGame.init 2) 100
       (draws_from []) = Ok (Move.mk 0 0, s', r0)) /\
  (engine_reachable (RT := ref_runtime) no_playouts /\
   exists s0 r0 rt nd,
     searched (RT := ref_runtime) no_playouts (HexGame.init 2) 100 (draws_from [])
       = Ok (s0, r0) /\
     MCTSBot.root s0 = Some rt /\ MCTSBot.heap s0 !! rt = Some nd /\
     Node.children nd = [] /\
     MCTSBot.choose (RT := ref_runtime) no_playouts (HexGame.init 2) 100 (draws_from [])
       = Ok (Move.mk 0 0, s0, r0)).
Proof.
  split.
  - assert (engine_reachable (RT := ref_runtime) (five_playouts None)) as Hre
      by apply er_init.
    split; [exact Hre|]. split; [apply wf_state_init|].
    assert (chosen (MCTSBot.choose (RT := ref_runtime) (five_playouts None)
                      (HexGame.init 2) 100 (draws_from [])) = Some (Move.mk 0 0)) as Hch
      by (vm_compute; reflexivity).
    assert (match searched (RT := ref_runtime) (five_playouts None) (HexGame.init 2) 100
                    (draws_from []) with
            | Ok (s0, _) => length (root_children s0)
            | _ => 0%nat
            end = 4%nat) as Hlen by (vm_compute; reflexivity).
    destruct (searched (RT := ref_runtime) (five_playouts None) (HexGame.init 2) 100
                (draws_from [])) as [[s0 r0]| | |] eqn:Es; try discriminate Hlen.
    destruct (choose_decision (RT := ref_runtime) (five_playouts None) (HexGame.init 2)
                100 (draws_from []) s0 r0 Hre (wf_state_init 2) Es)
      as (rt & nd & Hr & Hnd & Hchild & _).
    unfold root_children in Hlen. rewrite Hr, Hnd in Hlen.
    destruct Hchild as (best & bn & m & s' & Hfm & Hbn & Hmv & _ & Hc).
    { intros Hnil. rewrite Hnil in Hlen. discriminate Hlen. }
    rewrite Hc in Hch. injection Hch as ->.
    exists s0, r0, rt, nd, best, bn, s'. split; [reflexivity|].
    do 6 (split; [assumption|]). exact Hc.
  - assert (engine_reachable (RT := ref_runtime) no_playouts) as Hre by apply er_init.
    split; [exact Hre|].
    assert (match searched (RT := ref_runtime) no_playouts (HexGame.init 2) 100
                    (draws_from []) with
            | Ok (s0, _) => Some (length (root_children s0))
            | _ => None
            end = Some 0%nat) as Hlen by (vm_compute; reflexivity).
    destruct (searched (RT := ref_runtime) no_playouts (HexGame.init 2) 100
                (draws_from [])) as [[s0 r0]| | |] eqn:Es; try discriminate Hlen.
    destruct (choose_decision (RT := ref_runtime) no_playouts (HexGame.init 2)
                100 (draws_from []) s0 r0 Hre (wf_state_init 2) Es)
      as (rt & nd & Hr & Hnd & _ & Hfb).
    unfold root_children in Hlen. rewrite Hr, Hnd in Hlen. injection Hlen as Hlen.
    assert (Node.children nd = []) as Hnil by (by destruct (Node.children nd)).
    exists s0, r0, rt, nd. split; [reflexivity|]. do 3 (split; [assumption|]).
    rewrite (Hfb Hnil). reflexivity.
Defined.

(** ** The root-perspective player when the search begins *)

(** The test of [choose] on the retained root (line 217): there is one,
    and it expects the player to move in [game]. *)
Definition root_fits (self : MCTSBot.t) (game : HexGame.t) : bool :=
  match MCTSBot.root self with
  | Some rt =>
      match MCTSBot.heap self !! rt with
      | Some nd => Node.player_to_move nd =? HexGame.current game
      | None => false
      end
  | None => false
  end.

Section Perspective.
Context {RT : PyRuntime}.

Lemma acquire_entry self game :
  engine_wf self ->
  exists s1,
    MCTSBot.acquire self game = Ok s1 /\
    MCTSBot.root s1 =
      (if root_fits self game then MCTSBot.root self
       else Some (length (MCTSBot.heap self))) /\
    MCTSBot.root_player s1 =
      (if root_fits self game then
         match MCTSBot.root_player self with
         | Some p => Some p
         | None => Some (HexGame.current game)
         end
       else Some (HexGame.current game)).
Proof.
  intros [Hwf Hlive].
  assert (forall b : bool, b = false ->
    exists s1,
      (self1 <- (let (s, rt') := MCTSBot._new_root self game in
                 Ok (MCTSBot.set_root s (Some rt'))) ;;
       let self2 :=
         match MCTSBot.root_player self1 with
         | None => MCTSBot.set_root_player self1 (Some (HexGame.current game))
         | Some _ => self1
         end in
       match MCTSBot.root self2 with
       | None => Raise AttributeError
       | Some rt =>
           nd <- Node.get (MCTSBot.heap self2) rt ;;
           if (length (Node.untried nd) =? 0)%nat && (length (Node.children nd) =? 0)%nat
           then Ok (MCTSBot.set_heap self2
                      (<[rt := Node.set_untried nd
                                 (frontier_moves game (MCTSBot.expand_candidates self2))]>
                         (MCTSBot.heap self2)))
           else Ok self2
       end) = Ok s1 /\
      MCTSBot.root s1 =
        (if b then MCTSBot.root self else Some (length (MCTSBot.heap self))) /\
      MCTSBot.root_player s1 =
        (if b then
           match MCTSBot.root_player self with
           | Some p => Some p
           | None => Some (HexGame.current game)
           end
         else Some (HexGame.current game))) as Hnew.
  { intros b ->. unfold MCTSBot._new_root, MCTSBot.alloc.
    cbn [MCTSBot.root MCTSBot.set_root MCTSBot.set_root_player MCTSBot.set_heap
         MCTSBot.heap MCTSBot.root_player MCTSBot.expand_candidates rbind].
    unfold Node.get. rewrite lookup_app_r by lia. rewrite Nat.sub_diag.
    cbn [lookup list_lookup rbind Node.untried Node.children length].
    destruct (_ && _); eexists; (split; [reflexivity|]); done. }
  unfold MCTSBot.acquire.
  destruct (MCTSBot.root self) as [rt|] eqn:Er.
  - destruct (Hlive rt eq_refl) as [nd Hnd]. rewrite (node_get_Some _ _ _ Hnd).
    cbn [rbind].
    destruct (Node.player_to_move nd =? HexGame.current game) eqn:Ep; cbn [negb].
    + assert (root_fits self game = true) as ->
        by (unfold root_fits; by rewrite Er, Hnd).
      cbn [rbind].
      assert (forall self2, MCTSBot.heap self2 = MCTSBot.heap self ->
                MCTSBot.root self2 = Some rt ->
                exists s1,
                  match MCTSBot.root self2 with
                  | None => Raise AttributeError
                  | Some rt =>
                      nd <- Node.get (MCTSBot.heap self2) rt ;;
                      if (length (Node.untried nd) =? 0)%nat
                         && (length (Node.children nd) =? 0)%nat
                      then Ok (MCTSBot.set_heap self2
                                 (<[rt := Node.set_untried nd
                                      (frontier_moves game
                                         (MCTSBot.expand_candidates self2))]>
                                    (MCTSBot.heap self2)))
                      else Ok self2
                  end = Ok s1 /\
                  MCTSBot.root s1 = Some rt /\
                  MCTSBot.root_player s1 = MCTSBot.root_player self2) as Hgen.
      { intros self2 Hh Hrt. rewrite Hrt, Hh, (node_get_Some _ _ _ Hnd). cbn [rbind].
        destruct (_ && _); eexists; (split; [reflexivity|]); done. }
      destruct (MCTSBot.root_player self) as [p|] eqn:Erp.
      * destruct (Hgen self eq_refl Er) as (s1 & H1 & H2 & H3).
        exists s1. split; [exact H1|]. split; [done|]. by rewrite H3.
      * destruct (Hgen (MCTSBot.set_root_player self (Some (HexGame.current game)))
                    eq_refl Er) as (s1 & H1 & H2 & H3).
        exists s1. split; [exact H1|]. split; [done|]. by rewrite H3.
    + apply Hnew. unfold root_fits. by rewrite Er, Hnd, Ep.
  - apply Hnew. unfold root_fits. by rewrite Er.
Qed.

Lemma expand_root_player self node state self' out :
  MCTSBot.expand self node state = Ok (self', out) ->
  MCTSBot.root_player self' = MCTSBot.root_player self.
Proof.
  unfold MCTSBot.expand.
  destruct (Node.get (MCTSBot.heap self) node) as [nd| | |]; try done. cbn [rbind].
  destruct (_ && _); [|by intros [= <- <-]].
  destruct (Node.untried nd) as [|mv rest]; [done|].
  destruct (HexGame.play state mv) as [ok state1].
  destruct ok; cbn [negb]; [|by intros [= <- <-]].
  unfold MCTSBot.alloc.
  destruct (Node.get _ node) as [nd1| | |]; try done. cbn [rbind].
  by intros [= <- <-].
Qed.

Lemma iteration_root_player self game rnd self' rnd' :
  MCTSBot.iteration self game rnd = Ok (self', rnd') ->
  MCTSBot.root_player self' = MCTSBot.root_player self.
Proof.
  unfold MCTSBot.iteration. destruct (MCTSBot.root self) as [rt|]; [|done].
  destruct (MCTSBot.select _ self rt _) as [[node state]| | |]; try done.
  cbn [rbind fst snd].
  destruct (MCTSBot.expand self node state) as [[s1 out]| | |] eqn:Ee; try done.
  cbn [rbind fst snd]. apply expand_root_player in Ee.
  destruct out as [[node1 state1]|]; [|by intros [= <- <-]].
  destruct (MCTSBot.rollout _ _ state1 rnd) as [[final rnd1]| | |]; try done.
  cbn [rbind fst snd]. cbv zeta.
  destruct (MCTSBot.backprop _ _ _ _) as [h| | |]; try done.
  cbn [rbind]. by intros [= <- <-].
Qed.

Lemma search_root_player ticks playouts self game rnd self' rnd' :
  MCTSBot.search ticks playouts self game rnd = Ok (self', rnd') ->
  MCTSBot.root_player self' = MCTSBot.root_player self.
Proof.
  revert playouts self rnd.
  induction ticks as [|ticks IH]; intros playouts self rnd; cbn [MCTSBot.search].
  - by intros [= <- <-].
  - destruct (playouts <? MCTSBot.playout_limit self); [|by intros [= <- <-]].
    destruct (MCTSBot.iteration self game rnd) as [[s1 r1]| | |] eqn:Ei; try done.
    cbn [rbind fst snd]. apply iteration_root_player in Ei.
    intros H. apply IH in H. congruence.
Qed.

Lemma apply_move_root_player self m self' :
  MCTSBot._apply_move_to_tree self m = Ok self' ->
  MCTSBot.root_player self' = MCTSBot.root_player self \/
  MCTSBot.root_player self' = None.
Proof.
  unfold MCTSBot._apply_move_to_tree.
  destruct (MCTSBot.root self) as [rt|]; [|intros [= <-]; by left].
  destruct (Node.get _ rt) as [nd| | |]; try done. cbn [rbind].
  destruct (Node.dict_get _ _) as [nxt|]; [|intros [= <-]; by right].
  destruct (Node.get _ nxt) as [nn| | |]; try done. cbn [rbind].
  intros [= <-]. by left.
Qed.

Lemma decide_root_player self game m self' :
  MCTSBot.decide self game = Ok (m, self') ->
  MCTSBot.root_player self' = MCTSBot.root_player self \/
  MCTSBot.root_player self' = None.
Proof.
  unfold MCTSBot.decide. destruct (MCTSBot.root self) as [rt|]; [|done].
  destruct (Node.get _ rt) as [nd| | |]; try done. cbn [rbind].
  destruct (_ =? _)%nat.
  - destruct (frontier_moves _ _); [destruct (empty_cells game)|];
      try done; intros [= <- <-]; by left.
  - destruct (MCTSBot.best_child _ _) as [best| | |]; try done. cbn [rbind].
    destruct (Node.get _ best) as [bn| | |]; try done. cbn [rbind].
    destruct (Node.move bn) as [bm|]; [|done].
    destruct (MCTSBot._apply_move_to_tree self bm) as [s'| | |] eqn:Ea; try done.
    cbn [rbind]. intros [= <- <-]. by apply (apply_move_root_player self bm).
Qed.

(** The engine states that a program reaches when it calls [choose]
    only for the player [p], as ui.py does for the colour of the bot:
    every [choose] is on a game of the declared shape in which [p] is to
    move. *)
Inductive chooses_for (p : Z) : MCTSBot.t -> Prop :=
| cf_init tl uc pl rc ec seed :
    chooses_for p (MCTSBot.init tl uc pl rc ec seed)
| cf_choose self game ticks rnd m self' rnd' :
    chooses_for p self -> wf_state game -> HexGame.current game = p ->
    MCTSBot.choose self game ticks rnd = Ok (m, self', rnd') ->
    chooses_for p self'
| cf_notify self m self' :
    chooses_for p self ->
    MCTSBot.notify_opponent_moved self m = Ok self' ->
    chooses_for p self'.

Lemma chooses_for_reachable p s : chooses_for p s -> engine_reachable s.
Proof.
  induction 1 as [| self game ticks rnd m self' rnd' _ IH Hg _ Hc | self m self' _ IH Hn].
  - apply er_init.
  - by eapply er_choose.
  - by eapply er_notify.
Qed.

Lemma chooses_for_perspective p s :
  chooses_for p s ->
  MCTSBot.root_player s = None \/ MCTSBot.root_player s = Some p.
Proof.
  induction 1 as [| self game ticks rnd m self' rnd' Hcf IH Hg Hp Hc
                  | self m self' _ IH Hn].
  - by left.
  - destruct (engine_reachable_inv self (chooses_for_reachable p self Hcf)) as [Hwf _].
    apply choose_Ok in Hc as (s1 & s0 & Ha & Hs & Hd).
    destruct (acquire_entry self game Hwf) as (s1' & Ha' & _ & Hrp).
    rewrite Ha in Ha'. injection Ha' as <-.
    assert (MCTSBot.root_player s1 = Some p) as Hrp1.
    { rewrite Hrp, Hp. destruct (root_fits self game); [|done].
      destruct IH as [-> | ->]; done. }
    apply search_root_player in Hs. apply decide_root_player in Hd as [Hd|Hd].
    + right. congruence.
    + by left.
  - apply apply_move_root_player in Hn as [Hn|Hn]; [|by left]. by rewrite Hn.
Qed.

End Perspective.

(** C7, as the code has it.  Take an engine in a state that calls can
    reach.  [choose] builds or keeps a root and enters its search loop in
    a state [s1] in which the root-perspective player is set, and the
    rounds of the loop leave it as it is.  When [choose] builds a new root
    (there was none, or the retained root expects the other player), and
    when no perspective is retained, it is the player to move in the live
    game.  When the retained root is reused, it is the perspective that
    the engine retained, whoever is to move.  Hence, when [choose] has
    only been called for the player who is to move now, with any calls of
    [notify_opponent_moved] in between, the root-perspective player is the
    player to move in the live game whenever the search loop begins, the
    root being reused or not. *)
Theorem root_player_at_search_entry {RT : PyRuntime}
    (self : MCTSBot.t) (game : HexGame.t) :
  engine_reachable self ->
  exists s1,
    MCTSBot.acquire self game = Ok s1 /\
    (forall ticks rnd,
       MCTSBot.choose self game ticks rnd =
       (sg <- MCTSBot.search ticks 0 s1 game rnd ;;
        d <- MCTSBot.decide sg.1 game ;;
        Ok (d.1, d.2, sg.2))) /\
    (forall ticks playouts rnd s0 rnd',
       MCTSBot.search ticks playouts s1 game rnd = Ok (s0, rnd') ->
       MCTSBot.root_player s0 = MCTSBot.root_player s1) /\
    MCTSBot.root s1 =
      (if root_fits self game then MCTSBot.root self
       else Some (length (MCTSBot.heap self))) /\
    MCTSBot.root_player s1 =
      (if root_fits self game then
         match MCTSBot.root_player self with
         | Some p => Some p
         | None => Some (HexGame.current game)
         end
       else Some (HexGame.current game)) /\
    (chooses_for (HexGame.current game) self ->
     MCTSBot.root_player s1 = Some (HexGame.current game)).
Proof.
  intros Hre. destruct (engine_reachable_inv self Hre) as [Hwf _].
  destruct (acquire_entry self game Hwf) as (s1 & Ha & Hr & Hrp).
  exists s1. split; [exact Ha|]. split.
  { intros ticks rnd. unfold MCTSBot.choose. by rewrite Ha. }
  split.
  { intros ticks playouts rnd s0 rnd'. apply search_root_player. }
  split; [exact Hr|]. split; [exact Hrp|].
  intros Hcf. rewrite Hrp. destruct (root_fits self game); [|done].
  destruct (chooses_for_perspective _ _ Hcf) as [-> | ->]; done.
Qed.

Lemma root_player_at_search_entry_witness :
  exists m s r s2,
    MCTSBot.choose (RT := ref_runtime) (five_playouts None) (HexGame.init 2) 100
      (draws_from []) = Ok (m, s, r) /\
    MCTSBot.notify_opponent_moved s (Move.mk 0 1) = Ok s2 /\
    (engine_reachable (RT := ref_runtime) s2 /\
     chooses_for (RT := ref_runtime) RED s2 /\
     root_fits s2 (HexGame.mk 2 [[RED; BLUE]; [EMPTY; EMPTY]] RED EMPTY
                     (Some (Move.mk 0 1)) 2) = true /\
     exists s1,
       MCTSBot.acquire (RT := ref_runtime) s2
         (HexGame.mk 2 [[RED; BLUE]; [EMPTY; EMPTY]] RED EMPTY (Some (Move.mk 0 1)) 2)
         = Ok s1 /\
       MCTSBot.root s1 = MCTSBot.root s2 /\
       MCTSBot.root_player s1 = Some RED) /\
    (engine_reachable (RT := ref_runtime) s /\
     root_fits s (HexGame.mk 2 [[RED; EMPTY]; [EMPTY; EMPTY]] BLUE EMPTY
                    (Some (Move.mk 0 0)) 1) = true /\
     exists s1,
       MCTSBot.acquire (RT := ref_runtime) s
         (HexGame.mk 2 [[RED; EMPTY]; [EMPTY; EMPTY]] BLUE EMPTY (Some (Move.mk 0 0)) 1)
         = Ok s1 /\
       MCTSBot.root s1 = MCTSBot.root s /\
       MCTSBot.root_player s1 = Some RED).
Proof.
  assert (match MCTSBot.choose (RT := ref_runtime) (five_playouts None) (HexGame.init 2)
                  100 (draws_from []) with
          | Ok (_, s, _) =>
              match MCTSBot.notify_opponent_moved s (Move.mk 0 1) with
              | Ok s2 =>
                  Some (root_fits s (HexGame.mk 2 [[RED; EMPTY]; [EMPTY; EMPTY]] BLUE EMPTY
                                       (Some (Move.mk 0 0)) 1),
                        MCTSBot.root_player s,
                        root_fits s2 (HexGame.mk 2 [[RED; BLUE]; [EMPTY; EMPTY]] RED EMPTY
                                        (Some (Move.mk 0 1)) 2),
                        MCTSBot.root_player s2)
              | _ => None
              end
          | _ => None
          end = Some (true, Some RED, true, Some RED)) as Hsum
    by (vm_compute; reflexivity).
  destruct (MCTSBot.choose (RT := ref_runtime) (five_playouts None) (HexGame.init 2) 100
              (draws_from [])) as [[[m s] r]| | |] eqn:Ec; try discriminate Hsum.
  destruct (MCTSBot.notify_opponent_moved s (Move.mk 0 1)) as [s2| | |] eqn:En;
    try discriminate Hsum.
  injection Hsum as Hf1 Hp1 Hf2 Hp2.
  assert (engine_reachable (RT := ref_runtime) s) as Hre1.
  { eapply er_choose; [apply (er_init 1.2 1.35 5 12 30 None)|apply (wf_state_init 2)|exact Ec]. }
  assert (engine_reachable (RT := ref_runtime) s2) as Hre2
    by (eapply er_notify; [exact Hre1|exact En]).
  assert (chooses_for (RT := ref_runtime) RED s2) as Hcf2.
  { eapply cf_notify; [|exact En].
    eapply cf_choose;
      [apply (cf_init RED 1.2 1.35 5 12 30 None)|apply (wf_state_init 2)|reflexivity|exact Ec]. }
  exists m, s, r, s2. split; [reflexivity|]. split; [exact En|]. split.
  - split; [exact Hre2|]. split; [exact Hcf2|]. split; [exact Hf2|].
    destruct (root_player_at_search_entry (RT := ref_runtime) s2
                (HexGame.mk 2 [[RED; BLUE]; [EMPTY; EMPTY]] RED EMPTY (Some (Move.mk 0 1)) 2)
                Hre2) as (s1 & Ha & _ & _ & Hr & _ & Hrp).
    rewrite Hf2 in Hr. exists s1. split; [exact Ha|]. split; [exact Hr|].
    exact (Hrp Hcf2).
  - split; [exact Hre1|]. split; [exact Hf1|].
    destruct (root_player_at_search_entry (RT := ref_runtime) s
                (HexGame.mk 2 [[RED; EMPTY]; [EMPTY; EMPTY]] BLUE EMPTY (Some (Move.mk 0 0)) 1)
                Hre1) as (s1 & Ha & _ & _ & Hr & Hrp & _).
    rewrite Hf1 in Hr. rewrite Hf1, Hp1 in Hrp.
    exists s1. split; [exact Ha|]. split; [exact Hr|exact Hrp].
Defined.
